(** * MenuSee: the asynchronous scan pipeline of the Convex backend

    A shallow embedding of [convex/mutations.ts], [convex/queries.ts] and
    [convex/actions.ts]: the [menuScans] and [dishes] tables, the
    mutations that patch them, the scheduled actions that generate the
    images, and the properties of the status machines and of the image
    counters.

    Conventions of the embedding.
    - A Convex document id is a [nat]; the [menuScans] table is a finite
      map from ids to documents, the [dishes] table a list of documents in
      insertion order (the order of the [by_scanId] index inside one scan).
    - JavaScript numbers that count things are [Z]; amounts of money and
      the progress percentage are exact rationals [Qc].
    - [Date.now()] is an argument [now] of the handler that reads it.
    - A mutation handler is a function from the store to an error or a
      result with the new store; an action keeps the store it reached when
      it throws.  The external services (vision, image generation, blob
      storage) are arguments giving what the service answered.
    - The store carries a [trace]: the status writes and provider calls
      performed so far, in order.  It is ghost state of the embedding.
    - The scheduler is a queue of jobs in the store.  Two systems are
      defined on it.  In the serial system ([exec], [reachable]) a step is
      a call of the client or the run of one job, each run to its end
      before the next step, with the client opening a scan in the order of
      [app/capture.tsx]: it describes the runs in which no two handlers
      overlap.  In the system of the module [Async] every function of the
      API is called at any time, [deleteScan] included, and the actions
      advance one transaction at a time, in any interleaving.  Every store
      of the serial system is a store of [Async]; what is stated of every
      point in time is stated on [Async]. *)

From Stdlib Require Import ZArith QArith Qcanon Lia.
From stdpp Require Import base decidable option list numbers strings gmap fin_maps sorting pretty.

Open Scope Z_scope.

(** ** Status enumerations (the unions of literals of the validators) *)

Module ScanStatus.
Inductive t : Set :=
  pending | uploading | processing | extracting | generating | completed | failed.
#[global] Instance eq_dec : EqDecision t.
Proof. solve_decision. Defined.
End ScanStatus.

Module ImageStatus.
Inductive t : Set :=
  pending | queued | generating | completed | failed | skipped.
#[global] Instance eq_dec : EqDecision t.
Proof. solve_decision. Defined.
End ImageStatus.

(** ** Configuration ([convex/config.ts], of which the README shows the
    constants): taken as a parameter of every handler that reads it. *)

Record Costs := {
  VISION_PARSE : Qc;
  IMAGE_OPENAI : Qc;
  IMAGE_NANO_BANANA : Qc;
}.

Record Config := {
  AUTO_IMAGE_LIMIT : Z;
  MAX_IMAGES_PER_SCAN : Z;
  DEFAULT_IMAGE_PROVIDER : string;
  COSTS : Costs;
}.

(** ** Documents *)

Module MenuScan.
Record t := mk {
  deviceId : string;
  imageStorageId : option nat;
  imageUrl : option string;
  restaurantName : option string;
  status : ScanStatus.t;
  statusMessage : option string;
  errorMessage : option string;
  totalDishes : Z;
  dishesExtracted : Z;
  imagesGenerated : Z;
  imagesRequested : Z;
  estimatedCostUsd : Qc;
  actualCostUsd : Qc;
  createdAt : Z;
  completedAt : option Z;
}.

(** One entry of the object handed to [ctx.db.patch]. *)
Inductive field :=
| ImageStorageId (v : nat)
| ImageUrl (v : option string)
| RestaurantName (v : string)
| Status (v : ScanStatus.t)
| StatusMessage (v : string)
| ErrorMessage (v : string)
| TotalDishes (v : Z)
| DishesExtracted (v : Z)
| ImagesGenerated (v : Z)
| ImagesRequested (v : Z)
| EstimatedCostUsd (v : Qc)
| ActualCostUsd (v : Qc)
| CompletedAt (v : Z).

Definition set (f : field) (s : t) : t :=
  let '(mk dev sid url rn st sm em td de ig ir ec ac cr co) := s in
  match f with
  | ImageStorageId v => mk dev (Some v) url rn st sm em td de ig ir ec ac cr co
  | ImageUrl v => mk dev sid v rn st sm em td de ig ir ec ac cr co
  | RestaurantName v => mk dev sid url (Some v) st sm em td de ig ir ec ac cr co
  | Status v => mk dev sid url rn v sm em td de ig ir ec ac cr co
  | StatusMessage v => mk dev sid url rn st (Some v) em td de ig ir ec ac cr co
  | ErrorMessage v => mk dev sid url rn st sm (Some v) td de ig ir ec ac cr co
  | TotalDishes v => mk dev sid url rn st sm em v de ig ir ec ac cr co
  | DishesExtracted v => mk dev sid url rn st sm em td v ig ir ec ac cr co
  | ImagesGenerated v => mk dev sid url rn st sm em td de v ir ec ac cr co
  | ImagesRequested v => mk dev sid url rn st sm em td de ig v ec ac cr co
  | EstimatedCostUsd v => mk dev sid url rn st sm em td de ig ir v ac cr co
  | ActualCostUsd v => mk dev sid url rn st sm em td de ig ir ec v cr co
  | CompletedAt v => mk dev sid url rn st sm em td de ig ir ec ac cr (Some v)
  end.

(** [patch] applies the entries in the order they were put in the object;
    the handlers never put the same key twice. *)
Definition patch (updates : list field) (s : t) : t :=
  fold_left (fun acc f => set f acc) updates s.
End MenuScan.

Module Dish.
Record t := mk {
  _id : nat;
  scanId : nat;
  name : string;
  description : option string;
  price : option string;
  sectionName : option string;
  displayOrder : Z;
  imageStatus : ImageStatus.t;
  imageStorageId : option nat;
  imageUrl : option string;
  imageProvider : option string;
  imageCostUsd : option Qc;
  imageError : option string;
  createdAt : Z;
  imageGeneratedAt : option Z;
}.

Inductive field :=
| ImageStatusF (v : ImageStatus.t)
| ImageStorageId (v : nat)
| ImageUrl (v : string)
| ImageProvider (v : string)
| ImageCostUsd (v : Qc)
| ImageError (v : string)
| ImageGeneratedAt (v : Z).

Definition set (f : field) (d : t) : t :=
  let '(mk i sc nm ds pr sn ord st sid url pv cost err cr gen) := d in
  match f with
  | ImageStatusF v => mk i sc nm ds pr sn ord v sid url pv cost err cr gen
  | ImageStorageId v => mk i sc nm ds pr sn ord st (Some v) url pv cost err cr gen
  | ImageUrl v => mk i sc nm ds pr sn ord st sid (Some v) pv cost err cr gen
  | ImageProvider v => mk i sc nm ds pr sn ord st sid url (Some v) cost err cr gen
  | ImageCostUsd v => mk i sc nm ds pr sn ord st sid url pv (Some v) err cr gen
  | ImageError v => mk i sc nm ds pr sn ord st sid url pv cost (Some v) cr gen
  | ImageGeneratedAt v => mk i sc nm ds pr sn ord st sid url pv cost err cr (Some v)
  end.

Definition patch (updates : list field) (d : t) : t :=
  fold_left (fun acc f => set f acc) updates d.
End Dish.


Record DeviceUser := {
  du_id : nat;
  du_deviceId : string;
  du_createdAt : Z;
  du_lastSeenAt : Z;
  du_scanCount : Z;
}.

(** ** The store, the scheduler queue and the trace *)

(** A call handed to [ctx.scheduler.runAfter(0, ...)]. *)
Inductive Job :=
| JobPipeline (scanId : nat) (imageProvider : string)
| JobGenerate (dishId scanId : nat) (provider : string).

#[global] Instance Job_eq_dec : EqDecision Job.
Proof. solve_decision. Defined.

Inductive Event :=
| EvScanStatus (scanId : nat) (from to : ScanStatus.t)
| EvDishStatus (dishId : nat) (from to : ImageStatus.t)
| EvImageAPI (dishId : nat) (provider : string).

#[global] Instance Event_eq_dec : EqDecision Event.
Proof. solve_decision. Defined.

Record World := mkWorld {
  deviceUsers : list DeviceUser;
  menuScans : gmap nat MenuScan.t;
  dishes : list Dish.t;
  nextId : nat;
  scheduled : list Job;
  trace : list Event;
}.

Definition set_deviceUsers (us : list DeviceUser) (w : World) : World :=
  mkWorld us (menuScans w) (dishes w) (nextId w) (scheduled w) (trace w).
Definition set_menuScans (m : gmap nat MenuScan.t) (w : World) : World :=
  mkWorld (deviceUsers w) m (dishes w) (nextId w) (scheduled w) (trace w).
Definition set_dishes (ds : list Dish.t) (w : World) : World :=
  mkWorld (deviceUsers w) (menuScans w) ds (nextId w) (scheduled w) (trace w).
Definition set_nextId (n : nat) (w : World) : World :=
  mkWorld (deviceUsers w) (menuScans w) (dishes w) n (scheduled w) (trace w).
Definition set_scheduled (js : list Job) (w : World) : World :=
  mkWorld (deviceUsers w) (menuScans w) (dishes w) (nextId w) js (trace w).
Definition with_trace (evs : list Event) (w : World) : World :=
  mkWorld (deviceUsers w) (menuScans w) (dishes w) (nextId w) (scheduled w) (trace w ++ evs).

(** What a handler throws: an [Error] object with its message, or some
    other value. *)
Inductive Thrown :=
| ErrorObj (message : string)
| NonError.

(** [error instanceof Error ? error.message : "Unknown error"] *)
Definition error_message (e : Thrown) : string :=
  match e with
  | ErrorObj m => m
  | NonError => "Unknown error"
  end.

(** A mutation handler: a transaction on the store. *)
Definition Mutation (A : Type) : Type := World -> Thrown + (A * World).

Definition mret {A} (a : A) : Mutation A := fun w => inr (a, w).
Definition mthrow {A} (e : Thrown) : Mutation A := fun _ => inl e.
Definition mbind {A B} (m : Mutation A) (k : A -> Mutation B) : Mutation B :=
  fun w => match m w with
           | inl e => inl e
           | inr (a, w') => k a w'
           end.
Definition mread {A} (q : World -> A) : Mutation A := fun w => inr (q w, w).

(** An action: the store it reached is kept when it throws. *)
Definition Action (A : Type) : Type := World -> (Thrown + A) * World.

Definition ret {A} (a : A) : Action A := fun w => (inr a, w).
Definition throw {A} (e : Thrown) : Action A := fun w => (inl e, w).
Definition bind {A B} (m : Action A) (k : A -> Action B) : Action B :=
  fun w => match m w with
           | (inl e, w') => (inl e, w')
           | (inr a, w') => k a w'
           end.
Definition try_catch {A} (body : Action A) (handler : Thrown -> Action A) : Action A :=
  fun w => match body w with
           | (inl e, w') => handler e w'
           | (inr a, w') => (inr a, w')
           end.

(** [ctx.runMutation]: the transaction commits, or throws and leaves the
    store as it was. *)
Definition runMutation {A} (m : Mutation A) : Action A :=
  fun w => match m w with
           | inl e => (inl e, w)
           | inr (a, w') => (inr a, w')
           end.

(** [ctx.runQuery] *)
Definition runQuery {A} (q : World -> A) : Action A := fun w => (inr (q w), w).

Declare Scope mutation_scope.
Delimit Scope mutation_scope with mutation.
Declare Scope action_scope.
Delimit Scope action_scope with action.
Notation "x <- m ;; k" := (mbind m (fun x => k))
  (at level 100, m at next level, right associativity) : mutation_scope.
Notation "m ;;; k" := (mbind m (fun _ => k))
  (at level 100, right associativity) : mutation_scope.
Notation "x <- m ;; k" := (bind m (fun x => k))
  (at level 100, m at next level, right associativity) : action_scope.
Notation "m ;;; k" := (bind m (fun _ => k))
  (at level 100, right associativity) : action_scope.

(** [for (const x of l) { ... }] threading the loop's variables. *)
Fixpoint mforEach {A S} (body : A -> S -> Mutation S) (l : list A) (s : S) : Mutation S :=
  match l with
  | [] => mret s
  | x :: l' => mbind (body x s) (fun s' => mforEach body l' s')
  end.

Fixpoint forEach {A S} (body : A -> S -> Action S) (l : list A) (s : S) : Action S :=
  match l with
  | [] => ret s
  | x :: l' => bind (body x s) (fun s' => forEach body l' s')
  end.

(** ** Store primitives *)

Definition sets_scan_status (updates : list MenuScan.field) : bool :=
  existsb (fun f => match f with MenuScan.Status _ => true | _ => false end) updates.

Definition scan_status_events (id : nat) (s : MenuScan.t) (updates : list MenuScan.field)
  : list Event :=
  if sets_scan_status updates
  then [EvScanStatus id (MenuScan.status s) (MenuScan.status (MenuScan.patch updates s))]
  else [].

Definition sets_dish_status (updates : list Dish.field) : bool :=
  existsb (fun f => match f with Dish.ImageStatusF _ => true | _ => false end) updates.

Definition dish_status_events (d : Dish.t) (updates : list Dish.field) : list Event :=
  if sets_dish_status updates
  then [EvDishStatus (Dish._id d) (Dish.imageStatus d) (Dish.imageStatus (Dish.patch updates d))]
  else [].

(** [ctx.db.get(scanId)] *)
Definition get_scan (w : World) (id : nat) : option MenuScan.t := menuScans w !! id.

(** [ctx.db.patch(scanId, updates)] on [menuScans] *)
Definition patch_scan (id : nat) (updates : list MenuScan.field) : Mutation unit :=
  fun w => match menuScans w !! id with
           | None => inl (ErrorObj "Update on nonexistent document")
           | Some s =>
               inr (tt, with_trace (scan_status_events id s updates)
                          (set_menuScans (<[id := MenuScan.patch updates s]> (menuScans w)) w))
           end.

(** [ctx.db.get(dishId)] *)
Definition get_dish (w : World) (id : nat) : option Dish.t :=
  List.find (fun d => Nat.eqb (Dish._id d) id) (dishes w).

Definition patch_row (id : nat) (updates : list Dish.field) (d : Dish.t) : Dish.t :=
  if Nat.eqb (Dish._id d) id then Dish.patch updates d else d.

(** [ctx.db.patch(dishId, updates)] on [dishes] *)
Definition patch_dish (id : nat) (updates : list Dish.field) : Mutation unit :=
  fun w => match get_dish w id with
           | None => inl (ErrorObj "Update on nonexistent document")
           | Some d =>
               inr (tt, with_trace (dish_status_events d updates)
                          (set_dishes (map (patch_row id updates) (dishes w)) w))
           end.

(** [ctx.db.query("dishes").withIndex("by_scanId", q => q.eq("scanId", id)).collect()] *)
Definition dishes_by_scanId (w : World) (id : nat) : list Dish.t :=
  filter (fun d => Dish.scanId d = id) (dishes w).

(** The [by_scanId_order] index: the dishes of the scan by [displayOrder],
    and those with the same [displayOrder] in the order of their creation
    (an index of Convex ends with the creation time).  Each dish is put
    before the first of the later dishes whose [displayOrder] is not
    smaller. *)
Definition order_le (a b : Dish.t) : Prop := Dish.displayOrder a <= Dish.displayOrder b.

#[global] Instance order_le_dec : RelDecision order_le.
Proof. intros a b. unfold order_le. apply _. Defined.

Fixpoint insert_by_order (d : Dish.t) (l : list Dish.t) : list Dish.t :=
  match l with
  | [] => [d]
  | e :: l' => if decide (order_le d e) then d :: l else e :: insert_by_order d l'
  end.

Definition dishes_by_scanId_order (w : World) (id : nat) : list Dish.t :=
  foldr insert_by_order [] (dishes_by_scanId w id).

(** [ctx.scheduler.runAfter(0, job)] *)
Definition schedule (j : Job) : Action unit :=
  fun w => (inr tt, set_scheduled (scheduled w ++ [j]) w).

Definition log (e : Event) : Action unit :=
  fun w => (inr tt, with_trace [e] w).

(** ** Mutations ([convex/mutations.ts]) *)

Section Mutations.
Variable CONFIG : Config.
Local Open Scope mutation_scope.

(** The document inserted by [createMenuScan]. *)
Definition new_scan (now : Z) (deviceId : string) : MenuScan.t :=
  MenuScan.mk deviceId None None None ScanStatus.pending None None
    0 0 0 0 (VISION_PARSE (COSTS CONFIG)) (Qc_of_Z 0) now None.

Definition createMenuScan (now : Z) (deviceId : string) : Mutation nat :=
  fun w =>
    match List.find (fun u => String.eqb (du_deviceId u) deviceId) (deviceUsers w) with
    | None => inl (ErrorObj "Device user not found. Call ensureDeviceUser first.")
    | Some user =>
        let scanId := nextId w in
        let w1 := set_nextId (S scanId)
                    (set_menuScans (<[scanId := new_scan now deviceId]> (menuScans w)) w) in
        let bump u := if Nat.eqb (du_id u) (du_id user)
                      then Build_DeviceUser (du_id u) (du_deviceId u) (du_createdAt u)
                             now (du_scanCount user + 1)
                      else u in
        inr (scanId, set_deviceUsers (map bump (deviceUsers w1)) w1)
    end.

(** [storeMenuImage]; [imageUrl] is what [ctx.storage.getUrl] answered. *)
Definition storeMenuImage (scanId storageId : nat) (imageUrl : option string)
  : Mutation (option string) :=
  fun w =>
    match get_scan w scanId with
    | None => inl (ErrorObj "Scan not found")
    | Some _ =>
        (patch_scan scanId [MenuScan.ImageStorageId storageId; MenuScan.ImageUrl imageUrl;
                            MenuScan.Status ScanStatus.uploading] ;;;
         mret imageUrl) w
    end.

Definition opt_field {A B} (mk : A -> B) (o : option A) : list B :=
  match o with
  | Some a => [mk a]
  | None => []
  end.

Definition updateScanStatus (now : Z) (scanId : nat) (status : ScanStatus.t)
    (statusMessage errorMessage : option string) : Mutation unit :=
  let updates := [MenuScan.Status status] in
  let updates := updates ++ opt_field MenuScan.StatusMessage statusMessage in
  let updates := updates ++ opt_field MenuScan.ErrorMessage errorMessage in
  let updates := updates ++ (if decide (status = ScanStatus.completed)
                             then [MenuScan.CompletedAt now] else []) in
  patch_scan scanId updates.

Record ScanProgressArgs := {
  arg_totalDishes : option Z;
  arg_dishesExtracted : option Z;
  arg_imagesGenerated : option Z;
  arg_imagesRequested : option Z;
  arg_restaurantName : option string;
  arg_addActualCost : option Qc;
  arg_addEstimatedCost : option Qc;
}.

Definition no_progress : ScanProgressArgs :=
  Build_ScanProgressArgs None None None None None None None.

(** [if (args.addActualCost)]: present and not zero. *)
Definition truthy_cost (o : option Qc) : option Qc :=
  match o with
  | Some c => if decide (c = Qc_of_Z 0) then None else Some c
  | None => None
  end.

Definition updateScanProgress (scanId : nat) (args : ScanProgressArgs) : Mutation unit :=
  fun w =>
    match get_scan w scanId with
    | None => inl (ErrorObj "Scan not found")
    | Some scan =>
        let updates :=
          opt_field MenuScan.TotalDishes (arg_totalDishes args)
          ++ opt_field MenuScan.DishesExtracted (arg_dishesExtracted args)
          ++ opt_field MenuScan.ImagesGenerated (arg_imagesGenerated args)
          ++ opt_field MenuScan.ImagesRequested (arg_imagesRequested args)
          ++ opt_field MenuScan.RestaurantName (arg_restaurantName args)
          ++ opt_field (fun c => MenuScan.ActualCostUsd (MenuScan.actualCostUsd scan + c)%Qc)
               (truthy_cost (arg_addActualCost args))
          ++ opt_field (fun c => MenuScan.EstimatedCostUsd (MenuScan.estimatedCostUsd scan + c)%Qc)
               (truthy_cost (arg_addEstimatedCost args)) in
        patch_scan scanId updates w
    end.

Record CreateDishArgs := {
  cd_scanId : nat;
  cd_name : string;
  cd_description : option string;
  cd_price : option string;
  cd_sectionName : option string;
  cd_displayOrder : Z;
  cd_imageStatus : ImageStatus.t;
}.

(** The validator of [createDish] accepts three of the image statuses. *)
Definition createDish_status_ok (s : ImageStatus.t) : bool :=
  match s with
  | ImageStatus.pending | ImageStatus.queued | ImageStatus.skipped => true
  | _ => false
  end.

Definition createDish (now : Z) (args : CreateDishArgs) : Mutation nat :=
  fun w =>
    if createDish_status_ok (cd_imageStatus args) then
      let dishId := nextId w in
      let d := Dish.mk dishId (cd_scanId args) (cd_name args) (cd_description args)
                 (cd_price args) (cd_sectionName args) (cd_displayOrder args)
                 (cd_imageStatus args) None None None None None now None in
      inr (dishId, set_nextId (S dishId) (set_dishes (dishes w ++ [d]) w))
    else inl (ErrorObj "ArgumentValidationError").

Record DishImageArgs := {
  di_imageStatus : ImageStatus.t;
  di_imageStorageId : option nat;
  di_imageUrl : option string;
  di_imageProvider : option string;
  di_imageCostUsd : option Qc;
  di_imageError : option string;
}.

Definition only_status (s : ImageStatus.t) : DishImageArgs :=
  Build_DishImageArgs s None None None None None.

Definition updateDishImage (now : Z) (dishId : nat) (args : DishImageArgs) : Mutation unit :=
  let updates :=
    [Dish.ImageStatusF (di_imageStatus args)]
    ++ opt_field Dish.ImageStorageId (di_imageStorageId args)
    ++ opt_field Dish.ImageUrl (di_imageUrl args)
    ++ opt_field Dish.ImageProvider (di_imageProvider args)
    ++ opt_field Dish.ImageCostUsd (di_imageCostUsd args)
    ++ opt_field Dish.ImageError (di_imageError args)
    ++ (if decide (di_imageStatus args = ImageStatus.completed)
        then [Dish.ImageGeneratedAt now] else []) in
  patch_dish dishId updates.

(** [arr.slice(0, n)]: a negative [n] counts from the end. *)
Definition js_slice0 {A} (n : Z) (l : list A) : list A :=
  if n <? 0 then take (Z.to_nat (Z.of_nat (length l) + n)) l
  else take (Z.to_nat n) l.

Definition is_pending_or_skipped (d : Dish.t) : bool :=
  match Dish.imageStatus d with
  | ImageStatus.pending | ImageStatus.skipped => true
  | _ => false
  end.

Record QueueResult := {
  queued : Z;
  message : string;
  dishIds : option (list nat);
}.

Definition queueRemainingImages (scanId : nat) : Mutation QueueResult :=
  scan_opt <- mread (fun w => get_scan w scanId) ;;
  match scan_opt with
  | None => mthrow (ErrorObj "Scan not found")
  | Some scan =>
      ds <- mread (fun w => dishes_by_scanId w scanId) ;;
      let pendingDishes := List.filter is_pending_or_skipped ds in
      let alreadyRequested := MenuScan.imagesRequested scan in
      let remainingSlots := MAX_IMAGES_PER_SCAN CONFIG - alreadyRequested in
      let toQueue := Z.min (Z.of_nat (length pendingDishes)) remainingSlots in
      if toQueue =? 0 then
        mret (Build_QueueResult 0 "Max images per scan reached" None)
      else
        queued <- mforEach
                    (fun d queued =>
                       patch_dish (Dish._id d) [Dish.ImageStatusF ImageStatus.queued] ;;;
                       mret (queued + 1))
                    (take (Z.to_nat toQueue) pendingDishes) 0 ;;
        let newImagesRequested := alreadyRequested + queued in
        let estimatedCost := (Qc_of_Z queued * IMAGE_OPENAI (COSTS CONFIG))%Qc in
        patch_scan scanId
          [MenuScan.ImagesRequested newImagesRequested;
           MenuScan.EstimatedCostUsd (MenuScan.estimatedCostUsd scan + estimatedCost)%Qc;
           MenuScan.Status ScanStatus.generating] ;;;
        mret (Build_QueueResult queued
                ("Queued " +:+ pretty queued +:+ " images for generation")
                (Some (map Dish._id (js_slice0 toQueue pendingDishes))))
  end.

Record ForceResult := {
  completedImages : Z;
  fr_totalDishes : Z;
}.

Definition forceCompleteScan (now : Z) (scanId : nat) : Mutation ForceResult :=
  scan_opt <- mread (fun w => get_scan w scanId) ;;
  match scan_opt with
  | None => mthrow (ErrorObj "Scan not found")
  | Some scan =>
      ds <- mread (fun w => dishes_by_scanId w scanId) ;;
      completedImages <-
        mforEach
          (fun dish completedImages =>
             match Dish.imageStatus dish with
             | ImageStatus.completed => mret (completedImages + 1)
             | ImageStatus.queued | ImageStatus.generating =>
                 patch_dish (Dish._id dish) [Dish.ImageStatusF ImageStatus.skipped] ;;;
                 mret completedImages
             | _ => mret completedImages
             end)
          ds 0 ;;
      patch_scan scanId
        [MenuScan.Status ScanStatus.completed;
         MenuScan.ImagesGenerated completedImages;
         MenuScan.StatusMessage ("Completed with " +:+ pretty completedImages +:+ " images");
         MenuScan.CompletedAt now] ;;;
      mret (Build_ForceResult completedImages (Z.of_nat (length ds)))
  end.

Record StopResult := {
  sr_completed : Z;
  sr_skipped : Z;
}.

Definition stopImageGeneration (now : Z) (scanId : nat) : Mutation StopResult :=
  scan_opt <- mread (fun w => get_scan w scanId) ;;
  match scan_opt with
  | None => mthrow (ErrorObj "Scan not found")
  | Some scan =>
      ds <- mread (fun w => dishes_by_scanId w scanId) ;;
      counts <-
        mforEach
          (fun dish '(skipped, completed) =>
             match Dish.imageStatus dish with
             | ImageStatus.queued =>
                 patch_dish (Dish._id dish) [Dish.ImageStatusF ImageStatus.skipped] ;;;
                 mret (skipped + 1, completed)
             | ImageStatus.completed => mret (skipped, completed + 1)
             | _ => mret (skipped, completed)
             end)
          ds (0, 0) ;;
      let '(skipped, completed) := counts in
      patch_scan scanId
        [MenuScan.Status ScanStatus.completed;
         MenuScan.ImagesGenerated completed;
         MenuScan.StatusMessage ("Stopped - " +:+ pretty completed +:+ " images completed, "
                                 +:+ pretty skipped +:+ " skipped");
         MenuScan.CompletedAt now] ;;;
      mret (Build_StopResult completed skipped)
  end.

Record SingleResult := {
  sq_queued : bool;
  sq_message : option string;
  sq_dishId : option nat;
  sq_scanId : option nat;
}.

Definition queueSingleDishImage (dishId : nat) : Mutation SingleResult :=
  dish_opt <- mread (fun w => get_dish w dishId) ;;
  match dish_opt with
  | None => mthrow (ErrorObj "Dish not found")
  | Some dish =>
      match Dish.imageStatus dish with
      | ImageStatus.completed | ImageStatus.generating | ImageStatus.queued =>
          mret (Build_SingleResult false (Some "Image already generated or in progress")
                  None None)
      | _ =>
          scan_opt <- mread (fun w => get_scan w (Dish.scanId dish)) ;;
          match scan_opt with
          | None => mthrow (ErrorObj "Scan not found")
          | Some scan =>
              if MAX_IMAGES_PER_SCAN CONFIG <=? MenuScan.imagesRequested scan then
                mret (Build_SingleResult false (Some "Maximum images per scan reached")
                        None None)
              else
                patch_dish dishId [Dish.ImageStatusF ImageStatus.queued] ;;;
                patch_scan (Dish.scanId dish)
                  [MenuScan.ImagesRequested (MenuScan.imagesRequested scan + 1);
                   MenuScan.EstimatedCostUsd
                     (MenuScan.estimatedCostUsd scan + IMAGE_OPENAI (COSTS CONFIG))%Qc;
                   MenuScan.Status
                     (if decide (MenuScan.status scan = ScanStatus.completed)
                      then ScanStatus.generating else MenuScan.status scan)] ;;;
                mret (Build_SingleResult true None (Some dishId) (Some (Dish.scanId dish)))
          end
      end
  end.

End Mutations.

(** ** Queries ([convex/queries.ts]) *)

(** The [switch] of [getScan] and of [getScanWithDishes]. *)
Definition progress_of (scan : MenuScan.t) : Qc :=
  match MenuScan.status scan with
  | ScanStatus.pending => Qc_of_Z 0
  | ScanStatus.uploading => Qc_of_Z 10
  | ScanStatus.processing => Qc_of_Z 25
  | ScanStatus.extracting => Qc_of_Z 50
  | ScanStatus.generating =>
      let imageProgress :=
        if 0 <? MenuScan.imagesRequested scan
        then (Qc_of_Z (MenuScan.imagesGenerated scan) / Qc_of_Z (MenuScan.imagesRequested scan)
              * Qc_of_Z 40)%Qc
        else Qc_of_Z 0 in
      (Qc_of_Z 60 + imageProgress)%Qc
  | ScanStatus.completed => Qc_of_Z 100
  | ScanStatus.failed => Qc_of_Z 0
  end.

(** [{ ...scan, progress }] *)
Record ScanWithProgress := {
  sp_scan : MenuScan.t;
  progress : Qc;
}.

Definition getScan (scanId : nat) (w : World) : option ScanWithProgress :=
  match get_scan w scanId with
  | None => None
  | Some scan => Some (Build_ScanWithProgress scan (progress_of scan))
  end.

Definition getDishesForScan (scanId : nat) (w : World) : list Dish.t :=
  dishes_by_scanId_order w scanId.

Record ScanWithDishes := {
  swd_scan : ScanWithProgress;
  swd_dishes : list Dish.t;
  swd_sections : gmap string (list Dish.t);
  swd_noSection : list Dish.t;
}.

(** [if (dish.sectionName)]: present and not the empty string. *)
Definition truthy_string (o : option string) : option string :=
  match o with
  | Some s => if decide (s = "") then None else Some s
  | None => None
  end.

(** The names of the properties that [Object.prototype] gives to every
    object (ECMAScript, with its annex B).  On the object literal [{}] of
    [getScanWithDishes], [sections[n]] for such a name [n] is the inherited
    function or object: it is truthy, so no array is put under [n], and it
    has no [push]. *)
Definition Object_prototype : list string :=
  ["constructor"; "__defineGetter__"; "__defineSetter__"; "hasOwnProperty";
   "__lookupGetter__"; "__lookupSetter__"; "isPrototypeOf"; "propertyIsEnumerable";
   "toString"; "valueOf"; "__proto__"; "toLocaleString"].

(** One turn of the loop over the dishes: [sections] holds the own
    properties of the object. *)
Definition group_dish (acc : gmap string (list Dish.t) * list Dish.t) (dish : Dish.t)
  : Thrown + (gmap string (list Dish.t) * list Dish.t) :=
  let '(sections, noSection) := acc in
  match truthy_string (Dish.sectionName dish) with
  | Some n =>
      match sections !! n with
      | Some l => inr (<[n := l ++ [dish]]> sections, noSection)
      | None =>
          if bool_decide (n ∈ Object_prototype)
          then inl (ErrorObj "sections[dish.sectionName].push is not a function")
          else inr (<[n := [dish]]> sections, noSection)
      end
  | None => inr (sections, noSection ++ [dish])
  end.

Fixpoint group_loop (ds : list Dish.t) (acc : gmap string (list Dish.t) * list Dish.t)
  : Thrown + (gmap string (list Dish.t) * list Dish.t) :=
  match ds with
  | [] => inr acc
  | dish :: ds' =>
      match group_dish acc dish with
      | inl e => inl e
      | inr acc' => group_loop ds' acc'
      end
  end.

Definition group_sections (ds : list Dish.t)
  : Thrown + (gmap string (list Dish.t) * list Dish.t) :=
  group_loop ds (∅, []).

(** [getScanWithDishes]: it throws what the loop throws, returns [null]
    when there is no scan, and the scan with its dishes otherwise. *)
Definition getScanWithDishes (scanId : nat) (w : World) : Thrown + option ScanWithDishes :=
  match get_scan w scanId with
  | None => inr None
  | Some scan =>
      let ds := dishes_by_scanId_order w scanId in
      match group_sections ds with
      | inl e => inl e
      | inr (sections, noSection) =>
          inr (Some (Build_ScanWithDishes (Build_ScanWithProgress scan (progress_of scan))
                       ds sections noSection))
      end
  end.

(** ** Actions ([convex/actions.ts]) *)

Record MenuItem := {
  item_name : string;
  item_description : option string;
  item_price : option string;
}.

Record MenuSection := {
  section_name : string;
  section_items : list MenuItem;
}.

Record VisionMenuOutput := {
  vm_restaurantName : option string;
  vm_sections : list MenuSection;
  vm_itemsFallback : option (list MenuItem);
}.

(** What [JSON.parse] gave for the content of the vision reply: [sections]
    may be absent. *)
Record ParsedVision := {
  pv_restaurantName : option string;
  pv_sections : option (list MenuSection);
  pv_itemsFallback : option (list MenuItem);
}.

(** [callVisionAPI]; [reply] is the outcome of the exchange with the
    service up to [JSON.parse]: a throw (no key, a response that is not ok,
    no content, no JSON) or the parsed object. *)
Definition callVisionAPI (reply : Thrown + ParsedVision) : Thrown + VisionMenuOutput :=
  match reply with
  | inl e => inl e
  | inr parsed =>
      inr (Build_VisionMenuOutput (pv_restaurantName parsed)
             (default [] (pv_sections parsed)) (pv_itemsFallback parsed))
  end.

(** What the image service and the blob storage answered to one job. *)
Record ImageReply := {
  api_reply : Thrown + string;
  store_reply : Thrown + (nat * string);
}.

Definition lift {A} (r : Thrown + A) : Action A :=
  match r with
  | inl e => throw e
  | inr a => ret a
  end.

Record ActionResult := {
  success : bool;
  ar_message : string;
}.

Section Actions.
Variable CONFIG : Config.
(** [isValidProvider] of [convex/config.ts]. *)
Variable isValidProvider : string -> bool.
Local Open Scope action_scope.

(** [args.imageProvider && isValidProvider(args.imageProvider) ? ... : default] *)
Definition choose_provider (imageProvider : option string) : string :=
  match truthy_string imageProvider with
  | Some p => if isValidProvider p then p else DEFAULT_IMAGE_PROVIDER CONFIG
  | None => DEFAULT_IMAGE_PROVIDER CONFIG
  end.

Definition startProcessingScan (now : Z) (scanId : nat) (imageProvider : option string)
  : Action ActionResult :=
  let provider := choose_provider imageProvider in
  runMutation (updateScanStatus now scanId ScanStatus.processing
                 (Some "Analyzing menu image...") None) ;;;
  schedule (JobPipeline scanId provider) ;;;
  ret (Build_ActionResult true "Processing started").

(** The body of the two dish loops of the pipeline. *)
Definition create_item (now : Z) (scanId : nat) (sectionName : option string)
    (item : MenuItem) (st : Z * list nat) : Action (Z * list nat) :=
  let '(displayOrder, dishIds) := st in
  let shouldAutoGenerate := displayOrder <? AUTO_IMAGE_LIMIT CONFIG in
  dishId <- runMutation
              (createDish now
                 (Build_CreateDishArgs scanId (item_name item) (item_description item)
                    (item_price item) sectionName displayOrder
                    (if shouldAutoGenerate then ImageStatus.queued else ImageStatus.pending))) ;;
  ret (displayOrder + 1, if shouldAutoGenerate then dishIds ++ [dishId] else dishIds).

Definition count_dishes (menuData : VisionMenuOutput) : Z :=
  fold_left (fun total section => total + Z.of_nat (length (section_items section)))
    (vm_sections menuData) 0
  + match vm_itemsFallback menuData with
    | Some items => Z.of_nat (length items)
    | None => 0
    end.

Definition processScanPipeline (now : Z) (scanId : nat) (imageProvider : string)
    (vision : Thrown + ParsedVision) : Action unit :=
  try_catch
    (scan <- runQuery (getScan scanId) ;;
     match scan with
     | Some (Build_ScanWithProgress scan _) =>
         match truthy_string (MenuScan.imageUrl scan) with
         | Some imageUrl =>
             runMutation (updateScanStatus now scanId ScanStatus.processing
                            (Some "Extracting menu items with AI...") None) ;;;
             menuData <- lift (callVisionAPI vision) ;;
             runMutation (updateScanStatus now scanId ScanStatus.extracting
                            (Some "Creating dish records...") None) ;;;
             let totalDishes := count_dishes menuData in
             runMutation (updateScanProgress scanId
                            (Build_ScanProgressArgs (Some totalDishes) None None None
                               (vm_restaurantName menuData)
                               (Some (VISION_PARSE (COSTS CONFIG))) None)) ;;;
             st <- forEach
                     (fun section st =>
                        forEach (create_item now scanId (Some (section_name section)))
                          (section_items section) st)
                     (vm_sections menuData) (0, []) ;;
             st <- match vm_itemsFallback menuData with
                   | Some items => forEach (create_item now scanId None) items st
                   | None => ret st
                   end ;;
             let dishIds := snd st in
             let imagesRequested := Z.min totalDishes (AUTO_IMAGE_LIMIT CONFIG) in
             let estimatedImageCost :=
               (Qc_of_Z imagesRequested
                * (if decide (imageProvider = "openai")
                   then IMAGE_OPENAI (COSTS CONFIG)
                   else IMAGE_NANO_BANANA (COSTS CONFIG)))%Qc in
             runMutation (updateScanProgress scanId
                            (Build_ScanProgressArgs None (Some totalDishes) None
                               (Some imagesRequested) None None (Some estimatedImageCost))) ;;;
             runMutation (updateScanStatus now scanId ScanStatus.generating
                            (Some ("Generating images for " +:+ pretty imagesRequested
                                   +:+ " dishes...")) None) ;;;
             forEach (fun dishId (_ : unit) => schedule (JobGenerate dishId scanId imageProvider))
               dishIds tt ;;;
             match dishIds with
             | [] => runMutation (updateScanStatus now scanId ScanStatus.completed
                                    (Some "Menu processed successfully!") None)
             | _ => ret tt
             end
         | None => throw (ErrorObj "Scan or image not found")
         end
     | None => throw (ErrorObj "Scan or image not found")
     end)
    (fun error =>
       runMutation (updateScanStatus now scanId ScanStatus.failed None
                      (Some (error_message error)))).

(** [callImageAPI]: the provider decides the unit cost; [reply] is what the
    chosen service answered (the image URL, or a throw). *)
Definition callImageAPI (provider : string) (reply : Thrown + string)
  : Thrown + (string * Qc) :=
  if decide (provider = "openai") then
    match reply with
    | inl e => inl e
    | inr imageUrl => inr (imageUrl, IMAGE_OPENAI (COSTS CONFIG))
    end
  else if decide (provider = "nano_banana") then
    match reply with
    | inl e => inl e
    | inr imageUrl => inr (imageUrl, IMAGE_NANO_BANANA (COSTS CONFIG))
    end
  else inl (ErrorObj ("Unknown image provider: " +:+ provider)).

(** The tail shared by the two branches of [generateDishImage]: count the
    job and complete the scan when the count reaches the requested number. *)
Definition count_job (now : Z) (scanId : nat) (addActualCost : option Qc)
    (doneMessage : string) : Action unit :=
  scan <- runQuery (getScan scanId) ;;
  match scan with
  | Some (Build_ScanWithProgress scan _) =>
      let newImagesGenerated := MenuScan.imagesGenerated scan + 1 in
      runMutation (updateScanProgress scanId
                     (Build_ScanProgressArgs None None (Some newImagesGenerated) None None
                        addActualCost None)) ;;;
      if MenuScan.imagesRequested scan <=? newImagesGenerated then
        runMutation (updateScanStatus now scanId ScanStatus.completed (Some doneMessage) None)
      else ret tt
  | None => ret tt
  end.

(** [generateDishImage].  The prompt rendered from the name and the
    description of the dish goes to the provider only; what the provider
    answered is [img]. *)
Definition generateDishImage (now : Z) (dishId scanId : nat) (provider : string)
    (img : ImageReply) : Action unit :=
  try_catch
    (ds <- runQuery (getDishesForScan scanId) ;;
     match List.find (fun d => Nat.eqb (Dish._id d) dishId) ds with
     | None => throw (ErrorObj "Dish not found")
     | Some dish =>
         runMutation (updateDishImage now dishId (only_status ImageStatus.generating)) ;;;
         log (EvImageAPI dishId provider) ;;;
         result <- lift (callImageAPI provider (api_reply img)) ;;
         stored <- lift (store_reply img) ;;
         let '(storageId, storedUrl) := stored in
         runMutation (updateDishImage now dishId
                        (Build_DishImageArgs ImageStatus.completed (Some storageId)
                           (Some storedUrl) (Some provider) (Some (snd result)) None)) ;;;
         count_job now scanId (Some (snd result)) "All images generated!"
     end)
    (fun error =>
       runMutation (updateDishImage now dishId
                      (Build_DishImageArgs ImageStatus.failed None None None None
                         (Some (error_message error)))) ;;;
       count_job now scanId None "Processing complete (some images failed)").

Record RemainingResult := {
  rr_queued : Z;
  rr_message : string;
  rr_dishIds : list nat;
}.

Definition generateRemainingImages (scanId : nat) (imageProvider : option string)
  : Action RemainingResult :=
  let provider := choose_provider imageProvider in
  queueResult <- runMutation (queueRemainingImages CONFIG scanId) ;;
  match queued queueResult =? 0, dishIds queueResult with
  | false, Some ids =>
      forEach (fun dishId (_ : unit) => schedule (JobGenerate dishId scanId provider)) ids tt ;;;
      ret (Build_RemainingResult (queued queueResult) (message queueResult) ids)
  | _, _ => ret (Build_RemainingResult (queued queueResult) (message queueResult) [])
  end.

Definition generateSingleDishImage (dishId : nat) (imageProvider : option string)
  : Action ActionResult :=
  let provider := choose_provider imageProvider in
  result <- runMutation (queueSingleDishImage CONFIG dishId) ;;
  match sq_queued result, sq_scanId result with
  | true, Some scanId =>
      schedule (JobGenerate dishId scanId provider) ;;;
      ret (Build_ActionResult true "Image generation started")
  | _, _ =>
      ret (Build_ActionResult false
             (match truthy_string (sq_message result) with
              | Some m => m
              | None => "Could not queue image"
              end))
  end.

End Actions.

(** ** The serial system: client calls and scheduled jobs, one at a time *)

(** One step of the serial system: a call of the client API, or the
    scheduler running the job at position [i] of its queue, each to its
    end before anything else runs.  The arguments that are not in the
    source are what the outside world answered: the time, the URL of the
    stored blob, the replies of the vision and image services. *)
Inductive Call :=
| CallCreateMenuScan (now : Z) (deviceId : string)
| CallStoreMenuImage (scanId storageId : nat) (imageUrl : option string)
| CallStartProcessingScan (now : Z) (scanId : nat) (imageProvider : option string)
| CallGenerateRemainingImages (scanId : nat) (imageProvider : option string)
| CallGenerateSingleDishImage (dishId : nat) (imageProvider : option string)
| CallStopImageGeneration (now : Z) (scanId : nat)
| CallForceCompleteScan (now : Z) (scanId : nat)
| RunJob (i : nat) (now : Z) (vision : Thrown + ParsedVision) (img : ImageReply).

(** The store after a mutation called by the client: unchanged when the
    handler throws. *)
Definition commit {A} (m : Mutation A) (w : World) : World :=
  match m w with
  | inl _ => w
  | inr (_, w') => w'
  end.

Definition run {A} (a : Action A) (w : World) : World := snd (a w).

Section System.
Variable CONFIG : Config.
Variable isValidProvider : string -> bool.

Definition run_job (now : Z) (vision : Thrown + ParsedVision) (img : ImageReply) (j : Job)
  : World -> World :=
  match j with
  | JobPipeline scanId imageProvider =>
      run (processScanPipeline CONFIG now scanId imageProvider vision)
  | JobGenerate dishId scanId provider =>
      run (generateDishImage CONFIG now dishId scanId provider img)
  end.

Definition exec (c : Call) (w : World) : World :=
  match c with
  | CallCreateMenuScan now deviceId => commit (createMenuScan CONFIG now deviceId) w
  | CallStoreMenuImage scanId storageId imageUrl =>
      commit (storeMenuImage scanId storageId imageUrl) w
  | CallStartProcessingScan now scanId imageProvider =>
      run (startProcessingScan CONFIG isValidProvider now scanId imageProvider) w
  | CallGenerateRemainingImages scanId imageProvider =>
      run (generateRemainingImages CONFIG isValidProvider scanId imageProvider) w
  | CallGenerateSingleDishImage dishId imageProvider =>
      run (generateSingleDishImage CONFIG isValidProvider dishId imageProvider) w
  | CallStopImageGeneration now scanId => commit (stopImageGeneration now scanId) w
  | CallForceCompleteScan now scanId => commit (forceCompleteScan now scanId) w
  | RunJob i now vision img =>
      match scheduled w !! i with
      | Some j => run_job now vision img j (set_scheduled (delete i (scheduled w)) w)
      | None => w
      end
  end.

(** The order in which the client of [app/capture.tsx] opens a scan: the
    image is stored once, on the new scan, and processing is started once,
    right after. The other calls may come at any time.  The backend does
    not enforce this order: it is a restriction of the serial system, which
    the system of [Async] does not have. *)
Definition in_protocol (c : Call) (w : World) : Prop :=
  match c with
  | CallStoreMenuImage scanId _ _ =>
      MenuScan.status <$> get_scan w scanId = Some ScanStatus.pending
  | CallStartProcessingScan _ scanId _ =>
      MenuScan.status <$> get_scan w scanId = Some ScanStatus.uploading
  | _ => True
  end.

Definition initial (w : World) : Prop :=
  menuScans w = ∅ /\ dishes w = [] /\ scheduled w = [] /\ trace w = [].

(** The stores of the serial system. *)
Inductive reachable : World -> Prop :=
| reachable_initial w : initial w -> reachable w
| reachable_step w c : reachable w -> in_protocol c w -> reachable (exec c w).

End System.

(** Running a list of steps, and the condition that each of them is in the
    protocol when its turn comes. *)
Definition exec_all (CONFIG : Config) (isValidProvider : string -> bool)
    (calls : list Call) (w : World) : World :=
  fold_left (fun w c => exec CONFIG isValidProvider c w) calls w.

Fixpoint follows_protocol (CONFIG : Config) (isValidProvider : string -> bool)
    (calls : list Call) (w : World) : Prop :=
  match calls with
  | [] => True
  | c :: calls' =>
      in_protocol c w
      /\ follows_protocol CONFIG isValidProvider calls' (exec CONFIG isValidProvider c w)
  end.

(** ** Auxiliary notions used by the statements *)

(** The counters and amounts of a scan, which a status write leaves alone. *)
Definition counters (s : MenuScan.t) : Z * Z * Z * Z * Qc * Qc :=
  (MenuScan.totalDishes s, MenuScan.dishesExtracted s, MenuScan.imagesGenerated s,
   MenuScan.imagesRequested s, MenuScan.estimatedCostUsd s, MenuScan.actualCostUsd s).

(** What one image job obtained from the outside: the unit cost and the
    stored image, or the error thrown on the way. *)
Definition image_outcome (CONFIG : Config) (provider : string) (img : ImageReply)
  : Thrown + (Qc * nat * string) :=
  match callImageAPI CONFIG provider (api_reply img) with
  | inl e => inl e
  | inr (_, cost) =>
      match store_reply img with
      | inl e => inl e
      | inr (storageId, storedUrl) => inr (cost, storageId, storedUrl)
      end
  end.

(** The image status a job leaves on its dish, and what it adds to the
    actual cost of the scan. *)
Definition job_final_status {A} (o : Thrown + A) : ImageStatus.t :=
  match o with
  | inl _ => ImageStatus.failed
  | inr _ => ImageStatus.completed
  end.

Definition job_cost (o : Thrown + (Qc * nat * string)) : Qc :=
  match o with
  | inl _ => Qc_of_Z 0
  | inr (cost, _, _) => cost
  end.

Definition job_done_message {A} (o : Thrown + A) : string :=
  match o with
  | inl _ => "Processing complete (some images failed)"
  | inr _ => "All images generated!"
  end.

(** The status writes on scans recorded in a trace. *)
Definition is_scan_event (e : Event) : bool :=
  match e with
  | EvScanStatus _ _ _ => true
  | _ => false
  end.

Definition scan_events (tr : list Event) : list Event := List.filter is_scan_event tr.

(** The shape shared by the dish loops of the mutations: some dishes of the
    list are patched by id, and the loop variables are updated. *)
Definition select_body {S} (sel : Dish.t -> option (list Dish.field)) (f : Dish.t -> S -> S)
  : Dish.t -> S -> Mutation S :=
  fun d acc =>
    match sel d with
    | Some updates => mbind (patch_dish (Dish._id d) updates) (fun _ => mret (f d acc))
    | None => mret (f d acc)
    end.

(** The table after such a loop over [l]. *)
Definition patch_all (sel : Dish.t -> option (list Dish.field)) (l ds : list Dish.t)
  : list Dish.t :=
  fold_left
    (fun ds d => match sel d with
                 | Some updates => map (patch_row (Dish._id d) updates) ds
                 | None => ds
                 end)
    l ds.

Definition stop_sel (d : Dish.t) : option (list Dish.field) :=
  match Dish.imageStatus d with
  | ImageStatus.queued => Some [Dish.ImageStatusF ImageStatus.skipped]
  | _ => None
  end.

Definition force_sel (d : Dish.t) : option (list Dish.field) :=
  match Dish.imageStatus d with
  | ImageStatus.queued | ImageStatus.generating => Some [Dish.ImageStatusF ImageStatus.skipped]
  | _ => None
  end.

Definition queue_sel (d : Dish.t) : option (list Dish.field) :=
  Some [Dish.ImageStatusF ImageStatus.queued].

Definition has_status (st : ImageStatus.t) (d : Dish.t) : bool :=
  bool_decide (Dish.imageStatus d = st).

(** The number of dishes of a list with a given image status. *)
Definition count_status (st : ImageStatus.t) (l : list Dish.t) : Z :=
  Z.of_nat (length (List.filter (has_status st) l)).

(** The loop variables of [stopImageGeneration] and of [forceCompleteScan]. *)
Definition stop_count (d : Dish.t) (acc : Z * Z) : Z * Z :=
  let '(skipped, completed) := acc in
  match Dish.imageStatus d with
  | ImageStatus.queued => (skipped + 1, completed)
  | ImageStatus.completed => (skipped, completed + 1)
  | _ => (skipped, completed)
  end.

Definition force_count (d : Dish.t) (completedImages : Z) : Z :=
  match Dish.imageStatus d with
  | ImageStatus.completed => completedImages + 1
  | _ => completedImages
  end.

#[global] Instance Dish_eq_dec : EqDecision Dish.t.
Proof. solve_decision. Defined.

(** The items of the vision output in the order the pipeline walks them:
    the sections in order, then the fallback items, each with the name of
    its section. *)
Definition flatten_menu (menuData : VisionMenuOutput) : list (option string * MenuItem) :=
  concat (map (fun section =>
                 map (fun item => (Some (section_name section), item)) (section_items section))
            (vm_sections menuData))
  ++ match vm_itemsFallback menuData with
     | Some items => map (fun item => (None, item)) items
     | None => []
     end.

(** The rows the dish loops of the pipeline insert, from a first id and a
    first display order. *)
Fixpoint create_rows (CONFIG : Config) (now : Z) (scanId dishId : nat) (displayOrder : Z)
    (xs : list (option string * MenuItem)) : list Dish.t :=
  match xs with
  | [] => []
  | x :: xs' =>
      Dish.mk dishId scanId (item_name (snd x)) (item_description (snd x))
        (item_price (snd x)) (fst x) displayOrder
        (if displayOrder <? AUTO_IMAGE_LIMIT CONFIG
         then ImageStatus.queued else ImageStatus.pending)
        None None None None None now None
      :: create_rows CONFIG now scanId (S dishId) (displayOrder + 1) xs'
  end.

(** The ids the loops collect in [dishIds]. *)
Definition auto_ids (rows : list Dish.t) : list nat :=
  map Dish._id (List.filter (has_status ImageStatus.queued) rows).

(** A table obtained from another by rewriting rows in place: ids and scans
    are kept.  It is [demoted] when no row becomes completed. *)
Definition reshaped (ds ds' : list Dish.t) : Prop :=
  exists g, ds' = map g ds
            /\ (forall d, Dish._id (g d) = Dish._id d)
            /\ (forall d, Dish.scanId (g d) = Dish.scanId d).

Definition demoted (ds ds' : list Dish.t) : Prop :=
  exists g, ds' = map g ds
            /\ (forall d, Dish._id (g d) = Dish._id d)
            /\ (forall d, Dish.scanId (g d) = Dish.scanId d)
            /\ (forall d, Dish.imageStatus (g d) = ImageStatus.completed ->
                          Dish.imageStatus d = ImageStatus.completed).

(** The dishes of a scan in a table, and the completed ones among them. *)
Definition by_scan (scanId : nat) (ds : list Dish.t) : list Dish.t :=
  filter (fun d => Dish.scanId d = scanId) ds.

Definition completed_in (scanId : nat) (ds : list Dish.t) : Z :=
  count_status ImageStatus.completed (by_scan scanId ds).

(** *** The invariant of the system *)

Definition is_generate_for (scanId : nat) (j : Job) : bool :=
  match j with
  | JobGenerate _ s _ => Nat.eqb s scanId
  | JobPipeline _ _ => false
  end.

Definition is_pipeline_for (scanId : nat) (j : Job) : bool :=
  match j with
  | JobPipeline s _ => Nat.eqb s scanId
  | JobGenerate _ _ _ => false
  end.

(** The image jobs and the pipeline jobs of a scan waiting in the queue. *)
Definition gen_jobs (w : World) (scanId : nat) : Z :=
  Z.of_nat (length (List.filter (is_generate_for scanId) (scheduled w))).

Definition pipe_jobs (w : World) (scanId : nat) : Z :=
  Z.of_nat (length (List.filter (is_pipeline_for scanId) (scheduled w))).

(** The dishes of a scan whose image is completed. *)
Definition completed_count (w : World) (scanId : nat) : Z :=
  count_status ImageStatus.completed (dishes_by_scanId w scanId).

(** The scan has not been through the pipeline yet. *)
Definition before_pipeline (w : World) (scanId : nat) (s : MenuScan.t) : Prop :=
  MenuScan.status s = ScanStatus.pending \/ MenuScan.status s = ScanStatus.uploading
  \/ pipe_jobs w scanId = 1.

Record scan_inv (CONFIG : Config) (w : World) (scanId : nat) (s : MenuScan.t) : Prop := {
  inv_generated_nonneg : 0 <= MenuScan.imagesGenerated s;
  inv_generated_jobs :
    MenuScan.imagesGenerated s + gen_jobs w scanId <= MenuScan.imagesRequested s;
  inv_completed_jobs :
    completed_count w scanId + gen_jobs w scanId <= MenuScan.imagesRequested s;
  inv_requested_max : MenuScan.imagesRequested s <= MAX_IMAGES_PER_SCAN CONFIG;
  inv_pipe_once : pipe_jobs w scanId <= 1;
  inv_before_start :
    MenuScan.status s = ScanStatus.pending \/ MenuScan.status s = ScanStatus.uploading ->
    pipe_jobs w scanId = 0;
  inv_before_pipeline :
    before_pipeline w scanId s ->
    dishes_by_scanId w scanId = [] /\ gen_jobs w scanId = 0
    /\ MenuScan.imagesGenerated s = 0;
}.

(** A job in the queue names a scan of the store, and an image job a dish
    of that scan. *)
Definition job_valid (w : World) (j : Job) : Prop :=
  match j with
  | JobPipeline scanId _ => is_Some (menuScans w !! scanId)
  | JobGenerate dishId scanId _ =>
      is_Some (menuScans w !! scanId)
      /\ exists dish, dish ∈ dishes w /\ Dish._id dish = dishId /\ Dish.scanId dish = scanId
  end.

Record world_inv (CONFIG : Config) (w : World) : Prop := {
  inv_scans : forall scanId s, menuScans w !! scanId = Some s -> scan_inv CONFIG w scanId s;
  inv_scan_ids : forall scanId s, menuScans w !! scanId = Some s -> (scanId < nextId w)%nat;
  inv_dish_ids : forall d, d ∈ dishes w -> (Dish._id d < nextId w)%nat;
  inv_dish_scans : forall d, d ∈ dishes w -> is_Some (menuScans w !! Dish.scanId d);
  inv_jobs : forall j, j ∈ scheduled w -> job_valid w j;
  inv_nodup : NoDup (map Dish._id (dishes w));
}.

(** The operation a step performs. *)
Inductive Operation :=
| OpCreate | OpStore | OpStart | OpPipeline | OpWorker
| OpQueueRemaining | OpQueueSingle | OpStop | OpForce | OpNone.

Definition operation_of (c : Call) (w : World) : Operation :=
  match c with
  | CallCreateMenuScan _ _ => OpCreate
  | CallStoreMenuImage _ _ _ => OpStore
  | CallStartProcessingScan _ _ _ => OpStart
  | CallGenerateRemainingImages _ _ => OpQueueRemaining
  | CallGenerateSingleDishImage _ _ => OpQueueSingle
  | CallStopImageGeneration _ _ => OpStop
  | CallForceCompleteScan _ _ => OpForce
  | RunJob i _ _ _ =>
      match scheduled w !! i with
      | Some (JobPipeline _ _) => OpPipeline
      | Some (JobGenerate _ _ _) => OpWorker
      | None => OpNone
      end
  end.

(** ** Reference definitions, following the words of the specification *)

(** The progress percentage as the specification tabulates it: fixed
    checkpoints, and [60 + 40 * ratio] while generating. *)
Definition spec_progress (st : ScanStatus.t) (imagesGenerated imagesRequested : Z) : Qc :=
  match st with
  | ScanStatus.pending => Qc_of_Z 0
  | ScanStatus.uploading => Qc_of_Z 10
  | ScanStatus.processing => Qc_of_Z 25
  | ScanStatus.extracting => Qc_of_Z 50
  | ScanStatus.generating =>
      (Qc_of_Z 60 + Qc_of_Z 40 * (Qc_of_Z imagesGenerated / Qc_of_Z imagesRequested))%Qc
  | ScanStatus.completed => Qc_of_Z 100
  | ScanStatus.failed => Qc_of_Z 0
  end.

(** What [stopImageGeneration] does to a row of the table, in the words of
    the specification: a queued dish of the scan becomes skipped, every
    other dish is left alone. *)
Definition stop_row (scanId : nat) (d : Dish.t) : Dish.t :=
  if decide (Dish.scanId d = scanId /\ Dish.imageStatus d = ImageStatus.queued)
  then Dish.patch [Dish.ImageStatusF ImageStatus.skipped] d
  else d.

(** The dish the pipeline is to create for the item at position [i] of the
    menu, in the words of the specification: display orders are sequential
    from 0, the first AUTO_IMAGE_LIMIT dishes are queued, the rest pending. *)
Definition spec_new_dish (CONFIG : Config) (now : Z) (scanId firstId : nat)
    (i : nat) (x : option string * MenuItem) : Dish.t :=
  Dish.mk (firstId + i) scanId (item_name (snd x)) (item_description (snd x))
    (item_price (snd x)) (fst x) (Z.of_nat i)
    (if Z.of_nat i <? AUTO_IMAGE_LIMIT CONFIG then ImageStatus.queued else ImageStatus.pending)
    None None None None None now None.

(** The bounds on the image counters of a scan, as the specification states
    them, and without the bound by the number of dishes. *)
Definition spec_counters_bounded (CONFIG : Config) (s : MenuScan.t) : Prop :=
  0 <= MenuScan.imagesGenerated s
  /\ MenuScan.imagesGenerated s <= MenuScan.imagesRequested s
  /\ MenuScan.imagesRequested s
     <= Z.min (MenuScan.totalDishes s) (MAX_IMAGES_PER_SCAN CONFIG).

Definition counters_bounded (CONFIG : Config) (s : MenuScan.t) : Prop :=
  0 <= MenuScan.imagesGenerated s
  /\ MenuScan.imagesGenerated s <= MenuScan.imagesRequested s
  /\ MenuScan.imagesRequested s <= MAX_IMAGES_PER_SCAN CONFIG.

(** The status writes of each operation, as the code performs them. *)
Definition may_write (op : Operation) (from to : ScanStatus.t) : Prop :=
  match op with
  | OpCreate | OpNone => False
  | OpStore => from = ScanStatus.pending /\ to = ScanStatus.uploading
  | OpStart => from = ScanStatus.uploading /\ to = ScanStatus.processing
  | OpPipeline =>
      to = ScanStatus.processing
      \/ (from = ScanStatus.processing /\ to = ScanStatus.extracting)
      \/ (from = ScanStatus.extracting /\ to = ScanStatus.generating)
      \/ (from = ScanStatus.generating /\ to = ScanStatus.completed)
      \/ to = ScanStatus.failed
  | OpWorker => to = ScanStatus.completed
  | OpQueueRemaining => to = ScanStatus.generating
  | OpQueueSingle =>
      (from = ScanStatus.completed /\ to = ScanStatus.generating)
      \/ (from <> ScanStatus.completed /\ to = from)
  | OpStop | OpForce => to = ScanStatus.completed
  end.

Definition event_allowed (op : Operation) (e : Event) : Prop :=
  match e with
  | EvScanStatus _ from to => may_write op from to
  | _ => True
  end.

(** ** Example stores

    The configuration shown in the README, and the stores reached by a
    device that scans a menu of three dishes. *)

Definition ex_CONFIG : Config :=
  Build_Config 10 50 "openai"
    (Build_Costs (Qc_of_Z 1 / Qc_of_Z 100)%Qc (Qc_of_Z 4 / Qc_of_Z 100)%Qc
       (Qc_of_Z 2 / Qc_of_Z 100)%Qc).

Definition ex_isValidProvider (p : string) : bool :=
  bool_decide (p = "openai") || bool_decide (p = "nano_banana").

Definition ex_menu : ParsedVision :=
  Build_ParsedVision (Some "Chez Rocq")
    (Some [Build_MenuSection "Mains"
             [Build_MenuItem "Soup" (Some "Onion soup") (Some "$7");
              Build_MenuItem "Salad" None None]])
    (Some [Build_MenuItem "Tea" None (Some "$2")]).

Definition ex_image_ok : ImageReply :=
  Build_ImageReply (inr "https://provider/img.png") (inr (900%nat, "https://store/900")).

Definition ex_image_error : ImageReply :=
  Build_ImageReply (inl (ErrorObj "OpenAI Image API error: rate limit"))
    (inr (900%nat, "https://store/900")).

Definition ex_initial : World :=
  mkWorld [Build_DeviceUser 0 "device-1" 90 90 0] ∅ [] 1 [] [].

Definition ex_run := exec_all ex_CONFIG ex_isValidProvider.

(** The scan 1 is created, its image stored, processing started and the
    pipeline run: dishes 2, 3 and 4 are queued, one job each. *)
Definition ex_open : list Call :=
  [CallCreateMenuScan 100 "device-1";
   CallStoreMenuImage 1 7 (Some "https://store/7");
   CallStartProcessingScan 101 1 None;
   RunJob 0 102 (inr ex_menu) ex_image_ok].

Definition ex_generating : World := ex_run ex_open ex_initial.

(** The three jobs succeed: the scan is completed. *)
Definition ex_finish : list Call :=
  [RunJob 0 103 (inr ex_menu) ex_image_ok;
   RunJob 0 104 (inr ex_menu) ex_image_ok;
   RunJob 0 105 (inr ex_menu) ex_image_ok].

Definition ex_completed : World := ex_run ex_finish ex_generating.

(** Generation is stopped before any job ran, the dish 2 is tapped (a second
    job for it joins the queue), and the first job of the dish 2 succeeds:
    the second one will find the dish completed. *)
Definition ex_retap : list Call :=
  [CallStopImageGeneration 103 1;
   CallGenerateSingleDishImage 2 None;
   RunJob 0 104 (inr ex_menu) ex_image_ok].

Definition ex_second_job : World := ex_run ex_retap ex_generating.

(** Generation is stopped before any job ran, then the remaining images are
    asked for: the three skipped dishes are queued again. *)
Definition ex_requeue : list Call :=
  [CallStopImageGeneration 103 1;
   CallGenerateRemainingImages 1 None].

Definition ex_requeued : World := ex_run ex_requeue ex_generating.

(** The first job fails at the provider: the scan counts one image
    generated and no dish is completed. *)
Definition ex_one_failed : World :=
  ex_run [RunJob 0 103 (inr ex_menu) ex_image_error] ex_generating.

(** The same device with AUTO_IMAGE_LIMIT = 0 (scenario A of the
    specification): the scan is started, the pipeline has not run yet. *)
Definition ex_CONFIG0 : Config :=
  Build_Config 0 50 "openai" (COSTS ex_CONFIG).

Definition ex_started : World :=
  exec_all ex_CONFIG0 ex_isValidProvider
    [CallCreateMenuScan 100 "device-1";
     CallStoreMenuImage 1 7 (Some "https://store/7");
     CallStartProcessingScan 101 1 None]
    ex_initial.

(** Generation is stopped before any job ran: the scan is completed and its
    three dishes are skipped. *)
Definition ex_stopped : World :=
  ex_run [CallStopImageGeneration 103 1] ex_generating.

(** ** Devices and deletion ([convex/mutations.ts], [convex/queries.ts])

    The handlers around the pipeline: the device users, the deletion of a
    scan and the statistics of a device.  [ctx.storage.delete] is an
    argument giving what the blob storage answered for each blob. *)

(** [ctx.db.query("deviceUsers").withIndex("by_deviceId", q => q.eq("deviceId", id)).first()] *)
Definition user_by_deviceId (w : World) (deviceId : string) : option DeviceUser :=
  List.find (fun u => String.eqb (du_deviceId u) deviceId) (deviceUsers w).

(** [getDeviceUser] *)
Definition getDeviceUser (deviceId : string) (w : World) : option DeviceUser :=
  user_by_deviceId w deviceId.

(** [ctx.db.patch(userId, ...)] on [deviceUsers], of a document just read. *)
Definition patch_user (id : nat) (f : DeviceUser -> DeviceUser) : Mutation unit :=
  fun w => inr (tt, set_deviceUsers
                      (map (fun u => if Nat.eqb (du_id u) id then f u else u) (deviceUsers w)) w).

Definition set_lastSeenAt (now : Z) (u : DeviceUser) : DeviceUser :=
  Build_DeviceUser (du_id u) (du_deviceId u) (du_createdAt u) now (du_scanCount u).

Definition set_scanCount (n : Z) (u : DeviceUser) : DeviceUser :=
  Build_DeviceUser (du_id u) (du_deviceId u) (du_createdAt u) (du_lastSeenAt u) n.

Definition ensureDeviceUser (now : Z) (deviceId : string) : Mutation nat :=
  (existing <- mread (fun w => user_by_deviceId w deviceId) ;;
   match existing with
   | Some existing =>
       patch_user (du_id existing) (set_lastSeenAt now) ;;;
       mret (du_id existing)
   | None =>
       fun w =>
         let id := nextId w in
         inr (id, set_nextId (S id)
                    (set_deviceUsers (deviceUsers w ++ [Build_DeviceUser id deviceId now now 0]) w))
   end)%mutation.

(** [ctx.db.delete(dishId)] on [dishes] *)
Definition delete_dish (id : nat) : Mutation unit :=
  fun w => match get_dish w id with
           | None => inl (ErrorObj "Delete on nonexistent document")
           | Some _ =>
               inr (tt, set_dishes (filter (fun d => Dish._id d <> id) (dishes w)) w)
           end.

(** [ctx.db.delete(scanId)] on [menuScans] *)
Definition delete_scan (id : nat) : Mutation unit :=
  fun w => match menuScans w !! id with
           | None => inl (ErrorObj "Delete on nonexistent document")
           | Some _ => inr (tt, set_menuScans (delete id (menuScans w)) w)
           end.

Definition mlift {A} (r : Thrown + A) : Mutation A :=
  match r with
  | inl e => mthrow e
  | inr a => mret a
  end.

(** [if (x.imageStorageId) { await ctx.storage.delete(x.imageStorageId); }]:
    the blobs deleted so far are the loop variable of the embedding. *)
Definition delete_blob (storage_delete : nat -> Thrown + unit) (storageId : option nat)
    (blobs : list nat) : Mutation (list nat) :=
  match storageId with
  | Some b => mbind (mlift (storage_delete b)) (fun _ => mret (blobs ++ [b]))
  | None => mret blobs
  end.

Record DeleteResult := {
  deleted : bool;
  dishesDeleted : Z;
}.

(** [deleteScan]; beside the result, the blobs handed to
    [ctx.storage.delete], in order. *)
Definition deleteScan (storage_delete : nat -> Thrown + unit) (scanId : nat)
  : Mutation (DeleteResult * list nat) :=
  (scan_opt <- mread (fun w => get_scan w scanId) ;;
   match scan_opt with
   | None => mthrow (ErrorObj "Scan not found")
   | Some scan =>
       ds <- mread (fun w => dishes_by_scanId w scanId) ;;
       blobs <- mforEach
                  (fun dish blobs =>
                     blobs <- delete_blob storage_delete (Dish.imageStorageId dish) blobs ;;
                     delete_dish (Dish._id dish) ;;;
                     mret blobs)
                  ds [] ;;
       blobs <- delete_blob storage_delete (MenuScan.imageStorageId scan) blobs ;;
       delete_scan scanId ;;;
       user <- mread (fun w => user_by_deviceId w (MenuScan.deviceId scan)) ;;
       match user with
       | Some user =>
           if 0 <? du_scanCount user
           then patch_user (du_id user) (set_scanCount (du_scanCount user - 1))
           else mret tt
       | None => mret tt
       end ;;;
       mret (Build_DeleteResult true (Z.of_nat (length ds)), blobs)
   end)%mutation.

(** [ctx.db.query("menuScans").withIndex("by_deviceId", q => q.eq("deviceId", id)).collect()]:
    the scans of a device with their ids. *)
Definition scans_by_deviceId (w : World) (deviceId : string) : list (nat * MenuScan.t) :=
  filter (fun p => MenuScan.deviceId p.2 = deviceId) (map_to_list (menuScans w)).

Record DeviceStats := {
  totalScans : Z;
  completedScans : Z;
  ds_totalDishes : Z;
  totalImages : Z;
  totalCostUsd : Qc;
}.

Definition getDeviceStats (deviceId : string) (w : World) : DeviceStats :=
  let scans := (scans_by_deviceId w deviceId).*2 in
  Build_DeviceStats
    (Z.of_nat (length scans))
    (Z.of_nat (length (List.filter
                         (fun s => bool_decide (MenuScan.status s = ScanStatus.completed)) scans)))
    (fold_left (fun acc s => acc + MenuScan.totalDishes s) scans 0)
    (fold_left (fun acc s => acc + MenuScan.imagesGenerated s) scans 0)
    (fold_left (fun acc s => acc + MenuScan.actualCostUsd s)%Qc scans (Qc_of_Z 0)).

(** ** The dish screen ([app/scan/[id].tsx]) *)

(** What a tap on a dish card does. *)
Inductive TapAction :=
| ShowImage (imageUrl : string)
| GenerateSingleImage (dishId : nat)
| NoTap.

Definition handleDishPress (dish : Dish.t) : TapAction :=
  match truthy_string (Dish.imageUrl dish) with
  | Some imageUrl => ShowImage imageUrl
  | None =>
      match Dish.imageStatus dish with
      | ImageStatus.pending | ImageStatus.skipped | ImageStatus.failed =>
          GenerateSingleImage (Dish._id dish)
      | _ => NoTap
      end
  end.

(** The truth value of [isDishTappable(dish)]. *)
Definition isDishTappable (dish : Dish.t) : bool :=
  match truthy_string (Dish.imageUrl dish) with
  | Some _ => true
  | None =>
      match Dish.imageStatus dish with
      | ImageStatus.pending | ImageStatus.skipped | ImageStatus.failed => true
      | _ => false
      end
  end.

(** ** The client API as a whole

    A step of the serial pipeline system, or one of the calls on devices
    and deletion, each run to its end.  [generateUploadUrl] does not touch
    the tables and is left out; [updateMenuName] is a request of the system
    of [Async]. *)
Inductive ClientCall :=
| PipelineCall (c : Call)
| CallEnsureDeviceUser (now : Z) (deviceId : string)
| CallDeleteScan (scanId : nat).

Section Client.
Variable CONFIG : Config.
Variable isValidProvider : string -> bool.
Variable storage_delete : nat -> Thrown + unit.

Definition exec_client (c : ClientCall) (w : World) : World :=
  match c with
  | PipelineCall c => exec CONFIG isValidProvider c w
  | CallEnsureDeviceUser now deviceId => commit (ensureDeviceUser now deviceId) w
  | CallDeleteScan scanId => commit (deleteScan storage_delete scanId) w
  end.

(** A fresh deployment: every table is empty. *)
Definition empty_store (w : World) : Prop :=
  deviceUsers w = [] /\ initial w.

Inductive reachable_client : World -> Prop :=
| reachable_client_initial w : empty_store w -> reachable_client w
| reachable_client_step w c :
    reachable_client w ->
    match c with PipelineCall c => in_protocol c w | _ => True end ->
    reachable_client (exec_client c w).

End Client.

(** ** Auxiliary notions for the frame properties *)

(** A relation between the stores before and after holds for a mutation
    that commits, and for an action however it ends. *)
Definition mframe (R : World -> World -> Prop) {A} (m : Mutation A) : Prop :=
  forall w a w', m w = inr (a, w') -> R w w'.

Definition aframe (R : World -> World -> Prop) {A} (m : Action A) : Prop :=
  forall w, R w (snd (m w)).

(** What the pipeline read off the menu for a dish, with its identity. *)
Definition menu_text (d : Dish.t)
  : nat * nat * string * option string * option string * option string * Z * Z :=
  (Dish._id d, Dish.scanId d, Dish.name d, Dish.description d, Dish.price d,
   Dish.sectionName d, Dish.displayOrder d, Dish.createdAt d).

(** The image of a dish as the worker stores it, with the error of the
    last job that failed. *)
Definition dish_image (d : Dish.t)
  : option nat * option string * option string * option Qc * option Z * option string :=
  (Dish.imageStorageId d, Dish.imageUrl d, Dish.imageProvider d, Dish.imageCostUsd d,
   Dish.imageGeneratedAt d, Dish.imageError d).

(** A table obtained from another by rewriting rows in place and adding
    rows at the end, each row being related to the one it comes from. *)
Definition table_kept (rel : Dish.t -> Dish.t -> Prop) (ds ds' : list Dish.t) : Prop :=
  exists ds1 rows, ds' = ds1 ++ rows /\ Forall2 rel ds ds1.

Definition same_text (d d' : Dish.t) : Prop := menu_text d' = menu_text d.

(** What a step that is not an image job may do to a dish: nothing but
    queue it or skip it. *)
Definition dish_kept (d d' : Dish.t) : Prop :=
  menu_text d' = menu_text d
  /\ dish_image d' = dish_image d
  /\ (Dish.imageStatus d' = Dish.imageStatus d
      \/ Dish.imageStatus d' = ImageStatus.queued
      \/ Dish.imageStatus d' = ImageStatus.skipped).

(** What identifies a scan for its device. *)
Definition scan_origin (s : MenuScan.t) : string * Z := (MenuScan.deviceId s, MenuScan.createdAt s).

Definition job_provider (j : Job) : string :=
  match j with
  | JobPipeline _ p => p
  | JobGenerate _ _ p => p
  end.

(** The error the pipeline runs into before it creates any dish, if any:
    the scan has no image, or the vision service throws. *)
Definition pipeline_error (scan : MenuScan.t) (vision : Thrown + ParsedVision) : option Thrown :=
  match truthy_string (MenuScan.imageUrl scan), vision with
  | None, _ => Some (ErrorObj "Scan or image not found")
  | Some _, inl e => Some e
  | Some _, inr _ => None
  end.

(** The price of an image as the pipeline estimates it. *)
Definition estimate_unit (CONFIG : Config) (imageProvider : string) : Qc :=
  if decide (imageProvider = "openai")
  then IMAGE_OPENAI (COSTS CONFIG) else IMAGE_NANO_BANANA (COSTS CONFIG).

(** [forceCompleteScan] on a row of the table: a dish of the scan that is
    queued or generating becomes skipped. *)
Definition force_row (scanId : nat) (d : Dish.t) : Dish.t :=
  if decide (Dish.scanId d = scanId
             /\ (Dish.imageStatus d = ImageStatus.queued
                 \/ Dish.imageStatus d = ImageStatus.generating))
  then Dish.patch [Dish.ImageStatusF ImageStatus.skipped] d
  else d.

(** A dish waits for its image, or the image is being made. *)
Definition in_flight (d : Dish.t) : Prop :=
  Dish.imageStatus d = ImageStatus.queued \/ Dish.imageStatus d = ImageStatus.generating.

(** The blobs of a scan: the images of its dishes, then its own. *)
Definition scan_blobs (w : World) (scanId : nat) (scan : MenuScan.t) : list nat :=
  omap Dish.imageStorageId (dishes_by_scanId w scanId)
  ++ option_list (MenuScan.imageStorageId scan).

(** The device users after [deleteScan] of a scan of the device. *)
Definition forget_scan (deviceId : string) (w : World) : list DeviceUser :=
  match user_by_deviceId w deviceId with
  | Some user =>
      if 0 <? du_scanCount user
      then map (fun u => if Nat.eqb (du_id u) (du_id user)
                         then set_scanCount (du_scanCount user - 1) u else u)
             (deviceUsers w)
      else deviceUsers w
  | None => deviceUsers w
  end.

Definition job_scan (j : Job) : nat :=
  match j with
  | JobPipeline scanId _ => scanId
  | JobGenerate _ scanId _ => scanId
  end.

(** The number of scans of a device. *)
Definition scan_count (w : World) (deviceId : string) : Z :=
  Z.of_nat (length (scans_by_deviceId w deviceId)).

(** The invariant of the device users. *)
Record device_inv (w : World) : Prop := {
  dinv_devices : NoDup (map du_deviceId (deviceUsers w));
  dinv_user_ids : NoDup (map du_id (deviceUsers w));
  dinv_user_fresh : forall u, u ∈ deviceUsers w -> (du_id u < nextId w)%nat;
  dinv_scan_fresh : forall id, is_Some (menuScans w !! id) -> (id < nextId w)%nat;
  dinv_count : forall u, u ∈ deviceUsers w -> du_scanCount u = scan_count w (du_deviceId u);
  dinv_owner : forall id s, menuScans w !! id = Some s ->
                            is_Some (user_by_deviceId w (MenuScan.deviceId s));
}.

(** The fields of a scan each operation writes, as the code performs the
    writes. *)
Definition may_set (op : Operation) (f : MenuScan.field) : Prop :=
  match op with
  | OpCreate | OpNone => False
  | OpStore =>
      match f with
      | MenuScan.ImageStorageId _ | MenuScan.ImageUrl _ | MenuScan.Status _ => True
      | _ => False
      end
  | OpStart =>
      match f with
      | MenuScan.Status _ | MenuScan.StatusMessage _ => True
      | _ => False
      end
  | OpPipeline =>
      match f with
      | MenuScan.ImageStorageId _ | MenuScan.ImageUrl _ | MenuScan.ImagesGenerated _ => False
      | _ => True
      end
  | OpWorker =>
      match f with
      | MenuScan.Status _ | MenuScan.StatusMessage _ | MenuScan.CompletedAt _
      | MenuScan.ImagesGenerated _ | MenuScan.ActualCostUsd _ => True
      | _ => False
      end
  | OpQueueRemaining | OpQueueSingle =>
      match f with
      | MenuScan.Status _ | MenuScan.ImagesRequested _ | MenuScan.EstimatedCostUsd _ => True
      | _ => False
      end
  | OpStop | OpForce =>
      match f with
      | MenuScan.Status _ | MenuScan.StatusMessage _ | MenuScan.CompletedAt _
      | MenuScan.ImagesGenerated _ => True
      | _ => False
      end
  end.

(** The scans of the store before are in the store after, each patched
    with entries taken from an allowed set. *)
Definition scans_patched (allowed : MenuScan.field -> Prop) (w w' : World) : Prop :=
  (nextId w <= nextId w')%nat
  /\ forall id s, (id < nextId w)%nat -> menuScans w !! id = Some s ->
                  exists updates,
                    Forall allowed updates
                    /\ menuScans w' !! id = Some (MenuScan.patch updates s).

(** The dishes of a list under a section name, and those without one. *)
Definition in_section (n : string) (ds : list Dish.t) : list Dish.t :=
  filter (fun d => truthy_string (Dish.sectionName d) = Some n) ds.

Definition without_section (ds : list Dish.t) : list Dish.t :=
  filter (fun d => truthy_string (Dish.sectionName d) = None) ds.

(** A device that registers, scans two menus and deletes the first scan,
    from empty tables and with a storage that accepts every deletion. *)
Definition ex_empty : World := mkWorld [] ∅ [] 0 [] [].

Definition ex_client_calls : list ClientCall :=
  [CallEnsureDeviceUser 90 "device-1";
   PipelineCall (CallCreateMenuScan 100 "device-1");
   PipelineCall (CallCreateMenuScan 110 "device-1");
   CallDeleteScan 1].

Definition ex_client : World :=
  fold_left (fun w c => exec_client ex_CONFIG ex_isValidProvider (fun _ => inr tt) c w)
    ex_client_calls ex_empty.

(** ** Actions as the platform runs them

    An action is not a transaction: each [ctx.runQuery], [ctx.runMutation]
    and [ctx.scheduler.runAfter] of its handler is a transaction of its own,
    and transactions of other handlers may commit in between.  A [Task] is
    what is left to run of a handler: it has finished (with a result, or by
    throwing), or it is about to perform a transaction.  A transaction reads
    the clock and the store it runs on; [commits] is the store it leaves and
    [next] how the handler goes on. *)
Inductive Task (A : Type) : Type :=
| Finished (r : Thrown + A)
| Transact (commits : Z -> World -> World) (next : Z -> World -> Task A).
Arguments Finished {A} r.
Arguments Transact {A} commits next.

Definition task_ret {A} (a : A) : Task A := Finished (inr a).
Definition task_throw {A} (e : Thrown) : Task A := Finished (inl e).

Fixpoint task_bind {A B} (t : Task A) (k : A -> Task B) : Task B :=
  match t with
  | Finished (inl e) => Finished (inl e)
  | Finished (inr a) => k a
  | Transact commits next => Transact commits (fun now w => task_bind (next now w) k)
  end.

Fixpoint task_try_catch {A} (body : Task A) (handler : Thrown -> Task A) : Task A :=
  match body with
  | Finished (inl e) => handler e
  | Finished (inr a) => Finished (inr a)
  | Transact commits next =>
      Transact commits (fun now w => task_try_catch (next now w) handler)
  end.

(** [ctx.runMutation]: one transaction, which commits or throws. *)
Definition task_runMutation {A} (m : Z -> Mutation A) : Task A :=
  Transact (fun now w => commit (m now) w)
    (fun now w => Finished (match m now w with
                            | inl e => inl e
                            | inr (a, _) => inr a
                            end)).

(** [ctx.runQuery] *)
Definition task_runQuery {A} (q : World -> A) : Task A :=
  Transact (fun _ w => w) (fun _ w => Finished (inr (q w))).

(** [ctx.scheduler.runAfter(0, job)] *)
Definition task_schedule (j : Job) : Task unit :=
  Transact (fun _ w => set_scheduled (scheduled w ++ [j]) w) (fun _ _ => Finished (inr tt)).

(** An entry of the trace, at a point where the handler waits for the
    outside world. *)
Definition task_log (e : Event) : Task unit :=
  Transact (fun _ w => with_trace [e] w) (fun _ _ => Finished (inr tt)).

Declare Scope task_scope.
Delimit Scope task_scope with task.
Notation "x <- m ;; k" := (task_bind m (fun x => k))
  (at level 100, m at next level, right associativity) : task_scope.
Notation "m ;;; k" := (task_bind m (fun _ => k))
  (at level 100, right associativity) : task_scope.

Fixpoint task_forEach {A S} (body : A -> S -> Task S) (l : list A) (s : S) : Task S :=
  match l with
  | [] => task_ret s
  | x :: l' => task_bind (body x s) (fun s' => task_forEach body l' s')
  end.

(** A task run to its end with no other transaction in between, every
    transaction reading the same clock. *)
Fixpoint run_task {A} (now : Z) (t : Task A) (w : World) : (Thrown + A) * World :=
  match t with
  | Finished r => (r, w)
  | Transact commits next => run_task now (next now w) (commits now w)
  end.

(** ** The reply of the vision service as [JSON.parse] gives it

    [callVisionAPI] casts the parsed object to [VisionMenuOutput] without
    checking it.  The reply is taken with the arrays of that type; what it
    holds where the type has a string is not checked before the validators
    of the mutations see it: the key may be absent, hold a string, or hold
    another value ([null], a number, an object). *)
Inductive Json :=
| JAbsent
| JString (s : string)
| JOther.

Record RawItem := {
  raw_name : Json;
  raw_description : Json;
  raw_price : Json;
}.

Record RawSection := {
  raw_section_name : Json;
  raw_items : list RawItem;
}.

Record RawVision := {
  raw_restaurantName : Json;
  raw_sections : option (list RawSection);
  raw_itemsFallback : option (list RawItem);
}.

(** The validators [v.string()] and [v.optional(v.string())]. *)
Definition v_string (j : Json) : option string :=
  match j with
  | JString s => Some s
  | _ => None
  end.

Definition v_optional_string (j : Json) : option (option string) :=
  match j with
  | JAbsent => Some None
  | JString s => Some (Some s)
  | JOther => None
  end.

(** A mutation called with arguments that its validator rejects throws
    before its handler runs. *)
Definition validated {X A} (args : option X) (m : X -> Mutation A) : Mutation A :=
  match args with
  | Some x => m x
  | None => mthrow (ErrorObj "ArgumentValidationError")
  end.

(** The arguments of [createDish] for an item of the reply. *)
Definition createDish_args (scanId : nat) (sectionName : Json) (item : RawItem)
    (displayOrder : Z) (imageStatus : ImageStatus.t) : option CreateDishArgs :=
  match v_string (raw_name item), v_optional_string (raw_description item),
        v_optional_string (raw_price item), v_optional_string sectionName with
  | Some name, Some description, Some price, Some sectionName =>
      Some (Build_CreateDishArgs scanId name description price sectionName displayOrder
              imageStatus)
  | _, _, _, _ => None
  end.

(** A reply of the type [VisionMenuOutput], seen as a parsed object. *)
Definition json_of_option (o : option string) : Json :=
  match o with
  | Some s => JString s
  | None => JAbsent
  end.

Definition raw_of_item (item : MenuItem) : RawItem :=
  Build_RawItem (JString (item_name item)) (json_of_option (item_description item))
    (json_of_option (item_price item)).

Definition raw_of_section (section : MenuSection) : RawSection :=
  Build_RawSection (JString (section_name section)) (map raw_of_item (section_items section)).

Definition raw_of_parsed (parsed : ParsedVision) : RawVision :=
  Build_RawVision (json_of_option (pv_restaurantName parsed))
    (map raw_of_section <$> pv_sections parsed)
    (map raw_of_item <$> pv_itemsFallback parsed).

Definition raw_of_reply (vision : Thrown + ParsedVision) : Thrown + RawVision :=
  match vision with
  | inl e => inl e
  | inr parsed => inr (raw_of_parsed parsed)
  end.

(** [updateMenuName]; [trimmed] is [args.restaurantName.trim()], and a patch
    with [undefined] removes the field. *)
Definition set_restaurantName (v : option string) (s : MenuScan.t) : MenuScan.t :=
  MenuScan.mk (MenuScan.deviceId s) (MenuScan.imageStorageId s) (MenuScan.imageUrl s) v
    (MenuScan.status s) (MenuScan.statusMessage s) (MenuScan.errorMessage s)
    (MenuScan.totalDishes s) (MenuScan.dishesExtracted s) (MenuScan.imagesGenerated s)
    (MenuScan.imagesRequested s) (MenuScan.estimatedCostUsd s) (MenuScan.actualCostUsd s)
    (MenuScan.createdAt s) (MenuScan.completedAt s).

Definition updateMenuName (scanId : nat) (trimmed : string) : Mutation bool :=
  fun w =>
    match get_scan w scanId with
    | None => inl (ErrorObj "Scan not found")
    | Some scan =>
        inr (true,
             set_menuScans
               (<[scanId := set_restaurantName (truthy_string (Some trimmed)) scan]>
                  (menuScans w)) w)
    end.

(** ** The handlers of [convex/actions.ts] as tasks, and the system *)

(** The functions of the backend that the application calls or that the
    scheduler runs. *)
Inductive Handler :=
| HEnsureDeviceUser | HCreateMenuScan | HStoreMenuImage | HUpdateMenuName | HDeleteScan
| HStopImageGeneration | HForceCompleteScan
| HStartProcessingScan | HGenerateRemainingImages | HGenerateSingleDishImage
| HProcessScanPipeline | HGenerateDishImage.

Module Async.

Section Handlers.
Variable CONFIG : Config.
Variable isValidProvider : string -> bool.
Local Open Scope task_scope.

Definition startProcessingScan (scanId : nat) (imageProvider : option string)
  : Task ActionResult :=
  let provider := choose_provider CONFIG isValidProvider imageProvider in
  task_runMutation (fun now => updateScanStatus now scanId ScanStatus.processing
                                 (Some "Analyzing menu image...") None) ;;;
  task_schedule (JobPipeline scanId provider) ;;;
  task_ret (Build_ActionResult true "Processing started").

(** The body of the two dish loops of the pipeline. *)
Definition create_item (scanId : nat) (sectionName : Json) (item : RawItem)
    (st : Z * list nat) : Task (Z * list nat) :=
  let '(displayOrder, dishIds) := st in
  let shouldAutoGenerate := displayOrder <? AUTO_IMAGE_LIMIT CONFIG in
  dishId <- task_runMutation
              (fun now =>
                 validated
                   (createDish_args scanId sectionName item displayOrder
                      (if shouldAutoGenerate then ImageStatus.queued else ImageStatus.pending))
                   (createDish now)) ;;
  task_ret (displayOrder + 1, if shouldAutoGenerate then dishIds ++ [dishId] else dishIds).

Definition count_dishes (sections : list RawSection) (itemsFallback : option (list RawItem))
  : Z :=
  fold_left (fun total section => total + Z.of_nat (length (raw_items section))) sections 0
  + match itemsFallback with
    | Some items => Z.of_nat (length items)
    | None => 0
    end.

Definition processScanPipeline (scanId : nat) (imageProvider : string)
    (vision : Thrown + RawVision) : Task unit :=
  task_try_catch
    (scan <- task_runQuery (getScan scanId) ;;
     match scan with
     | Some (Build_ScanWithProgress scan _) =>
         match truthy_string (MenuScan.imageUrl scan) with
         | Some imageUrl =>
             task_runMutation (fun now => updateScanStatus now scanId ScanStatus.processing
                                            (Some "Extracting menu items with AI...") None) ;;;
             parsed <- Finished vision ;;
             let sections := default [] (raw_sections parsed) in
             task_runMutation (fun now => updateScanStatus now scanId ScanStatus.extracting
                                            (Some "Creating dish records...") None) ;;;
             let totalDishes := count_dishes sections (raw_itemsFallback parsed) in
             task_runMutation
               (fun _ =>
                  validated (v_optional_string (raw_restaurantName parsed))
                    (fun restaurantName =>
                       updateScanProgress scanId
                         (Build_ScanProgressArgs (Some totalDishes) None None None
                            restaurantName (Some (VISION_PARSE (COSTS CONFIG))) None))) ;;;
             st <- task_forEach
                     (fun section st =>
                        task_forEach (create_item scanId (raw_section_name section))
                          (raw_items section) st)
                     sections (0, []) ;;
             st <- match raw_itemsFallback parsed with
                   | Some items => task_forEach (create_item scanId JAbsent) items st
                   | None => task_ret st
                   end ;;
             let dishIds := snd st in
             let imagesRequested := Z.min totalDishes (AUTO_IMAGE_LIMIT CONFIG) in
             let estimatedImageCost :=
               (Qc_of_Z imagesRequested
                * (if decide (imageProvider = "openai")
                   then IMAGE_OPENAI (COSTS CONFIG)
                   else IMAGE_NANO_BANANA (COSTS CONFIG)))%Qc in
             task_runMutation
               (fun _ => updateScanProgress scanId
                           (Build_ScanProgressArgs None (Some totalDishes) None
                              (Some imagesRequested) None None (Some estimatedImageCost))) ;;;
             task_runMutation
               (fun now => updateScanStatus now scanId ScanStatus.generating
                             (Some ("Generating images for " +:+ pretty imagesRequested
                                    +:+ " dishes...")) None) ;;;
             task_forEach
               (fun dishId (_ : unit) => task_schedule (JobGenerate dishId scanId imageProvider))
               dishIds tt ;;;
             match dishIds with
             | [] => task_runMutation
                       (fun now => updateScanStatus now scanId ScanStatus.completed
                                     (Some "Menu processed successfully!") None)
             | _ => task_ret tt
             end
         | None => task_throw (ErrorObj "Scan or image not found")
         end
     | None => task_throw (ErrorObj "Scan or image not found")
     end)
    (fun error =>
       task_runMutation (fun now => updateScanStatus now scanId ScanStatus.failed None
                                      (Some (error_message error)))).

Definition count_job (scanId : nat) (addActualCost : option Qc) (doneMessage : string)
  : Task unit :=
  scan <- task_runQuery (getScan scanId) ;;
  match scan with
  | Some (Build_ScanWithProgress scan _) =>
      let newImagesGenerated := MenuScan.imagesGenerated scan + 1 in
      task_runMutation
        (fun _ => updateScanProgress scanId
                    (Build_ScanProgressArgs None None (Some newImagesGenerated) None None
                       addActualCost None)) ;;;
      if MenuScan.imagesRequested scan <=? newImagesGenerated then
        task_runMutation (fun now => updateScanStatus now scanId ScanStatus.completed
                                       (Some doneMessage) None)
      else task_ret tt
  | None => task_ret tt
  end.

Definition generateDishImage (dishId scanId : nat) (provider : string) (img : ImageReply)
  : Task unit :=
  task_try_catch
    (ds <- task_runQuery (getDishesForScan scanId) ;;
     match List.find (fun d => Nat.eqb (Dish._id d) dishId) ds with
     | None => task_throw (ErrorObj "Dish not found")
     | Some dish =>
         task_runMutation
           (fun now => updateDishImage now dishId (only_status ImageStatus.generating)) ;;;
         task_log (EvImageAPI dishId provider) ;;;
         result <- Finished (callImageAPI CONFIG provider (api_reply img)) ;;
         stored <- Finished (store_reply img) ;;
         let '(storageId, storedUrl) := stored in
         task_runMutation
           (fun now => updateDishImage now dishId
                         (Build_DishImageArgs ImageStatus.completed (Some storageId)
                            (Some storedUrl) (Some provider) (Some (snd result)) None)) ;;;
         count_job scanId (Some (snd result)) "All images generated!"
     end)
    (fun error =>
       task_runMutation
         (fun now => updateDishImage now dishId
                       (Build_DishImageArgs ImageStatus.failed None None None None
                          (Some (error_message error)))) ;;;
       count_job scanId None "Processing complete (some images failed)").

Definition generateRemainingImages (scanId : nat) (imageProvider : option string)
  : Task RemainingResult :=
  let provider := choose_provider CONFIG isValidProvider imageProvider in
  queueResult <- task_runMutation (fun _ => queueRemainingImages CONFIG scanId) ;;
  match queued queueResult =? 0, dishIds queueResult with
  | false, Some ids =>
      task_forEach
        (fun dishId (_ : unit) => task_schedule (JobGenerate dishId scanId provider)) ids tt ;;;
      task_ret (Build_RemainingResult (queued queueResult) (message queueResult) ids)
  | _, _ => task_ret (Build_RemainingResult (queued queueResult) (message queueResult) [])
  end.

Definition generateSingleDishImage (dishId : nat) (imageProvider : option string)
  : Task ActionResult :=
  let provider := choose_provider CONFIG isValidProvider imageProvider in
  result <- task_runMutation (fun _ => queueSingleDishImage CONFIG dishId) ;;
  match sq_queued result, sq_scanId result with
  | true, Some scanId =>
      task_schedule (JobGenerate dishId scanId provider) ;;;
      task_ret (Build_ActionResult true "Image generation started")
  | _, _ =>
      task_ret (Build_ActionResult false
                  (match truthy_string (sq_message result) with
                   | Some m => m
                   | None => "Could not queue image"
                   end))
  end.

(** *** The system

    The application calls the functions of the backend at any time and in
    any order; the scheduler starts the jobs of its queue in any order; the
    handlers that run advance one transaction at a time, in any
    interleaving.  What is not in the source is what the outside world
    answered: the clock, the URL of a stored blob, the outcome of the
    deletion of a blob, the replies of the vision and image services. *)
Inductive Request :=
| EnsureDeviceUser (deviceId : string)
| CreateMenuScan (deviceId : string)
| StoreMenuImage (scanId storageId : nat) (imageUrl : option string)
| UpdateMenuName (scanId : nat) (trimmed : string)
| DeleteScan (scanId : nat) (storage_delete : nat -> Thrown + unit)
| StopImageGeneration (scanId : nat)
| ForceCompleteScan (scanId : nat)
| StartProcessingScan (scanId : nat) (imageProvider : option string)
| GenerateRemainingImages (scanId : nat) (imageProvider : option string)
| GenerateSingleDishImage (dishId : nat) (imageProvider : option string).

Definition handler_of_request (r : Request) : Handler :=
  match r with
  | EnsureDeviceUser _ => HEnsureDeviceUser
  | CreateMenuScan _ => HCreateMenuScan
  | StoreMenuImage _ _ _ => HStoreMenuImage
  | UpdateMenuName _ _ => HUpdateMenuName
  | DeleteScan _ _ => HDeleteScan
  | StopImageGeneration _ => HStopImageGeneration
  | ForceCompleteScan _ => HForceCompleteScan
  | StartProcessingScan _ _ => HStartProcessingScan
  | GenerateRemainingImages _ _ => HGenerateRemainingImages
  | GenerateSingleDishImage _ _ => HGenerateSingleDishImage
  end.

Definition handler_of_job (j : Job) : Handler :=
  match j with
  | JobPipeline _ _ => HProcessScanPipeline
  | JobGenerate _ _ _ => HGenerateDishImage
  end.

(** The result of a handler goes to the caller; the system keeps none. *)
Definition forget {A} (t : Task A) : Task unit := task_bind t (fun _ => task_ret tt).

Definition task_of_request (r : Request) : Task unit :=
  match r with
  | EnsureDeviceUser deviceId =>
      forget (task_runMutation (fun now => ensureDeviceUser now deviceId))
  | CreateMenuScan deviceId =>
      forget (task_runMutation (fun now => createMenuScan CONFIG now deviceId))
  | StoreMenuImage scanId storageId imageUrl =>
      forget (task_runMutation (fun _ => storeMenuImage scanId storageId imageUrl))
  | UpdateMenuName scanId trimmed =>
      forget (task_runMutation (fun _ => updateMenuName scanId trimmed))
  | DeleteScan scanId storage_delete =>
      forget (task_runMutation (fun _ => deleteScan storage_delete scanId))
  | StopImageGeneration scanId =>
      forget (task_runMutation (fun now => stopImageGeneration now scanId))
  | ForceCompleteScan scanId =>
      forget (task_runMutation (fun now => forceCompleteScan now scanId))
  | StartProcessingScan scanId imageProvider =>
      forget (startProcessingScan scanId imageProvider)
  | GenerateRemainingImages scanId imageProvider =>
      forget (generateRemainingImages scanId imageProvider)
  | GenerateSingleDishImage dishId imageProvider =>
      forget (generateSingleDishImage dishId imageProvider)
  end.

Definition task_of_job (j : Job) (vision : Thrown + RawVision) (img : ImageReply) : Task unit :=
  match j with
  | JobPipeline scanId imageProvider => processScanPipeline scanId imageProvider vision
  | JobGenerate dishId scanId provider => generateDishImage dishId scanId provider img
  end.

(** A handler that runs, with the function it is a call of. *)
Record Running := {
  handler : Handler;
  task : Task unit;
}.

Record System := {
  store : World;
  running : list Running;
}.

Inductive Step :=
| Invoke (r : Request)
| Start (i : nat) (vision : Thrown + RawVision) (img : ImageReply)
| Advance (k : nat) (now : Z).

Definition step (st : Step) (s : System) : System :=
  match st with
  | Invoke r =>
      Build_System (store s)
        (running s ++ [Build_Running (handler_of_request r) (task_of_request r)])
  | Start i vision img =>
      match scheduled (store s) !! i with
      | Some j =>
          Build_System (set_scheduled (delete i (scheduled (store s))) (store s))
            (running s ++ [Build_Running (handler_of_job j) (task_of_job j vision img)])
      | None => s
      end
  | Advance k now =>
      match running s !! k with
      | Some (Build_Running h (Transact commits next)) =>
          Build_System (commits now (store s))
            (<[k := Build_Running h (next now (store s))]> (running s))
      | _ => s
      end
  end.

Definition steps (sts : list Step) (s : System) : System :=
  fold_left (fun s st => step st s) sts s.

(** The handler whose transaction a step commits, if any: calling a
    function and starting a job commit nothing. *)
Definition actor (st : Step) (s : System) : option Handler :=
  match st with
  | Advance k _ =>
      match running s !! k with
      | Some (Build_Running h (Transact _ _)) => Some h
      | _ => None
      end
  | _ => None
  end.

(** The systems reached from a store without scans, dishes and jobs, with no
    handler running. *)
Inductive reachable : System -> Prop :=
| reachable_initial s : initial (store s) -> running s = [] -> reachable s
| reachable_step s st : reachable s -> reachable (step st s).

End Handlers.
End Async.

(** A property of the stores that every transaction of a task keeps, with a
    guarantee on each transaction and a condition on the result: [I] holds
    of the store a transaction runs on, whatever committed before it. *)
Inductive safe {A} (I : World -> Prop) (G : World -> World -> Prop)
    (Q : Thrown + A -> Prop) : Task A -> Prop :=
| safe_Finished r : Q r -> safe I G Q (Finished r)
| safe_Transact commits next :
    (forall now w, I w -> G w (commits now w)) ->
    (forall now w, I w -> safe I G Q (next now w)) ->
    safe I G Q (Transact commits next).

(** ** Auxiliary notions for the statements on the system *)

(** The statuses each handler writes on a scan, as the code performs the
    writes: none of them compares the status it finds with a graph. *)
Definition writes_status (h : Handler) (from to : ScanStatus.t) : Prop :=
  match h with
  | HStoreMenuImage => to = ScanStatus.uploading
  | HStartProcessingScan => to = ScanStatus.processing
  | HProcessScanPipeline =>
      to = ScanStatus.processing \/ to = ScanStatus.extracting
      \/ to = ScanStatus.generating \/ to = ScanStatus.completed \/ to = ScanStatus.failed
  | HGenerateDishImage => to = ScanStatus.completed
  | HGenerateRemainingImages => to = ScanStatus.generating
  | HGenerateSingleDishImage =>
      (from = ScanStatus.completed /\ to = ScanStatus.generating)
      \/ (from <> ScanStatus.completed /\ to = from)
  | HStopImageGeneration | HForceCompleteScan => to = ScanStatus.completed
  | HEnsureDeviceUser | HCreateMenuScan | HUpdateMenuName | HDeleteScan => False
  end.

Definition event_written_by (h : option Handler) (e : Event) : Prop :=
  match e with
  | EvScanStatus _ from to =>
      match h with
      | Some h => writes_status h from to
      | None => False
      end
  | _ => True
  end.

(** The bounds on the image counters of a scan that hold at every point in
    time. *)
Definition counters_in_range (CONFIG : Config) (s : MenuScan.t) : Prop :=
  0 <= MenuScan.imagesGenerated s
  /\ 0 <= MenuScan.imagesRequested s <= MAX_IMAGES_PER_SCAN CONFIG.

(** The status graph of the specification: the edges of the path from
    pending to completed, and failed from any status that is not terminal. *)
Definition spec_status_edge (from to : ScanStatus.t) : Prop :=
  (from = ScanStatus.pending /\ to = ScanStatus.uploading)
  \/ (from = ScanStatus.uploading /\ to = ScanStatus.processing)
  \/ (from = ScanStatus.processing /\ to = ScanStatus.extracting)
  \/ (from = ScanStatus.extracting /\ to = ScanStatus.generating)
  \/ (from = ScanStatus.generating /\ to = ScanStatus.completed)
  \/ (from <> ScanStatus.completed /\ from <> ScanStatus.failed /\ to = ScanStatus.failed).

(** The section name of a dish is the name of a property of
    [Object.prototype]. *)
Definition inherited_name (d : Dish.t) : bool :=
  match truthy_string (Dish.sectionName d) with
  | Some n => bool_decide (n ∈ Object_prototype)
  | None => false
  end.

(** A transaction that appends to the trace entries of a given kind. *)
Definition appends (allowed : Event -> Prop) (w w' : World) : Prop :=
  exists evs, trace w' = trace w ++ evs /\ Forall allowed evs.

(** Every scan of the store has its image counters in range. *)
Definition scans_in_range (CONFIG : Config) (w : World) : Prop :=
  forall id s, menuScans w !! id = Some s -> counters_in_range CONFIG s.

(** The items of a reply in the order in which the two dish loops of the
    pipeline take them, each with the section name it is created with. *)
Definition raw_entries (parsed : RawVision) : list (Json * RawItem) :=
  concat (map (fun section =>
                 map (fun item => (raw_section_name section, item)) (raw_items section))
            (default [] (raw_sections parsed)))
  ++ match raw_itemsFallback parsed with
     | Some items => map (fun item => (JAbsent, item)) items
     | None => []
     end.

Definition raw_of_entry (x : option string * MenuItem) : Json * RawItem :=
  (json_of_option (fst x), raw_of_item (snd x)).

(** The validator of [createDish] accepts the item: its name is a string,
    and its description, price and section name are strings or absent. *)
Definition accepted (e : Json * RawItem) : bool :=
  match v_string (raw_name (snd e)), v_optional_string (raw_description (snd e)),
        v_optional_string (raw_price (snd e)), v_optional_string (fst e) with
  | Some _, Some _, Some _, Some _ => true
  | _, _, _, _ => false
  end.

(** ** Example runs of the system

    The device of the example stores, handler by handler and transaction by
    transaction. *)
Definition ex_raw_menu : RawVision := raw_of_parsed ex_menu.

Definition ex_idle : Async.System := Async.Build_System ex_initial [].

Definition ex_steps : list Async.Step -> Async.System -> Async.System :=
  Async.steps ex_CONFIG ex_isValidProvider.

(** The handler at position [k] performs its next [n] transactions. *)
Definition advance (k n : nat) (now : Z) : list Async.Step := repeat (Async.Advance k now) n.

(** The scan 1 is created, its image stored and processing started; the
    pipeline is started and has written the status processing. *)
Definition ex_async_start : list Async.Step :=
  [Async.Invoke (Async.CreateMenuScan "device-1"); Async.Advance 0 100;
   Async.Invoke (Async.StoreMenuImage 1 7 (Some "https://store/7")); Async.Advance 1 100;
   Async.Invoke (Async.StartProcessingScan 1 None)]
  ++ advance 2 2 101
  ++ [Async.Start 0 (inr ex_raw_menu) ex_image_ok]
  ++ advance 3 2 102.

Definition ex_async_processing : Async.System := ex_steps ex_async_start ex_idle.

(** The pipeline goes on to its end: the store is [ex_generating]. *)
Definition ex_async_generating : Async.System :=
  ex_steps (advance 3 10 102) ex_async_processing.

(** Generation is stopped while the pipeline runs, and the pipeline writes
    its next status. *)
Definition ex_async_midstop : Async.System :=
  ex_steps [Async.Invoke (Async.StopImageGeneration 1); Async.Advance 4 103;
            Async.Advance 3 104]
    ex_async_processing.

(** Generation is stopped before any job ran. *)
Definition ex_async_stopping : Async.System :=
  ex_steps [Async.Invoke (Async.StopImageGeneration 1)] ex_async_generating.

Definition ex_async_stopped : Async.System :=
  ex_steps [Async.Advance 4 103] ex_async_stopping.

(** Then the skipped dish 2 is tapped. *)
Definition ex_async_tapped : Async.System :=
  ex_steps ([Async.Invoke (Async.GenerateSingleDishImage 2 None)] ++ advance 5 2 104)
    ex_async_stopped.

(** Or the remaining images are asked for: the three skipped dishes are
    queued again. *)
Definition ex_async_requeued : Async.System :=
  ex_steps ([Async.Invoke (Async.GenerateRemainingImages 1 None)] ++ advance 5 4 104)
    ex_async_stopped.

(** The three jobs are started and each writes its dish completed; then
    generation is stopped, which counts three completed dishes; then the
    first job reads the counter and adds one. *)
Definition ex_async_race : Async.System :=
  ex_steps ([Async.Start 0 (inr ex_raw_menu) ex_image_ok;
             Async.Start 0 (inr ex_raw_menu) ex_image_ok;
             Async.Start 0 (inr ex_raw_menu) ex_image_ok]
            ++ advance 4 4 103 ++ advance 5 4 103 ++ advance 6 4 103
            ++ [Async.Invoke (Async.StopImageGeneration 1); Async.Advance 7 104]
            ++ advance 4 2 105)
    ex_async_generating.

(** The first image job runs to its end: one image of three is generated. *)
Definition ex_async_one_done : Async.System :=
  ex_steps ([Async.Start 0 (inr ex_raw_menu) ex_image_ok] ++ advance 4 6 103)
    ex_async_generating.

(** A menu with a section called constructor, through the pipeline. *)
Definition ex_raw_inherited : RawVision :=
  Build_RawVision JAbsent
    (Some [Build_RawSection (JString "constructor")
             [Build_RawItem (JString "Soup") JAbsent JAbsent]])
    None.

Definition ex_async_inherited : Async.System :=
  ex_steps ([Async.Invoke (Async.CreateMenuScan "device-1"); Async.Advance 0 100;
             Async.Invoke (Async.StoreMenuImage 1 7 (Some "https://store/7"));
             Async.Advance 1 100;
             Async.Invoke (Async.StartProcessingScan 1 None)]
            ++ advance 2 2 101
            ++ [Async.Start 0 (inr ex_raw_inherited) ex_image_ok]
            ++ advance 3 12 102)
    ex_idle.

(** A reply whose second item has [null] for a name, on the scan that
    [startProcessingScan] has just started. *)
Definition ex_raw_rejected : RawVision :=
  Build_RawVision (JString "Chez Rocq")
    (Some [Build_RawSection (JString "Mains")
             [Build_RawItem (JString "Soup") (JString "Onion soup") (JString "$7");
              Build_RawItem JOther JAbsent JAbsent;
              Build_RawItem (JString "Salad") JAbsent JAbsent]])
    (Some [Build_RawItem (JString "Tea") JAbsent (JString "$2")]).

Definition ex_async_started : Async.System :=
  ex_steps ([Async.Invoke (Async.CreateMenuScan "device-1"); Async.Advance 0 100;
             Async.Invoke (Async.StoreMenuImage 1 7 (Some "https://store/7"));
             Async.Advance 1 100;
             Async.Invoke (Async.StartProcessingScan 1 None)]
            ++ advance 2 2 101)
    ex_idle.

(** * Properties *)

(** ** Documents under [patch] *)

Lemma dish_set_id f d : Dish._id (Dish.set f d) = Dish._id d.
Proof. destruct d, f; reflexivity. Qed.

Lemma dish_set_scanId f d : Dish.scanId (Dish.set f d) = Dish.scanId d.
Proof. destruct d, f; reflexivity. Qed.

Lemma dish_patch_id updates d : Dish._id (Dish.patch updates d) = Dish._id d.
Proof.
  unfold Dish.patch. revert d.
  induction updates as [|f fs IH]; intros d; simpl; [reflexivity|].
  rewrite IH. apply dish_set_id.
Qed.

Lemma dish_patch_scanId updates d : Dish.scanId (Dish.patch updates d) = Dish.scanId d.
Proof.
  unfold Dish.patch. revert d.
  induction updates as [|f fs IH]; intros d; simpl; [reflexivity|].
  rewrite IH. apply dish_set_scanId.
Qed.

Lemma patch_row_id id updates d : Dish._id (patch_row id updates d) = Dish._id d.
Proof. unfold patch_row. destruct (Nat.eqb _ _); [apply dish_patch_id | reflexivity]. Qed.

Lemma patch_row_scanId id updates d : Dish.scanId (patch_row id updates d) = Dish.scanId d.
Proof. unfold patch_row. destruct (Nat.eqb _ _); [apply dish_patch_scanId | reflexivity]. Qed.

(** ** The sections of [getScanWithDishes] *)

Lemma truthy_string_nonempty o : truthy_string o <> Some "".
Proof.
  unfold truthy_string. destruct o as [n|]; [|discriminate].
  destruct (decide (n = "")); congruence.
Qed.

Lemma in_section_empty ds : in_section "" ds = [].
Proof.
  induction ds as [|d ds IH]; [done|]. unfold in_section in *.
  rewrite filter_cons, decide_False; [exact IH|apply truthy_string_nonempty].
Qed.

(** The loop returns when no dish bears an inherited name: the sections
    are then the dishes under each name, in their order. *)
Lemma group_loop_inr ds sections noSection :
  existsb inherited_name ds = false ->
  exists sections',
    group_loop ds (sections, noSection) = inr (sections', noSection ++ without_section ds)
    /\ forall n : string,
         sections' !! n = match in_section n ds with
                          | [] => sections !! n
                          | l => Some (default [] (sections !! n) ++ l)
                          end.
Proof.
  revert sections noSection.
  induction ds as [|d ds IH]; intros sections noSection Hok; cbn [group_loop].
  - exists sections. split; [by rewrite app_nil_r|done].
  - cbn [existsb] in Hok. apply orb_false_iff in Hok as [Hd Hok].
    unfold in_section, without_section in *. unfold group_dish, inherited_name in *.
    destruct (truthy_string (Dish.sectionName d)) as [m|] eqn:Hm.
    + assert (Hstep : exists l, (match sections !! m with
                                 | Some l => inr (<[m := l ++ [d]]> sections, noSection)
                                 | None =>
                                     if bool_decide (m ∈ Object_prototype)
                                     then inl (ErrorObj
                                                 "sections[dish.sectionName].push is not a function")
                                     else inr (<[m := [d]]> sections, noSection)
                                 end : Thrown + (gmap string (list Dish.t) * list Dish.t))
                                = inr (<[m := l]> sections, noSection)
                                /\ l = default [] (sections !! m) ++ [d]).
      { destruct (sections !! m) as [l|]; [by eexists|]. rewrite Hd. by eexists. }
      destruct Hstep as (l & -> & Hl).
      destruct (IH (<[m := l]> sections) noSection Hok) as (sections' & E & Hkeys).
      exists sections'. split.
      * rewrite E, filter_cons, decide_False by congruence. done.
      * intros n. rewrite Hkeys, filter_cons.
        destruct (decide (m = n)) as [->|Hne].
        -- rewrite decide_True by done. rewrite lookup_insert_eq. cbn [default]. subst l.
           destruct (filter (fun d0 => truthy_string (Dish.sectionName d0) = Some n) ds);
             [done|unfold id; by rewrite <- app_assoc].
        -- rewrite decide_False by congruence. by rewrite lookup_insert_ne.
    + destruct (IH sections (noSection ++ [d]) Hok) as (sections' & E & Hkeys).
      exists sections'. split.
      * rewrite E, filter_cons, decide_True by done. by rewrite <- app_assoc.
      * intros n. rewrite Hkeys, filter_cons, decide_False by congruence. done.
Qed.

(** It throws at the first dish that bears an inherited name: no array
    was put under that name. *)
Lemma group_loop_inl ds sections noSection :
  (forall n, n ∈ Object_prototype -> sections !! n = None) ->
  existsb inherited_name ds = true ->
  group_loop ds (sections, noSection)
  = inl (ErrorObj "sections[dish.sectionName].push is not a function").
Proof.
  revert sections noSection.
  induction ds as [|d ds IH]; intros sections noSection Hkeys Hbad; [discriminate|].
  cbn [group_loop existsb] in *. unfold group_dish, inherited_name in *.
  destruct (truthy_string (Dish.sectionName d)) as [m|] eqn:Hm.
  - destruct (bool_decide (m ∈ Object_prototype)) eqn:Hin.
    + apply bool_decide_eq_true in Hin. by rewrite (Hkeys m Hin).
    + cbn [orb] in Hbad. apply bool_decide_eq_false in Hin.
      destruct (sections !! m) as [l|]; apply IH; try exact Hbad.
      all: intros n Hn; rewrite lookup_insert_ne by congruence; by apply Hkeys.
  - cbn [orb] in Hbad. by apply IH.
Qed.

Lemma getScanWithDishes_cases scanId w scan :
  get_scan w scanId = Some scan ->
  let ds := getDishesForScan scanId w in
  if existsb inherited_name ds
  then getScanWithDishes scanId w
       = inl (ErrorObj "sections[dish.sectionName].push is not a function")
  else exists sections,
         getScanWithDishes scanId w
         = inr (Some (Build_ScanWithDishes (Build_ScanWithProgress scan (progress_of scan))
                        ds sections (without_section ds)))
         /\ forall n : string,
              sections !! n = match in_section n ds with
                              | [] => None
                              | l => Some l
                              end.
Proof.
  intros Hs ds. unfold getScanWithDishes. rewrite Hs.
  fold (getDishesForScan scanId w). fold ds. unfold group_sections.
  destruct (existsb inherited_name ds) eqn:Hbad.
  - rewrite group_loop_inl; [done| |exact Hbad]. intros n _. apply lookup_empty.
  - destruct (group_loop_inr ds ∅ [] Hbad) as (sections & -> & Hkeys).
    exists sections. split; [done|].
    intros n. rewrite Hkeys, lookup_empty. by destruct (in_section n ds).
Qed.

(** ** Progress (queries) *)

Lemma progress_of_table scan :
  (MenuScan.status scan = ScanStatus.generating -> 0 < MenuScan.imagesRequested scan) ->
  progress_of scan
  = spec_progress (MenuScan.status scan) (MenuScan.imagesGenerated scan)
      (MenuScan.imagesRequested scan).
Proof.
  intros Hpos. unfold progress_of, spec_progress.
  destruct (MenuScan.status scan); try reflexivity.
  specialize (Hpos eq_refl).
  destruct (Z.ltb_spec 0 (MenuScan.imagesRequested scan)) as [_|Hle]; [|lia].
  f_equal. apply Qcmult_comm.
Qed.

(** C4. The progress returned by [getScan] and by [getScanWithDishes] is the
    table of the specification applied to the status and the two image
    counters of the stored scan: 0, 10, 25, 50, 100, 0 for pending,
    uploading, processing, extracting, completed, failed, and
    60 + 40 * (imagesGenerated / imagesRequested) for generating with
    imagesRequested > 0.  [getScan] returns for every stored scan;
    [getScanWithDishes] returns unless a dish of the scan has the name of a
    property of [Object.prototype] as section name, in which case it throws
    and returns no progress.  Both queries are functions of the store that
    return no store: they have no effect on it. *)
Theorem getScan_progress_table (w : World) (scanId : nat) (scan : MenuScan.t) :
  get_scan w scanId = Some scan ->
  (MenuScan.status scan = ScanStatus.generating -> 0 < MenuScan.imagesRequested scan) ->
  let p := spec_progress (MenuScan.status scan) (MenuScan.imagesGenerated scan)
             (MenuScan.imagesRequested scan) in
  getScan scanId w = Some (Build_ScanWithProgress scan p)
  /\ (forall r, getScanWithDishes scanId w = inr (Some r) ->
                swd_scan r = Build_ScanWithProgress scan p)
  /\ (existsb inherited_name (getDishesForScan scanId w) = false ->
      exists r, getScanWithDishes scanId w = inr (Some r)).
Proof.
  intros Hget Hpos p.
  assert (Hp : progress_of scan = p) by (by apply progress_of_table).
  pose proof (getScanWithDishes_cases scanId w scan Hget) as Hcases. cbv zeta in Hcases.
  split; [|split].
  - unfold getScan. rewrite Hget, Hp. reflexivity.
  - intros r Hr. destruct (existsb inherited_name _).
    + rewrite Hcases in Hr. discriminate.
    + destruct Hcases as (sections & E & _). rewrite E in Hr.
      injection Hr as <-. cbn [swd_scan]. by rewrite Hp.
  - intros Hok. rewrite Hok in Hcases. destruct Hcases as (sections & E & _). eauto.
Qed.

(** ** The single-dish trigger *)

(** C7. On a dish whose image is already completed or being generated,
    [queueSingleDishImage] answers "not queued" and [generateSingleDishImage]
    answers failure, and both leave the whole store as it was: the dish, the
    scan (imagesRequested, estimatedCostUsd, status), the scheduler queue. *)
Theorem queueSingleDishImage_noop_when_done
    (CONFIG : Config) (isValidProvider : string -> bool)
    (w : World) (dishId : nat) (dish : Dish.t) (imageProvider : option string) :
  get_dish w dishId = Some dish ->
  Dish.imageStatus dish = ImageStatus.completed
  \/ Dish.imageStatus dish = ImageStatus.generating ->
  queueSingleDishImage CONFIG dishId w
  = inr (Build_SingleResult false (Some "Image already generated or in progress") None None, w)
  /\ generateSingleDishImage CONFIG isValidProvider dishId imageProvider w
     = (inr (Build_ActionResult false "Image already generated or in progress"), w).
Proof.
  intros Hget Hst.
  assert (Hq : queueSingleDishImage CONFIG dishId w
               = inr (Build_SingleResult false
                        (Some "Image already generated or in progress") None None, w)).
  { unfold queueSingleDishImage, mbind, mread. rewrite Hget.
    destruct Hst as [-> | ->]; reflexivity. }
  split; [exact Hq|].
  unfold generateSingleDishImage, bind, runMutation. rewrite Hq. reflexivity.
Qed.

(** ** Store primitives *)

Lemma find_id_Some (l : list Dish.t) id d :
  List.find (fun d => Nat.eqb (Dish._id d) id) l = Some d -> d ∈ l /\ Dish._id d = id.
Proof.
  intros H. apply List.find_some in H as [Hin Heq].
  split; [by apply list_elem_of_In | by apply Nat.eqb_eq].
Qed.

Lemma find_id_elem (l : list Dish.t) d :
  d ∈ l -> is_Some (List.find (fun d' => Nat.eqb (Dish._id d') (Dish._id d)) l).
Proof.
  intros Hin.
  destruct (List.find _ l) eqn:Hf; [eauto|].
  apply list_elem_of_In in Hin.
  pose proof (List.find_none _ _ Hf _ Hin) as Hn. simpl in Hn.
  rewrite Nat.eqb_refl in Hn. discriminate.
Qed.

Lemma find_id_NoDup (l : list Dish.t) d :
  NoDup (map Dish._id l) -> d ∈ l ->
  List.find (fun d' => Nat.eqb (Dish._id d') (Dish._id d)) l = Some d.
Proof.
  induction l as [|x l IH]; intros Hnd Hin; [by apply elem_of_nil in Hin|].
  simpl in *. apply NoDup_cons in Hnd as [Hx Hnd].
  apply elem_of_cons in Hin as [->|Hin].
  - by rewrite Nat.eqb_refl.
  - destruct (Nat.eqb_spec (Dish._id x) (Dish._id d)) as [Heq|_]; [|by apply IH].
    exfalso. apply Hx. rewrite Heq. apply list_elem_of_fmap. eauto.
Qed.

Lemma find_id_patch_row (l : list Dish.t) id updates id' :
  List.find (fun d => Nat.eqb (Dish._id d) id') (map (patch_row id updates) l)
  = patch_row id updates <$> List.find (fun d => Nat.eqb (Dish._id d) id') l.
Proof.
  induction l as [|x l IH]; [reflexivity|].
  simpl. rewrite patch_row_id. destruct (Nat.eqb _ _); [reflexivity | exact IH].
Qed.

Lemma patch_row_eq updates d : patch_row (Dish._id d) updates d = Dish.patch updates d.
Proof. unfold patch_row. by rewrite Nat.eqb_refl. Qed.

Lemma map_patch_row_ids id updates (l : list Dish.t) :
  map Dish._id (map (patch_row id updates) l) = map Dish._id l.
Proof.
  rewrite map_map. apply map_ext. intros d. apply patch_row_id.
Qed.

Lemma elem_of_by_scanId w id d :
  d ∈ dishes_by_scanId w id <-> d ∈ dishes w /\ Dish.scanId d = id.
Proof. unfold dishes_by_scanId. rewrite list_elem_of_filter. tauto. Qed.

(** The index holds the dishes of the scan, each once. *)
Lemma insert_by_order_Permutation d l : insert_by_order d l ≡ₚ d :: l.
Proof.
  induction l as [|e l IH]; cbn [insert_by_order]; [reflexivity|].
  destruct (decide (order_le d e)); [reflexivity|].
  rewrite IH. apply Permutation_swap.
Qed.

Lemma dishes_by_scanId_order_Permutation w id :
  dishes_by_scanId_order w id ≡ₚ dishes_by_scanId w id.
Proof.
  unfold dishes_by_scanId_order.
  induction (dishes_by_scanId w id) as [|d l IH]; cbn [foldr]; [reflexivity|].
  by rewrite insert_by_order_Permutation, IH.
Qed.

Lemma elem_of_getDishesForScan w id d :
  d ∈ getDishesForScan id w <-> d ∈ dishes w /\ Dish.scanId d = id.
Proof.
  unfold getDishesForScan.
  rewrite dishes_by_scanId_order_Permutation. apply elem_of_by_scanId.
Qed.

Lemma NoDup_ids_filter (P : Dish.t -> Prop) `{!forall d, Decision (P d)} (l : list Dish.t) :
  NoDup (map Dish._id l) -> NoDup (map Dish._id (filter P l)).
Proof.
  induction l as [|x l IH]; intros Hnd; [constructor|].
  simpl in Hnd. apply NoDup_cons in Hnd as [Hx Hnd].
  rewrite filter_cons. destruct (decide (P x)); [|by apply IH].
  simpl. apply NoDup_cons. split; [|by apply IH].
  intros Hin. apply Hx. apply list_elem_of_fmap in Hin as (d & -> & Hd).
  apply list_elem_of_fmap. exists d. split; [done|].
  by apply list_elem_of_filter in Hd as [_ ?].
Qed.

(** With unique ids, looking a dish of the scan up by id in the scan's
    dishes gives that dish. *)
Lemma find_getDishesForScan w d :
  NoDup (map Dish._id (dishes w)) -> d ∈ dishes w ->
  List.find (fun d' => Nat.eqb (Dish._id d') (Dish._id d)) (getDishesForScan (Dish.scanId d) w)
  = Some d.
Proof.
  intros Hnd Hin. apply find_id_NoDup.
  - unfold getDishesForScan.
    rewrite dishes_by_scanId_order_Permutation. unfold dishes_by_scanId.
    by apply NoDup_ids_filter.
  - apply elem_of_getDishesForScan; auto.
Qed.

Lemma NoDup_fmap_elem_inj {A B} (f : A -> B) (l : list A) x y :
  NoDup (map f l) -> x ∈ l -> y ∈ l -> f x = f y -> x = y.
Proof.
  induction l as [|a l IH]; intros Hnd Hx Hy Hf; [by apply elem_of_nil in Hx|].
  cbn [map] in Hnd. apply NoDup_cons in Hnd as [Hnot Hnd].
  apply elem_of_cons in Hx as [->|Hx]; apply elem_of_cons in Hy as [->|Hy]; auto.
  - exfalso. apply Hnot. rewrite Hf. apply list_elem_of_fmap. eauto.
  - exfalso. apply Hnot. rewrite <- Hf. apply list_elem_of_fmap. eauto.
Qed.

(** ** Projections of an updated store *)

Lemma world_eq (w1 w2 : World) :
  deviceUsers w1 = deviceUsers w2 -> menuScans w1 = menuScans w2 ->
  dishes w1 = dishes w2 -> nextId w1 = nextId w2 ->
  scheduled w1 = scheduled w2 -> trace w1 = trace w2 -> w1 = w2.
Proof. destruct w1, w2; simpl; intros; subst; reflexivity. Qed.

Lemma deviceUsers_with_trace evs w : deviceUsers (with_trace evs w) = deviceUsers w.
Proof. reflexivity. Qed.

Lemma menuScans_with_trace evs w : menuScans (with_trace evs w) = menuScans w.
Proof. reflexivity. Qed.

Lemma dishes_with_trace evs w : dishes (with_trace evs w) = dishes w.
Proof. reflexivity. Qed.

Lemma nextId_with_trace evs w : nextId (with_trace evs w) = nextId w.
Proof. reflexivity. Qed.

Lemma scheduled_with_trace evs w : scheduled (with_trace evs w) = scheduled w.
Proof. reflexivity. Qed.

Lemma trace_with_trace evs w : trace (with_trace evs w) = trace w ++ evs.
Proof. reflexivity. Qed.

Lemma deviceUsers_set_deviceUsers us w : deviceUsers (set_deviceUsers us w) = us.
Proof. reflexivity. Qed.

Lemma menuScans_set_deviceUsers us w : menuScans (set_deviceUsers us w) = menuScans w.
Proof. reflexivity. Qed.

Lemma dishes_set_deviceUsers us w : dishes (set_deviceUsers us w) = dishes w.
Proof. reflexivity. Qed.

Lemma nextId_set_deviceUsers us w : nextId (set_deviceUsers us w) = nextId w.
Proof. reflexivity. Qed.

Lemma scheduled_set_deviceUsers us w : scheduled (set_deviceUsers us w) = scheduled w.
Proof. reflexivity. Qed.

Lemma trace_set_deviceUsers us w : trace (set_deviceUsers us w) = trace w.
Proof. reflexivity. Qed.

Lemma deviceUsers_set_menuScans m w : deviceUsers (set_menuScans m w) = deviceUsers w.
Proof. reflexivity. Qed.

Lemma menuScans_set_menuScans m w : menuScans (set_menuScans m w) = m.
Proof. reflexivity. Qed.

Lemma dishes_set_menuScans m w : dishes (set_menuScans m w) = dishes w.
Proof. reflexivity. Qed.

Lemma nextId_set_menuScans m w : nextId (set_menuScans m w) = nextId w.
Proof. reflexivity. Qed.

Lemma scheduled_set_menuScans m w : scheduled (set_menuScans m w) = scheduled w.
Proof. reflexivity. Qed.

Lemma trace_set_menuScans m w : trace (set_menuScans m w) = trace w.
Proof. reflexivity. Qed.

Lemma deviceUsers_set_dishes ds w : deviceUsers (set_dishes ds w) = deviceUsers w.
Proof. reflexivity. Qed.

Lemma menuScans_set_dishes ds w : menuScans (set_dishes ds w) = menuScans w.
Proof. reflexivity. Qed.

Lemma dishes_set_dishes ds w : dishes (set_dishes ds w) = ds.
Proof. reflexivity. Qed.

Lemma nextId_set_dishes ds w : nextId (set_dishes ds w) = nextId w.
Proof. reflexivity. Qed.

Lemma scheduled_set_dishes ds w : scheduled (set_dishes ds w) = scheduled w.
Proof. reflexivity. Qed.

Lemma trace_set_dishes ds w : trace (set_dishes ds w) = trace w.
Proof. reflexivity. Qed.

Lemma deviceUsers_set_nextId n w : deviceUsers (set_nextId n w) = deviceUsers w.
Proof. reflexivity. Qed.

Lemma menuScans_set_nextId n w : menuScans (set_nextId n w) = menuScans w.
Proof. reflexivity. Qed.

Lemma dishes_set_nextId n w : dishes (set_nextId n w) = dishes w.
Proof. reflexivity. Qed.

Lemma nextId_set_nextId n w : nextId (set_nextId n w) = n.
Proof. reflexivity. Qed.

Lemma scheduled_set_nextId n w : scheduled (set_nextId n w) = scheduled w.
Proof. reflexivity. Qed.

Lemma trace_set_nextId n w : trace (set_nextId n w) = trace w.
Proof. reflexivity. Qed.

Lemma deviceUsers_set_scheduled js w : deviceUsers (set_scheduled js w) = deviceUsers w.
Proof. reflexivity. Qed.

Lemma menuScans_set_scheduled js w : menuScans (set_scheduled js w) = menuScans w.
Proof. reflexivity. Qed.

Lemma dishes_set_scheduled js w : dishes (set_scheduled js w) = dishes w.
Proof. reflexivity. Qed.

Lemma nextId_set_scheduled js w : nextId (set_scheduled js w) = nextId w.
Proof. reflexivity. Qed.

Lemma scheduled_set_scheduled js w : scheduled (set_scheduled js w) = js.
Proof. reflexivity. Qed.

Lemma trace_set_scheduled js w : trace (set_scheduled js w) = trace w.
Proof. reflexivity. Qed.

Create Rewrite HintDb world.

#[global] Hint Rewrite
  deviceUsers_with_trace
  menuScans_with_trace
  dishes_with_trace
  nextId_with_trace
  scheduled_with_trace
  trace_with_trace
  deviceUsers_set_deviceUsers
  menuScans_set_deviceUsers
  dishes_set_deviceUsers
  nextId_set_deviceUsers
  scheduled_set_deviceUsers
  trace_set_deviceUsers
  deviceUsers_set_menuScans
  menuScans_set_menuScans
  dishes_set_menuScans
  nextId_set_menuScans
  scheduled_set_menuScans
  trace_set_menuScans
  deviceUsers_set_dishes
  menuScans_set_dishes
  dishes_set_dishes
  nextId_set_dishes
  scheduled_set_dishes
  trace_set_dishes
  deviceUsers_set_nextId
  menuScans_set_nextId
  dishes_set_nextId
  nextId_set_nextId
  scheduled_set_nextId
  trace_set_nextId
  deviceUsers_set_scheduled
  menuScans_set_scheduled
  dishes_set_scheduled
  nextId_set_scheduled
  scheduled_set_scheduled
  trace_set_scheduled
  : world.


Ltac world_projs :=
  cbn [deviceUsers menuScans dishes nextId scheduled trace];
  autorewrite with world;
  cbn [deviceUsers menuScans dishes nextId scheduled trace].

(** ** What the small mutations write *)

Lemma updateScanStatus_spec now id st sm em w s :
  menuScans w !! id = Some s ->
  exists s',
    updateScanStatus now id st sm em w
    = inr (tt, with_trace [EvScanStatus id (MenuScan.status s) st]
                 (set_menuScans (<[id := s']> (menuScans w)) w))
    /\ MenuScan.status s' = st
    /\ MenuScan.statusMessage s' = from_option Some (MenuScan.statusMessage s) sm
    /\ MenuScan.errorMessage s' = from_option Some (MenuScan.errorMessage s) em
    /\ MenuScan.imageUrl s' = MenuScan.imageUrl s
    /\ counters s' = counters s.
Proof.
  intros Hs. unfold updateScanStatus, patch_scan. rewrite Hs.
  eexists. split; [|].
  - unfold scan_status_events. simpl sets_scan_status. cbv iota.
    do 3 f_equal.
    destruct s, sm, em, (decide (st = ScanStatus.completed)); reflexivity.
  - destruct s, sm, em, (decide (st = ScanStatus.completed)); repeat split; reflexivity.
Qed.

Lemma Qcplus_zero_r (x : Qc) : (x + Qc_of_Z 0)%Qc = x.
Proof. rewrite Z2Qc_inj_0. apply Qcplus_0_r. Qed.

Lemma truthy_cost_add (c : Qc) (o : option Qc) :
  (c + default (Qc_of_Z 0) (truthy_cost o))%Qc = (c + default (Qc_of_Z 0) o)%Qc.
Proof.
  destruct o as [x|]; simpl; [|reflexivity].
  destruct (decide (x = Qc_of_Z 0)) as [->|]; reflexivity.
Qed.

Lemma updateScanProgress_spec id args w s :
  menuScans w !! id = Some s ->
  exists s',
    updateScanProgress id args w = inr (tt, set_menuScans (<[id := s']> (menuScans w)) w)
    /\ MenuScan.status s' = MenuScan.status s
    /\ MenuScan.statusMessage s' = MenuScan.statusMessage s
    /\ MenuScan.errorMessage s' = MenuScan.errorMessage s
    /\ MenuScan.imageUrl s' = MenuScan.imageUrl s
    /\ MenuScan.totalDishes s' = default (MenuScan.totalDishes s) (arg_totalDishes args)
    /\ MenuScan.dishesExtracted s'
       = default (MenuScan.dishesExtracted s) (arg_dishesExtracted args)
    /\ MenuScan.imagesGenerated s'
       = default (MenuScan.imagesGenerated s) (arg_imagesGenerated args)
    /\ MenuScan.imagesRequested s'
       = default (MenuScan.imagesRequested s) (arg_imagesRequested args)
    /\ MenuScan.actualCostUsd s'
       = (MenuScan.actualCostUsd s + default (Qc_of_Z 0) (arg_addActualCost args))%Qc
    /\ MenuScan.estimatedCostUsd s'
       = (MenuScan.estimatedCostUsd s + default (Qc_of_Z 0) (arg_addEstimatedCost args))%Qc.
Proof.
  intros Hs. unfold updateScanProgress, get_scan, patch_scan. rewrite Hs.
  eexists. split.
  - unfold scan_status_events.
    replace (sets_scan_status _) with false.
    + unfold with_trace. simpl. rewrite app_nil_r. reflexivity.
    + destruct args as [a b c d e f g]; simpl.
      destruct a, b, c, d, e, (truthy_cost f), (truthy_cost g); reflexivity.
  - rewrite <- (truthy_cost_add _ (arg_addActualCost args)).
    rewrite <- (truthy_cost_add _ (arg_addEstimatedCost args)).
    destruct args as [a b c d e f g]; simpl.
    pose proof Qcplus_zero_r as H0.
    destruct s, a, b, c, d, e, (truthy_cost f), (truthy_cost g); simpl;
      rewrite ?H0; repeat split; reflexivity.
Qed.

Lemma updateDishImage_spec now id args w d :
  get_dish w id = Some d ->
  exists updates,
    updateDishImage now id args w
    = inr (tt, with_trace [EvDishStatus id (Dish.imageStatus d) (di_imageStatus args)]
                 (set_dishes (map (patch_row id updates) (dishes w)) w))
    /\ (forall d0, Dish.imageStatus (Dish.patch updates d0) = di_imageStatus args)
    /\ (forall d0, Dish.imageError (Dish.patch updates d0)
                   = from_option Some (Dish.imageError d0) (di_imageError args)).
Proof.
  intros Hd. unfold updateDishImage, patch_dish. rewrite Hd.
  eexists. split; [|split].
  - unfold dish_status_events. simpl sets_dish_status. cbv iota.
    apply find_id_Some in Hd as [_ ->].
    do 5 f_equal.
    destruct d, args as [a b c e f g]; simpl.
    destruct b, c, e, f, g, (decide (a = ImageStatus.completed)); reflexivity.
  - intros d0. destruct d0, args as [a b c e f g]; simpl.
    destruct b, c, e, f, g, (decide (a = ImageStatus.completed)); reflexivity.
  - intros d0. destruct d0, args as [a b c e f g]; simpl.
    destruct b, c, e, f, g, (decide (a = ImageStatus.completed)); reflexivity.
Qed.

(** ** The image generation worker *)

Lemma count_job_spec now scanId cost msg w scan :
  menuScans w !! scanId = Some scan ->
  exists s' evs,
    count_job now scanId cost msg w
    = (inr tt, with_trace evs (set_menuScans (<[scanId := s']> (menuScans w)) w))
    /\ MenuScan.imagesGenerated s' = MenuScan.imagesGenerated scan + 1
    /\ MenuScan.imagesRequested s' = MenuScan.imagesRequested scan
    /\ MenuScan.totalDishes s' = MenuScan.totalDishes scan
    /\ MenuScan.actualCostUsd s'
       = (MenuScan.actualCostUsd scan + default (Qc_of_Z 0) cost)%Qc
    /\ MenuScan.estimatedCostUsd s' = MenuScan.estimatedCostUsd scan
    /\ if MenuScan.imagesRequested scan <=? MenuScan.imagesGenerated scan + 1
       then MenuScan.status s' = ScanStatus.completed
            /\ MenuScan.statusMessage s' = Some msg
            /\ evs = [EvScanStatus scanId (MenuScan.status scan) ScanStatus.completed]
       else MenuScan.status s' = MenuScan.status scan
            /\ MenuScan.statusMessage s' = MenuScan.statusMessage scan
            /\ evs = [].
Proof.
  intros Hs. unfold count_job, bind, runQuery, getScan, get_scan. rewrite Hs.
  destruct (updateScanProgress_spec scanId
              (Build_ScanProgressArgs None None (Some (MenuScan.imagesGenerated scan + 1))
                 None None cost None) w scan Hs)
    as (s1 & E1 & Hst1 & Hsm1 & _ & _ & Htd1 & _ & Hig1 & Hir1 & Hac1 & Hec1).
  simpl in Htd1, Hig1, Hir1, Hac1, Hec1.
  unfold runMutation at 1. rewrite E1.
  destruct (Z.leb_spec (MenuScan.imagesRequested scan) (MenuScan.imagesGenerated scan + 1)).
  - set (w1 := set_menuScans _ w).
    assert (Hs1 : menuScans w1 !! scanId = Some s1) by apply lookup_insert_eq.
    destruct (updateScanStatus_spec now scanId ScanStatus.completed (Some msg) None w1 s1 Hs1)
      as (s2 & E2 & Hst2 & Hsm2 & _ & _ & Hc2).
    unfold runMutation. rewrite E2. exists s2, [EvScanStatus scanId (MenuScan.status scan) ScanStatus.completed].
    injection Hc2 as Htd2 _ Hig2 Hir2 Hec2 Hac2.
    split.
    { subst w1. unfold with_trace, set_menuScans. simpl.
      rewrite insert_insert_eq, Hst1. reflexivity. }
    rewrite Hig2, Hir2, Htd2, Hac2, Hec2. rewrite Qcplus_zero_r in Hec1. repeat split; assumption.
  - exists s1, []. split.
    { unfold with_trace. simpl. rewrite app_nil_r. reflexivity. }
    rewrite Qcplus_zero_r in Hec1. repeat split; assumption.
Qed.

Lemma patch_row_twice id u1 u2 d :
  patch_row id u2 (patch_row id u1 d) = patch_row id (u1 ++ u2) d.
Proof.
  unfold patch_row. destruct (Nat.eqb_spec (Dish._id d) id) as [Heq|Hne].
  - rewrite dish_patch_id. destruct (Nat.eqb_spec (Dish._id d) id); [|done].
    unfold Dish.patch. by rewrite fold_left_app.
  - destruct (Nat.eqb_spec (Dish._id d) id); done.
Qed.

Lemma dish_patch_app u1 u2 d : Dish.patch (u1 ++ u2) d = Dish.patch u2 (Dish.patch u1 d).
Proof. unfold Dish.patch. by rewrite fold_left_app. Qed.

(** The whole effect of one job of the worker on a dish it finds in its
    scan: the job never looks at the image status of the dish. *)
Lemma generateDishImage_spec CONFIG now dishId scanId provider img w dish scan :
  List.find (fun d => Nat.eqb (Dish._id d) dishId) (getDishesForScan scanId w) = Some dish ->
  menuScans w !! scanId = Some scan ->
  let o := image_outcome CONFIG provider img in
  exists d0, get_dish w dishId = Some d0 /\ exists s' updates evs,
    generateDishImage CONFIG now dishId scanId provider img w
       = (inr tt,
          mkWorld (deviceUsers w) (<[scanId := s']> (menuScans w))
            (map (patch_row dishId updates) (dishes w)) (nextId w) (scheduled w)
            (trace w ++ [EvDishStatus dishId (Dish.imageStatus d0) ImageStatus.generating;
                         EvImageAPI dishId provider;
                         EvDishStatus dishId ImageStatus.generating (job_final_status o)]
                     ++ evs))
    /\ (forall d, Dish.imageStatus (Dish.patch updates d) = job_final_status o)
    /\ (forall d e, o = inl e ->
                    Dish.imageError (Dish.patch updates d) = Some (error_message e))
    /\ MenuScan.imagesGenerated s' = MenuScan.imagesGenerated scan + 1
    /\ MenuScan.imagesRequested s' = MenuScan.imagesRequested scan
    /\ MenuScan.totalDishes s' = MenuScan.totalDishes scan
    /\ MenuScan.actualCostUsd s' = (MenuScan.actualCostUsd scan + job_cost o)%Qc
    /\ MenuScan.estimatedCostUsd s' = MenuScan.estimatedCostUsd scan
    /\ if MenuScan.imagesRequested scan <=? MenuScan.imagesGenerated scan + 1
       then MenuScan.status s' = ScanStatus.completed
            /\ MenuScan.statusMessage s' = Some (job_done_message o)
            /\ evs = [EvScanStatus scanId (MenuScan.status scan) ScanStatus.completed]
       else MenuScan.status s' = MenuScan.status scan
            /\ MenuScan.statusMessage s' = MenuScan.statusMessage scan
            /\ evs = [].
Proof.
  intros Hfind Hscan o.
  pose proof (find_id_Some _ _ _ Hfind) as [Hin Hid].
  apply elem_of_getDishesForScan in Hin as [Hin Hsc].
  destruct (find_id_elem _ _ Hin) as [d0 Hd0]. rewrite Hid in Hd0.
  pose proof (find_id_Some _ _ _ Hd0) as [_ Hid0].
  assert (Hgen : forall u, (forall d, Dish.imageStatus (Dish.patch u d) = ImageStatus.generating) ->
                           Dish.imageStatus (patch_row dishId u d0) = ImageStatus.generating).
  { intros u Hu. rewrite <- Hid0, patch_row_eq. apply Hu. }
  exists d0. split; [exact Hd0|].
  unfold generateDishImage, try_catch.
  unfold bind at 1, runQuery at 1. rewrite Hfind.
  (* imageStatus := generating *)
  destruct (updateDishImage_spec now dishId (only_status ImageStatus.generating) w d0 Hd0)
    as (u1 & E1 & Hu1 & _).
  unfold bind at 1, runMutation at 1. rewrite E1. simpl di_imageStatus.
  unfold bind at 1, log at 1.
  set (w2 := with_trace [EvImageAPI dishId provider] _).
  assert (Hd2 : get_dish w2 dishId = Some (patch_row dishId u1 d0)).
  { unfold get_dish. subst w2. simpl. by rewrite find_id_patch_row, Hd0. }
  assert (Hs2 : menuScans w2 !! scanId = Some scan) by exact Hscan.
  unfold bind at 1.
  (* the provider and the blob store *)
  assert (Hfail : forall e w2',
    w2' = w2 -> o = inl e ->
    exists s' updates evs,
      (runMutation (updateDishImage now dishId
                      (Build_DishImageArgs ImageStatus.failed None None None None
                         (Some (error_message e)))) ;;;
       count_job now scanId None "Processing complete (some images failed)")%action w2'
      = (inr tt,
          mkWorld (deviceUsers w) (<[scanId := s']> (menuScans w))
            (map (patch_row dishId updates) (dishes w)) (nextId w) (scheduled w)
            (trace w ++ [EvDishStatus dishId (Dish.imageStatus d0) ImageStatus.generating;
                         EvImageAPI dishId provider;
                         EvDishStatus dishId ImageStatus.generating (job_final_status o)]
                     ++ evs))
    /\ (forall d, Dish.imageStatus (Dish.patch updates d) = job_final_status o)
    /\ (forall d e, o = inl e ->
                    Dish.imageError (Dish.patch updates d) = Some (error_message e))
    /\ MenuScan.imagesGenerated s' = MenuScan.imagesGenerated scan + 1
    /\ MenuScan.imagesRequested s' = MenuScan.imagesRequested scan
    /\ MenuScan.totalDishes s' = MenuScan.totalDishes scan
    /\ MenuScan.actualCostUsd s' = (MenuScan.actualCostUsd scan + job_cost o)%Qc
    /\ MenuScan.estimatedCostUsd s' = MenuScan.estimatedCostUsd scan
    /\ if MenuScan.imagesRequested scan <=? MenuScan.imagesGenerated scan + 1
       then MenuScan.status s' = ScanStatus.completed
            /\ MenuScan.statusMessage s' = Some (job_done_message o)
            /\ evs = [EvScanStatus scanId (MenuScan.status scan) ScanStatus.completed]
       else MenuScan.status s' = MenuScan.status scan
            /\ MenuScan.statusMessage s' = MenuScan.statusMessage scan
            /\ evs = []).
  { intros e w2' -> Ho.
    destruct (updateDishImage_spec now dishId
                (Build_DishImageArgs ImageStatus.failed None None None None
                   (Some (error_message e))) w2 _ Hd2) as (u2 & E2 & Hu2 & Herr2).
    unfold bind at 1, runMutation at 1. rewrite E2. simpl di_imageStatus.
    set (w3 := with_trace _ _).
    destruct (count_job_spec now scanId None "Processing complete (some images failed)"
                w3 scan Hs2) as (s' & evs & E3 & Hig & Hir & Htd & Hac & Hec & Hstat).
    rewrite E3. exists s', (u1 ++ u2), evs.
    rewrite Ho. simpl job_final_status. simpl job_cost. simpl job_done_message.
    split.
    { subst w3 w2. unfold with_trace, set_menuScans, set_dishes. simpl.
      rewrite map_map, (map_ext _ (patch_row dishId (u1 ++ u2)))
        by (intros; apply patch_row_twice).
      rewrite (Hgen u1 Hu1), <- !app_assoc. reflexivity. }
    split; [intros d; by rewrite dish_patch_app, Hu2|].
    split; [intros d e' He'; injection He' as <-; by rewrite dish_patch_app, Herr2|].
    simpl in Hac. repeat split; assumption. }
  subst o. unfold image_outcome in *.
  destruct (callImageAPI CONFIG provider (api_reply img)) as [e|[imageUrl cost]] eqn:Hapi.
  { simpl lift. unfold throw. apply (Hfail e); reflexivity. }
  simpl lift. unfold ret at 1. unfold bind at 1.
  destruct (store_reply img) as [e|[storageId storedUrl]] eqn:Hstore.
  { simpl lift. unfold throw. apply (Hfail e); reflexivity. }
  clear Hfail. simpl lift. unfold ret at 1. simpl snd.
  destruct (updateDishImage_spec now dishId
              (Build_DishImageArgs ImageStatus.completed (Some storageId) (Some storedUrl)
                 (Some provider) (Some cost) None) w2 _ Hd2) as (u2 & E2 & Hu2 & Herr2).
  unfold bind at 1, runMutation at 1. rewrite E2. simpl di_imageStatus.
  set (w3 := with_trace _ _).
  destruct (count_job_spec now scanId (Some cost) "All images generated!"
              w3 scan Hs2) as (s' & evs & E3 & Hig & Hir & Htd & Hac & Hec & Hstat).
  rewrite E3. exists s', (u1 ++ u2), evs.
  simpl job_final_status. simpl job_cost. simpl job_done_message.
  split.
  { subst w3 w2. unfold with_trace, set_menuScans, set_dishes. simpl.
    rewrite map_map, (map_ext _ (patch_row dishId (u1 ++ u2)))
      by (intros; apply patch_row_twice).
    rewrite (Hgen u1 Hu1), <- !app_assoc. reflexivity. }
  split; [intros d; by rewrite dish_patch_app, Hu2|].
  split; [intros d e' He'; discriminate|].
  simpl in Hac. repeat split; assumption.
Qed.

(** C6. When the image generation of a job throws (the provider, the
    download or the blob store), the dish becomes failed with the message
    of the error, imagesGenerated of the scan is incremented and
    actualCostUsd is left as it was; if the incremented count reaches
    imagesRequested, the scan becomes completed with the status message
    "Processing complete (some images failed)", and otherwise its status
    does not change. *)
Theorem generateDishImage_failure_still_counts
    CONFIG now dishId scanId provider img w dish scan e :
  List.find (fun d => Nat.eqb (Dish._id d) dishId) (getDishesForScan scanId w) = Some dish ->
  menuScans w !! scanId = Some scan ->
  image_outcome CONFIG provider img = inl e ->
  let w' := run (generateDishImage CONFIG now dishId scanId provider img) w in
  exists d' s',
    get_dish w' dishId = Some d'
    /\ Dish.imageStatus d' = ImageStatus.failed
    /\ Dish.imageError d' = Some (error_message e)
    /\ menuScans w' !! scanId = Some s'
    /\ MenuScan.imagesGenerated s' = MenuScan.imagesGenerated scan + 1
    /\ MenuScan.actualCostUsd s' = MenuScan.actualCostUsd scan
    /\ (MenuScan.imagesRequested scan <= MenuScan.imagesGenerated scan + 1 ->
        MenuScan.status s' = ScanStatus.completed
        /\ MenuScan.statusMessage s' = Some "Processing complete (some images failed)")
    /\ (MenuScan.imagesGenerated scan + 1 < MenuScan.imagesRequested scan ->
        MenuScan.status s' = MenuScan.status scan).
Proof.
  intros Hfind Hscan Ho w'.
  destruct (generateDishImage_spec CONFIG now dishId scanId provider img w dish scan
              Hfind Hscan)
    as (d0 & Hd0 & s' & updates & evs & E & Hst & Herr & Hig & _ & _ & Hac & _ & Hdone).
  subst w'. unfold run. rewrite E. simpl snd.
  rewrite Ho in *. simpl in Hst, Hac, Hdone.
  pose proof (find_id_Some _ _ _ Hd0) as [_ Hid0].
  exists (Dish.patch updates d0), s'.
  split. { unfold get_dish in *. simpl. rewrite find_id_patch_row, Hd0. simpl.
           by rewrite <- Hid0, patch_row_eq. }
  split; [apply Hst|].
  split; [by apply Herr|].
  split; [apply lookup_insert_eq|].
  split; [exact Hig|].
  split; [by rewrite Hac, Qcplus_zero_r|].
  destruct (Z.leb_spec (MenuScan.imagesRequested scan) (MenuScan.imagesGenerated scan + 1)).
  - split; [intros _; tauto | lia].
  - split; [lia | intros _; tauto].
Qed.

(** C3, as the code has it.  The worker has no guard on the image status:
    for every dish it finds in its scan, whatever the status of the stored
    dish (completed and generating included), it writes generating, calls
    the image provider, writes completed or failed according to the outcome,
    and counts the job on the scan (imagesGenerated + 1, and the unit cost on
    success). *)
Theorem generateDishImage_ignores_imageStatus
    CONFIG now dishId scanId provider img w dish scan :
  List.find (fun d => Nat.eqb (Dish._id d) dishId) (getDishesForScan scanId w) = Some dish ->
  menuScans w !! scanId = Some scan ->
  let o := image_outcome CONFIG provider img in
  let w' := run (generateDishImage CONFIG now dishId scanId provider img) w in
  exists d0 d' s' evs,
    get_dish w dishId = Some d0
    /\ trace w' = trace w ++ [EvDishStatus dishId (Dish.imageStatus d0) ImageStatus.generating;
                              EvImageAPI dishId provider;
                              EvDishStatus dishId ImageStatus.generating (job_final_status o)]
                          ++ evs
    /\ get_dish w' dishId = Some d'
    /\ Dish.imageStatus d' = job_final_status o
    /\ menuScans w' !! scanId = Some s'
    /\ MenuScan.imagesGenerated s' = MenuScan.imagesGenerated scan + 1
    /\ MenuScan.actualCostUsd s' = (MenuScan.actualCostUsd scan + job_cost o)%Qc.
Proof.
  intros Hfind Hscan o w'.
  destruct (generateDishImage_spec CONFIG now dishId scanId provider img w dish scan
              Hfind Hscan)
    as (d0 & Hd0 & s' & updates & evs & E & Hst & _ & Hig & _ & _ & Hac & _ & _).
  subst w'. unfold run. rewrite E. simpl snd.
  pose proof (find_id_Some _ _ _ Hd0) as [_ Hid0].
  exists d0, (Dish.patch updates d0), s', evs.
  split; [exact Hd0|].
  split; [reflexivity|].
  split. { unfold get_dish in *. simpl. rewrite find_id_patch_row, Hd0. simpl.
           by rewrite <- Hid0, patch_row_eq. }
  split; [apply Hst|].
  split; [apply lookup_insert_eq|].
  split; assumption.
Qed.

(** ** The statements above on the example stores *)

Lemma getScan_progress_table_witness :
  let scan := default (new_scan ex_CONFIG 0 "") (get_scan ex_one_failed 1) in
  let p := spec_progress (MenuScan.status scan) (MenuScan.imagesGenerated scan)
             (MenuScan.imagesRequested scan) in
  getScan 1 ex_one_failed = Some (Build_ScanWithProgress scan p)
  /\ (forall r, getScanWithDishes 1 ex_one_failed = inr (Some r) ->
                swd_scan r = Build_ScanWithProgress scan p)
  /\ (existsb inherited_name (getDishesForScan 1 ex_one_failed) = false ->
      exists r, getScanWithDishes 1 ex_one_failed = inr (Some r)).
Proof.
  apply (getScan_progress_table ex_one_failed 1
           (default (new_scan ex_CONFIG 0 "") (get_scan ex_one_failed 1))).
  - vm_compute. reflexivity.
  - intros _. vm_compute. reflexivity.
Defined.

Lemma queueSingleDishImage_noop_when_done_witness :
  queueSingleDishImage ex_CONFIG 2 ex_completed
  = inr (Build_SingleResult false (Some "Image already generated or in progress") None None,
         ex_completed).
Proof.
  refine (proj1 (queueSingleDishImage_noop_when_done ex_CONFIG ex_isValidProvider
                   ex_completed 2
                   (default (Dish.mk 0 0 "" None None None 0 ImageStatus.pending
                               None None None None None 0 None)
                      (get_dish ex_completed 2))
                   None _ _)).
  - vm_compute. reflexivity.
  - left. vm_compute. reflexivity.
Defined.

Lemma generateDishImage_failure_still_counts_witness :
  let w' := run (generateDishImage ex_CONFIG 103 2 1 "openai" ex_image_error) ex_generating in
  exists d' s',
    get_dish w' 2 = Some d'
    /\ Dish.imageStatus d' = ImageStatus.failed
    /\ Dish.imageError d' = Some "OpenAI Image API error: rate limit"
    /\ menuScans w' !! 1%nat = Some s'
    /\ MenuScan.imagesGenerated s' = 1.
Proof.
  intros w'.
  destruct (generateDishImage_failure_still_counts ex_CONFIG 103 2 1 "openai" ex_image_error
              ex_generating
              (default (Dish.mk 0 0 "" None None None 0 ImageStatus.pending
                          None None None None None 0 None)
                 (get_dish ex_generating 2))
              (default (new_scan ex_CONFIG 0 "") (get_scan ex_generating 1))
              (ErrorObj "OpenAI Image API error: rate limit"))
    as (d' & s' & H1 & H2 & H3 & H4 & H5 & _).
  - vm_compute. reflexivity.
  - vm_compute. reflexivity.
  - vm_compute. reflexivity.
  - exists d', s'. repeat split; assumption.
Defined.

Lemma generateDishImage_ignores_imageStatus_witness :
  let w' := run (generateDishImage ex_CONFIG 105 2 1 "openai" ex_image_ok) ex_second_job in
  exists d0 evs,
    get_dish ex_second_job 2 = Some d0
    /\ trace w' = trace ex_second_job
                  ++ [EvDishStatus 2 (Dish.imageStatus d0) ImageStatus.generating;
                      EvImageAPI 2 "openai";
                      EvDishStatus 2 ImageStatus.generating ImageStatus.completed]
                  ++ evs.
Proof.
  intros w'.
  destruct (generateDishImage_ignores_imageStatus ex_CONFIG 105 2 1 "openai" ex_image_ok
              ex_second_job
              (default (Dish.mk 0 0 "" None None None 0 ImageStatus.pending
                          None None None None None 0 None)
                 (get_dish ex_second_job 2))
              (default (new_scan ex_CONFIG 0 "") (get_scan ex_second_job 1)))
    as (d0 & d' & s' & evs & H1 & H2 & _).
  - vm_compute. reflexivity.
  - vm_compute. reflexivity.
  - exists d0, evs. split; assumption.
Defined.

(** C3, as stated, fails.  In [ex_second_job] the dish 2 is completed and a
    second job for it is in the queue; that job does not reject: it writes
    generating, calls the provider, and counts a second image on the scan. *)
Lemma generateDishImage_reruns_completed_dish :
  let w := ex_second_job in
  let w' := run (generateDishImage ex_CONFIG 105 2 1 "openai" ex_image_ok) w in
  scheduled w !! 2%nat = Some (JobGenerate 2 1 "openai")
  /\ Dish.imageStatus <$> get_dish w 2 = Some ImageStatus.completed
  /\ trace w' = trace w ++ [EvDishStatus 2 ImageStatus.completed ImageStatus.generating;
                            EvImageAPI 2 "openai";
                            EvDishStatus 2 ImageStatus.generating ImageStatus.completed]
  /\ MenuScan.imagesGenerated <$> menuScans w !! 1%nat = Some 1
  /\ MenuScan.imagesGenerated <$> menuScans w' !! 1%nat = Some 2
  /\ w' <> w.
Proof.
  intros w w'.
  assert (H1 : MenuScan.imagesGenerated <$> menuScans w !! 1%nat = Some 1)
    by (vm_compute; reflexivity).
  assert (H2 : MenuScan.imagesGenerated <$> menuScans w' !! 1%nat = Some 2)
    by (vm_compute; reflexivity).
  repeat split; try assumption; try (vm_compute; reflexivity).
  intros E. rewrite E, H1 in H2. discriminate H2.
Qed.

(** ** The dish loops of the mutations *)

Lemma get_dish_set_dishes_map w id updates id' :
  get_dish (set_dishes (map (patch_row id updates) (dishes w)) w) id'
  = patch_row id updates <$> get_dish w id'.
Proof. unfold get_dish. simpl. apply find_id_patch_row. Qed.

Lemma patch_all_ids sel l ds : map Dish._id (patch_all sel l ds) = map Dish._id ds.
Proof.
  unfold patch_all. revert ds. induction l as [|x l IH]; intros ds; [reflexivity|].
  simpl. rewrite IH. destruct (sel x); [apply map_patch_row_ids | reflexivity].
Qed.

Lemma patch_all_find sel l ds id :
  is_Some (List.find (fun d => Nat.eqb (Dish._id d) id) ds) ->
  is_Some (List.find (fun d => Nat.eqb (Dish._id d) id) (patch_all sel l ds)).
Proof.
  unfold patch_all. revert ds. induction l as [|x l IH]; intros ds Hs; [exact Hs|].
  simpl. apply IH. destruct (sel x); [|exact Hs].
  rewrite find_id_patch_row. destruct Hs as [d ->]. simpl. eauto.
Qed.

(** A loop of that shape never throws when the dishes it walks are rows of
    the table; it changes the [dishes] table only, and writes image
    statuses only. *)
Lemma mforEach_select {S} sel (f : Dish.t -> S -> S) l acc w :
  (forall d, d ∈ l -> is_Some (get_dish w (Dish._id d))) ->
  exists evs,
    mforEach (select_body sel f) l acc w
    = inr (fold_left (fun a d => f d a) l acc,
           with_trace evs (set_dishes (patch_all sel l (dishes w)) w))
    /\ scan_events evs = [].
Proof.
  revert acc w. induction l as [|x l IH]; intros acc w Hl.
  - exists []. split; [|reflexivity]. simpl. unfold mret, with_trace, set_dishes.
    rewrite app_nil_r. by destruct w.
  - simpl mforEach. unfold select_body at 1, patch_all. simpl fold_left.
    destruct (sel x) as [updates|] eqn:Hsel.
    + destruct (Hl x) as [d0 Hd0]; [by left|].
      unfold mbind at 1 2, patch_dish. rewrite Hd0. unfold mret at 1.
      set (w1 := with_trace _ _).
      destruct (IH (f x acc) w1) as (evs & E & Hevs).
      { intros d Hd. subst w1. unfold get_dish. simpl.
        rewrite find_id_patch_row. destruct (Hl d) as [d1 Hd1]; [by right|].
        unfold get_dish in Hd1. rewrite Hd1. simpl. eauto. }
      exists (dish_status_events d0 updates ++ evs). split.
      * rewrite E. subst w1. unfold with_trace, set_dishes. simpl.
        by rewrite app_assoc.
      * unfold scan_events in *. rewrite List.filter_app, Hevs, app_nil_r.
        unfold dish_status_events. by destruct (sets_dish_status updates).
    + unfold mbind, mret.
      destruct (IH (f x acc) w) as (evs & E & Hevs).
      { intros d Hd. apply Hl. by right. }
      exists evs. split; [exact E | exact Hevs].
Qed.

(** With unique ids, the loop patches exactly the selected rows of [l]. *)
Lemma patch_all_NoDup sel l ds :
  NoDup (map Dish._id ds) -> NoDup l -> (forall d, d ∈ l -> d ∈ ds) ->
  patch_all sel l ds
  = map (fun d => if decide (d ∈ l)
                  then match sel d with Some updates => Dish.patch updates d | None => d end
                  else d) ds.
Proof.
  unfold patch_all. revert ds. induction l as [|x l IH]; intros ds Hnd Hl Hsub.
  - simpl. symmetry. rewrite <- (map_id ds) at 2. apply map_ext. intros d.
    destruct (decide (d ∈ [])) as [Hin|]; [by apply elem_of_nil in Hin | reflexivity].
  - apply NoDup_cons in Hl as [Hx Hl]. simpl.
    assert (Hxin : x ∈ ds) by (apply Hsub; by left).
    assert (Huniq : forall d, d ∈ ds -> Dish._id d = Dish._id x -> d = x).
    { intros d Hd Hid. pose proof (find_id_NoDup ds d Hnd Hd) as H1.
      pose proof (find_id_NoDup ds x Hnd Hxin) as H2. rewrite Hid in H1. congruence. }
    destruct (sel x) as [updates|] eqn:Hsel.
    + rewrite IH.
      * rewrite map_map. apply map_ext_in. intros d Hd%list_elem_of_In.
        unfold patch_row. destruct (Nat.eqb_spec (Dish._id d) (Dish._id x)) as [Hid|Hid].
        -- apply Huniq in Hid as ->; [|done].
           destruct (decide (x ∈ x :: l)) as [_|Hn]; [|exfalso; apply Hn; by left].
           rewrite Hsel.
           destruct (decide (Dish.patch updates x ∈ l)) as [Hin|]; [|reflexivity].
           exfalso. apply Hx.
           assert (Dish.patch updates x = x) as <-; [|exact Hin].
           apply Huniq; [apply Hsub; by right | apply dish_patch_id].
        -- destruct (decide (d ∈ l)) as [Hin|Hnin].
           ++ destruct (decide (d ∈ x :: l)) as [_|Hn]; [done | exfalso; apply Hn; by right].
           ++ destruct (decide (d ∈ x :: l)) as [Hin2|_]; [|done].
              apply elem_of_cons in Hin2 as [->|?]; done.
      * by rewrite map_patch_row_ids.
      * exact Hl.
      * intros d Hd. apply list_elem_of_fmap. exists d. split; [|apply Hsub; by right].
        unfold patch_row. destruct (Nat.eqb_spec (Dish._id d) (Dish._id x)) as [Hid|]; [|done].
        exfalso. apply Hx. rewrite <- (Huniq d); [done | apply Hsub; by right | done].
    + rewrite IH; [|done|done|intros d Hd; apply Hsub; by right].
      apply map_ext_in. intros d Hd%list_elem_of_In.
      destruct (decide (d ∈ l)) as [Hin|Hnin].
      * destruct (decide (d ∈ x :: l)) as [_|Hn]; [done | exfalso; apply Hn; by right].
      * destruct (decide (d ∈ x :: l)) as [Hin2|_]; [|done].
        apply elem_of_cons in Hin2 as [->|?]; [by rewrite Hsel | done].
Qed.

(** ** Stopping and forcing completion *)

Lemma mforEach_ext {A S} (body1 body2 : A -> S -> Mutation S) l :
  (forall x s w, body1 x s w = body2 x s w) ->
  forall s w, mforEach body1 l s w = mforEach body2 l s w.
Proof.
  intros Hb. induction l as [|x l IH]; intros s w; [reflexivity|].
  simpl. unfold mbind. rewrite Hb.
  destruct (body2 x s w) as [e|[s' w']]; [reflexivity | apply IH].
Qed.

Lemma count_status_cons st d l :
  count_status st (d :: l) = (if has_status st d then 1 else 0) + count_status st l.
Proof.
  unfold count_status. simpl. destruct (has_status st d); simpl length; lia.
Qed.

Lemma fold_stop_count l skipped completed :
  fold_left (fun a d => stop_count d a) l (skipped, completed)
  = (skipped + count_status ImageStatus.queued l,
     completed + count_status ImageStatus.completed l).
Proof.
  revert skipped completed.
  induction l as [|d l IH]; intros skipped completed.
  - simpl. unfold count_status. simpl. f_equal; lia.
  - cbn [fold_left]. rewrite !count_status_cons.
    assert (E : stop_count d (skipped, completed)
                = (skipped + (if has_status ImageStatus.queued d then 1 else 0),
                   completed + (if has_status ImageStatus.completed d then 1 else 0))).
    { unfold stop_count, has_status.
      destruct (Dish.imageStatus d); simpl; f_equal; lia. }
    rewrite E, IH. f_equal; lia.
Qed.

Lemma fold_force_count l completed :
  fold_left (fun a d => force_count d a) l completed
  = completed + count_status ImageStatus.completed l.
Proof.
  revert completed.
  induction l as [|d l IH]; intros completed.
  - simpl. unfold count_status. simpl. lia.
  - cbn [fold_left]. rewrite !count_status_cons.
    assert (E : force_count d completed
                = completed + (if has_status ImageStatus.completed d then 1 else 0)).
    { unfold force_count, has_status.
      destruct (Dish.imageStatus d); simpl; lia. }
    rewrite E, IH. lia.
Qed.

Lemma by_scanId_rows w id d :
  d ∈ dishes_by_scanId w id -> is_Some (get_dish w (Dish._id d)).
Proof. intros [Hd _]%elem_of_by_scanId. by apply find_id_elem. Qed.

Lemma stopImageGeneration_spec now id w scan :
  menuScans w !! id = Some scan ->
  let ds := dishes_by_scanId w id in
  let completed := count_status ImageStatus.completed ds in
  let skipped := count_status ImageStatus.queued ds in
  let s' := MenuScan.patch
              [MenuScan.Status ScanStatus.completed;
               MenuScan.ImagesGenerated completed;
               MenuScan.StatusMessage ("Stopped - " +:+ pretty completed
                                       +:+ " images completed, "
                                       +:+ pretty skipped +:+ " skipped");
               MenuScan.CompletedAt now] scan in
  exists evs,
    stopImageGeneration now id w
    = inr (Build_StopResult completed skipped,
           mkWorld (deviceUsers w) (<[id := s']> (menuScans w))
             (patch_all stop_sel ds (dishes w)) (nextId w) (scheduled w)
             (trace w ++ evs
              ++ [EvScanStatus id (MenuScan.status scan) ScanStatus.completed]))
    /\ scan_events evs = [].
Proof.
  intros Hs ds completed skipped s'.
  destruct (mforEach_select stop_sel stop_count ds (0, 0) w) as (evs & E & Hevs).
  { intros d Hd. by eapply by_scanId_rows. }
  exists evs. split; [|exact Hevs].
  unfold stopImageGeneration.
  unfold mbind at 1, mread at 1, get_scan. rewrite Hs.
  unfold mbind at 1, mread at 1. fold ds.
  unfold mbind at 1.
  rewrite (mforEach_ext _ (select_body stop_sel stop_count)).
  2:{ intros x [sk c] w0. unfold select_body, stop_sel, stop_count.
      destruct (Dish.imageStatus x); reflexivity. }
  rewrite E, fold_stop_count. simpl fst. simpl snd.
  replace (0 + count_status ImageStatus.queued ds) with skipped by (subst skipped; lia).
  replace (0 + count_status ImageStatus.completed ds) with completed by (subst completed; lia).
  unfold mbind, patch_scan. simpl menuScans. rewrite Hs.
  unfold mret. do 2 f_equal.
  unfold with_trace, set_menuScans, set_dishes, scan_status_events. simpl.
  rewrite <- app_assoc. f_equal. f_equal. f_equal.
  destruct scan; reflexivity.
Qed.

Lemma forceCompleteScan_spec now id w scan :
  menuScans w !! id = Some scan ->
  let ds := dishes_by_scanId w id in
  let completedImages := count_status ImageStatus.completed ds in
  let s' := MenuScan.patch
              [MenuScan.Status ScanStatus.completed;
               MenuScan.ImagesGenerated completedImages;
               MenuScan.StatusMessage ("Completed with " +:+ pretty completedImages
                                       +:+ " images");
               MenuScan.CompletedAt now] scan in
  exists evs,
    forceCompleteScan now id w
    = inr (Build_ForceResult completedImages (Z.of_nat (length ds)),
           mkWorld (deviceUsers w) (<[id := s']> (menuScans w))
             (patch_all force_sel ds (dishes w)) (nextId w) (scheduled w)
             (trace w ++ evs
              ++ [EvScanStatus id (MenuScan.status scan) ScanStatus.completed]))
    /\ scan_events evs = [].
Proof.
  intros Hs ds completedImages s'.
  destruct (mforEach_select force_sel force_count ds 0 w) as (evs & E & Hevs).
  { intros d Hd. by eapply by_scanId_rows. }
  exists evs. split; [|exact Hevs].
  unfold forceCompleteScan.
  unfold mbind at 1, mread at 1, get_scan. rewrite Hs.
  unfold mbind at 1, mread at 1. fold ds.
  unfold mbind at 1.
  rewrite (mforEach_ext _ (select_body force_sel force_count)).
  2:{ intros x c w0. unfold select_body, force_sel, force_count.
      destruct (Dish.imageStatus x); reflexivity. }
  rewrite E, fold_force_count.
  replace (0 + count_status ImageStatus.completed ds) with completedImages
    by (subst completedImages; lia).
  unfold mbind, patch_scan. simpl menuScans. rewrite Hs.
  unfold mret. do 2 f_equal.
  unfold with_trace, set_menuScans, set_dishes, scan_status_events. simpl.
  rewrite <- app_assoc. f_equal. f_equal. f_equal.
  destruct scan; reflexivity.
Qed.

Lemma by_scanId_NoDup w id :
  NoDup (map Dish._id (dishes w)) -> NoDup (dishes_by_scanId w id).
Proof.
  intros Hnd. apply (NoDup_fmap_1 Dish._id). unfold dishes_by_scanId.
  by apply NoDup_ids_filter.
Qed.

(** C8. On a table with unique ids, [stopImageGeneration] turns every
    queued dish of the scan into skipped and leaves every other row of the
    table as it was (the generating dishes among them); the scan becomes
    completed and its status message records the number of dishes that were
    already completed. *)
Theorem stopImageGeneration_skips_queued now id w scan :
  NoDup (map Dish._id (dishes w)) ->
  menuScans w !! id = Some scan ->
  let w' := commit (stopImageGeneration now id) w in
  let completed := count_status ImageStatus.completed (dishes_by_scanId w id) in
  let skipped := count_status ImageStatus.queued (dishes_by_scanId w id) in
  dishes w' = map (stop_row id) (dishes w)
  /\ (forall d, Dish.imageStatus d = ImageStatus.generating -> stop_row id d = d)
  /\ (forall d, Dish.scanId d = id -> Dish.imageStatus d = ImageStatus.queued ->
                Dish.imageStatus (stop_row id d) = ImageStatus.skipped)
  /\ exists s',
       menuScans w' !! id = Some s'
       /\ MenuScan.status s' = ScanStatus.completed
       /\ MenuScan.statusMessage s'
          = Some ("Stopped - " +:+ pretty completed +:+ " images completed, "
                  +:+ pretty skipped +:+ " skipped").
Proof.
  intros Hnd Hs w' completed skipped.
  destruct (stopImageGeneration_spec now id w scan Hs) as (evs & E & _).
  subst w'. unfold commit. rewrite E. simpl dishes. simpl menuScans.
  split; [|split; [|split]].
  - rewrite patch_all_NoDup; [|done|by apply by_scanId_NoDup|].
    2:{ intros d Hd. by apply elem_of_by_scanId in Hd as [? _]. }
    apply map_ext_in. intros d Hd%list_elem_of_In.
    unfold stop_row, stop_sel.
    destruct (decide (d ∈ dishes_by_scanId w id)) as [Hin|Hnin].
    + apply elem_of_by_scanId in Hin as [_ Hsc].
      destruct (decide (Dish.scanId d = id /\ Dish.imageStatus d = ImageStatus.queued))
        as [[_ ->]|Hn]; [reflexivity|].
      destruct (Dish.imageStatus d); try reflexivity. tauto.
    + destruct (decide (Dish.scanId d = id /\ Dish.imageStatus d = ImageStatus.queued))
        as [[Hsc _]|_]; [|reflexivity].
      exfalso. apply Hnin. by apply elem_of_by_scanId.
  - intros d Hg. unfold stop_row.
    destruct (decide _) as [[_ Hq]|_]; [congruence | reflexivity].
  - intros d Hsc Hq. unfold stop_row.
    destruct (decide _) as [_|Hn]; [by destruct d | tauto].
  - eexists. split; [apply lookup_insert_eq|]. by destruct scan.
Qed.

(** C10. [stopImageGeneration] and [forceCompleteScan] both store, as
    imagesGenerated, the number of dishes of the scan that are completed
    when they are called, whatever the counter held before: what failed
    jobs had added to it is gone. *)
Theorem stop_and_force_recount_imagesGenerated now id w scan :
  menuScans w !! id = Some scan ->
  let n := count_status ImageStatus.completed (dishes_by_scanId w id) in
  MenuScan.imagesGenerated <$> menuScans (commit (stopImageGeneration now id) w) !! id
  = Some n
  /\ MenuScan.imagesGenerated <$> menuScans (commit (forceCompleteScan now id) w) !! id
     = Some n.
Proof.
  intros Hs n.
  destruct (stopImageGeneration_spec now id w scan Hs) as (evs1 & E1 & _).
  destruct (forceCompleteScan_spec now id w scan Hs) as (evs2 & E2 & _).
  unfold commit. rewrite E1, E2. simpl menuScans.
  rewrite !lookup_insert_eq. simpl. by destruct scan.
Qed.

Lemma stopImageGeneration_skips_queued_witness :
  Dish.imageStatus <$> dishes (commit (stopImageGeneration 103 1) ex_generating)
  = [ImageStatus.skipped; ImageStatus.skipped; ImageStatus.skipped].
Proof.
  destruct (stopImageGeneration_skips_queued 103 1 ex_generating
              (default (new_scan ex_CONFIG 0 "") (get_scan ex_generating 1)))
    as [H _].
  - apply (bool_decide_unpack _). vm_compute. exact I.
  - vm_compute. reflexivity.
  - rewrite H. vm_compute. reflexivity.
Defined.

Lemma stop_and_force_recount_imagesGenerated_witness :
  MenuScan.imagesGenerated <$> menuScans ex_one_failed !! 1%nat = Some 1
  /\ MenuScan.imagesGenerated
     <$> menuScans (commit (stopImageGeneration 104 1) ex_one_failed) !! 1%nat = Some 0
  /\ MenuScan.imagesGenerated
     <$> menuScans (commit (forceCompleteScan 104 1) ex_one_failed) !! 1%nat = Some 0.
Proof.
  split; [vm_compute; reflexivity|].
  apply (stop_and_force_recount_imagesGenerated 104 1 ex_one_failed
           (default (new_scan ex_CONFIG 0 "") (get_scan ex_one_failed 1))).
  vm_compute. reflexivity.
Defined.

(** ** The pipeline *)

Lemma create_rows_app CONFIG now scanId dishId k xs ys :
  create_rows CONFIG now scanId dishId k (xs ++ ys)
  = create_rows CONFIG now scanId dishId k xs
    ++ create_rows CONFIG now scanId (dishId + length xs) (k + Z.of_nat (length xs)) ys.
Proof.
  revert dishId k. induction xs as [|x xs IH]; intros dishId k; simpl.
  - by rewrite Nat.add_0_r, Z.add_0_r.
  - rewrite IH. do 3 f_equal; lia.
Qed.

Lemma create_rows_length CONFIG now scanId dishId k xs :
  length (create_rows CONFIG now scanId dishId k xs) = length xs.
Proof. revert dishId k. induction xs as [|x xs IH]; intros; simpl; [done | by rewrite IH]. Qed.

Lemma create_rows_imap CONFIG now scanId dishId xs :
  create_rows CONFIG now scanId dishId 0 xs
  = imap (spec_new_dish CONFIG now scanId dishId) xs.
Proof.
  assert (H : forall n dishId0,
             create_rows CONFIG now scanId (dishId0 + n) (Z.of_nat n) xs
             = imap (fun i => spec_new_dish CONFIG now scanId dishId0 (n + i)) xs).
  { induction xs as [|x xs IH]; intros n dishId0; [reflexivity|].
    simpl. f_equal.
    - unfold spec_new_dish. by rewrite !Nat.add_0_r.
    - replace (S (dishId0 + n)) with (dishId0 + S n)%nat by lia.
      replace (Z.of_nat n + 1) with (Z.of_nat (S n)) by lia.
      rewrite IH. apply imap_ext. intros i y _. simpl. f_equal. lia. }
  specialize (H 0%nat dishId). rewrite Nat.add_0_r in H. exact H.
Qed.

Lemma auto_ids_app r1 r2 : auto_ids (r1 ++ r2) = auto_ids r1 ++ auto_ids r2.
Proof. unfold auto_ids. by rewrite List.filter_app, map_app. Qed.

(** One dish loop of the pipeline: it never throws, appends its rows to the
    table and advances the id counter. *)
Lemma forEach_create_item CONFIG now scanId sectionName items k ids w :
  let rows := create_rows CONFIG now scanId (nextId w) k
                (map (fun item => (sectionName, item)) items) in
  forEach (create_item CONFIG now scanId sectionName) items (k, ids) w
  = (inr (k + Z.of_nat (length items), ids ++ auto_ids rows),
     mkWorld (deviceUsers w) (menuScans w) (dishes w ++ rows)
       (nextId w + length items) (scheduled w) (trace w)).
Proof.
  revert k ids w. induction items as [|item items IH]; intros k ids w rows.
  - subst rows. simpl. unfold ret. rewrite Z.add_0_r, !app_nil_r, Nat.add_0_r.
    by destruct w.
  - subst rows. cbn [forEach].
    unfold create_item at 1. unfold bind at 1 2, runMutation, createDish.
    assert (Hok : createDish_status_ok
                    (if k <? AUTO_IMAGE_LIMIT CONFIG
                     then ImageStatus.queued else ImageStatus.pending) = true)
      by (by destruct (k <? AUTO_IMAGE_LIMIT CONFIG)).
    simpl cd_imageStatus. rewrite Hok. unfold ret at 1.
    rewrite IH. simpl.
    f_equal.
    + f_equal. f_equal; [lia|].
      unfold auto_ids at 2. simpl List.filter. unfold has_status at 1. simpl.
      destruct (k <? AUTO_IMAGE_LIMIT CONFIG); simpl.
      * by rewrite <- app_assoc.
      * reflexivity.
    + f_equal; [by rewrite <- app_assoc | lia].
Qed.

Lemma forEach_sections CONFIG now scanId sections k ids w :
  let xs := concat (map (fun section =>
                           map (fun item => (Some (section_name section), item))
                             (section_items section)) sections) in
  let rows := create_rows CONFIG now scanId (nextId w) k xs in
  forEach (fun section st =>
             forEach (create_item CONFIG now scanId (Some (section_name section)))
               (section_items section) st) sections (k, ids) w
  = (inr (k + Z.of_nat (length xs), ids ++ auto_ids rows),
     mkWorld (deviceUsers w) (menuScans w) (dishes w ++ rows)
       (nextId w + length xs) (scheduled w) (trace w)).
Proof.
  revert k ids w. induction sections as [|section sections IH]; intros k ids w xs rows.
  - subst rows xs. simpl. unfold ret. rewrite Z.add_0_r, !app_nil_r, Nat.add_0_r.
    by destruct w.
  - subst rows xs. cbn [forEach]. unfold bind at 1.
    rewrite forEach_create_item. rewrite IH. simpl.
    rewrite create_rows_app, auto_ids_app, length_app, length_map.
    f_equal.
    + f_equal. f_equal; [lia | by rewrite <- app_assoc].
    + f_equal; [by rewrite <- app_assoc | lia].
Qed.

Lemma forEach_schedule scanId provider ids w :
  forEach (fun dishId (_ : unit) => schedule (JobGenerate dishId scanId provider)) ids tt w
  = (inr tt,
     set_scheduled (scheduled w ++ map (fun dishId => JobGenerate dishId scanId provider) ids) w).
Proof.
  revert w. induction ids as [|i ids IH]; intros w.
  - simpl. unfold ret, set_scheduled. rewrite app_nil_r. by destruct w.
  - cbn [forEach]. unfold bind, schedule at 1. rewrite IH.
    unfold set_scheduled. simpl. by rewrite <- app_assoc.
Qed.

Lemma count_dishes_flatten menuData :
  count_dishes menuData = Z.of_nat (length (flatten_menu menuData)).
Proof.
  unfold count_dishes, flatten_menu. rewrite length_app.
  assert (H : forall sections acc,
             fold_left (fun total section =>
                          total + Z.of_nat (length (section_items section))) sections acc
             = acc + Z.of_nat (length (concat (map (fun section =>
                   map (fun item => (Some (section_name section), item))
                     (section_items section)) sections)))).
  { induction sections as [|s ss IH]; intros acc; simpl; [lia|].
    rewrite IH, length_app, length_map. lia. }
  rewrite H. destruct (vm_itemsFallback menuData); simpl; rewrite ?length_map; lia.
Qed.

(** The number of dishes the loops queue is [min(N, AUTO_IMAGE_LIMIT)] clipped
    at zero. *)
Lemma auto_ids_length CONFIG now scanId dishId xs :
  Z.of_nat (length (auto_ids (create_rows CONFIG now scanId dishId 0 xs)))
  = Z.max 0 (Z.min (Z.of_nat (length xs)) (AUTO_IMAGE_LIMIT CONFIG)).
Proof.
  assert (H : forall k dishId0, 0 <= k ->
             Z.of_nat (length (auto_ids (create_rows CONFIG now scanId dishId0 k xs)))
             = Z.max 0 (Z.min (Z.of_nat (length xs)) (AUTO_IMAGE_LIMIT CONFIG - k))).
  { induction xs as [|x xs IH]; intros k dishId0 Hk; [simpl; lia|].
    unfold auto_ids in *. simpl create_rows. simpl List.filter.
    unfold has_status at 1. simpl Dish.imageStatus.
    destruct (Z.ltb_spec k (AUTO_IMAGE_LIMIT CONFIG)); simpl bool_decide; cbv iota.
    - simpl length. rewrite Nat2Z.inj_succ, IH by lia. lia.
    - rewrite IH by lia. simpl length. lia. }
  rewrite H by lia. f_equal. f_equal. lia.
Qed.

(** The pipeline on a scan with an image, when the vision service answers:
    the store it ends in. *)
Lemma processScanPipeline_success CONFIG now scanId provider parsed w scan imageUrl :
  menuScans w !! scanId = Some scan ->
  truthy_string (MenuScan.imageUrl scan) = Some imageUrl ->
  let menuData := Build_VisionMenuOutput (pv_restaurantName parsed)
                    (default [] (pv_sections parsed)) (pv_itemsFallback parsed) in
  let xs := flatten_menu menuData in
  let rows := create_rows CONFIG now scanId (nextId w) 0 xs in
  let n := Z.of_nat (length xs) in
  let last := match auto_ids rows with
              | [] => [EvScanStatus scanId ScanStatus.generating ScanStatus.completed]
              | _ => []
              end in
  exists s',
    processScanPipeline CONFIG now scanId provider (inr parsed) w
    = (inr tt,
       mkWorld (deviceUsers w) (<[scanId := s']> (menuScans w)) (dishes w ++ rows)
         (nextId w + length xs)
         (scheduled w ++ map (fun dishId => JobGenerate dishId scanId provider) (auto_ids rows))
         (trace w
          ++ [EvScanStatus scanId (MenuScan.status scan) ScanStatus.processing;
              EvScanStatus scanId ScanStatus.processing ScanStatus.extracting;
              EvScanStatus scanId ScanStatus.extracting ScanStatus.generating]
          ++ last))
    /\ MenuScan.status s' = match auto_ids rows with
                            | [] => ScanStatus.completed
                            | _ => ScanStatus.generating
                            end
    /\ MenuScan.totalDishes s' = n
    /\ MenuScan.dishesExtracted s' = n
    /\ MenuScan.imagesRequested s' = Z.min n (AUTO_IMAGE_LIMIT CONFIG)
    /\ MenuScan.imagesGenerated s' = MenuScan.imagesGenerated scan.
Proof.
  intros Hs Hurl menuData xs rows n last.
  unfold processScanPipeline, try_catch.
  unfold bind at 1, runQuery at 1, getScan, get_scan. rewrite Hs, Hurl.
  (* status := processing *)
  destruct (updateScanStatus_spec now scanId ScanStatus.processing
              (Some "Extracting menu items with AI...") None w scan Hs)
    as (s1 & E1 & Hst1 & _ & _ & _ & Hc1).
  unfold bind at 1, runMutation at 1. rewrite E1.
  set (w1 := with_trace _ _).
  assert (Hs1 : menuScans w1 !! scanId = Some s1) by apply lookup_insert_eq.
  unfold bind at 1. simpl lift. unfold ret at 1. fold menuData.
  (* status := extracting *)
  destruct (updateScanStatus_spec now scanId ScanStatus.extracting
              (Some "Creating dish records...") None w1 s1 Hs1)
    as (s2 & E2 & Hst2 & _ & _ & _ & Hc2).
  unfold bind at 1, runMutation at 1. rewrite E2.
  set (w2 := with_trace _ _).
  assert (Hs2 : menuScans w2 !! scanId = Some s2) by apply lookup_insert_eq.
  (* totalDishes, restaurantName, vision cost *)
  destruct (updateScanProgress_spec scanId
              (Build_ScanProgressArgs (Some (count_dishes menuData)) None None None
                 (vm_restaurantName menuData) (Some (VISION_PARSE (COSTS CONFIG))) None)
              w2 s2 Hs2)
    as (s3 & E3 & Hst3 & _ & _ & _ & Htd3 & Hde3 & Hig3 & Hir3 & _ & _).
  unfold bind at 1, runMutation at 1. rewrite E3.
  set (w3 := set_menuScans _ w2).
  assert (Hs3 : menuScans w3 !! scanId = Some s3) by apply lookup_insert_eq.
  (* the dish loops *)
  unfold bind at 1. rewrite forEach_sections.
  set (w4 := mkWorld _ _ _ _ _ _).
  unfold bind at 1.
  assert (E5 : (match vm_itemsFallback menuData with
                | Some items => forEach (create_item CONFIG now scanId None) items
                                  (0 + Z.of_nat (length (concat (map (fun section =>
                                     map (fun item => (Some (section_name section), item))
                                       (section_items section)) (vm_sections menuData)))),
                                   [] ++ auto_ids (create_rows CONFIG now scanId (nextId w3) 0
                                     (concat (map (fun section =>
                                        map (fun item => (Some (section_name section), item))
                                          (section_items section)) (vm_sections menuData)))))
                | None => ret (0 + Z.of_nat (length (concat (map (fun section =>
                                     map (fun item => (Some (section_name section), item))
                                       (section_items section)) (vm_sections menuData)))),
                                   [] ++ auto_ids (create_rows CONFIG now scanId (nextId w3) 0
                                     (concat (map (fun section =>
                                        map (fun item => (Some (section_name section), item))
                                          (section_items section)) (vm_sections menuData)))))
                end) w4
               = (inr (n, auto_ids rows),
                  mkWorld (deviceUsers w) (menuScans w3) (dishes w ++ rows)
                    (nextId w + length xs) (scheduled w) (trace w3))).
  { subst rows xs n. unfold flatten_menu.
    destruct (vm_itemsFallback menuData) as [items|].
    - rewrite forEach_create_item. subst w4. simpl.
      rewrite create_rows_app, auto_ids_app, !length_app, !length_map.
      f_equal.
      + f_equal. f_equal. lia.
      + f_equal; [by rewrite <- app_assoc | lia].
    - unfold ret. subst w4. simpl. rewrite !app_nil_r. reflexivity. }
  rewrite E5. clear E5. simpl snd.
  set (w5 := mkWorld _ _ _ _ _ _).
  assert (Hs5 : menuScans w5 !! scanId = Some s3) by exact Hs3.
  (* dishesExtracted, imagesRequested, estimated cost *)
  match goal with
  | |- context [updateScanProgress scanId ?args] =>
      destruct (updateScanProgress_spec scanId args w5 s3 Hs5)
        as (s6 & E6 & Hst6 & _ & _ & _ & Htd6 & Hde6 & Hig6 & Hir6 & _ & _)
  end.
  unfold bind at 1, runMutation at 1. rewrite E6.
  set (w6 := set_menuScans _ w5).
  assert (Hs6 : menuScans w6 !! scanId = Some s6) by apply lookup_insert_eq.
  (* status := generating *)
  match goal with
  | |- context [updateScanStatus now scanId ScanStatus.generating ?sm None] =>
      destruct (updateScanStatus_spec now scanId ScanStatus.generating sm None w6 s6 Hs6)
        as (s7 & E7 & Hst7 & _ & _ & _ & Hc7)
  end.
  unfold bind at 1, runMutation at 1. rewrite E7.
  set (w7 := with_trace _ _).
  assert (Hs7 : menuScans w7 !! scanId = Some s7) by apply lookup_insert_eq.
  (* the jobs *)
  unfold bind at 1. rewrite forEach_schedule.
  set (w8 := set_scheduled _ w7).
  assert (Hs8 : menuScans w8 !! scanId = Some s7) by exact Hs7.
  simpl in Htd3, Hde3, Hig3, Hir3, Htd6, Hde6, Hig6, Hir6.
  injection Hc1 as Htd1 Hde1 Hig1 Hir1 _ _.
  injection Hc2 as Htd2 Hde2 Hig2 Hir2 _ _.
  injection Hc7 as Htd7 Hde7 Hig7 Hir7 _ _.
  rewrite count_dishes_flatten in *. fold xs in Htd3, Htd6, Hde6, Hir6. fold n in Htd3, Hde6, Hir6.
  destruct (auto_ids rows) as [|i0 ids] eqn:Hids.
  - (* nothing queued: status := completed *)
    destruct (updateScanStatus_spec now scanId ScanStatus.completed
                (Some "Menu processed successfully!") None w8 s7 Hs8)
      as (s9 & E9 & Hst9 & _ & _ & _ & Hc9).
    unfold runMutation. rewrite E9.
    injection Hc9 as Htd9 Hde9 Hig9 Hir9 _ _.
    exists s9. split.
    + f_equal. subst w8 w7 w6 w5 w3 w2 w1 last.
      apply world_eq; world_projs; try reflexivity.
      all: rewrite ?insert_insert_eq, ?Hst7, ?Hst6, ?Hst3, ?Hst2, ?Hst1, <- ?app_assoc,
             ?app_nil_r; reflexivity.
    + repeat split; congruence.
  - exists s7. split.
    + unfold ret. f_equal. subst w8 w7 w6 w5 w3 w2 w1 last.
      apply world_eq; world_projs; try reflexivity.
      all: rewrite ?insert_insert_eq, ?Hst7, ?Hst6, ?Hst3, ?Hst2, ?Hst1, <- ?app_assoc,
             ?app_nil_r; reflexivity.
    + repeat split; congruence.
Qed.

Lemma filter_queued_nil_auto_ids rows :
  List.filter (has_status ImageStatus.queued) rows = [] <-> auto_ids rows = [].
Proof.
  unfold auto_ids. split; [by intros ->|].
  destruct (List.filter _ rows); [done | discriminate].
Qed.

Lemma create_rows_none_queued CONFIG now scanId dishId xs :
  AUTO_IMAGE_LIMIT CONFIG = 0 ->
  List.filter (has_status ImageStatus.queued) (create_rows CONFIG now scanId dishId 0 xs) = [].
Proof.
  intros H0.
  assert (H : forall k dishId0, 0 <= k ->
             List.filter (has_status ImageStatus.queued)
               (create_rows CONFIG now scanId dishId0 k xs) = []).
  { induction xs as [|x xs IH]; intros k dishId0 Hk; [reflexivity|].
    simpl. unfold has_status at 1. simpl.
    destruct (Z.ltb_spec k (AUTO_IMAGE_LIMIT CONFIG)); [lia|].
    simpl. apply IH. lia. }
  apply H. lia.
Qed.

(** C5, as the code has it.  After a successful extraction of N dishes the
    pipeline has appended one dish per item, in menu order, with display
    orders 0, 1, 2, ..., queued where the display order is below
    AUTO_IMAGE_LIMIT and pending elsewhere, and has set imagesRequested to
    min(N, AUTO_IMAGE_LIMIT).  The scan is always set to generating; when no
    dish was queued (in particular when AUTO_IMAGE_LIMIT = 0) it is set to
    completed right after, with no job scheduled. *)
Theorem processScanPipeline_creates_dishes
    CONFIG now scanId provider parsed w scan imageUrl :
  menuScans w !! scanId = Some scan ->
  truthy_string (MenuScan.imageUrl scan) = Some imageUrl ->
  let w' := run (processScanPipeline CONFIG now scanId provider (inr parsed)) w in
  let xs := flatten_menu
              (Build_VisionMenuOutput (pv_restaurantName parsed)
                 (default [] (pv_sections parsed)) (pv_itemsFallback parsed)) in
  let N := Z.of_nat (length xs) in
  let created := imap (spec_new_dish CONFIG now scanId (nextId w)) xs in
  let none_queued := List.filter (has_status ImageStatus.queued) created = [] in
  let writes := [EvScanStatus scanId (MenuScan.status scan) ScanStatus.processing;
                 EvScanStatus scanId ScanStatus.processing ScanStatus.extracting;
                 EvScanStatus scanId ScanStatus.extracting ScanStatus.generating] in
  dishes w' = dishes w ++ created
  /\ (AUTO_IMAGE_LIMIT CONFIG = 0 -> none_queued)
  /\ exists s',
       menuScans w' !! scanId = Some s'
       /\ MenuScan.totalDishes s' = N
       /\ MenuScan.imagesRequested s' = Z.min N (AUTO_IMAGE_LIMIT CONFIG)
       /\ (none_queued ->
           MenuScan.status s' = ScanStatus.completed
           /\ scheduled w' = scheduled w
           /\ trace w' = trace w ++ writes
                         ++ [EvScanStatus scanId ScanStatus.generating ScanStatus.completed])
       /\ (~ none_queued ->
           MenuScan.status s' = ScanStatus.generating
           /\ trace w' = trace w ++ writes).
Proof.
  intros Hs Hurl w' xs N created none_queued writes.
  destruct (processScanPipeline_success CONFIG now scanId provider parsed w scan imageUrl
              Hs Hurl) as (s' & E & Hst & Htd & _ & Hir & _).
  fold xs in E, Hst, Htd, Hir. fold N in Htd, Hir.
  rewrite create_rows_imap in E, Hst. fold created in E, Hst.
  subst w'. unfold run. rewrite E. cbn [snd dishes menuScans scheduled trace].
  split; [reflexivity|].
  split. { intros H0. subst none_queued created. rewrite <- create_rows_imap.
           by apply create_rows_none_queued. }
  exists s'. split; [apply lookup_insert_eq|].
  split; [exact Htd|]. split; [exact Hir|].
  subst none_queued. rewrite filter_queued_nil_auto_ids.
  destruct (auto_ids created) as [|i ids].
  - split; [|tauto]. intros _. split; [exact Hst|]. split; [|reflexivity].
    simpl. apply app_nil_r.
  - split; [discriminate|]. intros _. split; [exact Hst|].
    by rewrite app_nil_r.
Qed.

Lemma processScanPipeline_creates_dishes_witness :
  let w' := run (processScanPipeline ex_CONFIG0 102 1 "openai" (inr ex_menu)) ex_started in
  Dish.imageStatus <$> dishes w'
  = [ImageStatus.pending; ImageStatus.pending; ImageStatus.pending]
  /\ MenuScan.imagesRequested <$> menuScans w' !! 1%nat = Some 0.
Proof.
  intros w'.
  destruct (processScanPipeline_creates_dishes ex_CONFIG0 102 1 "openai" ex_menu ex_started
              (default (new_scan ex_CONFIG 0 "") (get_scan ex_started 1)) "https://store/7")
    as (Hd & _ & s' & Hs' & _ & Hir & _).
  - vm_compute. reflexivity.
  - vm_compute. reflexivity.
  - subst w'. rewrite Hd, Hs'. simpl. rewrite Hir. split; vm_compute; reflexivity.
Defined.

(** C5, as stated, fails in its last part.  With AUTO_IMAGE_LIMIT = 0 and a
    menu of three dishes (scenario A), no dish is queued and no job is
    scheduled, yet the scan is first set to generating and only then to
    completed. *)
Lemma processScanPipeline_passes_through_generating :
  let w' := run (processScanPipeline ex_CONFIG0 102 1 "openai" (inr ex_menu)) ex_started in
  AUTO_IMAGE_LIMIT ex_CONFIG0 = 0
  /\ Dish.imageStatus <$> dishes w'
     = [ImageStatus.pending; ImageStatus.pending; ImageStatus.pending]
  /\ List.filter (fun j => match j with JobGenerate _ _ _ => true | _ => false end)
       (scheduled w') = []
  /\ trace w' = trace ex_started
                ++ [EvScanStatus 1 ScanStatus.processing ScanStatus.processing;
                    EvScanStatus 1 ScanStatus.processing ScanStatus.extracting;
                    EvScanStatus 1 ScanStatus.extracting ScanStatus.generating;
                    EvScanStatus 1 ScanStatus.generating ScanStatus.completed].
Proof. repeat split; vm_compute; reflexivity. Qed.

(** The pipeline on a scan without image, or when the vision service
    throws: the scan becomes failed and nothing else changes. *)
Lemma processScanPipeline_failure CONFIG now scanId provider vision w scan :
  menuScans w !! scanId = Some scan ->
  truthy_string (MenuScan.imageUrl scan) = None \/ (exists e, vision = inl e) ->
  exists s' evs,
    processScanPipeline CONFIG now scanId provider vision w
    = (inr tt,
       mkWorld (deviceUsers w) (<[scanId := s']> (menuScans w)) (dishes w) (nextId w)
         (scheduled w) (trace w ++ evs))
    /\ MenuScan.status s' = ScanStatus.failed
    /\ counters s' = counters scan
    /\ (evs = [EvScanStatus scanId (MenuScan.status scan) ScanStatus.failed]
        \/ evs = [EvScanStatus scanId (MenuScan.status scan) ScanStatus.processing;
                  EvScanStatus scanId ScanStatus.processing ScanStatus.failed]).
Proof.
  intros Hs Hcase.
  unfold processScanPipeline, try_catch.
  unfold bind at 1, runQuery at 1, getScan, get_scan. rewrite Hs.
  destruct (truthy_string (MenuScan.imageUrl scan)) as [imageUrl|] eqn:Hurl.
  - destruct Hcase as [|[e ->]]; [discriminate|].
    destruct (updateScanStatus_spec now scanId ScanStatus.processing
                (Some "Extracting menu items with AI...") None w scan Hs)
      as (s1 & E1 & Hst1 & _ & _ & _ & Hc1).
    unfold bind at 1, runMutation at 1. rewrite E1.
    set (w1 := with_trace _ _).
    assert (Hs1 : menuScans w1 !! scanId = Some s1) by apply lookup_insert_eq.
    unfold bind at 1. simpl lift. unfold throw.
    destruct (updateScanStatus_spec now scanId ScanStatus.failed None
                (Some (error_message e)) w1 s1 Hs1)
      as (s2 & E2 & Hst2 & _ & _ & _ & Hc2).
    unfold runMutation. rewrite E2.
    exists s2, [EvScanStatus scanId (MenuScan.status scan) ScanStatus.processing;
                EvScanStatus scanId ScanStatus.processing ScanStatus.failed].
    split; [|split; [exact Hst2 | split; [congruence | by right]]].
    f_equal. subst w1. apply world_eq; world_projs; try reflexivity.
    + by rewrite insert_insert_eq.
    + by rewrite Hst1, <- app_assoc.
  - unfold throw.
    destruct (updateScanStatus_spec now scanId ScanStatus.failed None
                (Some (error_message (ErrorObj "Scan or image not found"))) w scan Hs)
      as (s2 & E2 & Hst2 & _ & _ & _ & Hc2).
    unfold runMutation. rewrite E2.
    exists s2, [EvScanStatus scanId (MenuScan.status scan) ScanStatus.failed].
    split; [|split; [exact Hst2 | split; [exact Hc2 | by left]]].
    f_equal.
Qed.

(** ** Queueing more images *)

Lemma fold_count_one (l : list Dish.t) (q : Z) :
  fold_left (fun a (_ : Dish.t) => a + 1) l q = q + Z.of_nat (length l).
Proof.
  revert q. induction l as [|d l IH]; intros q; simpl fold_left; [simpl; lia|].
  rewrite IH. simpl length. lia.
Qed.

Lemma queueRemainingImages_spec CONFIG scanId w scan :
  menuScans w !! scanId = Some scan ->
  let pendingDishes := List.filter is_pending_or_skipped (dishes_by_scanId w scanId) in
  let toQueue := Z.min (Z.of_nat (length pendingDishes))
                   (MAX_IMAGES_PER_SCAN CONFIG - MenuScan.imagesRequested scan) in
  let l := take (Z.to_nat toQueue) pendingDishes in
  let queued := Z.of_nat (length l) in
  (toQueue = 0 ->
   queueRemainingImages CONFIG scanId w
   = inr (Build_QueueResult 0 "Max images per scan reached" None, w))
  /\ (toQueue <> 0 ->
      exists evs s',
        queueRemainingImages CONFIG scanId w
        = inr (Build_QueueResult queued
                 ("Queued " +:+ pretty queued +:+ " images for generation")
                 (Some (map Dish._id (js_slice0 toQueue pendingDishes))),
               mkWorld (deviceUsers w) (<[scanId := s']> (menuScans w))
                 (patch_all queue_sel l (dishes w)) (nextId w) (scheduled w)
                 (trace w ++ evs
                  ++ [EvScanStatus scanId (MenuScan.status scan) ScanStatus.generating]))
        /\ scan_events evs = []
        /\ MenuScan.status s' = ScanStatus.generating
        /\ MenuScan.imagesRequested s' = MenuScan.imagesRequested scan + queued
        /\ MenuScan.imagesGenerated s' = MenuScan.imagesGenerated scan
        /\ MenuScan.totalDishes s' = MenuScan.totalDishes scan).
Proof.
  intros Hs pendingDishes toQueue l queued.
  unfold queueRemainingImages.
  split.
  - intros H0. unfold mbind at 1, mread at 1, get_scan. rewrite Hs.
    unfold mbind at 1, mread at 1.
    fold pendingDishes. fold toQueue. rewrite H0. reflexivity.
  - intros Hne.
    assert (Hz : (toQueue =? 0) = false) by (by apply Z.eqb_neq).
    unfold mbind at 1, mread at 1, get_scan. rewrite Hs.
    unfold mbind at 1, mread at 1.
    fold pendingDishes. fold toQueue. fold l. rewrite Hz.
    destruct (mforEach_select queue_sel (fun (_ : Dish.t) (q : Z) => q + 1) l 0 w)
      as (evs & E & Hevs).
    { intros d Hd. apply (by_scanId_rows w scanId).
      assert (Hin : d ∈ pendingDishes) by (eapply elem_of_sublist; [exact Hd | apply sublist_take]).
      apply list_elem_of_In, List.filter_In in Hin as [Hin _]. by apply list_elem_of_In. }
    unfold mbind at 1.
    rewrite (mforEach_ext _ (select_body queue_sel (fun (_ : Dish.t) (q : Z) => q + 1))).
    2:{ intros x q w0. reflexivity. }
    rewrite E, fold_count_one. simpl (0 + _). fold queued.
    unfold mbind, patch_scan. world_projs. rewrite Hs. unfold mret.
    eexists evs, _. split.
    + do 2 f_equal. apply world_eq; world_projs; try reflexivity.
      rewrite <- app_assoc. do 2 f_equal. unfold scan_status_events. simpl.
      by destruct scan.
    + split; [exact Hevs|]. by destruct scan.
Qed.

Lemma generateRemainingImages_spec CONFIG isValidProvider scanId imageProvider w scan :
  menuScans w !! scanId = Some scan ->
  let pendingDishes := List.filter is_pending_or_skipped (dishes_by_scanId w scanId) in
  let toQueue := Z.min (Z.of_nat (length pendingDishes))
                   (MAX_IMAGES_PER_SCAN CONFIG - MenuScan.imagesRequested scan) in
  let l := take (Z.to_nat toQueue) pendingDishes in
  let provider := choose_provider CONFIG isValidProvider imageProvider in
  let w' := run (generateRemainingImages CONFIG isValidProvider scanId imageProvider) w in
  (toQueue = 0 -> w' = w)
  /\ (toQueue <> 0 ->
      exists evs s',
        w' = mkWorld (deviceUsers w) (<[scanId := s']> (menuScans w))
               (patch_all queue_sel l (dishes w)) (nextId w)
               (scheduled w ++ map (fun d => JobGenerate (Dish._id d) scanId provider) l)
               (trace w ++ evs
                ++ [EvScanStatus scanId (MenuScan.status scan) ScanStatus.generating])
        /\ scan_events evs = []
        /\ MenuScan.status s' = ScanStatus.generating
        /\ MenuScan.imagesRequested s' = MenuScan.imagesRequested scan + Z.of_nat (length l)
        /\ MenuScan.imagesGenerated s' = MenuScan.imagesGenerated scan
        /\ MenuScan.totalDishes s' = MenuScan.totalDishes scan).
Proof.
  intros Hs pendingDishes toQueue l provider w'.
  destruct (queueRemainingImages_spec CONFIG scanId w scan Hs) as [H0 Hne].
  fold pendingDishes in H0, Hne. fold toQueue in H0, Hne. fold l in Hne.
  subst w'. unfold run, generateRemainingImages, bind, runMutation.
  split.
  - intros Hz. rewrite (H0 Hz). reflexivity.
  - intros Hz. destruct (Hne Hz) as (evs & s' & E & Hevs & Hfacts).
    rewrite E. cbn [queued dishIds].
    exists evs, s'. split; [|split; [exact Hevs | exact Hfacts]].
    destruct (Z.eqb_spec (Z.of_nat (length l)) 0) as [Hl|Hl].
    + assert (l = []) as Hnil by (destruct l; [done | simpl in Hl; lia]).
      unfold ret. simpl snd. rewrite Hnil. simpl. by rewrite app_nil_r.
    + assert (0 < toQueue) as Hpos.
      { destruct (Z.ltb_spec 0 toQueue); [done|]. exfalso. apply Hl.
        subst l. replace (Z.to_nat toQueue) with 0%nat by lia. reflexivity. }
      unfold js_slice0. destruct (Z.ltb_spec toQueue 0); [lia|]. fold l.
      rewrite forEach_schedule. unfold ret. simpl snd.
      apply world_eq; world_projs; try reflexivity.
      by rewrite map_map.
Qed.

Lemma queueSingleDishImage_cases CONFIG dishId w res :
  queueSingleDishImage CONFIG dishId w = res ->
  (exists r, res = inr (r, w) /\ sq_queued r = false)
  \/ (exists e, res = inl e)
  \/ exists dish scan s',
       get_dish w dishId = Some dish
       /\ menuScans w !! Dish.scanId dish = Some scan
       /\ Dish.imageStatus dish <> ImageStatus.completed
       /\ MenuScan.imagesRequested scan < MAX_IMAGES_PER_SCAN CONFIG
       /\ res
          = inr (Build_SingleResult true None (Some dishId) (Some (Dish.scanId dish)),
                 mkWorld (deviceUsers w) (<[Dish.scanId dish := s']> (menuScans w))
                   (map (patch_row dishId [Dish.ImageStatusF ImageStatus.queued]) (dishes w))
                   (nextId w) (scheduled w)
                   (trace w ++ [EvDishStatus dishId (Dish.imageStatus dish) ImageStatus.queued;
                                EvScanStatus (Dish.scanId dish) (MenuScan.status scan)
                                  (MenuScan.status s')]))
       /\ MenuScan.status s' = (if decide (MenuScan.status scan = ScanStatus.completed)
                                then ScanStatus.generating else MenuScan.status scan)
       /\ MenuScan.imagesRequested s' = MenuScan.imagesRequested scan + 1
       /\ MenuScan.imagesGenerated s' = MenuScan.imagesGenerated scan
       /\ MenuScan.totalDishes s' = MenuScan.totalDishes scan.
Proof.
  intros E. unfold queueSingleDishImage in E. unfold mbind at 1, mread at 1 in E.
  destruct (get_dish w dishId) as [dish|] eqn:Hd; [|right; left; eexists; by rewrite <- E].
  assert (Hnoop : res = mret (Build_SingleResult false
                      (Some "Image already generated or in progress") None None) w ->
                  exists r, res = inr (r, w) /\ sq_queued r = false)
    by (intros ->; eexists; split; reflexivity).
  pose proof (find_id_Some _ _ _ Hd) as [_ Hid].
  destruct (Dish.imageStatus dish) eqn:Hst; try (left; apply Hnoop; by rewrite <- E).
  all: clear Hnoop; unfold mbind at 1, mread at 1, get_scan in E.
  all: destruct (menuScans w !! Dish.scanId dish) as [scan|] eqn:Hs;
    [|right; left; eexists; by rewrite <- E].
  all: destruct (Z.leb_spec (MAX_IMAGES_PER_SCAN CONFIG) (MenuScan.imagesRequested scan));
    [left; eexists; split; [by rewrite <- E | reflexivity]|].
  all: right; right; exists dish, scan.
  all: unfold mbind, patch_dish, patch_scan in E; rewrite Hd in E;
    cbn [menuScans with_trace set_dishes] in E; rewrite Hs in E.
  all: eexists; split; [first [reflexivity | exact Hd]|];
    split; [first [reflexivity | exact Hs]|]; split; [congruence|];
    split; [assumption|].
  all: split;
    [ rewrite <- E; unfold mret; do 2 f_equal; apply world_eq; world_projs; try reflexivity;
      rewrite <- app_assoc; f_equal;
      unfold dish_status_events, scan_status_events; simpl;
      rewrite Hid, Hst; destruct dish; reflexivity
    | destruct scan; repeat split; reflexivity ].
Qed.

(** ** Tables rewritten in place *)

Lemma demoted_reshaped ds ds' : demoted ds ds' -> reshaped ds ds'.
Proof. intros (g & ? & ? & ? & _). exists g. auto. Qed.

Lemma reshaped_refl ds : reshaped ds ds.
Proof. exists id. rewrite map_id. auto. Qed.

Lemma demoted_refl ds : demoted ds ds.
Proof. exists id. rewrite map_id. auto. Qed.

Lemma demoted_trans ds1 ds2 ds3 : demoted ds1 ds2 -> demoted ds2 ds3 -> demoted ds1 ds3.
Proof.
  intros (g & -> & Hi & Hs & Hc) (h & -> & Hi' & Hs' & Hc').
  exists (fun d => h (g d)). rewrite map_map. repeat split; try done.
  - intros d. by rewrite Hi', Hi.
  - intros d. by rewrite Hs', Hs.
  - intros d H. apply Hc, Hc', H.
Qed.

Lemma reshaped_patch_row id updates ds : reshaped ds (map (patch_row id updates) ds).
Proof.
  exists (patch_row id updates). split; [done|].
  split; intros d; [apply patch_row_id | apply patch_row_scanId].
Qed.

Lemma demoted_patch_row id updates ds :
  (forall d, Dish.imageStatus (Dish.patch updates d) <> ImageStatus.completed) ->
  demoted ds (map (patch_row id updates) ds).
Proof.
  intros Hne. exists (patch_row id updates). split; [done|].
  split; [intros d; apply patch_row_id|].
  split; [intros d; apply patch_row_scanId|].
  intros d. unfold patch_row. destruct (Nat.eqb _ _); [|done].
  intros H. by apply Hne in H.
Qed.

Lemma demoted_patch_all sel l ds :
  (forall x updates d, sel x = Some updates ->
                       Dish.imageStatus (Dish.patch updates d) <> ImageStatus.completed) ->
  demoted ds (patch_all sel l ds).
Proof.
  intros Hsel. unfold patch_all. revert ds.
  induction l as [|x l IH]; intros ds; [apply demoted_refl|].
  simpl. destruct (sel x) as [updates|] eqn:Hx; [|apply IH].
  eapply demoted_trans; [|apply IH].
  apply demoted_patch_row. intros d. by eapply Hsel.
Qed.

Lemma by_scan_map g a ds :
  (forall d, Dish.scanId (g d) = Dish.scanId d) ->
  by_scan a (map g ds) = map g (by_scan a ds).
Proof.
  intros Hs. unfold by_scan. induction ds as [|d ds IH]; [done|].
  simpl. rewrite !filter_cons, Hs.
  destruct (decide (Dish.scanId d = a)); simpl; by rewrite IH.
Qed.

Lemma by_scan_app a ds1 ds2 : by_scan a (ds1 ++ ds2) = by_scan a ds1 ++ by_scan a ds2.
Proof. unfold by_scan. apply filter_app. Qed.

Lemma by_scan_other a ds :
  (forall d, d ∈ ds -> Dish.scanId d <> a) -> by_scan a ds = [].
Proof.
  intros H. unfold by_scan. induction ds as [|d ds IH]; [done|].
  rewrite filter_cons. destruct (decide (Dish.scanId d = a)) as [Heq|_].
  - exfalso. apply (H d); [by left | done].
  - apply IH. intros d' Hd'. apply H. by right.
Qed.

Lemma count_status_nonneg st l : 0 <= count_status st l.
Proof. unfold count_status. lia. Qed.

Lemma count_status_app st l1 l2 :
  count_status st (l1 ++ l2) = count_status st l1 + count_status st l2.
Proof. unfold count_status. rewrite List.filter_app, length_app. lia. Qed.

Lemma count_status_map_le g l :
  (forall d, Dish.imageStatus (g d) = ImageStatus.completed ->
             Dish.imageStatus d = ImageStatus.completed) ->
  count_status ImageStatus.completed (map g l) <= count_status ImageStatus.completed l.
Proof.
  intros Hc. induction l as [|d l IH]; [done|].
  simpl map. rewrite !count_status_cons. unfold has_status.
  destruct (bool_decide_reflect (Dish.imageStatus (g d) = ImageStatus.completed)) as [H|H].
  - apply Hc in H. rewrite bool_decide_eq_true_2 by done. lia.
  - destruct (bool_decide (Dish.imageStatus d = ImageStatus.completed)); lia.
Qed.

Lemma completed_in_demoted a ds ds' :
  demoted ds ds' -> completed_in a ds' <= completed_in a ds.
Proof.
  intros (g & -> & _ & Hs & Hc). unfold completed_in.
  rewrite by_scan_map by done. by apply count_status_map_le.
Qed.

Lemma by_scan_reshaped_nil a ds ds' :
  reshaped ds ds' -> by_scan a ds = [] -> by_scan a ds' = [].
Proof.
  intros (g & -> & _ & Hs) H. rewrite by_scan_map by done. by rewrite H.
Qed.

Lemma reshaped_ids ds ds' : reshaped ds ds' -> map Dish._id ds' = map Dish._id ds.
Proof.
  intros (g & -> & Hi & _). rewrite map_map. apply map_ext. exact Hi.
Qed.

Lemma reshaped_elem ds ds' d' :
  reshaped ds ds' -> d' ∈ ds' ->
  exists d, d ∈ ds /\ Dish._id d' = Dish._id d /\ Dish.scanId d' = Dish.scanId d.
Proof.
  intros (g & -> & Hi & Hs) (d & -> & Hd)%list_elem_of_fmap. exists d. auto.
Qed.

Lemma reshaped_elem_rev ds ds' d :
  reshaped ds ds' -> d ∈ ds ->
  exists d', d' ∈ ds' /\ Dish._id d' = Dish._id d /\ Dish.scanId d' = Dish.scanId d.
Proof.
  intros (g & -> & Hi & Hs) Hd. exists (g d).
  split; [apply list_elem_of_fmap; eauto | auto].
Qed.

(** With unique ids, patching the row of a dish of the scan [a] leaves the
    dishes of the other scans alone, and completes at most one dish of [a]. *)
Lemma by_scan_patch_row_other a b id updates ds dish :
  NoDup (map Dish._id ds) -> dish ∈ ds -> Dish._id dish = id -> Dish.scanId dish = a ->
  b <> a -> by_scan b (map (patch_row id updates) ds) = by_scan b ds.
Proof.
  intros Hnd Hin Hid Hsc Hne.
  rewrite by_scan_map by (intros; apply patch_row_scanId).
  rewrite <- (map_id (by_scan b ds)) at 2. apply map_ext_in.
  intros d Hd%list_elem_of_In. unfold by_scan in Hd.
  apply list_elem_of_filter in Hd as [Hdb Hd].
  unfold patch_row. destruct (Nat.eqb_spec (Dish._id d) id) as [Heq|]; [|done].
  exfalso. apply Hne. rewrite <- Hdb, <- Hsc. f_equal.
  pose proof (find_id_NoDup ds d Hnd Hd) as H1.
  pose proof (find_id_NoDup ds dish Hnd Hin) as H2.
  rewrite Heq in H1. rewrite Hid in H2. congruence.
Qed.

Lemma count_completed_patch_row id updates l :
  NoDup (map Dish._id l) ->
  count_status ImageStatus.completed (map (patch_row id updates) l)
  <= count_status ImageStatus.completed l + 1.
Proof.
  induction l as [|d l IH]; intros Hnd; [done|].
  simpl in Hnd. apply NoDup_cons in Hnd as [Hd Hnd].
  simpl map. rewrite !count_status_cons.
  unfold patch_row at 1. destruct (Nat.eqb_spec (Dish._id d) id) as [Heq|Hne].
  - assert (map (patch_row id updates) l = l) as ->.
    { rewrite <- (map_id l) at 2. apply map_ext_in. intros d' Hd'%list_elem_of_In.
      unfold patch_row. destruct (Nat.eqb_spec (Dish._id d') id) as [Heq'|]; [|done].
      exfalso. apply Hd. rewrite Heq, <- Heq'. apply list_elem_of_fmap. eauto. }
    destruct (has_status _ (Dish.patch updates d)), (has_status _ d); lia.
  - specialize (IH Hnd). lia.
Qed.

(** ** Counting the jobs of the queue *)

Lemma filter_length_delete {A} (f : A -> bool) (l : list A) i x :
  l !! i = Some x ->
  Z.of_nat (length (List.filter f (delete i l)))
  = Z.of_nat (length (List.filter f l)) - (if f x then 1 else 0).
Proof.
  revert i. induction l as [|y l IH]; intros i Hi; [done|].
  destruct i as [|i]; simpl in Hi.
  - injection Hi as ->. simpl. destruct (f x); simpl length; lia.
  - simpl delete. simpl List.filter. specialize (IH i Hi).
    destruct (f y); simpl length; lia.
Qed.

Lemma filter_length_nonneg {A} (f : A -> bool) (l : list A) :
  0 <= Z.of_nat (length (List.filter f l)).
Proof. lia. Qed.

Lemma gen_jobs_nonneg w a : 0 <= gen_jobs w a.
Proof. unfold gen_jobs. lia. Qed.

Lemma pipe_jobs_nonneg w a : 0 <= pipe_jobs w a.
Proof. unfold pipe_jobs. lia. Qed.

Lemma completed_count_nonneg w a : 0 <= completed_count w a.
Proof. apply count_status_nonneg. Qed.

Lemma filter_length_app {A} (f : A -> bool) (l1 l2 : list A) :
  Z.of_nat (length (List.filter f (l1 ++ l2)))
  = Z.of_nat (length (List.filter f l1)) + Z.of_nat (length (List.filter f l2)).
Proof. rewrite List.filter_app, length_app. lia. Qed.

Lemma filter_generate_jobs a b provider (ids : list nat) :
  Z.of_nat (length (List.filter (is_generate_for b)
                      (map (fun dishId => JobGenerate dishId a provider) ids)))
  = if decide (a = b) then Z.of_nat (length ids) else 0.
Proof.
  induction ids as [|i ids IH]; [by destruct (decide (a = b))|].
  simpl. destruct (Nat.eqb_spec a b) as [->|Hne].
  - destruct (decide (b = b)); [|done]. simpl length. lia.
  - destruct (decide (a = b)); [done|]. exact IH.
Qed.

Lemma filter_pipeline_generate_jobs a b provider (ids : list nat) :
  List.filter (is_pipeline_for b) (map (fun dishId => JobGenerate dishId a provider) ids) = [].
Proof. induction ids as [|i ids IH]; [done | exact IH]. Qed.

Lemma elem_of_delete {A} (l : list A) i x : x ∈ delete i l -> x ∈ l.
Proof. intros H. eapply elem_of_sublist; [exact H | apply sublist_delete]. Qed.

(** A job of the queue stays valid when scans are only updated or added
    and the table is rewritten in place and extended. *)
Lemma job_valid_mono w w' j rows :
  (forall a, is_Some (menuScans w !! a) -> is_Some (menuScans w' !! a)) ->
  (exists ds1, dishes w' = ds1 ++ rows /\ reshaped (dishes w) ds1) ->
  job_valid w j -> job_valid w' j.
Proof.
  intros Hscans (ds1 & Hds & Hre) Hj. destruct j as [a p|d a p]; simpl in *.
  - by apply Hscans.
  - destruct Hj as [Ha (dish & Hin & Hid & Hsc)]. split; [by apply Hscans|].
    destruct (reshaped_elem_rev _ _ _ Hre Hin) as (d' & Hd' & Hid' & Hsc').
    exists d'. rewrite Hds. split; [apply elem_of_app; by left | split; congruence].
Qed.

(** ** Preserving the invariant *)

Lemma completed_count_eq w a : completed_count w a = completed_in a (dishes w).
Proof. reflexivity. Qed.

Lemma dishes_by_scanId_eq w a : dishes_by_scanId w a = by_scan a (dishes w).
Proof. reflexivity. Qed.

Lemma completed_in_app a ds1 ds2 :
  completed_in a (ds1 ++ ds2) = completed_in a ds1 + completed_in a ds2.
Proof. unfold completed_in. by rewrite by_scan_app, count_status_app. Qed.

Lemma completed_in_nonneg a ds : 0 <= completed_in a ds.
Proof. apply count_status_nonneg. Qed.

(** The other scans keep their invariant when their jobs do not grow and
    their completed dishes do not grow. *)
Lemma scan_inv_frame CONFIG w w' b s :
  gen_jobs w' b <= gen_jobs w b ->
  pipe_jobs w' b = pipe_jobs w b ->
  completed_count w' b <= completed_count w b ->
  (dishes_by_scanId w b = [] -> dishes_by_scanId w' b = []) ->
  scan_inv CONFIG w b s -> scan_inv CONFIG w' b s.
Proof.
  intros Hg Hp Hc He [I1 I2 I3 I4 I5 I6 I7].
  pose proof (gen_jobs_nonneg w' b) as Hg0.
  split; try lia.
  - intros H. specialize (I6 H). lia.
  - unfold before_pipeline. rewrite Hp. intros H.
    destruct (I7 H) as (Hd & Hj & Hi). split; [by apply He|]. split; [lia | done].
Qed.

(** One scan is updated, the table is rewritten in place and extended by
    fresh rows of that scan, the queue changes. *)
Lemma world_inv_step CONFIG w w' a s s' ds1 rows :
  world_inv CONFIG w ->
  menuScans w !! a = Some s ->
  menuScans w' = <[a := s']> (menuScans w) ->
  (nextId w <= nextId w')%nat ->
  dishes w' = ds1 ++ rows -> reshaped (dishes w) ds1 ->
  (forall d, d ∈ rows -> (nextId w <= Dish._id d < nextId w')%nat /\ Dish.scanId d = a) ->
  NoDup (map Dish._id rows) ->
  (forall j, j ∈ scheduled w' -> j ∈ scheduled w \/ job_valid w' j) ->
  (forall b, b <> a ->
             gen_jobs w' b <= gen_jobs w b /\ pipe_jobs w' b = pipe_jobs w b
             /\ completed_in b ds1 <= completed_in b (dishes w)) ->
  scan_inv CONFIG w' a s' ->
  world_inv CONFIG w'.
Proof.
  intros [J1 J2 J3 J4 J5 J6] Hs Hm Hn Hd Hre Hrows Hnd Hjobs Hother Ha.
  assert (Hscans : forall b, is_Some (menuScans w !! b) -> is_Some (menuScans w' !! b)).
  { intros b Hb. rewrite Hm. destruct (decide (a = b)) as [->|Hne].
    - rewrite lookup_insert_eq. eauto.
    - by rewrite lookup_insert_ne. }
  split.
  - intros b sb Hb. rewrite Hm in Hb. apply lookup_insert_Some in Hb as [[<- <-]|[Hne Hb]].
    + exact Ha.
    + destruct (Hother b) as (Hg & Hp & Hc); [done|].
      assert (Hbr : by_scan b rows = []).
      { apply by_scan_other. intros d Hin. destruct (Hrows d Hin) as [_ ->]. done. }
      apply (scan_inv_frame CONFIG w w' b sb); try done.
      * rewrite !completed_count_eq, Hd, completed_in_app.
        unfold completed_in at 2. rewrite Hbr. unfold count_status. simpl. lia.
      * rewrite !dishes_by_scanId_eq, Hd, by_scan_app, Hbr, app_nil_r.
        by apply by_scan_reshaped_nil.
      * by apply J1.
  - intros b sb Hb. rewrite Hm in Hb. apply lookup_insert_Some in Hb as [[<- <-]|[Hne Hb]].
    + specialize (J2 _ _ Hs). lia.
    + specialize (J2 _ _ Hb). lia.
  - intros d Hin. rewrite Hd in Hin. apply elem_of_app in Hin as [Hin|Hin].
    + destruct (reshaped_elem _ _ _ Hre Hin) as (d0 & Hd0 & -> & _).
      specialize (J3 _ Hd0). lia.
    + destruct (Hrows d Hin) as [? _]. lia.
  - intros d Hin. rewrite Hd in Hin. apply elem_of_app in Hin as [Hin|Hin].
    + destruct (reshaped_elem _ _ _ Hre Hin) as (d0 & Hd0 & _ & ->).
      apply Hscans. by apply J4.
    + destruct (Hrows d Hin) as [_ ->]. apply Hscans. eauto.
  - intros j Hj. destruct (Hjobs j Hj) as [Hold|Hnew]; [|done].
    eapply (job_valid_mono w w' j rows); eauto.
  - rewrite Hd, map_app. apply NoDup_app. split; [|split; [|done]].
    + by rewrite (reshaped_ids _ _ Hre).
    + intros i Hi1 Hi2. rewrite (reshaped_ids _ _ Hre) in Hi1.
      apply list_elem_of_fmap in Hi1 as (d1 & -> & Hd1).
      apply list_elem_of_fmap in Hi2 as (d2 & Heq & Hd2).
      specialize (J3 _ Hd1). destruct (Hrows _ Hd2) as [? _]. lia.
Qed.

Lemma stop_sel_demotes x updates d :
  stop_sel x = Some updates ->
  Dish.imageStatus (Dish.patch updates d) <> ImageStatus.completed.
Proof.
  unfold stop_sel. destruct (Dish.imageStatus x); try discriminate.
  intros [= <-]. by destruct d.
Qed.

Lemma force_sel_demotes x updates d :
  force_sel x = Some updates ->
  Dish.imageStatus (Dish.patch updates d) <> ImageStatus.completed.
Proof.
  unfold force_sel. destruct (Dish.imageStatus x); try discriminate.
  all: intros [= <-]; by destruct d.
Qed.

Lemma queue_sel_demotes x updates d :
  queue_sel x = Some updates ->
  Dish.imageStatus (Dish.patch updates d) <> ImageStatus.completed.
Proof. unfold queue_sel. intros [= <-]. by destruct d. Qed.

(** The scan after a recount ([stopImageGeneration], [forceCompleteScan]):
    the table is demoted, the queue is the same, imagesGenerated is the
    number of completed dishes. *)
Lemma scan_inv_recount CONFIG w w' a s s' :
  scan_inv CONFIG w a s ->
  scheduled w' = scheduled w ->
  demoted (dishes w) (dishes w') ->
  MenuScan.status s' = ScanStatus.completed ->
  MenuScan.imagesGenerated s' = completed_count w a ->
  MenuScan.imagesRequested s' = MenuScan.imagesRequested s ->
  scan_inv CONFIG w' a s'.
Proof.
  intros [I1 I2 I3 I4 I5 I6 I7] Hj Hd Hst Hig Hir.
  assert (Hg : gen_jobs w' a = gen_jobs w a) by (unfold gen_jobs; by rewrite Hj).
  assert (Hp : pipe_jobs w' a = pipe_jobs w a) by (unfold pipe_jobs; by rewrite Hj).
  pose proof (completed_in_demoted a _ _ Hd) as Hc.
  rewrite <- !completed_count_eq in Hc.
  pose proof (completed_count_nonneg w a).
  split; rewrite ?Hg, ?Hp, ?Hig, ?Hir; try lia.
  - rewrite Hst. intros [|]; discriminate.
  - unfold before_pipeline. rewrite Hst, Hp. intros [|[|Hp1]]; try discriminate.
    destruct I7 as (Hnil & Hg0 & _); [right; by right|].
    split; [|split; [done|]].
    + rewrite dishes_by_scanId_eq. eapply by_scan_reshaped_nil;
        [by apply demoted_reshaped | by rewrite <- dishes_by_scanId_eq].
    + unfold completed_count. by rewrite Hnil.
Qed.

Lemma same_queue_other w w' (a : nat) ds1 :
  scheduled w' = scheduled w -> demoted (dishes w) ds1 ->
  forall b, b <> a ->
            gen_jobs w' b <= gen_jobs w b /\ pipe_jobs w' b = pipe_jobs w b
            /\ completed_in b ds1 <= completed_in b (dishes w).
Proof.
  intros Hj Hd b _. unfold gen_jobs, pipe_jobs. rewrite Hj.
  split; [lia|]. split; [done|]. by apply completed_in_demoted.
Qed.

Lemma inv_stop CONFIG now a w :
  world_inv CONFIG w -> world_inv CONFIG (commit (stopImageGeneration now a) w).
Proof.
  intros Hinv. unfold commit.
  destruct (menuScans w !! a) as [s|] eqn:Hs.
  - destruct (stopImageGeneration_spec now a w s Hs) as (evs & E & _).
    rewrite E.
    assert (Hd : demoted (dishes w) (patch_all stop_sel (dishes_by_scanId w a) (dishes w)))
      by (apply demoted_patch_all; apply stop_sel_demotes).
    eapply (world_inv_step CONFIG w _ a s _
              (patch_all stop_sel (dishes_by_scanId w a) (dishes w)) []).
    + exact Hinv.
    + exact Hs.
    + reflexivity.
    + reflexivity.
    + cbn [dishes]. by rewrite app_nil_r.
    + by apply demoted_reshaped.
    + intros d Hin. by apply elem_of_nil in Hin.
    + constructor.
    + intros j Hj. by left.
    + by apply same_queue_other.
    + eapply scan_inv_recount.
      * by apply (inv_scans _ _ Hinv).
      * reflexivity.
      * exact Hd.
      * by destruct s.
      * by destruct s.
      * by destruct s.
  - unfold stopImageGeneration, mbind, mread, get_scan. rewrite Hs. exact Hinv.
Qed.

Lemma inv_force CONFIG now a w :
  world_inv CONFIG w -> world_inv CONFIG (commit (forceCompleteScan now a) w).
Proof.
  intros Hinv. unfold commit.
  destruct (menuScans w !! a) as [s|] eqn:Hs.
  - destruct (forceCompleteScan_spec now a w s Hs) as (evs & E & _).
    rewrite E.
    assert (Hd : demoted (dishes w) (patch_all force_sel (dishes_by_scanId w a) (dishes w)))
      by (apply demoted_patch_all; apply force_sel_demotes).
    eapply (world_inv_step CONFIG w _ a s _
              (patch_all force_sel (dishes_by_scanId w a) (dishes w)) []).
    + exact Hinv.
    + exact Hs.
    + reflexivity.
    + reflexivity.
    + cbn [dishes]. by rewrite app_nil_r.
    + by apply demoted_reshaped.
    + intros d Hin. by apply elem_of_nil in Hin.
    + constructor.
    + intros j Hj. by left.
    + by apply same_queue_other.
    + eapply scan_inv_recount.
      * by apply (inv_scans _ _ Hinv).
      * reflexivity.
      * exact Hd.
      * by destruct s.
      * by destruct s.
      * by destruct s.
  - unfold forceCompleteScan, mbind, mread, get_scan. rewrite Hs. exact Hinv.
Qed.

Lemma take_pending_rows w a n d :
  d ∈ take n (List.filter is_pending_or_skipped (dishes_by_scanId w a)) ->
  d ∈ dishes w /\ Dish.scanId d = a.
Proof.
  intros Hd.
  assert (Hin : d ∈ List.filter is_pending_or_skipped (dishes_by_scanId w a))
    by (eapply elem_of_sublist; [exact Hd | apply sublist_take]).
  apply list_elem_of_In, List.filter_In in Hin as [Hin _].
  by apply list_elem_of_In, elem_of_by_scanId in Hin.
Qed.

Lemma inv_remaining CONFIG isValidProvider a imageProvider w :
  world_inv CONFIG w ->
  world_inv CONFIG (run (generateRemainingImages CONFIG isValidProvider a imageProvider) w).
Proof.
  intros Hinv.
  destruct (menuScans w !! a) as [s|] eqn:Hs.
  2:{ unfold run, generateRemainingImages, bind, runMutation, queueRemainingImages,
        mbind, mread, get_scan. rewrite Hs. exact Hinv. }
  destruct (generateRemainingImages_spec CONFIG isValidProvider a imageProvider w s Hs)
    as [H0 Hne].
  set (pendingDishes := List.filter is_pending_or_skipped (dishes_by_scanId w a)) in *.
  set (toQueue := Z.min (Z.of_nat (length pendingDishes))
                    (MAX_IMAGES_PER_SCAN CONFIG - MenuScan.imagesRequested s)) in *.
  set (l := take (Z.to_nat toQueue) pendingDishes) in *.
  destruct (decide (toQueue = 0)) as [Hz|Hz]; [by rewrite (H0 Hz)|].
  destruct (Hne Hz) as (evs & s' & E & _ & Hst & Hir & Hig & _). rewrite E. clear E H0 Hne.
  pose proof (inv_scans _ _ Hinv _ _ Hs) as [I1 I2 I3 I4 I5 I6 I7].
  assert (Hd : demoted (dishes w) (patch_all queue_sel l (dishes w)))
    by (apply demoted_patch_all; apply queue_sel_demotes).
  assert (Hlen : Z.of_nat (length l) <= Z.max 0 toQueue).
  { subst l. rewrite length_take. lia. }
  eapply (world_inv_step CONFIG w _ a s s' (patch_all queue_sel l (dishes w)) []).
  - exact Hinv.
  - exact Hs.
  - reflexivity.
  - reflexivity.
  - cbn [dishes]. by rewrite app_nil_r.
  - by apply demoted_reshaped.
  - intros d Hin. by apply elem_of_nil in Hin.
  - constructor.
  - intros j Hj. cbn [scheduled] in Hj. apply elem_of_app in Hj as [Hj|Hj]; [by left|].
    right. apply list_elem_of_fmap in Hj as (d & -> & Hdl).
    destruct (take_pending_rows _ _ _ _ Hdl) as [Hin Hsc].
    split; [cbn [menuScans]; rewrite lookup_insert_eq; eauto|].
    destruct (reshaped_elem_rev _ _ _ (demoted_reshaped _ _ Hd) Hin) as (d' & Hd' & Hi & Hs').
    exists d'. cbn [dishes]. split; [done | split; congruence].
  - intros b Hb. unfold gen_jobs, pipe_jobs. cbn [scheduled].
    rewrite filter_length_app, List.filter_app, length_app.
    rewrite <- (map_map Dish._id (fun i => JobGenerate i a _)).
    rewrite filter_generate_jobs, filter_pipeline_generate_jobs.
    destruct (decide (a = b)); [congruence|]. simpl length.
    split; [lia|]. split; [f_equal; lia|]. by apply completed_in_demoted.
  - pose proof (completed_in_demoted a _ _ Hd) as Hc.
    assert (Hg : gen_jobs (mkWorld (deviceUsers w) (<[a:=s']> (menuScans w))
                   (patch_all queue_sel l (dishes w)) (nextId w)
                   (scheduled w ++ map (fun d => JobGenerate (Dish._id d) a
                      (choose_provider CONFIG isValidProvider imageProvider)) l)
                   (trace w ++ evs ++ [EvScanStatus a (MenuScan.status s)
                                         ScanStatus.generating])) a
                 = gen_jobs w a + Z.of_nat (length l)).
    { unfold gen_jobs. cbn [scheduled]. rewrite filter_length_app.
      rewrite <- (map_map Dish._id (fun i => JobGenerate i a _)).
      rewrite filter_generate_jobs. destruct (decide (a = a)); [|done].
      by rewrite length_map. }
    assert (Hp : pipe_jobs (mkWorld (deviceUsers w) (<[a:=s']> (menuScans w))
                   (patch_all queue_sel l (dishes w)) (nextId w)
                   (scheduled w ++ map (fun d => JobGenerate (Dish._id d) a
                      (choose_provider CONFIG isValidProvider imageProvider)) l)
                   (trace w ++ evs ++ [EvScanStatus a (MenuScan.status s)
                                         ScanStatus.generating])) a
                 = pipe_jobs w a).
    { unfold pipe_jobs. cbn [scheduled]. rewrite List.filter_app, length_app.
      rewrite <- (map_map Dish._id (fun i => JobGenerate i a _)).
      rewrite filter_pipeline_generate_jobs. simpl length. f_equal. lia. }
    split; rewrite ?Hg, ?Hp, ?Hig, ?Hir; rewrite ?completed_count_eq; cbn [dishes];
      rewrite ?completed_count_eq in *; try lia.
    + rewrite Hst. intros [|]; discriminate.
    + unfold before_pipeline. rewrite Hst, Hp. intros [|[|Hp1]]; try discriminate.
      destruct I7 as (Hnil & _); [right; by right|]. exfalso.
      subst toQueue pendingDishes. rewrite Hnil in Hz. simpl in Hz. lia.
Qed.

Lemma generateSingleDishImage_cases CONFIG isValidProvider dishId imageProvider w :
  let w' := run (generateSingleDishImage CONFIG isValidProvider dishId imageProvider) w in
  w' = w
  \/ exists dish scan s',
       get_dish w dishId = Some dish
       /\ menuScans w !! Dish.scanId dish = Some scan
       /\ MenuScan.imagesRequested scan < MAX_IMAGES_PER_SCAN CONFIG
       /\ w' = mkWorld (deviceUsers w) (<[Dish.scanId dish := s']> (menuScans w))
                 (map (patch_row dishId [Dish.ImageStatusF ImageStatus.queued]) (dishes w))
                 (nextId w)
                 (scheduled w ++ [JobGenerate dishId (Dish.scanId dish)
                                    (choose_provider CONFIG isValidProvider imageProvider)])
                 (trace w ++ [EvDishStatus dishId (Dish.imageStatus dish) ImageStatus.queued;
                              EvScanStatus (Dish.scanId dish) (MenuScan.status scan)
                                (MenuScan.status s')])
       /\ MenuScan.status s' = (if decide (MenuScan.status scan = ScanStatus.completed)
                                then ScanStatus.generating else MenuScan.status scan)
       /\ MenuScan.imagesRequested s' = MenuScan.imagesRequested scan + 1
       /\ MenuScan.imagesGenerated s' = MenuScan.imagesGenerated scan
       /\ MenuScan.totalDishes s' = MenuScan.totalDishes scan.
Proof.
  intros w'. subst w'. unfold run, generateSingleDishImage, bind, runMutation.
  destruct (queueSingleDishImage_cases CONFIG dishId w _ eq_refl)
    as [(r & -> & Hr)|[(e & ->)|(dish & scan & s' & Hd & Hs & _ & Hlt & -> & Hfacts)]].
  - left. rewrite Hr. reflexivity.
  - left. reflexivity.
  - right. exists dish, scan, s'. cbn [sq_queued sq_scanId].
    split; [done|]. split; [done|]. split; [done|]. split; [reflexivity | exact Hfacts].
Qed.

Lemma inv_single CONFIG isValidProvider dishId imageProvider w :
  world_inv CONFIG w ->
  world_inv CONFIG (run (generateSingleDishImage CONFIG isValidProvider dishId imageProvider) w).
Proof.
  intros Hinv.
  destruct (generateSingleDishImage_cases CONFIG isValidProvider dishId imageProvider w)
    as [->|(dish & s & s' & Hd & Hs & Hlt & -> & Hst & Hir & Hig & _)]; [done|].
  set (a := Dish.scanId dish) in *.
  pose proof (inv_scans _ _ Hinv _ _ Hs) as [I1 I2 I3 I4 I5 I6 I7].
  pose proof (find_id_Some _ _ _ Hd) as [Hin Hid].
  assert (Hdem : demoted (dishes w)
                   (map (patch_row dishId [Dish.ImageStatusF ImageStatus.queued]) (dishes w))).
  { apply demoted_patch_row. intros d. by destruct d. }
  eapply (world_inv_step CONFIG w _ a s s' _ []).
  - exact Hinv.
  - exact Hs.
  - reflexivity.
  - reflexivity.
  - cbn [dishes]. by rewrite app_nil_r.
  - by apply demoted_reshaped.
  - intros d Hd'. by apply elem_of_nil in Hd'.
  - constructor.
  - intros j Hj. cbn [scheduled] in Hj. apply elem_of_app in Hj as [Hj|Hj]; [by left|].
    right. apply list_elem_of_singleton in Hj as ->.
    split; [cbn [menuScans]; rewrite lookup_insert_eq; eauto|].
    destruct (reshaped_elem_rev _ _ _ (demoted_reshaped _ _ Hdem) Hin) as (d' & Hd' & Hi & Hs').
    exists d'. cbn [dishes]. split; [done | split; [by rewrite Hi | by rewrite Hs']].
  - intros b Hb. unfold gen_jobs, pipe_jobs. cbn [scheduled].
    rewrite filter_length_app, List.filter_app, length_app. simpl.
    destruct (Nat.eqb_spec a b); [congruence|]. simpl length.
    split; [lia|]. split; [f_equal; lia|]. by apply completed_in_demoted.
  - pose proof (completed_in_demoted a _ _ Hdem) as Hc.
    set (w' := mkWorld _ _ _ _ _ _).
    assert (Hg : gen_jobs w' a = gen_jobs w a + 1).
    { unfold gen_jobs. subst w'. cbn [scheduled]. rewrite filter_length_app. simpl.
      rewrite Nat.eqb_refl. simpl length. lia. }
    assert (Hp : pipe_jobs w' a = pipe_jobs w a).
    { unfold pipe_jobs. subst w'. cbn [scheduled]. rewrite List.filter_app, length_app.
      simpl length. f_equal. lia. }
    assert (Hdishes : dishes_by_scanId w a <> []).
    { intros Hnil. assert (Hin' : dish ∈ dishes_by_scanId w a) by (by apply elem_of_by_scanId).
      rewrite Hnil in Hin'. by apply elem_of_nil in Hin'. }
    assert (Hstat : MenuScan.status s' = ScanStatus.pending
                    \/ MenuScan.status s' = ScanStatus.uploading ->
                    MenuScan.status s = ScanStatus.pending
                    \/ MenuScan.status s = ScanStatus.uploading).
    { rewrite Hst. destruct (decide _); [intros [|]; discriminate | done]. }
    split; rewrite ?Hg, ?Hp, ?Hig, ?Hir; rewrite ?completed_count_eq; subst w'; cbn [dishes];
      rewrite ?completed_count_eq in *; try lia.
    + intros H. apply I6, Hstat, H.
    + unfold before_pipeline. rewrite Hp. intros H. exfalso.
      destruct I7 as (Hnil & _); [|done].
      unfold before_pipeline. destruct H as [H|[H|H]]; [| |by right; right].
      * destruct Hstat as [|]; [by left | by left | right; by left].
      * destruct Hstat as [|]; [by right | by left | right; by left].
Qed.

(** A scan id that is not in the store has no dish and no job. *)
Lemma absent_scan CONFIG w a :
  world_inv CONFIG w -> menuScans w !! a = None ->
  dishes_by_scanId w a = [] /\ gen_jobs w a = 0 /\ pipe_jobs w a = 0.
Proof.
  intros Hinv Ha. split; [|split].
  - rewrite dishes_by_scanId_eq. apply by_scan_other. intros d Hd Heq.
    destruct (inv_dish_scans _ _ Hinv d Hd) as [s Hs]. congruence.
  - unfold gen_jobs.
    assert (H : List.filter (is_generate_for a) (scheduled w) = []); [|by rewrite H].
    destruct (List.filter _ _) as [|j js] eqn:Hf; [done|]. exfalso.
    assert (Hj : In j (List.filter (is_generate_for a) (scheduled w))) by (rewrite Hf; by left).
    apply List.filter_In in Hj as [Hj Hg]. apply list_elem_of_In in Hj.
    pose proof (inv_jobs _ _ Hinv j Hj) as Hv.
    destruct j as [|d b p]; [discriminate|]. simpl in Hg. apply Nat.eqb_eq in Hg as ->.
    destruct Hv as [[s Hs] _]. congruence.
  - unfold pipe_jobs.
    assert (H : List.filter (is_pipeline_for a) (scheduled w) = []); [|by rewrite H].
    destruct (List.filter _ _) as [|j js] eqn:Hf; [done|]. exfalso.
    assert (Hj : In j (List.filter (is_pipeline_for a) (scheduled w))) by (rewrite Hf; by left).
    apply List.filter_In in Hj as [Hj Hg]. apply list_elem_of_In in Hj.
    pose proof (inv_jobs _ _ Hinv j Hj) as Hv.
    destruct j as [b p|]; [|discriminate]. simpl in Hg. apply Nat.eqb_eq in Hg as ->.
    destruct Hv as [s Hs]. congruence.
Qed.

Lemma scan_inv_new CONFIG now deviceId w a :
  0 <= MAX_IMAGES_PER_SCAN CONFIG ->
  dishes_by_scanId w a = [] -> gen_jobs w a = 0 -> pipe_jobs w a = 0 ->
  scan_inv CONFIG w a (new_scan CONFIG now deviceId).
Proof.
  intros Hmax Hnil Hg Hp.
  split; rewrite ?Hg, ?Hp; unfold completed_count; rewrite ?Hnil; simpl; try lia.
  - unfold count_status. simpl. lia.
  - intros _. done.
Qed.

Lemma inv_create CONFIG now deviceId w :
  0 <= MAX_IMAGES_PER_SCAN CONFIG ->
  world_inv CONFIG w -> world_inv CONFIG (commit (createMenuScan CONFIG now deviceId) w).
Proof.
  intros Hmax Hinv. unfold commit, createMenuScan.
  destruct (List.find _ (deviceUsers w)) as [user|]; [|exact Hinv].
  set (n := nextId w).
  assert (Hfresh : menuScans w !! n = None).
  { destruct (menuScans w !! n) as [s|] eqn:Hs; [|done].
    pose proof (inv_scan_ids _ _ Hinv _ _ Hs). subst n. lia. }
  destruct (absent_scan CONFIG w n Hinv Hfresh) as (Hnil & Hg & Hp).
  destruct Hinv as [J1 J2 J3 J4 J5 J6].
  split; world_projs.
  - intros b sb Hb. apply lookup_insert_Some in Hb as [[<- <-]|[Hne Hb]].
    + apply scan_inv_new; [exact Hmax | exact Hnil | exact Hg | exact Hp].
    + apply (scan_inv_frame CONFIG w _ b sb); try done; try reflexivity.
      by apply J1.
  - intros b sb Hb. apply lookup_insert_Some in Hb as [[<- <-]|[Hne Hb]]; [lia|].
    specialize (J2 _ _ Hb). lia.
  - intros d Hd. specialize (J3 _ Hd). lia.
  - intros d Hd. destruct (decide (n = Dish.scanId d)) as [<-|Hne].
    + rewrite lookup_insert_eq. eauto.
    + rewrite lookup_insert_ne by done. by apply J4.
  - intros j Hj. eapply (job_valid_mono w _ j []); [| |by apply J5].
    + intros b Hb. world_projs. destruct (decide (n = b)) as [<-|Hne].
      * rewrite lookup_insert_eq. eauto.
      * by rewrite lookup_insert_ne.
    + exists (dishes w). world_projs. rewrite app_nil_r. split; [done | apply reshaped_refl].
  - exact J6.
Qed.

(** The scan after a status write that leaves the table and the queue alone. *)
Lemma scan_inv_status CONFIG w w' a s s' :
  scan_inv CONFIG w a s ->
  scheduled w' = scheduled w -> dishes w' = dishes w ->
  MenuScan.imagesGenerated s' = MenuScan.imagesGenerated s ->
  MenuScan.imagesRequested s' = MenuScan.imagesRequested s ->
  (MenuScan.status s' = ScanStatus.pending \/ MenuScan.status s' = ScanStatus.uploading ->
   MenuScan.status s = ScanStatus.pending \/ MenuScan.status s = ScanStatus.uploading) ->
  scan_inv CONFIG w' a s'.
Proof.
  intros [I1 I2 I3 I4 I5 I6 I7] Hj Hd Hig Hir Hst.
  assert (Hg : gen_jobs w' a = gen_jobs w a) by (unfold gen_jobs; by rewrite Hj).
  assert (Hp : pipe_jobs w' a = pipe_jobs w a) by (unfold pipe_jobs; by rewrite Hj).
  assert (Hc : completed_count w' a = completed_count w a)
    by (unfold completed_count, dishes_by_scanId; by rewrite Hd).
  split; rewrite ?Hg, ?Hp, ?Hc, ?Hig, ?Hir; try lia.
  - intros H. apply I6, Hst, H.
  - unfold before_pipeline, dishes_by_scanId. rewrite Hp, Hd. intros H. apply I7.
    unfold before_pipeline. destruct H as [H|[H|H]]; [| |by right; right].
    + destruct Hst as [|]; [by left | by left | right; by left].
    + destruct Hst as [|]; [by right | by left | right; by left].
Qed.

Lemma inv_store CONFIG a storageId imageUrl w :
  world_inv CONFIG w ->
  in_protocol (CallStoreMenuImage a storageId imageUrl) w ->
  world_inv CONFIG (commit (storeMenuImage a storageId imageUrl) w).
Proof.
  intros Hinv Hproto. simpl in Hproto. unfold commit, storeMenuImage.
  unfold get_scan in *. destruct (menuScans w !! a) as [s|] eqn:Hs; [|exact Hinv].
  simpl in Hproto. injection Hproto as Hpend.
  unfold mbind, patch_scan, mret. rewrite Hs.
  eapply (world_inv_step CONFIG w _ a s _ (dishes w) []).
  - exact Hinv.
  - exact Hs.
  - reflexivity.
  - reflexivity.
  - world_projs. by rewrite app_nil_r.
  - apply reshaped_refl.
  - intros d Hd. by apply elem_of_nil in Hd.
  - constructor.
  - intros j Hj. by left.
  - intros b _. split; [reflexivity|]. split; reflexivity.
  - eapply scan_inv_status.
    + by apply (inv_scans _ _ Hinv).
    + reflexivity.
    + reflexivity.
    + by destruct s.
    + by destruct s.
    + intros _. by left.
Qed.

Lemma inv_start CONFIG isValidProvider now a imageProvider w :
  world_inv CONFIG w ->
  in_protocol (CallStartProcessingScan now a imageProvider) w ->
  world_inv CONFIG (run (startProcessingScan CONFIG isValidProvider now a imageProvider) w).
Proof.
  intros Hinv Hproto. simpl in Hproto. unfold get_scan in Hproto.
  destruct (menuScans w !! a) as [s|] eqn:Hs; [|discriminate].
  simpl in Hproto. injection Hproto as Hup.
  destruct (updateScanStatus_spec now a ScanStatus.processing
              (Some "Analyzing menu image...") None w s Hs)
    as (s' & E & Hst & _ & _ & _ & Hc).
  injection Hc as _ _ Hig Hir _ _.
  unfold run, startProcessingScan, bind, runMutation. rewrite E.
  unfold schedule, ret. cbn [snd].
  pose proof (inv_scans _ _ Hinv _ _ Hs) as [I1 I2 I3 I4 I5 I6 I7].
  eapply (world_inv_step CONFIG w _ a s s' (dishes w) []).
  - exact Hinv.
  - exact Hs.
  - world_projs. reflexivity.
  - world_projs. reflexivity.
  - world_projs. by rewrite app_nil_r.
  - apply reshaped_refl.
  - intros d Hd. by apply elem_of_nil in Hd.
  - constructor.
  - intros j Hj. revert Hj. world_projs. intros Hj.
    apply elem_of_app in Hj as [Hj|Hj]; [by left|].
    right. apply list_elem_of_singleton in Hj as ->. simpl. world_projs.
    rewrite lookup_insert_eq. eauto.
  - intros b Hb. unfold gen_jobs, pipe_jobs. world_projs.
    rewrite filter_length_app, List.filter_app, length_app. simpl.
    destruct (Nat.eqb_spec a b); [congruence|]. simpl length.
    split; [lia|]. split; [f_equal; lia | reflexivity].
  - set (w' := set_scheduled _ _).
    assert (Hg : gen_jobs w' a = gen_jobs w a).
    { unfold gen_jobs. subst w'. world_projs. rewrite filter_length_app. simpl. lia. }
    assert (Hp : pipe_jobs w' a = pipe_jobs w a + 1).
    { unfold pipe_jobs. subst w'. world_projs. rewrite filter_length_app. simpl.
      rewrite Nat.eqb_refl. simpl length. lia. }
    assert (Hc : completed_count w' a = completed_count w a) by reflexivity.
    assert (Hdd : dishes_by_scanId w' a = dishes_by_scanId w a) by reflexivity.
    specialize (I6 (or_intror Hup)).
    destruct I7 as (Hnil & Hg0 & Hig0); [right; by left|].
    split; rewrite ?Hg, ?Hp, ?Hc, ?Hig, ?Hir; try lia.
    + rewrite Hst. intros [|]; discriminate.
    + intros _. rewrite Hdd. split; [done|]. split; lia.
Qed.

(** ** Running a job *)

Lemma create_rows_ids CONFIG now a first k xs :
  map Dish._id (create_rows CONFIG now a first k xs) = seq first (length xs).
Proof.
  revert first k. induction xs as [|x xs IH]; intros first k; [done|].
  simpl. by rewrite IH.
Qed.

Lemma create_rows_elem CONFIG now a first k xs d :
  d ∈ create_rows CONFIG now a first k xs ->
  (first <= Dish._id d < first + length xs)%nat /\ Dish.scanId d = a
  /\ Dish.imageStatus d <> ImageStatus.completed.
Proof.
  revert first k. induction xs as [|x xs IH]; intros first k Hd; [by apply elem_of_nil in Hd|].
  simpl in Hd. apply elem_of_cons in Hd as [->|Hd].
  - simpl. split; [lia|]. split; [done|]. by destruct (k <? _).
  - destruct (IH _ _ Hd) as (? & ? & ?). simpl length. split; [lia | done].
Qed.

Lemma create_rows_NoDup CONFIG now a first k xs :
  NoDup (map Dish._id (create_rows CONFIG now a first k xs)).
Proof. rewrite create_rows_ids. apply NoDup_seq. Qed.

Lemma create_rows_completed CONFIG now a b first k xs :
  completed_in b (create_rows CONFIG now a first k xs) = 0.
Proof.
  unfold completed_in, count_status.
  assert (H : List.filter (has_status ImageStatus.completed)
                (by_scan b (create_rows CONFIG now a first k xs)) = []); [|by rewrite H].
  destruct (List.filter _ _) as [|d l] eqn:Hf; [done|]. exfalso.
  assert (Hin : In d (List.filter (has_status ImageStatus.completed)
                        (by_scan b (create_rows CONFIG now a first k xs))))
    by (rewrite Hf; by left).
  apply List.filter_In in Hin as [Hin Hst]. apply list_elem_of_In in Hin.
  unfold by_scan in Hin. apply list_elem_of_filter in Hin as [_ Hin].
  apply create_rows_elem in Hin as (_ & _ & Hne).
  unfold has_status in Hst. by apply bool_decide_eq_true_1 in Hst.
Qed.

Lemma auto_ids_elem rows i :
  i ∈ auto_ids rows -> exists d, d ∈ rows /\ Dish._id d = i.
Proof.
  unfold auto_ids. intros (d & -> & Hd)%list_elem_of_fmap.
  apply list_elem_of_In, List.filter_In in Hd as [Hd _]. exists d.
  split; [by apply list_elem_of_In | done].
Qed.

Lemma queue_after_delete w i j a :
  scheduled w !! i = Some j ->
  gen_jobs (set_scheduled (delete i (scheduled w)) w) a
  = gen_jobs w a - (if is_generate_for a j then 1 else 0)
  /\ pipe_jobs (set_scheduled (delete i (scheduled w)) w) a
     = pipe_jobs w a - (if is_pipeline_for a j then 1 else 0).
Proof.
  intros Hi. unfold gen_jobs, pipe_jobs. world_projs.
  split; by apply filter_length_delete.
Qed.

Lemma inv_run_pipeline CONFIG now vision w i a provider :
  0 <= AUTO_IMAGE_LIMIT CONFIG <= MAX_IMAGES_PER_SCAN CONFIG ->
  world_inv CONFIG w ->
  scheduled w !! i = Some (JobPipeline a provider) ->
  world_inv CONFIG
    (run (processScanPipeline CONFIG now a provider vision)
       (set_scheduled (delete i (scheduled w)) w)).
Proof.
  intros Hcfg Hinv Hi.
  set (w0 := set_scheduled (delete i (scheduled w)) w).
  assert (Hj : JobPipeline a provider ∈ scheduled w) by (eapply list_elem_of_lookup_2; eauto).
  destruct (inv_jobs _ _ Hinv _ Hj) as [s Hs].
  pose proof (inv_scans _ _ Hinv _ _ Hs) as [I1 I2 I3 I4 I5 I6 I7].
  destruct (queue_after_delete w i _ a Hi) as [Hg0 Hp0]. fold w0 in Hg0, Hp0.
  simpl in Hg0, Hp0. rewrite Nat.eqb_refl in Hp0.
  pose proof (pipe_jobs_nonneg w0 a) as Hp0'.
  assert (Hp1 : pipe_jobs w a = 1) by lia.
  destruct I7 as (Hnil & Hgz & Higz); [right; by right|].
  assert (Hother : forall b, b <> a ->
             gen_jobs w0 b <= gen_jobs w b /\ pipe_jobs w0 b = pipe_jobs w b).
  { intros b Hb. destruct (queue_after_delete w i _ b Hi) as [Hg Hp]. fold w0 in Hg, Hp.
    simpl in Hg, Hp. destruct (Nat.eqb_spec a b); [congruence|]. lia. }
  assert (Hs0 : menuScans w0 !! a = Some s) by exact Hs.
  destruct (truthy_string (MenuScan.imageUrl s)) as [imageUrl|] eqn:Hurl;
    [destruct vision as [e|parsed]|].
  - (* the vision service throws *)
    destruct (processScanPipeline_failure CONFIG now a provider (inl e) w0 s Hs0)
      as (s' & evs & E & Hst & Hc & _); [right; eauto|].
    injection Hc as _ _ Hig Hir _ _.
    unfold run. rewrite E. cbn [snd].
    eapply (world_inv_step CONFIG w _ a s s' (dishes w) []).
    + exact Hinv.
    + exact Hs.
    + reflexivity.
    + reflexivity.
    + world_projs. by rewrite app_nil_r.
    + apply reshaped_refl.
    + intros d Hd. by apply elem_of_nil in Hd.
    + constructor.
    + intros j Hj'. left. revert Hj'. world_projs. apply elem_of_delete.
    + intros b Hb. destruct (Hother b Hb) as [? ?]. split; [done|]. split; [done | reflexivity].
    + set (w' := mkWorld _ _ _ _ _ _).
      assert (Hg : gen_jobs w' a = gen_jobs w0 a) by reflexivity.
      assert (Hp : pipe_jobs w' a = pipe_jobs w0 a) by reflexivity.
      assert (Hc : completed_count w' a = completed_count w a) by reflexivity.
      split; rewrite ?Hg, ?Hp, ?Hc, ?Hig, ?Hir; try lia.
      unfold before_pipeline. rewrite Hst, Hp. intros [|[|H]]; try discriminate. lia.
  - (* extraction succeeds *)
    destruct (processScanPipeline_success CONFIG now a provider parsed w0 s imageUrl Hs0 Hurl)
      as (s' & E & Hst & Htd & _ & Hir & Hig).
    set (xs := flatten_menu _) in *.
    set (rows := create_rows CONFIG now a (nextId w0) 0 xs) in *.
    unfold run. rewrite E. cbn [snd]. clear E.
    assert (Hlen : Z.of_nat (length (auto_ids rows))
                   = Z.min (Z.of_nat (length xs)) (AUTO_IMAGE_LIMIT CONFIG)).
    { subst rows. rewrite auto_ids_length. lia. }
    eapply (world_inv_step CONFIG w _ a s s' (dishes w) rows).
    + exact Hinv.
    + exact Hs.
    + reflexivity.
    + unfold w0. world_projs. lia.
    + reflexivity.
    + apply reshaped_refl.
    + intros d Hd. apply create_rows_elem in Hd as (Hd1 & Hd2 & _).
      revert Hd1. unfold w0. world_projs. intros Hd1. split; [exact Hd1 | done].
    + apply create_rows_NoDup.
    + intros j Hj'. revert Hj'. world_projs. intros Hj'.
      apply elem_of_app in Hj' as [Hj'|Hj']; [left; exact (elem_of_delete _ i _ Hj')|].
      right. apply list_elem_of_fmap in Hj' as (d & -> & Hd). simpl. world_projs.
      split; [rewrite lookup_insert_eq; eauto|].
      apply auto_ids_elem in Hd as (row & Hrow & Hid). exists row.
      split; [apply elem_of_app; by right|]. split; [done|].
      by apply create_rows_elem in Hrow as (_ & ? & _).
    + intros b Hb. destruct (Hother b Hb) as [Hg Hp].
      unfold gen_jobs, pipe_jobs in *. world_projs.
      rewrite filter_length_app, List.filter_app, length_app.
      rewrite filter_generate_jobs, filter_pipeline_generate_jobs.
      destruct (decide (a = b)); [congruence|]. simpl length.
      revert Hg Hp. unfold w0. world_projs. intros Hg Hp.
      split; [lia|]. split; [lia | reflexivity].
    + set (w' := mkWorld _ _ _ _ _ _).
      assert (Hg : gen_jobs w' a = Z.of_nat (length (auto_ids rows))).
      { unfold gen_jobs. subst w'. world_projs. rewrite filter_length_app.
        rewrite filter_generate_jobs. destruct (decide (a = a)); [|done].
        change (gen_jobs w0 a + Z.of_nat (length (auto_ids rows))
                = Z.of_nat (length (auto_ids rows))). lia. }
      assert (Hp : pipe_jobs w' a = 0).
      { unfold pipe_jobs. subst w'. world_projs. rewrite List.filter_app, length_app.
        rewrite filter_pipeline_generate_jobs. simpl length.
        change (Z.of_nat (length (List.filter (is_pipeline_for a) (scheduled w0)) + 0) = 0).
        unfold pipe_jobs in Hp0, Hp1. lia. }
      assert (Hc : completed_count w' a = 0).
      { rewrite completed_count_eq. subst w'. world_projs.
        rewrite completed_in_app. subst rows. rewrite create_rows_completed.
        unfold completed_in. change (by_scan a (dishes w0)) with (dishes_by_scanId w a).
        rewrite Hnil. reflexivity. }
      split; rewrite ?Hg, ?Hp, ?Hc, ?Hig, ?Hir, ?Higz; try lia.
      unfold before_pipeline. rewrite Hst, Hp.
      destruct (auto_ids rows); intros [|[|]]; discriminate.
  - (* no image *)
    destruct (processScanPipeline_failure CONFIG now a provider vision w0 s Hs0)
      as (s' & evs & E & Hst & Hc & _); [by left|].
    injection Hc as _ _ Hig Hir _ _.
    unfold run. rewrite E. cbn [snd].
    eapply (world_inv_step CONFIG w _ a s s' (dishes w) []).
    + exact Hinv.
    + exact Hs.
    + reflexivity.
    + reflexivity.
    + world_projs. by rewrite app_nil_r.
    + apply reshaped_refl.
    + intros d Hd. by apply elem_of_nil in Hd.
    + constructor.
    + intros j Hj'. left. revert Hj'. world_projs. apply elem_of_delete.
    + intros b Hb. destruct (Hother b Hb) as [? ?]. split; [done|]. split; [done | reflexivity].
    + set (w' := mkWorld _ _ _ _ _ _).
      assert (Hg : gen_jobs w' a = gen_jobs w0 a) by reflexivity.
      assert (Hp : pipe_jobs w' a = pipe_jobs w0 a) by reflexivity.
      assert (Hc : completed_count w' a = completed_count w a) by reflexivity.
      split; rewrite ?Hg, ?Hp, ?Hc, ?Hig, ?Hir; try lia.
      unfold before_pipeline. rewrite Hst, Hp. intros [|[|H]]; try discriminate. lia.
Qed.

Lemma inv_run_worker CONFIG now img w i d a provider :
  world_inv CONFIG w ->
  scheduled w !! i = Some (JobGenerate d a provider) ->
  world_inv CONFIG
    (run (generateDishImage CONFIG now d a provider img)
       (set_scheduled (delete i (scheduled w)) w)).
Proof.
  intros Hinv Hi.
  set (w0 := set_scheduled (delete i (scheduled w)) w).
  assert (Hj : JobGenerate d a provider ∈ scheduled w) by (eapply list_elem_of_lookup_2; eauto).
  destruct (inv_jobs _ _ Hinv _ Hj) as [[s Hs] (dish & Hin & Hid & Hsc)].
  pose proof (inv_scans _ _ Hinv _ _ Hs) as [I1 I2 I3 I4 I5 I6 I7].
  pose proof (inv_nodup _ _ Hinv) as Hnd.
  destruct (queue_after_delete w i _ a Hi) as [Hg0 Hp0]. fold w0 in Hg0, Hp0.
  simpl in Hg0, Hp0. rewrite Nat.eqb_refl in Hg0.
  pose proof (gen_jobs_nonneg w0 a) as Hg0'.
  assert (Hother : forall b, b <> a ->
             gen_jobs w0 b <= gen_jobs w b /\ pipe_jobs w0 b = pipe_jobs w b).
  { intros b Hb. destruct (queue_after_delete w i _ b Hi) as [Hg Hp]. fold w0 in Hg, Hp.
    simpl in Hg, Hp. destruct (Nat.eqb_spec a b); [congruence|]. lia. }
  assert (Hfind : List.find (fun d' => Nat.eqb (Dish._id d') d) (getDishesForScan a w0)
                  = Some dish).
  { rewrite <- Hid, <- Hsc. by apply (find_getDishesForScan w0 dish). }
  destruct (generateDishImage_spec CONFIG now d a provider img w0 dish s Hfind Hs)
    as (d0 & _ & s' & updates & evs & E & _ & _ & Hig & Hir & _ & _ & _ & Hdone).
  unfold run. rewrite E. cbn [snd]. clear E.
  assert (Hstat : MenuScan.status s' = ScanStatus.pending
                  \/ MenuScan.status s' = ScanStatus.uploading ->
                  MenuScan.status s = ScanStatus.pending
                  \/ MenuScan.status s = ScanStatus.uploading).
  { destruct (MenuScan.imagesRequested s <=? MenuScan.imagesGenerated s + 1).
    - destruct Hdone as (-> & _). intros [|]; discriminate.
    - destruct Hdone as (-> & _). done. }
  eapply (world_inv_step CONFIG w _ a s s' (map (patch_row d updates) (dishes w)) []).
  - exact Hinv.
  - exact Hs.
  - reflexivity.
  - reflexivity.
  - world_projs. by rewrite app_nil_r.
  - apply reshaped_patch_row.
  - intros d' Hd'. by apply elem_of_nil in Hd'.
  - constructor.
  - intros j Hj'. left. revert Hj'. world_projs. apply elem_of_delete.
  - intros b Hb. destruct (Hother b Hb) as [? ?]. split; [done|]. split; [done|].
    unfold completed_in. by rewrite (by_scan_patch_row_other a b d updates (dishes w) dish).
  - set (w' := mkWorld _ _ _ _ _ _).
    assert (Hg : gen_jobs w' a = gen_jobs w0 a) by reflexivity.
    assert (Hp : pipe_jobs w' a = pipe_jobs w0 a) by reflexivity.
    assert (Hc : completed_count w' a <= completed_count w a + 1).
    { rewrite !completed_count_eq. subst w'. world_projs. unfold completed_in.
      rewrite by_scan_map by (intros; apply patch_row_scanId).
      apply count_completed_patch_row. unfold by_scan. by apply NoDup_ids_filter. }
    split; rewrite ?Hg, ?Hp, ?Hig, ?Hir; try lia.
    + intros H. specialize (I6 (Hstat H)). lia.
    + unfold before_pipeline. rewrite Hp, Hp0. intros H. exfalso.
      destruct I7 as (_ & Hgz & _); [|lia].
      unfold before_pipeline. destruct H as [H|[H|H]].
      * destruct Hstat as [|]; [by left | by left | right; by left].
      * destruct Hstat as [|]; [by right | by left | right; by left].
      * right. right. lia.
Qed.

(** Every step of the system keeps the invariant. *)
Lemma world_inv_exec CONFIG isValidProvider c w :
  0 <= AUTO_IMAGE_LIMIT CONFIG <= MAX_IMAGES_PER_SCAN CONFIG ->
  world_inv CONFIG w -> in_protocol c w ->
  world_inv CONFIG (exec CONFIG isValidProvider c w).
Proof.
  intros Hcfg Hinv Hproto. destruct c; simpl exec.
  - apply inv_create; [lia | done].
  - by apply inv_store.
  - by apply inv_start.
  - by apply inv_remaining.
  - by apply inv_single.
  - by apply inv_stop.
  - by apply inv_force.
  - destruct (scheduled w !! i) as [[a p|d a p]|] eqn:Hi; [| |done].
    + by apply inv_run_pipeline.
    + by apply inv_run_worker.
Qed.

Lemma world_inv_initial CONFIG w : initial w -> world_inv CONFIG w.
Proof.
  intros (Hm & Hd & Hj & _). split.
  - intros a s. rewrite Hm, lookup_empty. discriminate.
  - intros a s. rewrite Hm, lookup_empty. discriminate.
  - intros d. rewrite Hd. intros H. by apply elem_of_nil in H.
  - intros d. rewrite Hd. intros H. by apply elem_of_nil in H.
  - intros j. rewrite Hj. intros H. by apply elem_of_nil in H.
  - rewrite Hd. constructor.
Qed.

Lemma reachable_world_inv CONFIG isValidProvider w :
  0 <= AUTO_IMAGE_LIMIT CONFIG <= MAX_IMAGES_PER_SCAN CONFIG ->
  reachable CONFIG isValidProvider w -> world_inv CONFIG w.
Proof.
  intros Hcfg Hr. induction Hr as [w Hi|w c Hr IH Hp].
  - by apply world_inv_initial.
  - by apply world_inv_exec.
Qed.

Lemma reachable_exec_all CONFIG isValidProvider calls w :
  reachable CONFIG isValidProvider w ->
  follows_protocol CONFIG isValidProvider calls w ->
  reachable CONFIG isValidProvider (exec_all CONFIG isValidProvider calls w).
Proof.
  revert w. induction calls as [|c calls IH]; intros w Hr Hp; [exact Hr|].
  destruct Hp as [Hc Hp]. unfold exec_all. simpl fold_left.
  apply IH; [|exact Hp]. by apply reachable_step.
Qed.

(** The serial system, in which every handler runs to its end before the
    next step and the client opens each scan once (image stored on the
    pending scan, processing started on the uploading scan), keeps more:
    with 0 <= AUTO_IMAGE_LIMIT <= MAX_IMAGES_PER_SCAN, every scan has
    0 <= imagesGenerated <= imagesRequested <= MAX_IMAGES_PER_SCAN. *)
Lemma counters_bounded_serial CONFIG isValidProvider w scanId s :
  0 <= AUTO_IMAGE_LIMIT CONFIG <= MAX_IMAGES_PER_SCAN CONFIG ->
  reachable CONFIG isValidProvider w ->
  menuScans w !! scanId = Some s ->
  counters_bounded CONFIG s.
Proof.
  intros Hcfg Hr Hs.
  pose proof (reachable_world_inv CONFIG isValidProvider w Hcfg Hr) as Hinv.
  destruct (inv_scans _ _ Hinv _ _ Hs) as [I1 I2 _ I4 _ _ _].
  pose proof (gen_jobs_nonneg w scanId).
  unfold counters_bounded. lia.
Qed.

(** ** Status writes *)

Lemma no_scan_events_allowed op evs :
  scan_events evs = [] -> Forall (event_allowed op) evs.
Proof.
  unfold scan_events. induction evs as [|e evs IH]; intros H; [constructor|].
  simpl in H. destruct e; simpl in H; try discriminate.
  all: constructor; [exact I | by apply IH].
Qed.

(** The status writes of the serial system, in which every handler runs
    to its end before the next step and the client follows the protocol:
    each step appends to the trace only status writes of its operation, and
    the pipeline then finds the statuses it wrote itself. *)
Lemma status_writes_serial CONFIG isValidProvider c w :
  0 <= AUTO_IMAGE_LIMIT CONFIG <= MAX_IMAGES_PER_SCAN CONFIG ->
  reachable CONFIG isValidProvider w ->
  in_protocol c w ->
  exists evs,
    trace (exec CONFIG isValidProvider c w) = trace w ++ evs
    /\ Forall (event_allowed (operation_of c w)) evs.
Proof.
  intros Hcfg Hr Hproto.
  pose proof (reachable_world_inv CONFIG isValidProvider w Hcfg Hr) as Hinv.
  assert (Hnone : forall op, exists evs, trace w = trace w ++ evs
                                         /\ Forall (event_allowed op) evs).
  { intros op. exists []. split; [by rewrite app_nil_r | constructor]. }
  destruct c as [now dev|a sid url|now a p|a p|d p|now a|now a|i now vision img];
    simpl exec; simpl operation_of.
  - (* createMenuScan *)
    unfold commit, createMenuScan.
    destruct (List.find _ (deviceUsers w)); [|apply Hnone].
    world_projs. apply Hnone.
  - (* storeMenuImage *)
    simpl in Hproto. unfold commit, storeMenuImage. unfold get_scan in *.
    destruct (menuScans w !! a) as [s|] eqn:Hs; [|discriminate].
    simpl in Hproto. injection Hproto as Hpend.
    unfold mbind, patch_scan, mret. rewrite Hs. world_projs.
    eexists. split; [reflexivity|]. unfold scan_status_events. simpl.
    constructor; [|constructor]. simpl. split; [done | by destruct s].
  - (* startProcessingScan *)
    simpl in Hproto. unfold get_scan in Hproto.
    destruct (menuScans w !! a) as [s|] eqn:Hs; [|discriminate].
    simpl in Hproto. injection Hproto as Hup.
    destruct (updateScanStatus_spec now a ScanStatus.processing
                (Some "Analyzing menu image...") None w s Hs) as (s' & E & _).
    unfold run, startProcessingScan, bind, runMutation. rewrite E.
    unfold schedule, ret. cbn [snd]. world_projs.
    eexists. split; [reflexivity|]. constructor; [|constructor]. simpl. done.
  - (* generateRemainingImages *)
    destruct (menuScans w !! a) as [s|] eqn:Hs.
    2:{ unfold run, generateRemainingImages, bind, runMutation, queueRemainingImages,
          mbind, mread, get_scan. rewrite Hs. apply Hnone. }
    destruct (generateRemainingImages_spec CONFIG isValidProvider a p w s Hs) as [H0 Hne].
    set (toQueue := Z.min _ _) in *.
    destruct (decide (toQueue = 0)) as [Hz|Hz]; [rewrite (H0 Hz); apply Hnone|].
    destruct (Hne Hz) as (evs & s' & E & Hevs & _). rewrite E. world_projs.
    eexists. split; [reflexivity|]. apply Forall_app. split.
    + by apply no_scan_events_allowed.
    + constructor; [|constructor]. simpl. done.
  - (* generateSingleDishImage *)
    destruct (generateSingleDishImage_cases CONFIG isValidProvider d p w)
      as [->|(dish & s & s' & _ & _ & _ & -> & Hst & _)]; [apply Hnone|].
    world_projs. eexists. split; [reflexivity|].
    constructor; [exact I|]. constructor; [|constructor]. simpl. rewrite Hst.
    destruct (decide (MenuScan.status s = ScanStatus.completed)); [left | right]; done.
  - (* stopImageGeneration *)
    unfold commit. destruct (menuScans w !! a) as [s|] eqn:Hs.
    2:{ unfold stopImageGeneration, mbind, mread, get_scan. rewrite Hs. apply Hnone. }
    destruct (stopImageGeneration_spec now a w s Hs) as (evs & E & Hevs).
    rewrite E. world_projs. eexists. split; [reflexivity|]. apply Forall_app. split.
    + by apply no_scan_events_allowed.
    + constructor; [|constructor]. simpl. done.
  - (* forceCompleteScan *)
    unfold commit. destruct (menuScans w !! a) as [s|] eqn:Hs.
    2:{ unfold forceCompleteScan, mbind, mread, get_scan. rewrite Hs. apply Hnone. }
    destruct (forceCompleteScan_spec now a w s Hs) as (evs & E & Hevs).
    rewrite E. world_projs. eexists. split; [reflexivity|]. apply Forall_app. split.
    + by apply no_scan_events_allowed.
    + constructor; [|constructor]. simpl. done.
  - (* a job *)
    destruct (scheduled w !! i) as [j|] eqn:Hi; [|apply Hnone].
    assert (Hj : j ∈ scheduled w) by (eapply list_elem_of_lookup_2; eauto).
    pose proof (inv_jobs _ _ Hinv _ Hj) as Hv.
    set (w0 := set_scheduled (delete i (scheduled w)) w).
    destruct j as [a p|d a p]; simpl run_job.
    + destruct Hv as [s Hs].
      assert (Hs0 : menuScans w0 !! a = Some s) by exact Hs.
      destruct (truthy_string (MenuScan.imageUrl s)) as [imageUrl|] eqn:Hurl;
        [destruct vision as [e|parsed]|].
      * destruct (processScanPipeline_failure CONFIG now a p (inl e) w0 s Hs0)
          as (s' & evs & E & _ & _ & Hevs); [right; eauto|].
        unfold run. rewrite E. cbn [snd trace]. exists evs. split; [reflexivity|].
        destruct Hevs as [->| ->]; repeat constructor; simpl; tauto.
      * destruct (processScanPipeline_success CONFIG now a p parsed w0 s imageUrl Hs0 Hurl)
          as (s' & E & _).
        unfold run. rewrite E. cbn [snd trace]. eexists. split; [reflexivity|].
        apply Forall_app. split.
        -- repeat constructor; simpl; tauto.
        -- destruct (auto_ids _); repeat constructor; simpl; tauto.
      * destruct (processScanPipeline_failure CONFIG now a p vision w0 s Hs0)
          as (s' & evs & E & _ & _ & Hevs); [by left|].
        unfold run. rewrite E. cbn [snd trace]. exists evs. split; [reflexivity|].
        destruct Hevs as [->| ->]; repeat constructor; simpl; tauto.
    + destruct Hv as [[s Hs] (dish & Hin & Hid & Hsc)].
      assert (Hfind : List.find (fun d' => Nat.eqb (Dish._id d') d) (getDishesForScan a w0)
                      = Some dish).
      { rewrite <- Hid, <- Hsc. apply (find_getDishesForScan w0 dish); [|done].
        exact (inv_nodup _ _ Hinv). }
      destruct (generateDishImage_spec CONFIG now d a p img w0 dish s Hfind Hs)
        as (d0 & _ & s' & updates & evs & E & _ & _ & _ & _ & _ & _ & _ & Hdone).
      unfold run. rewrite E. cbn [snd trace]. eexists. split; [reflexivity|].
      apply Forall_app. split; [repeat constructor|].
      destruct (MenuScan.imagesRequested s <=? MenuScan.imagesGenerated s + 1).
      * destruct Hdone as (_ & _ & ->). repeat constructor.
      * destruct Hdone as (_ & _ & ->). constructor.
Qed.

(** ** The invariant and the status writes on the example stores *)

Lemma ex_generating_reachable : reachable ex_CONFIG ex_isValidProvider ex_generating.
Proof.
  apply reachable_exec_all.
  - apply reachable_initial. repeat split.
  - vm_compute. repeat split.
Qed.

Lemma ex_requeued_reachable : reachable ex_CONFIG ex_isValidProvider ex_requeued.
Proof.
  apply reachable_exec_all; [apply ex_generating_reachable|].
  vm_compute. repeat split.
Qed.

Lemma ex_stopped_reachable : reachable ex_CONFIG ex_isValidProvider ex_stopped.
Proof.
  apply reachable_exec_all; [apply ex_generating_reachable|].
  vm_compute. repeat split.
Qed.

(** The store [ex_requeued] is reached by stopping the generation of a
    scan of three dishes and asking for the remaining images: the three
    skipped dishes are queued and counted again, and imagesRequested is 6
    for totalDishes 3. *)
Lemma imagesRequested_exceeds_totalDishes :
  MenuScan.imagesRequested <$> menuScans ex_requeued !! 1%nat = Some 6
  /\ MenuScan.totalDishes <$> menuScans ex_requeued !! 1%nat = Some 3
  /\ ~ (forall w scanId s,
          reachable ex_CONFIG ex_isValidProvider w ->
          menuScans w !! scanId = Some s ->
          spec_counters_bounded ex_CONFIG s).
Proof.
  assert (H1 : MenuScan.imagesRequested <$> menuScans ex_requeued !! 1%nat = Some 6)
    by (vm_compute; reflexivity).
  assert (H2 : MenuScan.totalDishes <$> menuScans ex_requeued !! 1%nat = Some 3)
    by (vm_compute; reflexivity).
  split; [exact H1|]. split; [exact H2|].
  intros H.
  destruct (menuScans ex_requeued !! 1%nat) as [s|] eqn:Hs; [|discriminate].
  specialize (H _ _ _ ex_requeued_reachable Hs) as (_ & _ & Hb).
  simpl in H1, H2. injection H1 as H1. injection H2 as H2.
  rewrite H1, H2 in Hb. simpl in Hb. lia.
Qed.

(** In [ex_stopped] the scan is completed; tapping the skipped dish 2
    queues it and sets the scan back to generating. *)
Lemma completed_scan_goes_back_to_generating :
  MenuScan.status <$> menuScans ex_stopped !! 1%nat = Some ScanStatus.completed
  /\ MenuScan.status
     <$> menuScans (exec ex_CONFIG ex_isValidProvider (CallGenerateSingleDishImage 2 None)
                      ex_stopped) !! 1%nat
     = Some ScanStatus.generating
  /\ trace (exec ex_CONFIG ex_isValidProvider (CallGenerateSingleDishImage 2 None) ex_stopped)
     = trace ex_stopped
       ++ [EvDishStatus 2 ImageStatus.skipped ImageStatus.queued;
           EvScanStatus 1 ScanStatus.completed ScanStatus.generating].
Proof. repeat split; vm_compute; reflexivity. Qed.

(** ** Two calls of [queueRemainingImages], one after the other *)

(** Run one after the other (each mutation being one transaction of the
    store), two calls on a scan one image below the ceiling, with at least
    two eligible dishes, queue one dish in all: the first call queues one and
    brings imagesRequested to MAX_IMAGES_PER_SCAN, the second finds no slot
    left and changes nothing. *)
Lemma queueRemainingImages_twice_serial CONFIG a w s :
  menuScans w !! a = Some s ->
  MenuScan.imagesRequested s = MAX_IMAGES_PER_SCAN CONFIG - 1 ->
  (2 <= length (List.filter is_pending_or_skipped (dishes_by_scanId w a)))%nat ->
  exists r1 w1 r2,
    queueRemainingImages CONFIG a w = inr (r1, w1)
    /\ queued r1 = 1
    /\ MenuScan.imagesRequested <$> menuScans w1 !! a = Some (MAX_IMAGES_PER_SCAN CONFIG)
    /\ queueRemainingImages CONFIG a w1 = inr (r2, w1)
    /\ queued r2 = 0.
Proof.
  intros Hs Hir Hlen.
  destruct (queueRemainingImages_spec CONFIG a w s Hs) as [_ Hne].
  set (pendingDishes := List.filter is_pending_or_skipped (dishes_by_scanId w a)) in *.
  assert (Htq : Z.min (Z.of_nat (length pendingDishes))
                  (MAX_IMAGES_PER_SCAN CONFIG - MenuScan.imagesRequested s) = 1) by lia.
  rewrite Htq in Hne.
  destruct Hne as (evs & s' & E & _ & _ & Hir' & _); [lia|].
  assert (Hl : length (take (Z.to_nat 1) pendingDishes) = 1%nat).
  { rewrite length_take. lia. }
  rewrite Hl in E, Hir'.
  eexists _, _, _. split; [exact E|]. split; [reflexivity|].
  split; [cbn [menuScans]; rewrite lookup_insert_eq; simpl; f_equal; lia|].
  set (w1 := mkWorld _ _ _ _ _ _).
  assert (Hs1 : menuScans w1 !! a = Some s') by apply lookup_insert_eq.
  destruct (queueRemainingImages_spec CONFIG a w1 s' Hs1) as [H0 _].
  split; [apply H0; lia | reflexivity].
Qed.

(** * Frame properties

    Every handler is a sequence of a few kinds of writes: a patch of a scan
    or of a dish, the insertion of a dish, a job put in the queue or taken
    from it, an entry of the trace.  A relation between stores that is a
    preorder and that each of these writes respects holds between the
    store before and the store after every step of the pipeline system. *)

Section Frame.
Variable R : World -> World -> Prop.
Variable okjob : Job -> Prop.
Variable dish_ok : list Dish.field -> Prop.
Variable field_ok : MenuScan.field -> Prop.
Variable CONFIG : Config.
Variable isValidProvider : string -> bool.

Hypothesis R_refl : forall w, R w w.
Hypothesis R_trans : forall w1 w2 w3, R w1 w2 -> R w2 w3 -> R w1 w3.
Hypothesis R_trace : forall w evs, R w (with_trace evs w).
Hypothesis R_patch_scan : forall w id s updates,
  menuScans w !! id = Some s ->
  Forall field_ok updates ->
  R w (set_menuScans (<[id := MenuScan.patch updates s]> (menuScans w)) w).
Hypothesis R_patch_dish : forall w id updates,
  dish_ok updates ->
  R w (set_dishes (map (patch_row id updates) (dishes w)) w).
Hypothesis dish_ok_queued : dish_ok [Dish.ImageStatusF ImageStatus.queued].
Hypothesis dish_ok_skipped : dish_ok [Dish.ImageStatusF ImageStatus.skipped].
Hypothesis R_insert_dish : forall w d,
  Dish._id d = nextId w ->
  R w (set_nextId (S (nextId w)) (set_dishes (dishes w ++ [d]) w)).
Hypothesis R_insert_scan : forall w s,
  R w (set_nextId (S (nextId w)) (set_menuScans (<[nextId w := s]> (menuScans w)) w)).
Hypothesis R_users : forall w us, R w (set_deviceUsers us w).
Hypothesis R_schedule : forall w j, okjob j -> R w (set_scheduled (scheduled w ++ [j]) w).
Hypothesis R_unschedule : forall w i, R w (set_scheduled (delete i (scheduled w)) w).

Hypothesis ok_ImageStorageId : forall v, field_ok (MenuScan.ImageStorageId v).
Hypothesis ok_ImageUrl : forall v, field_ok (MenuScan.ImageUrl v).
Hypothesis ok_RestaurantName : forall v, field_ok (MenuScan.RestaurantName v).
Hypothesis ok_Status : forall v, field_ok (MenuScan.Status v).
Hypothesis ok_StatusMessage : forall v, field_ok (MenuScan.StatusMessage v).
Hypothesis ok_ErrorMessage : forall v, field_ok (MenuScan.ErrorMessage v).
Hypothesis ok_TotalDishes : forall v, field_ok (MenuScan.TotalDishes v).
Hypothesis ok_DishesExtracted : forall v, field_ok (MenuScan.DishesExtracted v).
Hypothesis ok_ImagesGenerated : forall v, field_ok (MenuScan.ImagesGenerated v).
Hypothesis ok_ImagesRequested : forall v, field_ok (MenuScan.ImagesRequested v).
Hypothesis ok_EstimatedCostUsd : forall v, field_ok (MenuScan.EstimatedCostUsd v).
Hypothesis ok_ActualCostUsd : forall v, field_ok (MenuScan.ActualCostUsd v).
Hypothesis ok_CompletedAt : forall v, field_ok (MenuScan.CompletedAt v).

Hypothesis okjob_start : forall scanId imageProvider,
  okjob (JobPipeline scanId (choose_provider CONFIG isValidProvider imageProvider)).
Hypothesis okjob_chosen : forall dishId scanId imageProvider,
  okjob (JobGenerate dishId scanId (choose_provider CONFIG isValidProvider imageProvider)).
Hypothesis okjob_pipeline : forall dishId scanId provider,
  okjob (JobPipeline scanId provider) -> okjob (JobGenerate dishId scanId provider).

(** ** The monads *)

Lemma mframe_mret {A} (a : A) : mframe R (mret a).
Proof. intros w a' w' H. inversion H; subst. apply R_refl. Qed.

Lemma mframe_mthrow {A} e : mframe R (@mthrow A e).
Proof. intros w a w' H. discriminate. Qed.

Lemma mframe_mread {A} (q : World -> A) : mframe R (mread q).
Proof. intros w a w' H. inversion H; subst. apply R_refl. Qed.

Lemma mframe_mbind {A B} (m : Mutation A) (k : A -> Mutation B) :
  mframe R m -> (forall a, mframe R (k a)) -> mframe R (mbind m k).
Proof.
  intros Hm Hk w b w' H. unfold mbind in H.
  destruct (m w) as [e|[a w1]] eqn:E; [discriminate|].
  eapply R_trans; [eapply Hm, E|eapply Hk, H].
Qed.

Lemma mframe_mforEach {A S} (body : A -> S -> Mutation S) l :
  (forall x s, mframe R (body x s)) -> forall s, mframe R (mforEach body l s).
Proof.
  intros Hb. induction l as [|x l IH]; intros s; cbn [mforEach].
  - apply mframe_mret.
  - apply mframe_mbind; [apply Hb|apply IH].
Qed.

Lemma aframe_ret {A} (a : A) : aframe R (ret a).
Proof. intros w. apply R_refl. Qed.

Lemma aframe_throw {A} e : aframe R (@throw A e).
Proof. intros w. apply R_refl. Qed.

Lemma aframe_lift {A} (r : Thrown + A) : aframe R (lift r).
Proof. destruct r; [apply aframe_throw|apply aframe_ret]. Qed.

Lemma aframe_runQuery {A} (q : World -> A) : aframe R (runQuery q).
Proof. intros w. apply R_refl. Qed.

Lemma aframe_bind {A B} (m : Action A) (k : A -> Action B) :
  aframe R m -> (forall a, aframe R (k a)) -> aframe R (bind m k).
Proof.
  intros Hm Hk w. unfold bind. specialize (Hm w).
  destruct (m w) as [[e|a] w1]; cbn [snd] in *; [exact Hm|].
  eapply R_trans; [exact Hm|apply Hk].
Qed.

Lemma aframe_try_catch {A} (body : Action A) (handler : Thrown -> Action A) :
  aframe R body -> (forall e, aframe R (handler e)) -> aframe R (try_catch body handler).
Proof.
  intros Hm Hk w. unfold try_catch. specialize (Hm w).
  destruct (body w) as [[e|a] w1]; cbn [snd] in *; [|exact Hm].
  eapply R_trans; [exact Hm|apply Hk].
Qed.

Lemma aframe_runMutation {A} (m : Mutation A) : mframe R m -> aframe R (runMutation m).
Proof.
  intros Hm w. unfold runMutation.
  destruct (m w) as [e|[a w1]] eqn:E; cbn [snd]; [apply R_refl|eapply Hm, E].
Qed.

Lemma aframe_forEach {A S} (body : A -> S -> Action S) l :
  (forall x s, aframe R (body x s)) -> forall s, aframe R (forEach body l s).
Proof.
  intros Hb. induction l as [|x l IH]; intros s; cbn [forEach].
  - apply aframe_ret.
  - apply aframe_bind; [apply Hb|apply IH].
Qed.

Lemma aframe_schedule j : okjob j -> aframe R (schedule j).
Proof. intros Hj w. apply R_schedule, Hj. Qed.

Lemma aframe_log e : aframe R (log e).
Proof. intros w. apply R_trace. Qed.

Lemma frame_commit {A} (m : Mutation A) w : mframe R m -> R w (commit m w).
Proof.
  intros Hm. unfold commit. destruct (m w) as [e|[a w1]] eqn:E; [apply R_refl|eapply Hm, E].
Qed.

(** ** The primitives and the mutations *)

Lemma mframe_patch_scan id updates :
  Forall field_ok updates -> mframe R (patch_scan id updates).
Proof.
  intros Hu w a w' H. unfold patch_scan in H.
  destruct (menuScans w !! id) as [s|] eqn:E; [|discriminate].
  inversion H; subst.
  eapply R_trans; [apply (R_patch_scan _ _ _ updates E Hu)|apply R_trace].
Qed.

(** The entries of a patch are among those the relation allows: the lists
    of the handlers are made of literals, of optional entries and of
    entries under a test. *)
Ltac scan_ok_tac :=
  intros; cbn;
  repeat match goal with
         | |- context [decide (?a = ?b)] =>
             destruct (decide (a = b)); [try discriminate|]; cbn
         | |- context [truthy_cost ?o] => destruct (truthy_cost o); cbn
         | |- context [opt_field _ ?o] => destruct o; cbn
         | |- context [if ?b then _ else _] => destruct b; cbn
         | |- context [match ?o with Some _ => _ | None => _ end] => destruct o; cbn
         end;
  repeat constructor; auto.

Lemma mframe_patch_dish id updates : dish_ok updates -> mframe R (patch_dish id updates).
Proof.
  intros Hu w a w' H. unfold patch_dish in H.
  destruct (get_dish w id) as [d|]; [|discriminate].
  inversion H; subst.
  eapply R_trans; [apply R_patch_dish, Hu|apply R_trace].
Qed.

Lemma mframe_createMenuScan now deviceId : mframe R (createMenuScan CONFIG now deviceId).
Proof.
  intros w a w' H. unfold createMenuScan in H.
  destruct (List.find _ (deviceUsers w)) as [user|]; [|discriminate].
  inversion H; subst.
  eapply R_trans; [apply R_insert_scan|apply R_users].
Qed.

Lemma mframe_storeMenuImage scanId storageId imageUrl :
  mframe R (storeMenuImage scanId storageId imageUrl).
Proof.
  intros w a w' H. unfold storeMenuImage in H.
  destruct (get_scan w scanId); [|discriminate].
  revert H. apply mframe_mbind; [apply mframe_patch_scan|intros; apply mframe_mret].
  scan_ok_tac.
Qed.

Lemma mframe_updateScanStatus now scanId status sm em :
  Forall field_ok
    ((([MenuScan.Status status] ++ opt_field MenuScan.StatusMessage sm)
      ++ opt_field MenuScan.ErrorMessage em)
     ++ (if decide (status = ScanStatus.completed) then [MenuScan.CompletedAt now] else [])) ->
  mframe R (updateScanStatus now scanId status sm em).
Proof. apply mframe_patch_scan. Qed.

Lemma mframe_updateScanProgress scanId args :
  (forall scan,
     Forall field_ok
       (opt_field MenuScan.TotalDishes (arg_totalDishes args)
        ++ opt_field MenuScan.DishesExtracted (arg_dishesExtracted args)
        ++ opt_field MenuScan.ImagesGenerated (arg_imagesGenerated args)
        ++ opt_field MenuScan.ImagesRequested (arg_imagesRequested args)
        ++ opt_field MenuScan.RestaurantName (arg_restaurantName args)
        ++ opt_field (fun c => MenuScan.ActualCostUsd (MenuScan.actualCostUsd scan + c)%Qc)
             (truthy_cost (arg_addActualCost args))
        ++ opt_field (fun c => MenuScan.EstimatedCostUsd
                                 (MenuScan.estimatedCostUsd scan + c)%Qc)
             (truthy_cost (arg_addEstimatedCost args)))) ->
  mframe R (updateScanProgress scanId args).
Proof.
  intros Hu w a w' H. unfold updateScanProgress in H.
  destruct (get_scan w scanId) as [scan|]; [|discriminate].
  revert H. apply mframe_patch_scan, Hu.
Qed.

Lemma mframe_createDish now args : mframe R (createDish now args).
Proof.
  intros w a w' H. unfold createDish in H.
  destruct (createDish_status_ok _); [|discriminate].
  inversion H; subst. apply R_insert_dish. reflexivity.
Qed.

Lemma mframe_updateDishImage now dishId args :
  (forall updates, dish_ok updates) -> mframe R (updateDishImage now dishId args).
Proof. intros Hu. apply mframe_patch_dish, Hu. Qed.

Ltac mframe_tac :=
  repeat first
    [ apply mframe_mret | apply mframe_mthrow | apply mframe_mread
    | apply mframe_patch_scan; solve [scan_ok_tac]
    | apply mframe_patch_dish; first [apply dish_ok_queued | apply dish_ok_skipped]
    | apply mframe_mbind; [|intros ?]
    | apply mframe_mforEach; intros ? ?
    | match goal with
      | |- mframe _ (match ?x with _ => _ end) => destruct x
      end ].

Lemma mframe_queueRemainingImages scanId : mframe R (queueRemainingImages CONFIG scanId).
Proof. unfold queueRemainingImages. mframe_tac. Qed.

Lemma mframe_forceCompleteScan now scanId : mframe R (forceCompleteScan now scanId).
Proof. unfold forceCompleteScan. mframe_tac. Qed.

Lemma mframe_stopImageGeneration now scanId : mframe R (stopImageGeneration now scanId).
Proof. unfold stopImageGeneration. mframe_tac. Qed.

Lemma mframe_queueSingleDishImage dishId : mframe R (queueSingleDishImage CONFIG dishId).
Proof. unfold queueSingleDishImage. mframe_tac. Qed.

(** ** The actions *)

Ltac aframe_tac :=
  repeat first
    [ apply aframe_ret | apply aframe_throw | apply aframe_lift | apply aframe_runQuery
    | apply aframe_log
    | apply aframe_runMutation;
      first [ apply mframe_updateScanStatus; solve [scan_ok_tac]
            | apply mframe_updateScanProgress; solve [scan_ok_tac]
            | apply mframe_createDish
            | apply mframe_queueRemainingImages | apply mframe_queueSingleDishImage ]
    | apply aframe_bind; [|intros ?]
    | apply aframe_try_catch; [|intros ?]
    | apply aframe_forEach; intros ? ?
    | match goal with
      | |- aframe _ (match ?x with _ => _ end) => destruct x
      end ].

Lemma aframe_startProcessingScan now scanId imageProvider :
  aframe R (startProcessingScan CONFIG isValidProvider now scanId imageProvider).
Proof.
  unfold startProcessingScan. aframe_tac. apply aframe_schedule, okjob_start.
Qed.

Lemma aframe_create_item now scanId sectionName item st :
  aframe R (create_item CONFIG now scanId sectionName item st).
Proof. unfold create_item. aframe_tac. Qed.

Lemma aframe_processScanPipeline now scanId imageProvider vision :
  okjob (JobPipeline scanId imageProvider) ->
  aframe R (processScanPipeline CONFIG now scanId imageProvider vision).
Proof.
  intros Hj. unfold processScanPipeline.
  aframe_tac; try apply aframe_create_item; try (apply aframe_schedule, okjob_pipeline, Hj).
Qed.

Lemma aframe_count_job now scanId cost msg : aframe R (count_job now scanId cost msg).
Proof. unfold count_job. aframe_tac. Qed.

Lemma aframe_generateDishImage now dishId scanId provider img :
  (forall updates, dish_ok updates) ->
  aframe R (generateDishImage CONFIG now dishId scanId provider img).
Proof.
  intros Hu. unfold generateDishImage.
  aframe_tac; try apply aframe_count_job; apply aframe_runMutation, mframe_updateDishImage, Hu.
Qed.

Lemma aframe_generateRemainingImages scanId imageProvider :
  aframe R (generateRemainingImages CONFIG isValidProvider scanId imageProvider).
Proof.
  unfold generateRemainingImages. aframe_tac; apply aframe_schedule, okjob_chosen.
Qed.

Lemma aframe_generateSingleDishImage dishId imageProvider :
  aframe R (generateSingleDishImage CONFIG isValidProvider dishId imageProvider).
Proof.
  unfold generateSingleDishImage. aframe_tac; apply aframe_schedule, okjob_chosen.
Qed.

(** ** The steps of the system *)

Lemma frame_run_job now vision img j w :
  match j with
  | JobPipeline _ _ => okjob j
  | JobGenerate _ _ _ => forall updates, dish_ok updates
  end ->
  R w (run_job CONFIG now vision img j w).
Proof.
  intros Hj. destruct j; cbn [run_job]; unfold run.
  - apply aframe_processScanPipeline, Hj.
  - apply aframe_generateDishImage, Hj.
Qed.

(** Every step but the creation of a scan. *)
Lemma frame_exec_scan c w :
  operation_of c w <> OpCreate ->
  (operation_of c w = OpWorker -> forall updates, dish_ok updates) ->
  (forall j, j ∈ scheduled w -> okjob j) ->
  R w (exec CONFIG isValidProvider c w).
Proof.
  intros Hc Hw Hq. destruct c; cbn [exec operation_of] in *; unfold run.
  - congruence.
  - apply frame_commit, mframe_storeMenuImage.
  - apply aframe_startProcessingScan.
  - apply aframe_generateRemainingImages.
  - apply aframe_generateSingleDishImage.
  - apply frame_commit, mframe_stopImageGeneration.
  - apply frame_commit, mframe_forceCompleteScan.
  - destruct (scheduled w !! i) as [j|] eqn:E; [|apply R_refl].
    eapply R_trans; [apply R_unschedule|].
    apply frame_run_job. destruct j.
    + apply Hq. eapply list_elem_of_lookup_2, E.
    + apply Hw. reflexivity.
Qed.

(** Every step but the run of a pipeline job. *)
Lemma frame_exec_no_pipeline c w :
  operation_of c w <> OpPipeline ->
  (operation_of c w = OpWorker -> forall updates, dish_ok updates) ->
  R w (exec CONFIG isValidProvider c w).
Proof.
  intros Hc Hw. destruct c; cbn [exec operation_of] in *; unfold run.
  - apply frame_commit, mframe_createMenuScan.
  - apply frame_commit, mframe_storeMenuImage.
  - apply aframe_startProcessingScan.
  - apply aframe_generateRemainingImages.
  - apply aframe_generateSingleDishImage.
  - apply frame_commit, mframe_stopImageGeneration.
  - apply frame_commit, mframe_forceCompleteScan.
  - destruct (scheduled w !! i) as [j|] eqn:E; [|apply R_refl].
    eapply R_trans; [apply R_unschedule|].
    destruct j; [congruence|]. cbn [run_job]. unfold run.
    apply aframe_generateDishImage, Hw. reflexivity.
Qed.

Lemma frame_exec c w :
  (operation_of c w = OpWorker -> forall updates, dish_ok updates) ->
  (forall j, j ∈ scheduled w -> okjob j) ->
  R w (exec CONFIG isValidProvider c w).
Proof.
  intros Hw Hq. destruct c;
    try (apply frame_exec_scan; [cbn [operation_of]; discriminate|assumption..]).
  - cbn [exec]. apply frame_commit, mframe_createMenuScan.
  - apply frame_exec_scan; [|assumption..].
    cbn [operation_of]. destruct (scheduled w !! i) as [[]|]; discriminate.
Qed.

End Frame.

(** ** What the steps keep of the dishes *)

Lemma menu_text_set f d : menu_text (Dish.set f d) = menu_text d.
Proof. destruct d, f; reflexivity. Qed.

Lemma menu_text_patch updates d : menu_text (Dish.patch updates d) = menu_text d.
Proof.
  unfold Dish.patch. revert d.
  induction updates as [|f updates IH]; intros d; cbn [fold_left]; [reflexivity|].
  rewrite IH. apply menu_text_set.
Qed.

Lemma menu_text_patch_row id updates d : menu_text (patch_row id updates d) = menu_text d.
Proof. unfold patch_row. destruct (Nat.eqb _ _); [apply menu_text_patch|reflexivity]. Qed.

Lemma dish_kept_refl d : dish_kept d d.
Proof. repeat split. left. reflexivity. Qed.

Lemma dish_kept_trans d1 d2 d3 : dish_kept d1 d2 -> dish_kept d2 d3 -> dish_kept d1 d3.
Proof.
  intros (Ht1 & Hi1 & Hs1) (Ht2 & Hi2 & Hs2). repeat split; [congruence..|].
  destruct Hs2 as [Hs2|Hs2]; [rewrite Hs2; exact Hs1|right; exact Hs2].
Qed.

Lemma dish_kept_status st d :
  st = ImageStatus.queued \/ st = ImageStatus.skipped ->
  dish_kept d (Dish.patch [Dish.ImageStatusF st] d).
Proof. intros Hst. destruct d. repeat split. right. exact Hst. Qed.

Section TableKept.
Variable rel : Dish.t -> Dish.t -> Prop.
Hypothesis rel_refl : forall d, rel d d.
Hypothesis rel_trans : forall d1 d2 d3, rel d1 d2 -> rel d2 d3 -> rel d1 d3.

Lemma Forall2_rel_refl ds : Forall2 rel ds ds.
Proof. induction ds; constructor; auto. Qed.

Lemma table_kept_refl ds : table_kept rel ds ds.
Proof. exists ds, []. split; [symmetry; apply app_nil_r|apply Forall2_rel_refl]. Qed.

Lemma table_kept_app ds rows : table_kept rel ds (ds ++ rows).
Proof. exists ds, rows. split; [reflexivity|apply Forall2_rel_refl]. Qed.

Lemma table_kept_trans ds1 ds2 ds3 :
  table_kept rel ds1 ds2 -> table_kept rel ds2 ds3 -> table_kept rel ds1 ds3.
Proof.
  intros (a & r1 & -> & H1) (b & r2 & -> & H2).
  apply Forall2_app_inv_l in H2 as (b1 & b2 & Hb1 & Hb2 & ->).
  exists b1, (b2 ++ r2). split; [symmetry; apply app_assoc|].
  clear Hb2. revert b1 Hb1. induction H1 as [|x y l l' Hxy H1 IH]; intros b1 Hb1.
  - inversion Hb1. constructor.
  - inversion Hb1; subst. constructor; [eapply rel_trans; eassumption|apply IH; assumption].
Qed.

Lemma table_kept_map g ds : (forall d, rel d (g d)) -> table_kept rel ds (map g ds).
Proof.
  intros Hg. exists (map g ds), []. split; [symmetry; apply app_nil_r|].
  induction ds; constructor; auto.
Qed.

Lemma table_kept_patch_row id updates ds :
  (forall d, rel d (Dish.patch updates d)) ->
  table_kept rel ds (map (patch_row id updates) ds).
Proof.
  intros Hu. apply table_kept_map. intros d. unfold patch_row.
  destruct (Nat.eqb _ _); [apply Hu|apply rel_refl].
Qed.

(** A step keeps the table when its patches do: every step, if a patch
    of any kind keeps a row; a step that is not an image job, if queueing
    and skipping a row keep it. *)
Lemma table_kept_exec CONFIG isValidProvider c w :
  (forall d, rel d (Dish.patch [Dish.ImageStatusF ImageStatus.queued] d)) ->
  (forall d, rel d (Dish.patch [Dish.ImageStatusF ImageStatus.skipped] d)) ->
  (operation_of c w = OpWorker -> forall updates d, rel d (Dish.patch updates d)) ->
  table_kept rel (dishes w) (dishes (exec CONFIG isValidProvider c w)).
Proof.
  intros Hq Hs Hw.
  apply (frame_exec (fun w w' => table_kept rel (dishes w) (dishes w')) (fun _ => True)
           (fun updates => forall d, rel d (Dish.patch updates d)) (fun _ => True));
    try (intros; exact I); try assumption.
  - intros w0. apply table_kept_refl.
  - intros w1 w2 w3. apply table_kept_trans.
  - intros w0 evs. apply table_kept_refl.
  - intros w0 id s updates _ _. apply table_kept_refl.
  - intros w0 id updates Hu. apply table_kept_patch_row, Hu.
  - intros w0 d _. apply table_kept_app.
  - intros w0 s. apply table_kept_refl.
  - intros w0 us. apply table_kept_refl.
  - intros w0 j _. apply table_kept_refl.
  - intros w0 i. apply table_kept_refl.
Qed.

End TableKept.

Lemma table_kept_same_text ds ds' :
  table_kept same_text ds ds' <-> map menu_text ds `prefix_of` map menu_text ds'.
Proof.
  split.
  - intros (ds1 & rows & -> & H). exists (map menu_text rows).
    rewrite map_app. f_equal.
    induction H as [|x y l l' Hxy H IH]; [reflexivity|].
    cbn [map]. rewrite IH, Hxy. reflexivity.
  - intros [k Hk]. revert ds' Hk. induction ds as [|d ds IH]; intros ds' Hk.
    + exists [], ds'. split; [reflexivity|constructor].
    + destruct ds' as [|d' ds']; [discriminate|]. cbn [map] in Hk.
      pose proof (f_equal (fun l => hd (menu_text d) l) Hk) as Hd.
      pose proof (f_equal (fun l => tl l) Hk) as Hk'.
      cbn [hd tl map app] in Hd, Hk'.
      destruct (IH _ Hk') as (ds1 & rows & -> & H).
      exists (d' :: ds1), rows. split; [reflexivity|].
      constructor; [exact Hd|exact H].
Qed.

(** X1.  No step of the pipeline system deletes a dish, moves it in the
    table or to another scan, or changes what was read off the menu for it
    (name, description, price, section, display order): the dishes of the
    store before a step are, with these fields, the first dishes of the
    store after the step.  Source: the [ctx.db.patch] and [ctx.db.insert]
    sites of [convex/mutations.ts], as called from [convex/actions.ts]. *)
Theorem exec_keeps_menu_text CONFIG isValidProvider c w :
  map menu_text (dishes w) `prefix_of`
  map menu_text (dishes (exec CONFIG isValidProvider c w)).
Proof.
  apply table_kept_same_text.
  apply table_kept_exec; unfold same_text; try congruence.
  - intros d. apply menu_text_patch.
  - intros d. apply menu_text_patch.
  - intros _ updates d. apply menu_text_patch.
Qed.

(** X2.  A step that is not the run of an image job leaves the image of
    every dish alone (storage id, URL, provider, cost, time of generation,
    error), and changes the image status of a dish only to queue it or to
    skip it: no dish becomes generating, completed or failed but by
    [generateDishImage].  Source: [updateDishImage] is called by
    [generateDishImage] only; the mutations patch [imageStatus] alone. *)
Theorem only_image_jobs_write_images CONFIG isValidProvider c w :
  operation_of c w <> OpWorker ->
  table_kept dish_kept (dishes w) (dishes (exec CONFIG isValidProvider c w)).
Proof.
  intros Hc. apply table_kept_exec.
  - apply dish_kept_refl.
  - apply dish_kept_trans.
  - intros d. apply dish_kept_status. left. reflexivity.
  - intros d. apply dish_kept_status. right. reflexivity.
  - intros Hw. contradiction.
Qed.

Lemma only_image_jobs_write_images_witness :
  table_kept dish_kept (dishes ex_generating) (dishes ex_stopped).
Proof.
  apply (only_image_jobs_write_images ex_CONFIG ex_isValidProvider
           (CallStopImageGeneration 103 1) ex_generating).
  discriminate.
Defined.

(** ** What the steps keep of the scans *)

Lemma scan_origin_set f s : scan_origin (MenuScan.set f s) = scan_origin s.
Proof. destruct s, f; reflexivity. Qed.

Lemma scan_origin_patch updates s : scan_origin (MenuScan.patch updates s) = scan_origin s.
Proof.
  unfold MenuScan.patch. revert s.
  induction updates as [|f updates IH]; intros s; cbn [fold_left]; [reflexivity|].
  rewrite IH. apply scan_origin_set.
Qed.

(** X3.  No step of the pipeline system deletes a scan, hands it to
    another device or changes its creation time.  Source: the
    [ctx.db.patch] sites on [menuScans] of [convex/mutations.ts]; the only
    insertion is the one of [createMenuScan], under a new id. *)
Theorem exec_keeps_scans CONFIG isValidProvider c w scanId s :
  (scanId < nextId w)%nat ->
  menuScans w !! scanId = Some s ->
  exists s',
    menuScans (exec CONFIG isValidProvider c w) !! scanId = Some s'
    /\ MenuScan.deviceId s' = MenuScan.deviceId s
    /\ MenuScan.createdAt s' = MenuScan.createdAt s.
Proof.
  intros Hid Hs.
  pose (R := fun w w' : World =>
               (nextId w <= nextId w')%nat
               /\ forall id, (id < nextId w)%nat ->
                             scan_origin <$> menuScans w' !! id
                             = scan_origin <$> menuScans w !! id).
  assert (HR : R w (exec CONFIG isValidProvider c w)).
  { apply (frame_exec R (fun _ => True) (fun _ => True) (fun _ => True)); unfold R;
      try (intros; exact I); try (intros; split; [cbn; lia|reflexivity]).
    - intros w1 w2 w3 [Hn1 H1] [Hn2 H2]. split; [lia|].
      intros id Hlt. rewrite H2 by lia. apply H1, Hlt.
    - intros w0 id s0 updates Hs0 _. split; [cbn; lia|]. intros id' _. cbn.
      destruct (decide (id' = id)) as [->|Hne].
      + rewrite lookup_insert_eq, Hs0. cbn. f_equal. apply scan_origin_patch.
      + rewrite lookup_insert_ne by congruence. reflexivity.
    - intros w0 s0. split; [cbn; lia|]. intros id' Hlt. cbn.
      rewrite lookup_insert_ne by lia. reflexivity. }
  destruct HR as [_ HR]. specialize (HR scanId Hid). rewrite Hs in HR. cbn in HR.
  destruct (menuScans (exec CONFIG isValidProvider c w) !! scanId) as [s'|]; [|discriminate].
  exists s'. cbn in HR. unfold scan_origin in HR. split; [reflexivity|]. split; congruence.
Qed.

Lemma exec_keeps_scans_witness :
  exists s',
    menuScans ex_stopped !! 1%nat = Some s'
    /\ MenuScan.deviceId s' = "device-1" /\ MenuScan.createdAt s' = 100.
Proof.
  destruct (exec_keeps_scans ex_CONFIG ex_isValidProvider (CallStopImageGeneration 103 1)
              ex_generating 1
              (default (new_scan ex_CONFIG 0 "") (menuScans ex_generating !! 1%nat)))
    as (s' & H1 & H2 & H3).
  - vm_compute. lia.
  - vm_compute. reflexivity.
  - exists s'. split; [exact H1|]. split; [rewrite H2|rewrite H3]; vm_compute; reflexivity.
Defined.

(** A step other than the creation of a scan leaves the device users, the
    set of scans and the device of each scan as they are. *)
Lemma exec_keeps_devices CONFIG isValidProvider c w :
  operation_of c w <> OpCreate ->
  let w' := exec CONFIG isValidProvider c w in
  deviceUsers w' = deviceUsers w
  /\ MenuScan.deviceId <$> menuScans w' = MenuScan.deviceId <$> menuScans w
  /\ (nextId w <= nextId w')%nat.
Proof.
  intros Hc.
  apply (frame_exec_scan
           (fun w w' => deviceUsers w' = deviceUsers w
                        /\ MenuScan.deviceId <$> menuScans w' = MenuScan.deviceId <$> menuScans w
                        /\ (nextId w <= nextId w')%nat)
           (fun _ => True) (fun _ => True) (fun _ => True));
    try (intros; exact I); try assumption;
    try (intros; split; [reflexivity|split; [reflexivity|cbn; lia]]).
  - intros w1 w2 w3 (H1 & H2 & H3) (H4 & H5 & H6).
    split; [congruence|]. split; [congruence|lia].
  - intros w0 id s updates Hs _. split; [reflexivity|]. split; [|cbn; lia]. cbn.
    rewrite fmap_insert. apply insert_id. rewrite lookup_fmap, Hs. cbn.
    f_equal. pose proof (scan_origin_patch updates s) as H. unfold scan_origin in H. congruence.
Qed.

(** ** The providers of the jobs *)

Lemma choose_provider_valid CONFIG isValidProvider imageProvider :
  isValidProvider (DEFAULT_IMAGE_PROVIDER CONFIG) = true ->
  isValidProvider (choose_provider CONFIG isValidProvider imageProvider) = true.
Proof.
  intros Hd. unfold choose_provider.
  destruct (truthy_string imageProvider) as [p|]; [|exact Hd].
  destruct (isValidProvider p) eqn:E; [exact E|exact Hd].
Qed.

Lemma exec_keeps_providers CONFIG isValidProvider c w :
  isValidProvider (DEFAULT_IMAGE_PROVIDER CONFIG) = true ->
  (forall j, j ∈ scheduled w -> isValidProvider (job_provider j) = true) ->
  forall j, j ∈ scheduled (exec CONFIG isValidProvider c w) ->
            isValidProvider (job_provider j) = true.
Proof.
  intros Hd Hq.
  pose (ok := fun j => isValidProvider (job_provider j) = true).
  pose (Inv := fun w : World => forall j, j ∈ scheduled w -> ok j).
  assert (HR : Inv w -> Inv (exec CONFIG isValidProvider c w)).
  { apply (frame_exec (fun w w' => Inv w -> Inv w') ok (fun _ => True) (fun _ => True));
      unfold Inv;
      try (intros; exact I); try exact Hq.
    - auto.
    - intros w1 w2 w3 H1 H2 H. auto.
    - intros w0 evs H. exact H.
    - intros w0 id s updates _ _ H. exact H.
    - intros w0 id updates _ H. exact H.
    - intros w0 d _ H. exact H.
    - intros w0 s H. exact H.
    - intros w0 us H. exact H.
    - intros w0 j Hj H j' Hj'. cbn in Hj'.
      apply elem_of_app in Hj' as [Hj'|Hj']; [apply H, Hj'|].
      apply list_elem_of_singleton in Hj' as ->. exact Hj.
    - intros w0 i H j' Hj'. cbn in Hj'. apply H. eapply elem_of_delete, Hj'.
    - intros scanId imageProvider. apply choose_provider_valid, Hd.
    - intros dishId scanId imageProvider. apply choose_provider_valid, Hd.
    - intros dishId scanId provider H. exact H. }
  exact (HR Hq).
Qed.

(** X4.  When the default provider is a valid one, every job in the queue
    of a reachable store carries a valid provider; when moreover the valid
    providers are the two that [callImageAPI] knows, no image job fails
    with [Unknown image provider]: whenever the service answers with an
    image, [callImageAPI] returns it with the unit cost of the provider.
    Source: the choice of the provider in [startProcessingScan],
    [generateRemainingImages] and [generateSingleDishImage], handed on by
    [processScanPipeline] to [generateDishImage] and [callImageAPI]. *)
Theorem queued_jobs_have_known_provider CONFIG isValidProvider w j :
  isValidProvider (DEFAULT_IMAGE_PROVIDER CONFIG) = true ->
  (forall p, isValidProvider p = true -> p = "openai" \/ p = "nano_banana") ->
  reachable CONFIG isValidProvider w ->
  j ∈ scheduled w ->
  isValidProvider (job_provider j) = true
  /\ forall imageUrl,
       callImageAPI CONFIG (job_provider j) (inr imageUrl)
       = inr (imageUrl,
              if decide (job_provider j = "openai")
              then IMAGE_OPENAI (COSTS CONFIG) else IMAGE_NANO_BANANA (COSTS CONFIG)).
Proof.
  intros Hd Hknown Hreach Hj.
  assert (Hv : isValidProvider (job_provider j) = true).
  { revert j Hj. induction Hreach as [w Hini|w c Hreach IH Hprot].
    - intros j Hj. destruct Hini as (_ & _ & Hs & _). rewrite Hs in Hj. inversion Hj.
    - apply exec_keeps_providers; assumption. }
  split; [exact Hv|]. intros imageUrl. unfold callImageAPI.
  destruct (decide (job_provider j = "openai")) as [He|He]; [reflexivity|].
  destruct (decide (job_provider j = "nano_banana")) as [Hn|Hn]; [reflexivity|].
  destruct (Hknown _ Hv); contradiction.
Qed.

Lemma queued_jobs_have_known_provider_witness :
  callImageAPI ex_CONFIG "openai" (inr "https://provider/img.png")
  = inr ("https://provider/img.png", IMAGE_OPENAI (COSTS ex_CONFIG)).
Proof.
  refine (proj2 (queued_jobs_have_known_provider ex_CONFIG ex_isValidProvider ex_generating
                   (JobGenerate 2 1 "openai") _ _ ex_generating_reachable _)
            "https://provider/img.png").
  - vm_compute. reflexivity.
  - intros p Hp. unfold ex_isValidProvider in Hp.
    apply orb_true_iff in Hp as [Hp|Hp]; apply bool_decide_eq_true in Hp; auto.
  - apply list_elem_of_In. vm_compute. left. reflexivity.
Defined.

(** * The effect of the calls that stop, force and queue *)

Lemma patch_all_stop_row w id :
  NoDup (map Dish._id (dishes w)) ->
  patch_all stop_sel (dishes_by_scanId w id) (dishes w) = map (stop_row id) (dishes w).
Proof.
  intros Hnd. rewrite patch_all_NoDup; [|done|by apply by_scanId_NoDup|].
  2:{ intros d Hd. by apply elem_of_by_scanId in Hd as [? _]. }
  apply map_ext_in. intros d Hd%list_elem_of_In.
  unfold stop_row, stop_sel.
  destruct (decide (d ∈ dishes_by_scanId w id)) as [Hin|Hnin].
  - apply elem_of_by_scanId in Hin as [_ Hsc].
    destruct (decide (Dish.scanId d = id /\ Dish.imageStatus d = ImageStatus.queued))
      as [[_ ->]|Hn]; [reflexivity|].
    destruct (Dish.imageStatus d); try reflexivity. tauto.
  - destruct (decide (Dish.scanId d = id /\ Dish.imageStatus d = ImageStatus.queued))
      as [[Hsc _]|_]; [|reflexivity].
    exfalso. apply Hnin. by apply elem_of_by_scanId.
Qed.

Lemma patch_all_force_row w id :
  NoDup (map Dish._id (dishes w)) ->
  patch_all force_sel (dishes_by_scanId w id) (dishes w) = map (force_row id) (dishes w).
Proof.
  intros Hnd. rewrite patch_all_NoDup; [|done|by apply by_scanId_NoDup|].
  2:{ intros d Hd. by apply elem_of_by_scanId in Hd as [? _]. }
  apply map_ext_in. intros d Hd%list_elem_of_In.
  unfold force_row, force_sel.
  destruct (decide (d ∈ dishes_by_scanId w id)) as [Hin|Hnin].
  - apply elem_of_by_scanId in Hin as [_ Hsc].
    destruct (decide _) as [[_ [->| ->]]|Hn]; [reflexivity..|].
    destruct (Dish.imageStatus d); try reflexivity; tauto.
  - destruct (decide _) as [[Hsc _]|_]; [|reflexivity].
    exfalso. apply Hnin. by apply elem_of_by_scanId.
Qed.

Lemma stop_row_scanId id d : Dish.scanId (stop_row id d) = Dish.scanId d.
Proof. unfold stop_row. destruct (decide _); [by destruct d|reflexivity]. Qed.

Lemma force_row_scanId id d : Dish.scanId (force_row id d) = Dish.scanId d.
Proof. unfold force_row. destruct (decide _); [by destruct d|reflexivity]. Qed.

Lemma stop_row_id id d : Dish._id (stop_row id d) = Dish._id d.
Proof. unfold stop_row. destruct (decide _); [by destruct d|reflexivity]. Qed.

Lemma by_scan_map_filter g a (ds : list Dish.t) :
  (forall d, Dish.scanId (g d) = Dish.scanId d) ->
  filter (fun d => Dish.scanId d = a) (map g ds) = map g (filter (fun d => Dish.scanId d = a) ds).
Proof. intros Hg. apply (by_scan_map g a ds Hg). Qed.

Lemma count_status_map_same st g (l : list Dish.t) :
  (forall d, d ∈ l -> Dish.imageStatus (g d) = st <-> Dish.imageStatus d = st) ->
  count_status st (map g l) = count_status st l.
Proof.
  induction l as [|d l IH]; intros Hg; [reflexivity|].
  cbn [map]. rewrite !count_status_cons, IH.
  2:{ intros d' Hd'. apply Hg. by right. }
  f_equal. pose proof (Hg d ltac:(by left)) as Hd.
  unfold has_status. destruct (decide (Dish.imageStatus d = st)) as [E|E].
  - rewrite !bool_decide_eq_true_2; [done..|]. by apply Hd.
  - rewrite !bool_decide_eq_false_2; [done..|]. intros H. by apply E, Hd.
Qed.

Lemma count_status_map_none st g (l : list Dish.t) :
  (forall d, d ∈ l -> Dish.imageStatus (g d) <> st) -> count_status st (map g l) = 0.
Proof.
  induction l as [|d l IH]; intros Hg; [reflexivity|].
  cbn [map]. rewrite count_status_cons, IH.
  2:{ intros d' Hd'. apply Hg. by right. }
  unfold has_status. rewrite bool_decide_eq_false_2; [done|]. apply Hg. by left.
Qed.

(** X5.  On a table with unique ids, [forceCompleteScan] turns the dishes
    of the scan that are queued or generating into skipped and leaves
    every other row as it was: afterwards no dish of the scan waits for an
    image.  The scan is completed at the time of the call, its status
    message and imagesGenerated give the number of completed dishes, which
    is also the first component of the result; the second is the number
    of dishes of the scan.  No job is taken from the queue. *)
Theorem forceCompleteScan_skips_in_flight now id w scan :
  NoDup (map Dish._id (dishes w)) ->
  menuScans w !! id = Some scan ->
  let n := count_status ImageStatus.completed (dishes_by_scanId w id) in
  exists w',
    forceCompleteScan now id w
    = inr (Build_ForceResult n (Z.of_nat (length (dishes_by_scanId w id))), w')
    /\ dishes w' = map (force_row id) (dishes w)
    /\ (forall d, d ∈ dishes_by_scanId w' id -> ~ in_flight d)
    /\ count_status ImageStatus.completed (dishes_by_scanId w' id) = n
    /\ scheduled w' = scheduled w
    /\ menuScans w' !! id
       = Some (MenuScan.patch
                 [MenuScan.Status ScanStatus.completed; MenuScan.ImagesGenerated n;
                  MenuScan.StatusMessage ("Completed with " +:+ pretty n +:+ " images");
                  MenuScan.CompletedAt now] scan).
Proof.
  intros Hnd Hs n.
  destruct (forceCompleteScan_spec now id w scan Hs) as (evs & E & _).
  eexists. split; [exact E|]. cbn [dishes scheduled menuScans].
  rewrite patch_all_force_row by exact Hnd.
  split; [reflexivity|]. split; [|split; [|split; [reflexivity|apply lookup_insert_eq]]].
  - intros d Hd. rewrite dishes_by_scanId_eq in Hd. cbn [dishes] in Hd.
    rewrite by_scan_map in Hd by apply force_row_scanId. rewrite <- dishes_by_scanId_eq in Hd. apply list_elem_of_fmap in Hd as (d0 & -> & Hd0).
    apply elem_of_by_scanId in Hd0 as [_ Hsc]. unfold force_row, in_flight.
    destruct (decide _) as [_|Hn]; [destruct d0; cbn; intros [?|?]; discriminate|].
    tauto.
  - rewrite (dishes_by_scanId_eq (mkWorld _ _ _ _ _ _)). cbn [dishes].
    rewrite by_scan_map by apply force_row_scanId. rewrite <- dishes_by_scanId_eq.
    apply count_status_map_same. intros d _. unfold force_row.
    destruct (decide _) as [[_ Hq]|_]; [|reflexivity].
    split; [destruct d; cbn; discriminate|]. intros Hc. destruct Hq; congruence.
Qed.

Lemma forceCompleteScan_skips_in_flight_witness :
  exists w',
    forceCompleteScan 104 1 ex_generating = inr (Build_ForceResult 0 3, w')
    /\ Dish.imageStatus <$> dishes w'
       = [ImageStatus.skipped; ImageStatus.skipped; ImageStatus.skipped].
Proof.
  destruct (forceCompleteScan_skips_in_flight 104 1 ex_generating
              (default (new_scan ex_CONFIG 0 "") (menuScans ex_generating !! 1%nat)))
    as (w' & E & Hd & _).
  - apply (bool_decide_unpack _). vm_compute. reflexivity.
  - vm_compute. reflexivity.
  - exists w'. split; [exact E|]. rewrite Hd. vm_compute. reflexivity.
Defined.

Lemma stop_row_twice id d : stop_row id (stop_row id d) = stop_row id d.
Proof.
  destruct (decide (Dish.scanId d = id /\ Dish.imageStatus d = ImageStatus.queued))
    as [Hq|Hn].
  - assert (H : stop_row id d = Dish.patch [Dish.ImageStatusF ImageStatus.skipped] d)
      by (unfold stop_row; by rewrite decide_True).
    rewrite H. unfold stop_row. rewrite decide_False; [done|].
    intros [_ Hc]. destruct d; cbn in Hc; discriminate.
  - assert (H : stop_row id d = d) by (unfold stop_row; by rewrite decide_False).
    by rewrite !H.
Qed.

(** X6.  On a table with unique ids, stopping the generation of a scan a
    second time changes no dish and no job: the second call counts the
    same completed dishes, finds nothing to skip, and writes the scan
    again with these numbers. *)
Theorem stopImageGeneration_twice now1 now2 id w scan :
  NoDup (map Dish._id (dishes w)) ->
  menuScans w !! id = Some scan ->
  let w1 := commit (stopImageGeneration now1 id) w in
  let n := count_status ImageStatus.completed (dishes_by_scanId w id) in
  exists w2,
    stopImageGeneration now2 id w1 = inr (Build_StopResult n 0, w2)
    /\ dishes w2 = dishes w1
    /\ scheduled w2 = scheduled w1
    /\ MenuScan.imagesGenerated <$> menuScans w2 !! id = Some n
    /\ MenuScan.statusMessage <$> menuScans w2 !! id
       = Some (Some ("Stopped - " +:+ pretty n +:+ " images completed, "
                     +:+ pretty 0 +:+ " skipped")).
Proof.
  intros Hnd Hs w1 n.
  destruct (stopImageGeneration_spec now1 id w scan Hs) as (evs1 & E1 & _).
  assert (Hw1 : exists s1 tr1,
             w1 = mkWorld (deviceUsers w) (<[id := s1]> (menuScans w))
                    (map (stop_row id) (dishes w)) (nextId w) (scheduled w) tr1).
  { subst w1. unfold commit. rewrite E1. rewrite patch_all_stop_row by exact Hnd. eauto. }
  destruct Hw1 as (s1 & tr1 & Hw1). clearbody w1. subst w1. clear E1 evs1.
  set (w1 := mkWorld _ _ _ _ _ _).
  assert (Hs1 : menuScans w1 !! id = Some s1) by apply lookup_insert_eq.
  assert (Hnd1 : NoDup (map Dish._id (dishes w1))).
  { cbn [w1 dishes]. rewrite map_map. erewrite map_ext; [exact Hnd|]. apply stop_row_id. }
  assert (Hby : dishes_by_scanId w1 id = map (stop_row id) (dishes_by_scanId w id)).
  { rewrite !dishes_by_scanId_eq. cbn [w1 dishes]. apply by_scan_map, stop_row_scanId. }
  assert (Hc : count_status ImageStatus.completed (dishes_by_scanId w1 id) = n).
  { rewrite Hby. apply count_status_map_same. intros d _. unfold stop_row.
    destruct (decide _) as [[_ Hq]|_]; [|reflexivity].
    split; [destruct d; cbn; discriminate|congruence]. }
  assert (Hq : count_status ImageStatus.queued (dishes_by_scanId w1 id) = 0).
  { rewrite Hby. apply count_status_map_none. intros d Hd.
    apply elem_of_by_scanId in Hd as [_ Hsc]. unfold stop_row.
    destruct (decide _) as [_|Hn]; [destruct d; cbn; discriminate|]. tauto. }
  destruct (stopImageGeneration_spec now2 id w1 s1 Hs1) as (evs2 & E2 & _).
  rewrite Hc, Hq in E2. eexists. split; [exact E2|]. cbn [dishes scheduled menuScans].
  split; [|split; [reflexivity|]].
  - rewrite patch_all_stop_row by exact Hnd1. cbn [w1 dishes].
    rewrite map_map. apply map_ext. apply stop_row_twice.
  - rewrite lookup_insert_eq. by destruct s1.
Qed.

Lemma stopImageGeneration_twice_witness :
  exists w2,
    stopImageGeneration 104 1 ex_stopped = inr (Build_StopResult 0 0, w2)
    /\ dishes w2 = dishes ex_stopped.
Proof.
  destruct (stopImageGeneration_twice 103 104 1 ex_generating
              (default (new_scan ex_CONFIG 0 "") (menuScans ex_generating !! 1%nat)))
    as (w2 & E & Hd & _).
  - apply (bool_decide_unpack _). vm_compute. reflexivity.
  - vm_compute. reflexivity.
  - exists w2. split; [exact E|exact Hd].
Defined.

(** ** Queueing *)

Lemma queueRemainingImages_patch CONFIG scanId w scan :
  menuScans w !! scanId = Some scan ->
  let pendingDishes := List.filter is_pending_or_skipped (dishes_by_scanId w scanId) in
  let toQueue := Z.min (Z.of_nat (length pendingDishes))
                   (MAX_IMAGES_PER_SCAN CONFIG - MenuScan.imagesRequested scan) in
  let l := take (Z.to_nat toQueue) pendingDishes in
  let queued := Z.of_nat (length l) in
  toQueue <> 0 ->
  exists evs,
    queueRemainingImages CONFIG scanId w
    = inr (Build_QueueResult queued
             ("Queued " +:+ pretty queued +:+ " images for generation")
             (Some (map Dish._id (js_slice0 toQueue pendingDishes))),
           mkWorld (deviceUsers w)
             (<[scanId := MenuScan.patch
                            [MenuScan.ImagesRequested (MenuScan.imagesRequested scan + queued);
                             MenuScan.EstimatedCostUsd
                               (MenuScan.estimatedCostUsd scan
                                + Qc_of_Z queued * IMAGE_OPENAI (COSTS CONFIG))%Qc;
                             MenuScan.Status ScanStatus.generating] scan]> (menuScans w))
             (patch_all queue_sel l (dishes w)) (nextId w) (scheduled w)
             (trace w ++ evs
              ++ [EvScanStatus scanId (MenuScan.status scan) ScanStatus.generating])).
Proof.
  intros Hs pendingDishes toQueue l queued Hne.
  unfold queueRemainingImages.
  assert (Hz : (toQueue =? 0) = false) by (by apply Z.eqb_neq).
  unfold mbind at 1, mread at 1, get_scan. rewrite Hs.
  unfold mbind at 1, mread at 1.
  fold pendingDishes. fold toQueue. fold l. rewrite Hz.
  destruct (mforEach_select queue_sel (fun (_ : Dish.t) (q : Z) => q + 1) l 0 w)
    as (evs & E & Hevs).
  { intros d Hd. apply (by_scanId_rows w scanId).
    assert (Hin : d ∈ pendingDishes) by (eapply elem_of_sublist; [exact Hd | apply sublist_take]).
    apply list_elem_of_In, List.filter_In in Hin as [Hin _]. by apply list_elem_of_In. }
  unfold mbind at 1.
  rewrite (mforEach_ext _ (select_body queue_sel (fun (_ : Dish.t) (q : Z) => q + 1))).
  2:{ intros x q w0. reflexivity. }
  rewrite E, fold_count_one. simpl (0 + _). fold queued.
  unfold mbind, patch_scan. world_projs. rewrite Hs. unfold mret.
  exists evs. do 2 f_equal. apply world_eq; world_projs; try reflexivity.
  rewrite <- app_assoc. do 2 f_equal. unfold scan_status_events. simpl.
  by destruct scan.
Qed.

Lemma patch_all_queue_rows l ds :
  NoDup (map Dish._id ds) -> NoDup l -> (forall d, d ∈ l -> d ∈ ds) ->
  patch_all queue_sel l ds
  = map (fun d => if decide (d ∈ l)
                  then Dish.patch [Dish.ImageStatusF ImageStatus.queued] d else d) ds.
Proof. intros Hnd Hl Hin. by rewrite patch_all_NoDup. Qed.

(** X7.  In a reachable store, [generateRemainingImages] queues the
    first dishes of the scan, in the order of the table, that are pending
    or skipped, as many as there are and at most as many as the ceiling
    MAX_IMAGES_PER_SCAN leaves: these dishes become queued and every other
    row stays as it was, one image job per queued dish joins the queue
    with the provider chosen, imagesRequested grows by their number and
    stays under the ceiling, and the estimated cost grows by that number
    of times the price of the OpenAI image, whatever the provider.  When
    there is nothing to queue the store is unchanged. *)
Theorem generateRemainingImages_queues_first_slots
    CONFIG isValidProvider scanId imageProvider w scan :
  0 <= AUTO_IMAGE_LIMIT CONFIG <= MAX_IMAGES_PER_SCAN CONFIG ->
  reachable CONFIG isValidProvider w ->
  menuScans w !! scanId = Some scan ->
  let eligible := List.filter is_pending_or_skipped (dishes_by_scanId w scanId) in
  let n := Z.min (Z.of_nat (length eligible))
             (MAX_IMAGES_PER_SCAN CONFIG - MenuScan.imagesRequested scan) in
  let chosen := take (Z.to_nat n) eligible in
  let w' := run (generateRemainingImages CONFIG isValidProvider scanId imageProvider) w in
  0 <= n
  /\ Z.of_nat (length chosen) = n
  /\ dishes w'
     = map (fun d => if decide (d ∈ chosen)
                     then Dish.patch [Dish.ImageStatusF ImageStatus.queued] d else d)
         (dishes w)
  /\ scheduled w'
     = scheduled w
       ++ map (fun d => JobGenerate (Dish._id d) scanId
                          (choose_provider CONFIG isValidProvider imageProvider)) chosen
  /\ (n = 0 -> w' = w)
  /\ (n <> 0 ->
      menuScans w' !! scanId
      = Some (MenuScan.patch
                [MenuScan.ImagesRequested (MenuScan.imagesRequested scan + n);
                 MenuScan.EstimatedCostUsd
                   (MenuScan.estimatedCostUsd scan
                    + Qc_of_Z n * IMAGE_OPENAI (COSTS CONFIG))%Qc;
                 MenuScan.Status ScanStatus.generating] scan)
      /\ MenuScan.imagesRequested scan + n <= MAX_IMAGES_PER_SCAN CONFIG).
Proof.
  intros Hcfg Hreach Hs eligible n chosen w'.
  pose proof (reachable_world_inv _ _ _ Hcfg Hreach) as Hinv.
  pose proof (inv_nodup _ _ Hinv) as Hnd.
  pose proof (inv_requested_max _ _ _ _ (inv_scans _ _ Hinv _ _ Hs)) as Hmax.
  assert (Hn : 0 <= n) by (unfold n; lia).
  assert (Hlen : Z.of_nat (length chosen) = n).
  { unfold chosen. rewrite length_take. unfold n in *. lia. }
  split; [exact Hn|]. split; [exact Hlen|].
  destruct (decide (n = 0)) as [Hz|Hz].
  - destruct (generateRemainingImages_spec CONFIG isValidProvider scanId imageProvider w scan Hs)
      as [H0 _].
    fold eligible in H0. fold n in H0. fold w' in H0. rewrite (H0 Hz).
    assert (Hnil : chosen = []) by (unfold chosen; rewrite Hz; reflexivity).
    rewrite Hnil. split; [|split; [symmetry; apply app_nil_r|split; [done|done]]].
    symmetry. erewrite map_ext; [apply map_id|].
    intros d. cbn. destruct (decide (d ∈ [])) as [H|_]; [|reflexivity]. by apply elem_of_nil in H.
  - destruct (queueRemainingImages_patch CONFIG scanId w scan Hs) as (evs & E).
    { exact Hz. }
    fold eligible in E. fold n in E. fold chosen in E. rewrite Hlen in E.
    assert (Hw' : w' = mkWorld (deviceUsers w)
                         (<[scanId := MenuScan.patch
                              [MenuScan.ImagesRequested (MenuScan.imagesRequested scan + n);
                               MenuScan.EstimatedCostUsd
                                 (MenuScan.estimatedCostUsd scan
                                  + Qc_of_Z n * IMAGE_OPENAI (COSTS CONFIG))%Qc;
                               MenuScan.Status ScanStatus.generating] scan]> (menuScans w))
                         (patch_all queue_sel chosen (dishes w)) (nextId w)
                         (scheduled w
                          ++ map (fun d => JobGenerate (Dish._id d) scanId
                                    (choose_provider CONFIG isValidProvider imageProvider)) chosen)
                         (trace w ++ evs
                          ++ [EvScanStatus scanId (MenuScan.status scan) ScanStatus.generating])).
    { unfold w', run, generateRemainingImages, bind, runMutation. rewrite E.
      cbn [queued dishIds]. destruct (Z.eqb_spec n 0) as [|_]; [contradiction|].
      unfold js_slice0. destruct (Z.ltb_spec n 0); [lia|]. fold chosen.
      rewrite forEach_schedule. unfold ret. cbn [snd].
      apply world_eq; world_projs; try reflexivity. by rewrite map_map. }
    rewrite Hw'. cbn [dishes scheduled menuScans].
    split; [|split; [reflexivity|split; [contradiction|]]].
    + apply patch_all_queue_rows; [exact Hnd| |].
      * eapply sublist_NoDup; [|apply sublist_take].
        unfold eligible.
        apply NoDup_ListNoDup, List.NoDup_filter, NoDup_ListNoDup, by_scanId_NoDup, Hnd.
      * intros d Hd. by apply take_pending_rows in Hd as [? _].
    + intros _. split; [apply lookup_insert_eq|]. unfold n. lia.
Qed.

Lemma generateRemainingImages_queues_first_slots_witness :
  Dish.imageStatus
  <$> dishes (run (generateRemainingImages ex_CONFIG ex_isValidProvider 1 None) ex_stopped)
  = [ImageStatus.queued; ImageStatus.queued; ImageStatus.queued].
Proof.
  destruct (generateRemainingImages_queues_first_slots ex_CONFIG ex_isValidProvider 1 None
              ex_stopped
              (default (new_scan ex_CONFIG 0 "") (menuScans ex_stopped !! 1%nat)))
    as (_ & _ & Hd & _).
  - vm_compute. split; discriminate.
  - exact ex_stopped_reachable.
  - vm_compute. reflexivity.
  - rewrite Hd. vm_compute. reflexivity.
Defined.

Lemma handleDishPress_generate dish dishId :
  handleDishPress dish = GenerateSingleImage dishId ->
  dishId = Dish._id dish
  /\ truthy_string (Dish.imageUrl dish) = None
  /\ (Dish.imageStatus dish = ImageStatus.pending
      \/ Dish.imageStatus dish = ImageStatus.skipped
      \/ Dish.imageStatus dish = ImageStatus.failed).
Proof.
  unfold handleDishPress. destruct (truthy_string _); [discriminate|].
  destruct (Dish.imageStatus dish); intros H; try discriminate; injection H as <-; auto.
Qed.

Lemma queueSingleDishImage_patch CONFIG w dish scan :
  get_dish w (Dish._id dish) = Some dish ->
  menuScans w !! Dish.scanId dish = Some scan ->
  Dish.imageStatus dish = ImageStatus.pending
  \/ Dish.imageStatus dish = ImageStatus.skipped
  \/ Dish.imageStatus dish = ImageStatus.failed ->
  queueSingleDishImage CONFIG (Dish._id dish) w
  = if MAX_IMAGES_PER_SCAN CONFIG <=? MenuScan.imagesRequested scan
    then inr (Build_SingleResult false (Some "Maximum images per scan reached") None None, w)
    else inr (Build_SingleResult true None (Some (Dish._id dish)) (Some (Dish.scanId dish)),
              mkWorld (deviceUsers w)
                (<[Dish.scanId dish :=
                     MenuScan.patch
                       [MenuScan.ImagesRequested (MenuScan.imagesRequested scan + 1);
                        MenuScan.EstimatedCostUsd
                          (MenuScan.estimatedCostUsd scan + IMAGE_OPENAI (COSTS CONFIG))%Qc;
                        MenuScan.Status
                          (if decide (MenuScan.status scan = ScanStatus.completed)
                           then ScanStatus.generating else MenuScan.status scan)] scan]>
                   (menuScans w))
                (map (patch_row (Dish._id dish) [Dish.ImageStatusF ImageStatus.queued])
                   (dishes w))
                (nextId w) (scheduled w)
                (trace w ++ [EvDishStatus (Dish._id dish) (Dish.imageStatus dish)
                               ImageStatus.queued;
                             EvScanStatus (Dish.scanId dish) (MenuScan.status scan)
                               (if decide (MenuScan.status scan = ScanStatus.completed)
                                then ScanStatus.generating else MenuScan.status scan)])).
Proof.
  intros Hd Hs Hst.
  unfold queueSingleDishImage. unfold mbind at 1, mread at 1. rewrite Hd.
  assert (Hgo : forall (k : Mutation SingleResult),
             match Dish.imageStatus dish with
             | ImageStatus.completed | ImageStatus.generating | ImageStatus.queued =>
                 mret (Build_SingleResult false (Some "Image already generated or in progress")
                         None None)
             | _ => k
             end w = k w).
  { intros k. destruct Hst as [->|[->| ->]]; reflexivity. }
  rewrite Hgo. clear Hgo.
  unfold mbind at 1, mread at 1, get_scan. rewrite Hs.
  destruct (MAX_IMAGES_PER_SCAN CONFIG <=? MenuScan.imagesRequested scan); [reflexivity|].
  unfold mbind, patch_dish, patch_scan. rewrite Hd.
  cbn [menuScans with_trace set_dishes]. rewrite Hs. unfold mret.
  do 2 f_equal. apply world_eq; world_projs; try reflexivity.
  rewrite <- app_assoc. f_equal.
  unfold dish_status_events, scan_status_events. simpl.
  destruct dish, scan; reflexivity.
Qed.

(** X8.  A tap on a dish card that [handleDishPress] turns into a call
    of [generateSingleDishImage] is accepted by the status guard of
    [queueSingleDishImage].  Under the ceiling, the dish tapped becomes
    queued and every other row stays as it was, one image job for it joins
    the queue with the provider chosen, imagesRequested grows by one, the
    estimated cost by the price of the OpenAI image whatever the provider,
    and a completed scan goes back to generating.  At the ceiling, nothing
    changes and the answer is [Maximum images per scan reached]. *)
Theorem tap_queues_dish CONFIG isValidProvider imageProvider w dish scan dishId :
  NoDup (map Dish._id (dishes w)) ->
  dish ∈ dishes w ->
  menuScans w !! Dish.scanId dish = Some scan ->
  handleDishPress dish = GenerateSingleImage dishId ->
  let call := generateSingleDishImage CONFIG isValidProvider dishId imageProvider in
  (MAX_IMAGES_PER_SCAN CONFIG <= MenuScan.imagesRequested scan ->
   call w = (inr (Build_ActionResult false "Maximum images per scan reached"), w))
  /\ (MenuScan.imagesRequested scan < MAX_IMAGES_PER_SCAN CONFIG ->
      exists w',
        call w = (inr (Build_ActionResult true "Image generation started"), w')
        /\ dishes w'
           = map (fun d => if decide (d = dish)
                           then Dish.patch [Dish.ImageStatusF ImageStatus.queued] d else d)
               (dishes w)
        /\ scheduled w'
           = scheduled w
             ++ [JobGenerate dishId (Dish.scanId dish)
                   (choose_provider CONFIG isValidProvider imageProvider)]
        /\ menuScans w'
           = <[Dish.scanId dish :=
                 MenuScan.patch
                   [MenuScan.ImagesRequested (MenuScan.imagesRequested scan + 1);
                    MenuScan.EstimatedCostUsd
                      (MenuScan.estimatedCostUsd scan + IMAGE_OPENAI (COSTS CONFIG))%Qc;
                    MenuScan.Status
                      (if decide (MenuScan.status scan = ScanStatus.completed)
                       then ScanStatus.generating else MenuScan.status scan)] scan]>
               (menuScans w)).
Proof.
  intros Hnd Hin Hs Htap call.
  apply handleDishPress_generate in Htap as (-> & _ & Hst).
  pose proof (find_id_NoDup _ _ Hnd Hin) as Hd. fold (get_dish w (Dish._id dish)) in Hd.
  pose proof (queueSingleDishImage_patch CONFIG w dish scan Hd Hs Hst) as E.
  unfold call, generateSingleDishImage, bind, runMutation.
  split; intros Hmax; rewrite E.
  - destruct (Z.leb_spec (MAX_IMAGES_PER_SCAN CONFIG) (MenuScan.imagesRequested scan));
      [reflexivity|lia].
  - destruct (Z.leb_spec (MAX_IMAGES_PER_SCAN CONFIG) (MenuScan.imagesRequested scan));
      [lia|].
    cbn [sq_queued sq_scanId]. unfold schedule, ret. eexists. split; [reflexivity|].
    cbn [dishes scheduled menuScans set_scheduled].
    split; [|split; reflexivity].
    apply map_ext_in. intros d Hd'%list_elem_of_In. unfold patch_row.
    destruct (Nat.eqb_spec (Dish._id d) (Dish._id dish)) as [Hid|Hid].
    + assert (d = dish) as ->.
      { pose proof (find_id_NoDup _ _ Hnd Hd') as H1. rewrite Hid in H1.
        unfold get_dish in Hd. congruence. }
      by rewrite decide_True.
    + rewrite decide_False; [reflexivity|]. intros ->. by apply Hid.
Qed.

Lemma tap_queues_dish_witness :
  exists w',
    generateSingleDishImage ex_CONFIG ex_isValidProvider 2 None ex_stopped
    = (inr (Build_ActionResult true "Image generation started"), w')
    /\ Dish.imageStatus <$> dishes w'
       = [ImageStatus.queued; ImageStatus.skipped; ImageStatus.skipped].
Proof.
  destruct (tap_queues_dish ex_CONFIG ex_isValidProvider None ex_stopped
              (default (Dish.mk 0 0 "" None None None 0 ImageStatus.pending
                          None None None None None 0 None)
                 (get_dish ex_stopped 2))
              (default (new_scan ex_CONFIG 0 "") (menuScans ex_stopped !! 1%nat)) 2)
    as [_ H].
  - apply (bool_decide_unpack _). vm_compute. reflexivity.
  - apply list_elem_of_In. vm_compute. left. reflexivity.
  - vm_compute. reflexivity.
  - vm_compute. reflexivity.
  - destruct H as (w' & E & Hd & _); [vm_compute; reflexivity|].
    exists w'. split; [exact E|]. rewrite Hd. vm_compute. reflexivity.
Defined.

(** * The scheduled jobs *)

(** X9.  When the scan has no image or the vision service throws, the
    pipeline does not throw: it marks the scan failed with the message of
    the error as errorMessage, creates no dish, schedules no job and
    leaves the counters and the costs of the scan as they were.  When the
    scan itself is gone, the handler of the error throws in its turn and
    the store is left as it was. *)
Theorem processScanPipeline_records_failure CONFIG now scanId provider vision w :
  let result := processScanPipeline CONFIG now scanId provider vision w in
  (menuScans w !! scanId = None -> exists e, result = (inl e, w))
  /\ forall scan e,
       menuScans w !! scanId = Some scan ->
       pipeline_error scan vision = Some e ->
       exists s' evs,
         result = (inr tt,
                   mkWorld (deviceUsers w) (<[scanId := s']> (menuScans w)) (dishes w)
                     (nextId w) (scheduled w) (trace w ++ evs))
         /\ MenuScan.status s' = ScanStatus.failed
         /\ MenuScan.errorMessage s' = Some (error_message e)
         /\ counters s' = counters scan.
Proof.
  intros result. subst result. split.
  - intros Hs. unfold processScanPipeline, try_catch.
    unfold bind at 1, runQuery at 1, getScan, get_scan. rewrite Hs.
    unfold throw, runMutation, updateScanStatus, patch_scan. rewrite Hs. eauto.
  - intros scan e Hs He. unfold pipeline_error in He.
    unfold processScanPipeline, try_catch.
    unfold bind at 1, runQuery at 1, getScan, get_scan. rewrite Hs.
    destruct (truthy_string (MenuScan.imageUrl scan)) as [imageUrl|] eqn:Hurl.
    + destruct vision as [e'|parsed]; [|discriminate]. injection He as ->.
      destruct (updateScanStatus_spec now scanId ScanStatus.processing
                  (Some "Extracting menu items with AI...") None w scan Hs)
        as (s1 & E1 & Hst1 & _ & _ & _ & Hc1).
      unfold bind at 1, runMutation at 1. rewrite E1.
      set (w1 := with_trace _ _).
      assert (Hs1 : menuScans w1 !! scanId = Some s1) by apply lookup_insert_eq.
      unfold bind at 1. simpl lift. unfold throw.
      destruct (updateScanStatus_spec now scanId ScanStatus.failed None
                  (Some (error_message e)) w1 s1 Hs1)
        as (s2 & E2 & Hst2 & _ & Hem2 & _ & Hc2).
      unfold runMutation. rewrite E2.
      exists s2, [EvScanStatus scanId (MenuScan.status scan) ScanStatus.processing;
                  EvScanStatus scanId ScanStatus.processing ScanStatus.failed].
      split; [|split; [exact Hst2 | split; [exact Hem2 | congruence]]].
      f_equal. subst w1. apply world_eq; world_projs; try reflexivity.
      * by rewrite insert_insert_eq.
      * by rewrite Hst1, <- app_assoc.
    + injection He as <-. unfold throw.
      destruct (updateScanStatus_spec now scanId ScanStatus.failed None
                  (Some (error_message (ErrorObj "Scan or image not found"))) w scan Hs)
        as (s2 & E2 & Hst2 & _ & Hem2 & _ & Hc2).
      unfold runMutation. rewrite E2.
      exists s2, [EvScanStatus scanId (MenuScan.status scan) ScanStatus.failed].
      split; [|split; [exact Hst2 | split; [exact Hem2 | exact Hc2]]].
      f_equal.
Qed.

Lemma processScanPipeline_records_failure_witness :
  exists s' evs,
    processScanPipeline ex_CONFIG 102 1 "openai" (inl (ErrorObj "OpenAI Vision API error: 500"))
      ex_started
    = (inr tt,
       mkWorld (deviceUsers ex_started) (<[1%nat := s']> (menuScans ex_started))
         (dishes ex_started) (nextId ex_started) (scheduled ex_started)
         (trace ex_started ++ evs))
    /\ MenuScan.status s' = ScanStatus.failed
    /\ MenuScan.errorMessage s' = Some "OpenAI Vision API error: 500"
    /\ counters s' = counters (default (new_scan ex_CONFIG 0 "") (menuScans ex_started !! 1%nat)).
Proof.
  apply (proj2 (processScanPipeline_records_failure ex_CONFIG 102 1 "openai"
                  (inl (ErrorObj "OpenAI Vision API error: 500")) ex_started)
           (default (new_scan ex_CONFIG 0 "") (menuScans ex_started !! 1%nat))
           (ErrorObj "OpenAI Vision API error: 500")).
  - vm_compute. reflexivity.
  - vm_compute. reflexivity.
Defined.

(** The pipeline on a scan with an image, when the vision service answers:
    the costs and the status message of the scan it ends with. *)
Lemma processScanPipeline_scan CONFIG now scanId provider parsed w scan imageUrl :
  menuScans w !! scanId = Some scan ->
  truthy_string (MenuScan.imageUrl scan) = Some imageUrl ->
  let menuData := Build_VisionMenuOutput (pv_restaurantName parsed)
                    (default [] (pv_sections parsed)) (pv_itemsFallback parsed) in
  let xs := flatten_menu menuData in
  let rows := create_rows CONFIG now scanId (nextId w) 0 xs in
  let n := Z.of_nat (length xs) in
  let last := match auto_ids rows with
              | [] => [EvScanStatus scanId ScanStatus.generating ScanStatus.completed]
              | _ => []
              end in
  exists s',
    processScanPipeline CONFIG now scanId provider (inr parsed) w
    = (inr tt,
       mkWorld (deviceUsers w) (<[scanId := s']> (menuScans w)) (dishes w ++ rows)
         (nextId w + length xs)
         (scheduled w ++ map (fun dishId => JobGenerate dishId scanId provider) (auto_ids rows))
         (trace w
          ++ [EvScanStatus scanId (MenuScan.status scan) ScanStatus.processing;
              EvScanStatus scanId ScanStatus.processing ScanStatus.extracting;
              EvScanStatus scanId ScanStatus.extracting ScanStatus.generating]
          ++ last))
    /\ MenuScan.actualCostUsd s'
       = (MenuScan.actualCostUsd scan + VISION_PARSE (COSTS CONFIG))%Qc
    /\ MenuScan.estimatedCostUsd s'
       = (MenuScan.estimatedCostUsd scan
          + Qc_of_Z (Z.min n (AUTO_IMAGE_LIMIT CONFIG)) * estimate_unit CONFIG provider)%Qc
    /\ MenuScan.statusMessage s'
       = Some (match auto_ids rows with
               | [] => "Menu processed successfully!"
               | _ => "Generating images for " +:+ pretty (Z.min n (AUTO_IMAGE_LIMIT CONFIG))
                      +:+ " dishes..."
               end)
    /\ MenuScan.imagesRequested s' = Z.min n (AUTO_IMAGE_LIMIT CONFIG).
Proof.
  intros Hs Hurl menuData xs rows n last.
  unfold processScanPipeline, try_catch.
  unfold bind at 1, runQuery at 1, getScan, get_scan. rewrite Hs, Hurl.
  (* status := processing *)
  destruct (updateScanStatus_spec now scanId ScanStatus.processing
              (Some "Extracting menu items with AI...") None w scan Hs)
    as (s1 & E1 & Hst1 & _ & _ & _ & Hc1).
  unfold bind at 1, runMutation at 1. rewrite E1.
  set (w1 := with_trace _ _).
  assert (Hs1 : menuScans w1 !! scanId = Some s1) by apply lookup_insert_eq.
  unfold bind at 1. simpl lift. unfold ret at 1. fold menuData.
  (* status := extracting *)
  destruct (updateScanStatus_spec now scanId ScanStatus.extracting
              (Some "Creating dish records...") None w1 s1 Hs1)
    as (s2 & E2 & Hst2 & _ & _ & _ & Hc2).
  unfold bind at 1, runMutation at 1. rewrite E2.
  set (w2 := with_trace _ _).
  assert (Hs2 : menuScans w2 !! scanId = Some s2) by apply lookup_insert_eq.
  (* totalDishes, restaurantName, vision cost *)
  destruct (updateScanProgress_spec scanId
              (Build_ScanProgressArgs (Some (count_dishes menuData)) None None None
                 (vm_restaurantName menuData) (Some (VISION_PARSE (COSTS CONFIG))) None)
              w2 s2 Hs2)
    as (s3 & E3 & Hst3 & _ & _ & _ & Htd3 & Hde3 & Hig3 & Hir3 & Hac3 & Hec3).
  unfold bind at 1, runMutation at 1. rewrite E3.
  set (w3 := set_menuScans _ w2).
  assert (Hs3 : menuScans w3 !! scanId = Some s3) by apply lookup_insert_eq.
  (* the dish loops *)
  unfold bind at 1. rewrite forEach_sections.
  set (w4 := mkWorld _ _ _ _ _ _).
  unfold bind at 1.
  assert (E5 : (match vm_itemsFallback menuData with
                | Some items => forEach (create_item CONFIG now scanId None) items
                                  (0 + Z.of_nat (length (concat (map (fun section =>
                                     map (fun item => (Some (section_name section), item))
                                       (section_items section)) (vm_sections menuData)))),
                                   [] ++ auto_ids (create_rows CONFIG now scanId (nextId w3) 0
                                     (concat (map (fun section =>
                                        map (fun item => (Some (section_name section), item))
                                          (section_items section)) (vm_sections menuData)))))
                | None => ret (0 + Z.of_nat (length (concat (map (fun section =>
                                     map (fun item => (Some (section_name section), item))
                                       (section_items section)) (vm_sections menuData)))),
                                   [] ++ auto_ids (create_rows CONFIG now scanId (nextId w3) 0
                                     (concat (map (fun section =>
                                        map (fun item => (Some (section_name section), item))
                                          (section_items section)) (vm_sections menuData)))))
                end) w4
               = (inr (n, auto_ids rows),
                  mkWorld (deviceUsers w) (menuScans w3) (dishes w ++ rows)
                    (nextId w + length xs) (scheduled w) (trace w3))).
  { subst rows xs n. unfold flatten_menu.
    destruct (vm_itemsFallback menuData) as [items|].
    - rewrite forEach_create_item. subst w4. simpl.
      rewrite create_rows_app, auto_ids_app, !length_app, !length_map.
      f_equal.
      + f_equal. f_equal. lia.
      + f_equal; [by rewrite <- app_assoc | lia].
    - unfold ret. subst w4. simpl. rewrite !app_nil_r. reflexivity. }
  rewrite E5. clear E5. simpl snd.
  set (w5 := mkWorld _ _ _ _ _ _).
  assert (Hs5 : menuScans w5 !! scanId = Some s3) by exact Hs3.
  (* dishesExtracted, imagesRequested, estimated cost *)
  match goal with
  | |- context [updateScanProgress scanId ?args] =>
      destruct (updateScanProgress_spec scanId args w5 s3 Hs5)
        as (s6 & E6 & Hst6 & _ & _ & _ & Htd6 & Hde6 & Hig6 & Hir6 & Hac6 & Hec6)
  end.
  unfold bind at 1, runMutation at 1. rewrite E6.
  set (w6 := set_menuScans _ w5).
  assert (Hs6 : menuScans w6 !! scanId = Some s6) by apply lookup_insert_eq.
  (* status := generating *)
  match goal with
  | |- context [updateScanStatus now scanId ScanStatus.generating ?sm None] =>
      destruct (updateScanStatus_spec now scanId ScanStatus.generating sm None w6 s6 Hs6)
        as (s7 & E7 & Hst7 & Hsm7 & _ & _ & Hc7)
  end.
  unfold bind at 1, runMutation at 1. rewrite E7.
  set (w7 := with_trace _ _).
  assert (Hs7 : menuScans w7 !! scanId = Some s7) by apply lookup_insert_eq.
  (* the jobs *)
  unfold bind at 1. rewrite forEach_schedule.
  set (w8 := set_scheduled _ w7).
  assert (Hs8 : menuScans w8 !! scanId = Some s7) by exact Hs7.
  simpl in Htd3, Hde3, Hig3, Hir3, Htd6, Hde6, Hig6, Hir6, Hac3, Hec3, Hac6, Hec6, Hsm7.
  rewrite Qcplus_zero_r in Hec3, Hac6.
  injection Hc1 as Htd1 Hde1 Hig1 Hir1 Hec1 Hac1.
  injection Hc2 as Htd2 Hde2 Hig2 Hir2 Hec2 Hac2.
  injection Hc7 as Htd7 Hde7 Hig7 Hir7 Hec7 Hac7.
  rewrite count_dishes_flatten in *. fold xs in Htd3, Htd6, Hde6, Hir6, Hec6. fold n in Htd3, Hde6, Hir6, Hec6.
  destruct (auto_ids rows) as [|i0 ids] eqn:Hids.
  - (* nothing queued: status := completed *)
    destruct (updateScanStatus_spec now scanId ScanStatus.completed
                (Some "Menu processed successfully!") None w8 s7 Hs8)
      as (s9 & E9 & Hst9 & Hsm9 & _ & _ & Hc9).
    unfold runMutation. rewrite E9.
    injection Hc9 as Htd9 Hde9 Hig9 Hir9 Hec9 Hac9. simpl in Hsm9.
    exists s9. split.
    + f_equal. subst w8 w7 w6 w5 w3 w2 w1 last.
      apply world_eq; world_projs; try reflexivity.
      all: rewrite ?insert_insert_eq, ?Hst7, ?Hst6, ?Hst3, ?Hst2, ?Hst1, <- ?app_assoc,
             ?app_nil_r; reflexivity.
    + unfold estimate_unit. repeat split; congruence.
  - exists s7. split.
    + unfold ret. f_equal. subst w8 w7 w6 w5 w3 w2 w1 last.
      apply world_eq; world_projs; try reflexivity.
      all: rewrite ?insert_insert_eq, ?Hst7, ?Hst6, ?Hst3, ?Hst2, ?Hst1, <- ?app_assoc,
             ?app_nil_r; reflexivity.
    + unfold estimate_unit. repeat split; try congruence. exact Hsm7.
Qed.

(** X10.  When the vision service answers, the pipeline adds the price of
    the vision call to the actual cost of the scan, schedules one image
    job with its provider for as many dishes as it created, up to
    AUTO_IMAGE_LIMIT, sets imagesRequested to the number of these jobs and
    adds to the estimated cost that number of times the price of an image
    of the provider (the price of OpenAI for [openai], the other price for
    any other provider). *)
Theorem processScanPipeline_accounts_costs
    CONFIG now scanId provider parsed w scan imageUrl :
  0 <= AUTO_IMAGE_LIMIT CONFIG ->
  menuScans w !! scanId = Some scan ->
  truthy_string (MenuScan.imageUrl scan) = Some imageUrl ->
  let w' := run (processScanPipeline CONFIG now scanId provider (inr parsed)) w in
  exists s' dishIds,
    menuScans w' !! scanId = Some s'
    /\ scheduled w' = scheduled w ++ map (fun dishId => JobGenerate dishId scanId provider) dishIds
    /\ MenuScan.imagesRequested s' = Z.of_nat (length dishIds)
    /\ MenuScan.actualCostUsd s'
       = (MenuScan.actualCostUsd scan + VISION_PARSE (COSTS CONFIG))%Qc
    /\ MenuScan.estimatedCostUsd s'
       = (MenuScan.estimatedCostUsd scan
          + Qc_of_Z (Z.of_nat (length dishIds)) * estimate_unit CONFIG provider)%Qc
    /\ Z.of_nat (length dishIds)
       = Z.min (Z.of_nat (length (dishes w')) - Z.of_nat (length (dishes w)))
           (AUTO_IMAGE_LIMIT CONFIG).
Proof.
  intros Hauto Hs Hurl w'.
  destruct (processScanPipeline_scan CONFIG now scanId provider parsed w scan imageUrl Hs Hurl)
    as (s' & E & Hac & Hec & _ & Hir).
  subst w'. unfold run. rewrite E. cbn [snd menuScans scheduled dishes].
  eexists s', _. split; [apply lookup_insert_eq|]. split; [reflexivity|].
  rewrite auto_ids_length.
  rewrite Z.max_r by lia. split; [exact Hir|]. split; [exact Hac|]. split; [exact Hec|].
  rewrite length_app, create_rows_length. f_equal. lia.
Qed.

Lemma processScanPipeline_accounts_costs_witness :
  let w' := run (processScanPipeline ex_CONFIG0 102 1 "nano_banana" (inr ex_menu)) ex_started in
  exists s' dishIds,
    menuScans w' !! 1%nat = Some s'
    /\ scheduled w'
       = scheduled ex_started ++ map (fun dishId => JobGenerate dishId 1 "nano_banana") dishIds
    /\ MenuScan.imagesRequested s' = Z.of_nat (length dishIds)
    /\ MenuScan.actualCostUsd s'
       = (MenuScan.actualCostUsd
            (default (new_scan ex_CONFIG0 0 "") (menuScans ex_started !! 1%nat))
          + VISION_PARSE (COSTS ex_CONFIG0))%Qc
    /\ MenuScan.estimatedCostUsd s'
       = (MenuScan.estimatedCostUsd
            (default (new_scan ex_CONFIG0 0 "") (menuScans ex_started !! 1%nat))
          + Qc_of_Z (Z.of_nat (length dishIds)) * estimate_unit ex_CONFIG0 "nano_banana")%Qc
    /\ Z.of_nat (length dishIds)
       = Z.min (Z.of_nat (length (dishes w')) - Z.of_nat (length (dishes ex_started)))
           (AUTO_IMAGE_LIMIT ex_CONFIG0).
Proof.
  apply (processScanPipeline_accounts_costs ex_CONFIG0 102 1 "nano_banana" ex_menu ex_started
           (default (new_scan ex_CONFIG0 0 "") (menuScans ex_started !! 1%nat))
           "https://store/7").
  - vm_compute. discriminate.
  - vm_compute. reflexivity.
  - vm_compute. reflexivity.
Defined.

(** ** The image jobs *)

Lemma patch_dish_found id updates w d :
  get_dish w id = Some d ->
  patch_dish id updates w
  = inr (tt, with_trace (dish_status_events d updates)
               (set_dishes (map (patch_row id updates) (dishes w)) w)).
Proof. intros Hd. unfold patch_dish. by rewrite Hd. Qed.

Lemma image_outcome_inr CONFIG provider img cost storageId storedUrl :
  image_outcome CONFIG provider img = inr (cost, storageId, storedUrl) ->
  store_reply img = inr (storageId, storedUrl)
  /\ exists imageUrl, callImageAPI CONFIG provider (api_reply img) = inr (imageUrl, cost).
Proof.
  unfold image_outcome.
  destruct (callImageAPI CONFIG provider (api_reply img)) as [e|[imageUrl c]]; [discriminate|].
  destruct (store_reply img) as [e|[sid url]]; [discriminate|].
  intros H. injection H as -> -> ->. eauto.
Qed.

(** The dish a job that succeeds leaves in the table. *)
Lemma generateDishImage_dish CONFIG now dishId scanId provider img w dish scan d0
    cost storageId storedUrl :
  List.find (fun d => Nat.eqb (Dish._id d) dishId) (getDishesForScan scanId w) = Some dish ->
  menuScans w !! scanId = Some scan ->
  get_dish w dishId = Some d0 ->
  image_outcome CONFIG provider img = inr (cost, storageId, storedUrl) ->
  get_dish (run (generateDishImage CONFIG now dishId scanId provider img) w) dishId
  = Some (Dish.patch [Dish.ImageStatusF ImageStatus.completed; Dish.ImageStorageId storageId;
                      Dish.ImageUrl storedUrl; Dish.ImageProvider provider;
                      Dish.ImageCostUsd cost; Dish.ImageGeneratedAt now] d0).
Proof.
  intros Hfind Hscan Hd0 Ho.
  apply image_outcome_inr in Ho as (Hstore & imageUrl & Hapi).
  pose proof (find_id_Some _ _ _ Hd0) as [_ Hid0].
  unfold run, generateDishImage, try_catch.
  unfold bind at 1, runQuery at 1. rewrite Hfind.
  unfold bind at 1, runMutation at 1, updateDishImage.
  rewrite (patch_dish_found _ _ _ _ Hd0).
  unfold bind at 1, log at 1.
  set (u1 := [Dish.ImageStatusF (di_imageStatus (only_status ImageStatus.generating))] ++ _).
  set (w2 := with_trace [EvImageAPI dishId provider] _).
  assert (Hd2 : get_dish w2 dishId = Some (patch_row dishId u1 d0)).
  { unfold get_dish in Hd0 |- *. subst w2. simpl. by rewrite find_id_patch_row, Hd0. }
  assert (Hs2 : menuScans w2 !! scanId = Some scan) by exact Hscan.
  unfold bind at 1. rewrite Hapi. simpl lift. unfold ret at 1. unfold bind at 1.
  rewrite Hstore. simpl lift. unfold ret at 1. cbn [snd].
  unfold bind at 1, runMutation at 1.
  rewrite (patch_dish_found _ _ _ _ Hd2).
  set (u2 := [Dish.ImageStatusF _] ++ _).
  set (w3 := with_trace _ _).
  destruct (count_job_spec now scanId (Some cost) "All images generated!" w3 scan Hs2)
    as (s' & evs & E3 & _).
  rewrite E3. cbn [snd]. unfold get_dish. cbn [dishes with_trace set_menuScans].
  subst w3 w2. cbn [dishes with_trace set_dishes].
  rewrite !find_id_patch_row. unfold get_dish in Hd0. rewrite Hd0.
  cbn [fmap option_fmap option_map].
  f_equal. rewrite patch_row_twice, <- Hid0, patch_row_eq. subst u1 u2.
  destruct d0. reflexivity.
Qed.

(** X11.  A job whose image is generated and stored writes on its dish the
    storage id and the URL that the blob storage gave (not the URL of the
    provider), the provider, the unit cost and the time; the dish becomes
    completed.  What was read off the menu is not touched, and neither is
    imageError: a dish that failed before keeps the message of the old
    error beside its image. *)
Theorem generateDishImage_stores_image
    CONFIG now dishId scanId provider img w dish scan cost storageId storedUrl :
  List.find (fun d => Nat.eqb (Dish._id d) dishId) (getDishesForScan scanId w) = Some dish ->
  menuScans w !! scanId = Some scan ->
  image_outcome CONFIG provider img = inr (cost, storageId, storedUrl) ->
  exists d0 d',
    get_dish w dishId = Some d0
    /\ get_dish (run (generateDishImage CONFIG now dishId scanId provider img) w) dishId = Some d'
    /\ menu_text d' = menu_text d0
    /\ Dish.imageStatus d' = ImageStatus.completed
    /\ dish_image d'
       = (Some storageId, Some storedUrl, Some provider, Some cost, Some now,
          Dish.imageError d0).
Proof.
  intros Hfind Hscan Ho.
  pose proof (find_id_Some _ _ _ Hfind) as [Hin Hid].
  apply elem_of_getDishesForScan in Hin as [Hin _].
  destruct (find_id_elem _ _ Hin) as [d0 Hd0]. rewrite Hid in Hd0.
  exists d0. eexists. split; [exact Hd0|].
  split; [eapply generateDishImage_dish; eassumption|].
  split; [apply menu_text_patch|]. destruct d0. split; reflexivity.
Qed.

Lemma generateDishImage_stores_image_witness :
  exists d0 d',
    get_dish ex_generating 2 = Some d0
    /\ get_dish (run (generateDishImage ex_CONFIG 103 2 1 "openai" ex_image_ok) ex_generating) 2
       = Some d'
    /\ menu_text d' = menu_text d0
    /\ Dish.imageStatus d' = ImageStatus.completed
    /\ dish_image d'
       = (Some 900%nat, Some "https://store/900", Some "openai",
          Some (IMAGE_OPENAI (COSTS ex_CONFIG)), Some 103, Dish.imageError d0).
Proof.
  apply (generateDishImage_stores_image ex_CONFIG 103 2 1 "openai" ex_image_ok ex_generating
           (default (Dish.mk 0 0 "" None None None 0 ImageStatus.pending
                       None None None None None 0 None)
              (get_dish ex_generating 2))
           (default (new_scan ex_CONFIG 0 "") (menuScans ex_generating !! 1%nat))).
  - vm_compute. reflexivity.
  - vm_compute. reflexivity.
  - vm_compute. reflexivity.
Defined.

(** X12.  An image job of the queue whose dish is in the table, in the
    scan the job names, run to its end with no other transaction in
    between: the job leaves the queue and adds no job; the scan counts one
    more image generated, whether the image was made or not, keeps
    imagesRequested, and adds the cost of the image to its actual cost when
    there is one; the dish ends completed or failed according to what the
    provider and the blob storage answered, and no other row of the table
    changes. *)
Theorem image_job_is_counted_once
    CONFIG isValidProvider w i now vision img dishId scanId provider dish scan :
  NoDup (map Dish._id (dishes w)) ->
  scheduled w !! i = Some (JobGenerate dishId scanId provider) ->
  dish ∈ dishes w ->
  Dish._id dish = dishId ->
  Dish.scanId dish = scanId ->
  menuScans w !! scanId = Some scan ->
  let w' := exec CONFIG isValidProvider (RunJob i now vision img) w in
  let o := image_outcome CONFIG provider img in
  exists s' updates,
    scheduled w' = delete i (scheduled w)
    /\ menuScans w' = <[scanId := s']> (menuScans w)
    /\ MenuScan.imagesGenerated s' = MenuScan.imagesGenerated scan + 1
    /\ MenuScan.imagesRequested s' = MenuScan.imagesRequested scan
    /\ MenuScan.actualCostUsd s' = (MenuScan.actualCostUsd scan + job_cost o)%Qc
    /\ dishes w' = map (fun d => if decide (d = dish) then Dish.patch updates d else d)
                     (dishes w)
    /\ Dish.imageStatus (Dish.patch updates dish) = job_final_status o.
Proof.
  intros Hnd Hj Hin Hid Hsc Hs w' o.
  pose proof (find_getDishesForScan w dish Hnd Hin) as Hfind. rewrite Hid, Hsc in Hfind.
  set (w1 := set_scheduled (delete i (scheduled w)) w).
  assert (Hw' : w' = run (generateDishImage CONFIG now dishId scanId provider img) w1).
  { unfold w'. cbn [exec]. rewrite Hj. reflexivity. }
  destruct (generateDishImage_spec CONFIG now dishId scanId provider img w1 dish scan)
    as (d0 & Hd0 & s' & updates & evs & E & Hst & _ & Hig & Hir & _ & Hac & _).
  { exact Hfind. }
  { exact Hs. }
  exists s', updates.
  rewrite Hw'. unfold run. rewrite E. cbn [snd scheduled menuScans dishes].
  split; [reflexivity|]. split; [reflexivity|]. split; [exact Hig|]. split; [exact Hir|].
  split; [exact Hac|]. split; [|apply Hst].
  apply map_ext_in. intros d Hd. apply list_elem_of_In in Hd. unfold patch_row.
  destruct (decide (d = dish)) as [->|Hne].
  - by rewrite Hid, Nat.eqb_refl.
  - destruct (Nat.eqb_spec (Dish._id d) dishId) as [Heq|]; [|done].
    exfalso. apply Hne.
    eapply (NoDup_fmap_elem_inj Dish._id (dishes w)); [exact Hnd|exact Hd|exact Hin|congruence].
Qed.

Lemma image_job_is_counted_once_witness :
  let dish := default (Dish.mk 0 0 "" None None None 0 ImageStatus.pending
                         None None None None None 0 None) (get_dish ex_generating 2) in
  let scan := default (new_scan ex_CONFIG 0 "") (menuScans ex_generating !! 1%nat) in
  let w' := exec ex_CONFIG ex_isValidProvider (RunJob 0 103 (inr ex_menu) ex_image_error)
              ex_generating in
  let o := image_outcome ex_CONFIG "openai" ex_image_error in
  exists s' updates,
    scheduled w' = delete 0%nat (scheduled ex_generating)
    /\ menuScans w' = <[1%nat := s']> (menuScans ex_generating)
    /\ MenuScan.imagesGenerated s' = MenuScan.imagesGenerated scan + 1
    /\ MenuScan.imagesRequested s' = MenuScan.imagesRequested scan
    /\ MenuScan.actualCostUsd s' = (MenuScan.actualCostUsd scan + job_cost o)%Qc
    /\ dishes w' = map (fun d => if decide (d = dish) then Dish.patch updates d else d)
                     (dishes ex_generating)
    /\ Dish.imageStatus (Dish.patch updates dish) = job_final_status o.
Proof.
  apply (image_job_is_counted_once ex_CONFIG ex_isValidProvider ex_generating 0 103
           (inr ex_menu) ex_image_error 2 1 "openai").
  - apply (bool_decide_unpack _). vm_compute. reflexivity.
  - vm_compute. reflexivity.
  - apply (bool_decide_unpack _). vm_compute. reflexivity.
  - vm_compute. reflexivity.
  - vm_compute. reflexivity.
  - vm_compute. reflexivity.
Defined.

(** * The fields of a scan each operation writes *)

Section ScansPatched.
Variable allowed : MenuScan.field -> Prop.

Lemma scans_patched_refl w : scans_patched allowed w w.
Proof.
  split; [lia|]. intros id s _ Hs. exists []. split; [constructor|exact Hs].
Qed.

Lemma scans_patched_trans w1 w2 w3 :
  scans_patched allowed w1 w2 -> scans_patched allowed w2 w3 -> scans_patched allowed w1 w3.
Proof.
  intros [Hn1 H1] [Hn2 H2]. split; [lia|]. intros id s Hid Hs.
  destruct (H1 id s Hid Hs) as (u1 & Hu1 & Hs2).
  destruct (H2 id _ ltac:(lia) Hs2) as (u2 & Hu2 & Hs3).
  exists (u1 ++ u2). split; [by apply Forall_app|].
  rewrite Hs3. f_equal. unfold MenuScan.patch. by rewrite fold_left_app.
Qed.

Lemma scans_patched_same w w' :
  menuScans w' = menuScans w -> (nextId w <= nextId w')%nat -> scans_patched allowed w w'.
Proof.
  intros Hm Hn. split; [exact Hn|]. intros id s _ Hs. exists [].
  split; [constructor|by rewrite Hm].
Qed.

Lemma scans_patched_patch w id s updates :
  menuScans w !! id = Some s -> Forall allowed updates ->
  scans_patched allowed w (set_menuScans (<[id := MenuScan.patch updates s]> (menuScans w)) w).
Proof.
  intros Hs Hu. split; [cbn; lia|]. intros id' s' _ Hs'. cbn.
  destruct (decide (id' = id)) as [->|Hne].
  - exists updates. rewrite lookup_insert_eq. split; [exact Hu|congruence].
  - exists []. rewrite lookup_insert_ne by congruence. split; [constructor|exact Hs'].
Qed.

Lemma scans_patched_insert w s :
  scans_patched allowed w
    (set_nextId (S (nextId w)) (set_menuScans (<[nextId w := s]> (menuScans w)) w)).
Proof.
  split; [cbn; lia|]. intros id' s' Hid Hs'. cbn. exists [].
  rewrite lookup_insert_ne by lia. split; [constructor|exact Hs'].
Qed.

End ScansPatched.

Ltac scans_patched_tac :=
  first [ apply scans_patched_refl
        | apply scans_patched_trans
        | apply scans_patched_patch
        | apply scans_patched_insert
        | (intros; apply scans_patched_same; [reflexivity|cbn; lia])
        | (intros; exact I) ].

Lemma scans_patched_exec CONFIG isValidProvider c w :
  scans_patched (may_set (operation_of c w)) w (exec CONFIG isValidProvider c w).
Proof.
  destruct c; cbn [exec operation_of]; unfold run.
  - eapply frame_commit, (mframe_createMenuScan _ CONFIG); scans_patched_tac.
  - eapply frame_commit, mframe_storeMenuImage; scans_patched_tac.
  - eapply (aframe_startProcessingScan _ (fun _ => True)); scans_patched_tac.
  - eapply (aframe_generateRemainingImages _ (fun _ => True) (fun _ => True));
      scans_patched_tac.
  - eapply (aframe_generateSingleDishImage _ (fun _ => True) (fun _ => True));
      scans_patched_tac.
  - eapply frame_commit, (mframe_stopImageGeneration _ (fun _ => True)); scans_patched_tac.
  - eapply frame_commit, (mframe_forceCompleteScan _ (fun _ => True)); scans_patched_tac.
  - destruct (scheduled w !! i) as [[a p|d a p]|] eqn:E; [| |apply scans_patched_refl].
    + apply (scans_patched_trans _ _ (set_scheduled (delete i (scheduled w)) w));
        [apply scans_patched_same; [reflexivity|cbn; lia]|].
      cbn [run_job]. unfold run.
      eapply (aframe_processScanPipeline _ (fun _ => True)); scans_patched_tac.
    + apply (scans_patched_trans _ _ (set_scheduled (delete i (scheduled w)) w));
        [apply scans_patched_same; [reflexivity|cbn; lia]|].
      cbn [run_job]. unfold run.
      eapply (aframe_generateDishImage _ (fun _ => True)); scans_patched_tac.
Qed.

(** X13.  Each operation writes its own fields of a scan and no other:
    storing the image writes the image and the status; starting writes
    the status and its message; the pipeline writes neither the image nor
    imagesGenerated; an image job writes imagesGenerated, the actual
    cost, and the status with its message and the completion time;
    queueing writes imagesRequested, the estimated cost and the status;
    stopping and forcing write imagesGenerated and the status with its
    message and the completion time.  The scan after a step is the scan
    before, patched with such entries. *)
Theorem scan_fields_by_operation CONFIG isValidProvider c w scanId s :
  (scanId < nextId w)%nat ->
  menuScans w !! scanId = Some s ->
  exists updates,
    Forall (may_set (operation_of c w)) updates
    /\ menuScans (exec CONFIG isValidProvider c w) !! scanId
       = Some (MenuScan.patch updates s).
Proof.
  intros Hid Hs.
  destruct (scans_patched_exec CONFIG isValidProvider c w) as [_ H].
  exact (H scanId s Hid Hs).
Qed.

Lemma scan_fields_by_operation_witness :
  exists updates,
    Forall (may_set OpStop) updates
    /\ menuScans ex_stopped !! 1%nat
       = Some (MenuScan.patch updates
                 (default (new_scan ex_CONFIG 0 "") (menuScans ex_generating !! 1%nat))).
Proof.
  apply (scan_fields_by_operation ex_CONFIG ex_isValidProvider (CallStopImageGeneration 103 1)
           ex_generating 1).
  - vm_compute. lia.
  - vm_compute. reflexivity.
Defined.

(** What an operation that is not the pipeline keeps of a scan. *)
Lemma patch_keeps_totals op updates s :
  op <> OpPipeline -> Forall (may_set op) updates ->
  MenuScan.totalDishes (MenuScan.patch updates s) = MenuScan.totalDishes s
  /\ MenuScan.dishesExtracted (MenuScan.patch updates s) = MenuScan.dishesExtracted s.
Proof.
  intros Hop Hu. unfold MenuScan.patch. revert s.
  induction Hu as [|f updates Hf Hu IH]; intros s; cbn [fold_left]; [done|].
  destruct (IH (MenuScan.set f s)) as [-> ->].
  destruct op, f, s; cbn in Hf; try contradiction; try congruence; done.
Qed.
(** * The queries *)

(** ** The index by display order *)

Lemma numbered_Sorted (l : list Dish.t) k :
  map Dish.displayOrder l = map Z.of_nat (seq k (length l)) -> Sorted order_le l.
Proof.
  revert k. induction l as [|d l IH]; intros k H; [constructor|].
  cbn [map length seq] in H.
  pose proof (f_equal (fun x => hd 0 x) H) as Hd.
  pose proof (f_equal (fun x => tl x) H) as Ht. cbn [hd tl] in Hd, Ht.
  constructor; [by apply (IH (S k))|].
  destruct l as [|d' l]; constructor.
  cbn [map length seq] in Ht. pose proof (f_equal (fun x => hd 0 x) Ht) as Hd'.
  cbn [hd] in Hd'. unfold order_le. lia.
Qed.

Lemma insert_by_order_Sorted d l :
  Sorted order_le l -> Sorted order_le (insert_by_order d l).
Proof.
  induction 1 as [|e l Hl IH He]; cbn [insert_by_order]; [by repeat constructor|].
  destruct (decide (order_le d e)) as [Hde|Hde].
  - constructor; [by constructor|by constructor].
  - constructor; [exact IH|].
    destruct l as [|e' l]; cbn [insert_by_order].
    + constructor. unfold order_le in *. lia.
    + inversion He; subst.
      destruct (decide (order_le d e')); constructor; [unfold order_le in *; lia|done].
Qed.

Lemma dishes_by_scanId_order_Sorted w id : Sorted order_le (dishes_by_scanId_order w id).
Proof.
  unfold dishes_by_scanId_order.
  induction (dishes_by_scanId w id) as [|d l IH]; cbn [foldr]; [constructor|].
  by apply insert_by_order_Sorted.
Qed.

(** Dishes with the same display order stay in the order of the table. *)
Lemma insert_by_order_filter k d l :
  filter (fun x => Dish.displayOrder x = k) (insert_by_order d l)
  = filter (fun x => Dish.displayOrder x = k) (d :: l).
Proof.
  induction l as [|e l IH]; cbn [insert_by_order]; [done|].
  destruct (decide (order_le d e)) as [Hde|Hde]; [done|].
  rewrite filter_cons, IH, !filter_cons.
  destruct (decide (Dish.displayOrder e = k)) as [He|He];
    destruct (decide (Dish.displayOrder d = k)) as [Hd|Hd]; try done.
  exfalso. unfold order_le in Hde. lia.
Qed.

Lemma dishes_by_scanId_order_stable w id k :
  filter (fun x => Dish.displayOrder x = k) (dishes_by_scanId_order w id)
  = filter (fun x => Dish.displayOrder x = k) (dishes_by_scanId w id).
Proof.
  unfold dishes_by_scanId_order.
  induction (dishes_by_scanId w id) as [|d l IH]; cbn [foldr]; [done|].
  by rewrite insert_by_order_filter, !filter_cons, IH.
Qed.

(** A list that is in order already is left as it is. *)
Lemma sorted_by_order l : Sorted order_le l -> foldr insert_by_order [] l = l.
Proof.
  induction 1 as [|d l Hl IH Hd]; cbn [foldr]; [done|].
  rewrite IH. destruct Hd as [|e l' Hde]; cbn [insert_by_order]; [done|].
  by rewrite decide_True.
Qed.

(** ** The progress percentage *)

Lemma Qc_of_Z_le a b : a <= b -> (Qc_of_Z a <= Qc_of_Z b)%Qc.
Proof. apply (proj1 (Z2Qc_inj_le a b)). Qed.

Lemma ratio_bounds g r :
  0 <= g -> 0 < r ->
  (Qc_of_Z 0 <= Qc_of_Z g / Qc_of_Z r)%Qc
  /\ (g <= r -> (Qc_of_Z g / Qc_of_Z r <= Qc_of_Z 1)%Qc).
Proof.
  intros Hg Hr.
  assert (H0 : (0 <= Qc_of_Z g)%Qc) by (rewrite <- Z2Qc_inj_0; by apply Qc_of_Z_le).
  assert (Hr' : (0 < Qc_of_Z r)%Qc) by (rewrite <- Z2Qc_inj_0; apply (proj1 (Z2Qc_inj_lt 0 r)), Hr).
  assert (Hinv : (0 <= / Qc_of_Z r)%Qc) by (apply Qclt_le_weak, Qcinv_pos, Hr').
  rewrite Z2Qc_inj_0, Z2Qc_inj_1. unfold Qcdiv. split.
  - by apply Qcmult_nonneg_nonneg.
  - intros Hgr. pose proof (Qclt_not_eq _ _ Hr') as Hne.
    rewrite <- (Qcmult_inv_r (Qc_of_Z r)) by congruence.
    apply Qcmult_le_mono_nonneg_r; [exact Hinv|by apply Qc_of_Z_le].
Qed.

(** The progress of a scan whose counters are not negative is at least 0,
    and at least 60 while generating; it is at most 100 when no more images
    are generated than requested. *)
Lemma progress_of_bounds scan :
  0 <= MenuScan.imagesGenerated scan -> 0 <= MenuScan.imagesRequested scan ->
  (Qc_of_Z 0 <= progress_of scan)%Qc
  /\ (MenuScan.status scan = ScanStatus.generating -> (Qc_of_Z 60 <= progress_of scan)%Qc)
  /\ (MenuScan.imagesGenerated scan <= MenuScan.imagesRequested scan ->
      (progress_of scan <= Qc_of_Z 100)%Qc).
Proof.
  intros Hg Hq. unfold progress_of.
  destruct (MenuScan.status scan);
    try (split; [by apply Qc_of_Z_le|split; [discriminate|intros _; by apply Qc_of_Z_le]]).
  assert (Hp : (Qc_of_Z 0 <= (if 0 <? MenuScan.imagesRequested scan
                             then Qc_of_Z (MenuScan.imagesGenerated scan)
                                  / Qc_of_Z (MenuScan.imagesRequested scan) * Qc_of_Z 40
                             else Qc_of_Z 0))%Qc
               /\ (MenuScan.imagesGenerated scan <= MenuScan.imagesRequested scan ->
                   ((if 0 <? MenuScan.imagesRequested scan
                     then Qc_of_Z (MenuScan.imagesGenerated scan)
                          / Qc_of_Z (MenuScan.imagesRequested scan) * Qc_of_Z 40
                     else Qc_of_Z 0) <= Qc_of_Z 40)%Qc)).
  { destruct (Z.ltb_spec 0 (MenuScan.imagesRequested scan)) as [Hr|Hr].
    - destruct (ratio_bounds _ _ Hg Hr) as [H0 H1].
      assert (H40 : (0 <= Qc_of_Z 40)%Qc) by (rewrite <- Z2Qc_inj_0; by apply Qc_of_Z_le).
      split.
      + rewrite Z2Qc_inj_0 in *. by apply Qcmult_nonneg_nonneg.
      + intros Hgr. specialize (H1 Hgr).
        rewrite <- (Qcmult_1_l (Qc_of_Z 40)) at 2. rewrite <- Z2Qc_inj_1.
        by apply Qcmult_le_mono_nonneg_r.
    - split; [|intros _]; by apply Qc_of_Z_le. }
  destruct Hp as [Hp0 Hp40]. cbv zeta.
  set (p := if 0 <? MenuScan.imagesRequested scan then _ else _) in *.
  assert (H60 : (Qc_of_Z 60 <= Qc_of_Z 60 + p)%Qc).
  { rewrite <- (Qcplus_zero_r (Qc_of_Z 60)) at 1. by apply Qcplus_le_mono_l. }
  split; [|split; [intros _; exact H60|]].
  - eapply Qcle_trans; [|exact H60]. by apply Qc_of_Z_le.
  - intros Hgr. replace 100 with (60 + 40) by lia. rewrite Z2Qc_inj_add.
    by apply Qcplus_le_mono_l, Hp40.
Qed.

(** * Deleting a scan *)

Lemma filter_ext_elem {A} (P Q : A -> Prop) `{!forall x, Decision (P x)}
    `{!forall x, Decision (Q x)} (l : list A) :
  (forall x, x ∈ l -> P x <-> Q x) -> filter P l = filter Q l.
Proof.
  induction l as [|a l IH]; intros Hext; [done|].
  rewrite !filter_cons.
  assert (Ha : P a <-> Q a) by (apply Hext; by left).
  rewrite IH by (intros x Hx; apply Hext; by right).
  destruct (decide (P a)), (decide (Q a)); tauto || done.
Qed.

Lemma filter_all {A} (P : A -> Prop) `{!forall x, Decision (P x)} (l : list A) :
  (forall x, x ∈ l -> P x) -> filter P l = l.
Proof.
  induction l as [|a l IH]; intros Hall; [done|].
  rewrite filter_cons, decide_True by (apply Hall; by left).
  f_equal. apply IH. intros x Hx. apply Hall. by right.
Qed.

Lemma delete_blob_ok storage_delete storageId blobs w :
  (forall b, storageId = Some b -> storage_delete b = inr tt) ->
  delete_blob storage_delete storageId blobs w = inr (blobs ++ option_list storageId, w).
Proof.
  intros Hok. unfold delete_blob. destruct storageId as [b|]; cbn [option_list].
  - unfold mbind. rewrite (Hok b eq_refl). reflexivity.
  - unfold mret. by rewrite app_nil_r.
Qed.

Lemma omap_cons_list {A B} (f : A -> option B) a l :
  omap f (a :: l) = option_list (f a) ++ omap f l.
Proof. cbn. by destruct (f a). Qed.

(** The loop of [deleteScan] over dishes of the table with distinct ids. *)
Lemma deleteScan_loop storage_delete l blobs w :
  NoDup (map Dish._id l) ->
  (forall d, d ∈ l -> d ∈ dishes w) ->
  (forall d b, d ∈ l -> Dish.imageStorageId d = Some b -> storage_delete b = inr tt) ->
  mforEach
    (fun dish blobs =>
       mbind (delete_blob storage_delete (Dish.imageStorageId dish) blobs)
         (fun blobs => mbind (delete_dish (Dish._id dish)) (fun _ => mret blobs)))
    l blobs w
  = inr (blobs ++ omap Dish.imageStorageId l,
         set_dishes (filter (fun d => Dish._id d ∉ map Dish._id l) (dishes w)) w).
Proof.
  revert blobs w. induction l as [|d l IH]; intros blobs w Hnd Hin Hok; cbn [mforEach].
  - unfold mret. rewrite app_nil_r. do 2 f_equal. apply world_eq; world_projs; try reflexivity.
    rewrite filter_all; [done|]. intros x _. cbn. apply not_elem_of_nil.
  - cbn [map] in Hnd. apply NoDup_cons in Hnd as [Hnot Hnd].
    unfold mbind at 1. unfold mbind at 1.
    rewrite delete_blob_ok by (intros b Hb; apply (Hok d b); [by left|exact Hb]).
    unfold mbind at 1, delete_dish.
    destruct (find_id_elem _ _ (Hin d ltac:(by left))) as [d0 Hd0].
    unfold get_dish. rewrite Hd0. unfold mret at 1.
    rewrite IH; [| exact Hnd | |].
    + rewrite omap_cons_list, app_assoc. do 2 f_equal.
      apply world_eq; world_projs; try reflexivity.
      rewrite list_filter_filter. apply list_filter_iff. intros x. cbn [map].
      rewrite not_elem_of_cons. tauto.
    + intros d' Hd'. cbn [dishes set_dishes]. apply list_elem_of_filter.
      split; [|apply Hin; by right].
      intros Heq. apply Hnot. rewrite <- Heq. apply list_elem_of_fmap. eauto.
    + intros d' b Hd'. apply Hok. by right.
Qed.

Lemma by_scanId_ids w scanId x :
  NoDup (map Dish._id (dishes w)) -> x ∈ dishes w ->
  Dish._id x ∈ map Dish._id (dishes_by_scanId w scanId) <-> Dish.scanId x = scanId.
Proof.
  intros Hnd Hx. split.
  - intros Hid. apply list_elem_of_fmap in Hid as (y & Hxy & Hy).
    apply elem_of_by_scanId in Hy as [Hy Hsc].
    assert (x = y) as ->; [|exact Hsc].
    eapply (NoDup_fmap_elem_inj Dish._id); eassumption.
  - intros Hsc. apply list_elem_of_fmap. exists x. split; [done|].
    by apply elem_of_by_scanId.
Qed.

(** The store and the result of [deleteScan] when the storage accepts every
    deletion. *)
Lemma deleteScan_ok storage_delete scanId w scan :
  NoDup (map Dish._id (dishes w)) ->
  menuScans w !! scanId = Some scan ->
  Forall (fun b => storage_delete b = inr tt) (scan_blobs w scanId scan) ->
  deleteScan storage_delete scanId w
  = inr ((Build_DeleteResult true (Z.of_nat (length (dishes_by_scanId w scanId))),
          scan_blobs w scanId scan),
         mkWorld (forget_scan (MenuScan.deviceId scan) w) (delete scanId (menuScans w))
           (filter (fun d => Dish.scanId d <> scanId) (dishes w)) (nextId w) (scheduled w)
           (trace w)).
Proof.
  intros Hnd Hs Hok. unfold scan_blobs in Hok. apply Forall_app in Hok as [Hok1 Hok2].
  unfold deleteScan. unfold mbind at 1, mread at 1, get_scan. rewrite Hs.
  unfold mbind at 1, mread at 1. unfold mbind at 1.
  rewrite deleteScan_loop.
  2:{ apply NoDup_ids_filter, Hnd. }
  2:{ intros d Hd. by apply elem_of_by_scanId in Hd as [? _]. }
  2:{ intros d b Hd Hb. rewrite Forall_forall in Hok1. apply Hok1.
      apply list_elem_of_omap. eauto. }
  cbn [app]. unfold mbind at 1.
  rewrite delete_blob_ok.
  2:{ intros b Hb. rewrite Forall_forall in Hok2. apply Hok2. rewrite Hb. cbn. by left. }
  unfold mbind at 1, delete_scan. cbn [menuScans set_dishes]. rewrite Hs.
  unfold mbind at 1, mread at 1. unfold forget_scan, user_by_deviceId.
  cbn beta. cbn [deviceUsers set_menuScans set_dishes].
  assert (Hd : filter (fun d => Dish._id d ∉ map Dish._id (dishes_by_scanId w scanId)) (dishes w)
               = filter (fun d => Dish.scanId d <> scanId) (dishes w)).
  { apply filter_ext_elem. intros x Hx. by rewrite (by_scanId_ids w scanId x Hnd Hx). }
  destruct (List.find _ (deviceUsers w)) as [user|].
  - destruct (0 <? du_scanCount user).
    + unfold mbind, patch_user, mret. do 2 f_equal.
      apply world_eq; world_projs; try reflexivity. exact Hd.
    + unfold mbind, mret. do 2 f_equal. apply world_eq; world_projs; try reflexivity. exact Hd.
  - unfold mbind, mret. do 2 f_equal. apply world_eq; world_projs; try reflexivity. exact Hd.
Qed.

Lemma by_scan_filter_other a b (ds : list Dish.t) :
  by_scan b (filter (fun d => Dish.scanId d <> a) ds)
  = if decide (b = a) then [] else by_scan b ds.
Proof.
  unfold by_scan. rewrite list_filter_filter. destruct (decide (b = a)) as [->|Hne].
  - induction ds as [|d ds IH]; [done|].
    rewrite filter_cons, decide_False by tauto. exact IH.
  - apply list_filter_iff. intros x. split; [tauto|]. intros Hx. split; [done|congruence].
Qed.

(** X18.  When the storage accepts the deletions, [deleteScan] of a scan
    of a table with unique ids removes the scan and its dishes and
    nothing else of the two tables, hands to the storage the images of
    these dishes and the image of the menu, answers with the number of
    dishes removed, and takes one from the scan count of the device when
    that count is positive.  The jobs of the scan stay in the queue. *)
Theorem deleteScan_removes_scan storage_delete scanId w scan :
  NoDup (map Dish._id (dishes w)) ->
  menuScans w !! scanId = Some scan ->
  Forall (fun b => storage_delete b = inr tt) (scan_blobs w scanId scan) ->
  exists w',
    deleteScan storage_delete scanId w
    = inr ((Build_DeleteResult true (Z.of_nat (length (dishes_by_scanId w scanId))),
            scan_blobs w scanId scan), w')
    /\ menuScans w' = delete scanId (menuScans w)
    /\ dishes w' = filter (fun d => Dish.scanId d <> scanId) (dishes w)
    /\ (forall b, dishes_by_scanId w' b
                  = if decide (b = scanId) then [] else dishes_by_scanId w b)
    /\ deviceUsers w' = forget_scan (MenuScan.deviceId scan) w
    /\ scheduled w' = scheduled w
    /\ nextId w' = nextId w.
Proof.
  intros Hnd Hs Hok. eexists. split; [by apply deleteScan_ok|].
  cbn [menuScans dishes deviceUsers scheduled nextId].
  split; [done|]. split; [done|]. split; [|done].
  intros b. rewrite !dishes_by_scanId_eq. cbn [dishes]. apply by_scan_filter_other.
Qed.

Lemma deleteScan_removes_scan_witness :
  exists w',
    deleteScan (fun _ => inr tt) 1 ex_completed
    = inr ((Build_DeleteResult true 3, [900; 900; 900; 7]%nat), w')
    /\ menuScans w' = delete 1%nat (menuScans ex_completed)
    /\ dishes w' = [].
Proof.
  destruct (deleteScan_removes_scan (fun _ => inr tt) 1 ex_completed
              (default (new_scan ex_CONFIG 0 "") (menuScans ex_completed !! 1%nat)))
    as (w' & E & Hm & Hd & _).
  - apply (bool_decide_unpack _). vm_compute. reflexivity.
  - vm_compute. reflexivity.
  - apply Forall_forall. intros b _. reflexivity.
  - exists w'. split; [rewrite E; vm_compute; reflexivity|]. split; [exact Hm|].
    rewrite Hd. vm_compute. reflexivity.
Defined.

Lemma find_id_None (l : list Dish.t) id :
  (forall d, d ∈ l -> Dish._id d <> id) ->
  List.find (fun d => Nat.eqb (Dish._id d) id) l = None.
Proof.
  intros H. destruct (List.find _ l) as [d|] eqn:E; [|done].
  apply find_id_Some in E as [Hd Hid]. by apply H in Hd.
Qed.

(** X19.  The jobs of a scan that has been deleted do nothing.  In a
    reachable store, after [deleteScan] of a scan, a job of that scan is
    still in the queue, and running it leaves the store as it is: the
    pipeline finds no scan, an image job finds no dish, and the handler
    of the error has nothing to patch. *)
Theorem jobs_of_deleted_scan_do_nothing
    CONFIG isValidProvider storage_delete w scanId scan j now vision img :
  0 <= AUTO_IMAGE_LIMIT CONFIG <= MAX_IMAGES_PER_SCAN CONFIG ->
  reachable CONFIG isValidProvider w ->
  menuScans w !! scanId = Some scan ->
  Forall (fun b => storage_delete b = inr tt) (scan_blobs w scanId scan) ->
  j ∈ scheduled w ->
  job_scan j = scanId ->
  let w1 := commit (deleteScan storage_delete scanId) w in
  j ∈ scheduled w1 /\ run_job CONFIG now vision img j w1 = w1.
Proof.
  intros Hcfg Hreach Hs Hok Hj Hjs w1.
  pose proof (reachable_world_inv _ _ _ Hcfg Hreach) as Hinv.
  pose proof (inv_nodup _ _ Hinv) as Hnd.
  pose proof (inv_jobs _ _ Hinv _ Hj) as Hvalid.
  assert (Hw1 : w1 = mkWorld (forget_scan (MenuScan.deviceId scan) w)
                       (delete scanId (menuScans w))
                       (filter (fun d => Dish.scanId d <> scanId) (dishes w)) (nextId w)
                       (scheduled w) (trace w)).
  { unfold w1, commit. by rewrite (deleteScan_ok _ _ _ _ Hnd Hs Hok). }
  clearbody w1. subst w1. split; [exact Hj|].
  set (w1 := mkWorld _ _ _ _ _ _).
  assert (Hgone : menuScans w1 !! scanId = None) by apply lookup_delete_eq.
  destruct j as [a p|d a p]; cbn [job_scan] in Hjs; subst a; cbn [run_job]; unfold run.
  - unfold processScanPipeline, try_catch.
    unfold bind at 1, runQuery at 1, getScan, get_scan. rewrite Hgone.
    unfold throw, runMutation, updateScanStatus, patch_scan. by rewrite Hgone.
  - destruct Hvalid as [_ (dish & Hin & Hid & Hsc)].
    assert (Hnone : get_dish w1 d = None).
    { apply find_id_None. intros x Hx Hxd. cbn [w1 dishes] in Hx.
      apply list_elem_of_filter in Hx as [Hxs Hx].
      assert (x = dish) as -> by (eapply (NoDup_fmap_elem_inj Dish._id); [exact Hnd|..]; congruence).
      congruence. }
    assert (Hempty : getDishesForScan scanId w1 = []).
    { unfold getDishesForScan, dishes_by_scanId_order.
      rewrite dishes_by_scanId_eq. cbn [w1 dishes].
      rewrite by_scan_filter_other, decide_True by done. reflexivity. }
    unfold generateDishImage, try_catch.
    unfold bind at 1, runQuery at 1. rewrite Hempty. cbn [List.find]. unfold throw.
    unfold bind, runMutation, updateDishImage, patch_dish. by rewrite Hnone.
Qed.

Lemma jobs_of_deleted_scan_do_nothing_witness :
  let w1 := commit (deleteScan (fun _ => inr tt) 1) ex_generating in
  JobGenerate 2 1 "openai" ∈ scheduled w1
  /\ run_job ex_CONFIG 103 (inr ex_menu) ex_image_ok (JobGenerate 2 1 "openai") w1 = w1.
Proof.
  apply (jobs_of_deleted_scan_do_nothing ex_CONFIG ex_isValidProvider (fun _ => inr tt)
           ex_generating 1
           (default (new_scan ex_CONFIG 0 "") (menuScans ex_generating !! 1%nat))).
  - vm_compute. split; discriminate.
  - exact ex_generating_reachable.
  - vm_compute. reflexivity.
  - apply Forall_forall. intros b _. reflexivity.
  - apply list_elem_of_In. vm_compute. left. reflexivity.
  - reflexivity.
Defined.

(** * The device users *)

Lemma user_find_Some (l : list DeviceUser) d u :
  List.find (fun u => String.eqb (du_deviceId u) d) l = Some u -> u ∈ l /\ du_deviceId u = d.
Proof.
  intros H. apply List.find_some in H as [Hin Heq].
  split; [by apply list_elem_of_In|by apply String.eqb_eq].
Qed.

Lemma user_find_is_Some (l : list DeviceUser) u :
  u ∈ l -> is_Some (List.find (fun u' => String.eqb (du_deviceId u') (du_deviceId u)) l).
Proof.
  intros Hin. destruct (List.find _ l) as [u'|] eqn:E; [eauto|].
  apply list_elem_of_In in Hin. pose proof (List.find_none _ _ E _ Hin) as H.
  cbn in H. by rewrite String.eqb_refl in H.
Qed.

Lemma user_find_unique (l : list DeviceUser) u :
  NoDup (map du_deviceId l) -> u ∈ l ->
  List.find (fun u' => String.eqb (du_deviceId u') (du_deviceId u)) l = Some u.
Proof.
  intros Hnd Hin. destruct (user_find_is_Some l u Hin) as [u' E]. rewrite E. f_equal.
  apply user_find_Some in E as [Hin' Hd].
  by apply (NoDup_fmap_elem_inj du_deviceId l).
Qed.

Lemma user_find_map (g : DeviceUser -> DeviceUser) (l : list DeviceUser) d :
  (forall u, du_deviceId (g u) = du_deviceId u) ->
  List.find (fun u => String.eqb (du_deviceId u) d) (map g l)
  = g <$> List.find (fun u => String.eqb (du_deviceId u) d) l.
Proof.
  intros Hg. induction l as [|u l IH]; [done|]. cbn [map List.find]. rewrite Hg.
  by destruct (String.eqb (du_deviceId u) d).
Qed.

Lemma find_app_Some {A} (P : A -> bool) (l l' : list A) x :
  List.find P l = Some x -> List.find P (l ++ l') = Some x.
Proof.
  induction l as [|a l IH]; [done|]. cbn [List.find app].
  destruct (P a); [done|exact IH].
Qed.

(** ** Counting the scans of a device *)

Lemma scan_count_perm w w' d l :
  map_to_list (menuScans w') ≡ₚ l ++ map_to_list (menuScans w) ->
  scan_count w' d
  = Z.of_nat (length (filter (fun p : nat * MenuScan.t => MenuScan.deviceId p.2 = d) l))
    + scan_count w d.
Proof.
  intros H. unfold scan_count, scans_by_deviceId. rewrite H, filter_app, length_app. lia.
Qed.

Lemma scan_count_insert w w' i s d :
  menuScans w !! i = None -> menuScans w' = <[i := s]> (menuScans w) ->
  scan_count w' d = scan_count w d + (if decide (MenuScan.deviceId s = d) then 1 else 0).
Proof.
  intros Hi Hm. rewrite (scan_count_perm w w' d [(i, s)]).
  - rewrite filter_cons. cbn [snd]. destruct (decide (MenuScan.deviceId s = d)); cbn; lia.
  - rewrite Hm. by apply map_to_list_insert.
Qed.

Lemma scan_count_delete w w' i s d :
  menuScans w !! i = Some s -> menuScans w' = delete i (menuScans w) ->
  scan_count w' d = scan_count w d - (if decide (MenuScan.deviceId s = d) then 1 else 0).
Proof.
  intros Hi Hm. rewrite (scan_count_perm w' w d [(i, s)]).
  - rewrite filter_cons. cbn [snd]. destruct (decide (MenuScan.deviceId s = d)); cbn; lia.
  - rewrite Hm. symmetry. by apply map_to_list_delete.
Qed.

Lemma scan_count_same w w' d :
  MenuScan.deviceId <$> menuScans w' = MenuScan.deviceId <$> menuScans w ->
  scan_count w' d = scan_count w d.
Proof.
  intros H. unfold scan_count, scans_by_deviceId.
  assert (E : forall m : gmap nat MenuScan.t,
             length (filter (fun p : nat * MenuScan.t => MenuScan.deviceId p.2 = d)
                       (map_to_list m))
             = length (filter (fun p : nat * string => p.2 = d)
                         (map_to_list (MenuScan.deviceId <$> m)))).
  { intros m. rewrite map_to_list_fmap. induction (map_to_list m) as [|[k s] l IH]; [done|].
    rewrite fmap_cons, !filter_cons. cbn [snd prod_map].
    destruct (decide (MenuScan.deviceId s = d)); cbn [length]; by rewrite IH. }
  by rewrite !E, H.
Qed.

Lemma scan_count_positive w i s :
  menuScans w !! i = Some s -> 1 <= scan_count w (MenuScan.deviceId s).
Proof.
  intros Hs. unfold scan_count, scans_by_deviceId.
  assert (Hin : (i, s) ∈ filter (fun p : nat * MenuScan.t =>
                                   MenuScan.deviceId p.2 = MenuScan.deviceId s)
                          (map_to_list (menuScans w))).
  { apply list_elem_of_filter. split; [done|]. by apply elem_of_map_to_list. }
  destruct (filter _ _); [by apply elem_of_nil in Hin|]. cbn [length]. lia.
Qed.

Lemma scan_count_zero w d :
  (forall i s, menuScans w !! i = Some s -> MenuScan.deviceId s <> d) -> scan_count w d = 0.
Proof.
  intros H. unfold scan_count, scans_by_deviceId.
  destruct (filter _ _) as [|[i s] l] eqn:E; [done|].
  assert (Hin : (i, s) ∈ filter (fun p : nat * MenuScan.t => MenuScan.deviceId p.2 = d)
                          (map_to_list (menuScans w))) by (rewrite E; by left).
  apply list_elem_of_filter in Hin as [Hd Hin]. apply elem_of_map_to_list in Hin.
  by apply H in Hin.
Qed.

(** ** The invariant *)

(** The users are rewritten in place, ids and devices kept. *)
Lemma device_inv_map (g : DeviceUser -> DeviceUser) w w' :
  device_inv w ->
  deviceUsers w' = map g (deviceUsers w) ->
  (forall u, du_id (g u) = du_id u) ->
  (forall u, du_deviceId (g u) = du_deviceId u) ->
  (nextId w <= nextId w')%nat ->
  (forall id, is_Some (menuScans w' !! id) -> (id < nextId w')%nat) ->
  (forall u, u ∈ deviceUsers w -> du_scanCount (g u) = scan_count w' (du_deviceId u)) ->
  (forall id s, menuScans w' !! id = Some s ->
                exists u, u ∈ deviceUsers w /\ du_deviceId u = MenuScan.deviceId s) ->
  device_inv w'.
Proof.
  intros [I1 I2 I3 I4 I5 I6] Hu Hid Hdev Hn Hfresh Hcount Hown.
  split; rewrite ?Hu.
  - rewrite map_map. erewrite map_ext; [exact I1|exact Hdev].
  - rewrite map_map. erewrite map_ext; [exact I2|exact Hid].
  - intros u' Hu'. apply list_elem_of_fmap in Hu' as (u & -> & Hin).
    rewrite Hid. pose proof (I3 u Hin). lia.
  - exact Hfresh.
  - intros u' Hu'. apply list_elem_of_fmap in Hu' as (u & -> & Hin).
    rewrite Hdev. by apply Hcount.
  - intros id s Hs. destruct (Hown id s Hs) as (u & Hin & Hd).
    unfold user_by_deviceId. rewrite Hu, user_find_map by exact Hdev.
    rewrite <- Hd. destruct (user_find_is_Some _ u Hin) as [u' ->]. by eexists.
Qed.

Lemma device_inv_pipeline CONFIG isValidProvider c w :
  operation_of c w <> OpCreate ->
  device_inv w -> device_inv (exec CONFIG isValidProvider c w).
Proof.
  intros Hc Hinv.
  destruct (exec_keeps_devices CONFIG isValidProvider c w Hc) as (Hu & Hm & Hn).
  assert (Hlook : forall id, MenuScan.deviceId <$> menuScans (exec CONFIG isValidProvider c w) !! id
                             = MenuScan.deviceId <$> menuScans w !! id).
  { intros id. by rewrite <- !lookup_fmap, Hm. }
  apply (device_inv_map id w); try done.
  - by rewrite Hu, map_id.
  - intros id Hid. pose proof (Hlook id) as H. destruct Hid as [s Hs]. rewrite Hs in H.
    destruct (menuScans w !! id) as [s0|] eqn:Hs0; [|discriminate].
    pose proof (dinv_scan_fresh _ Hinv id ltac:(by rewrite Hs0)). lia.
  - intros u Hin. cbn. rewrite (scan_count_same w _) by exact Hm.
    by apply (dinv_count _ Hinv).
  - intros id s Hs. pose proof (Hlook id) as H. rewrite Hs in H.
    destruct (menuScans w !! id) as [s0|] eqn:Hs0; [|discriminate].
    destruct (dinv_owner _ Hinv id s0 Hs0) as [u Hfind].
    apply user_find_Some in Hfind as [Hin Hd]. exists u. split; [done|].
    cbn in H. congruence.
Qed.

Lemma device_inv_create CONFIG now deviceId w :
  device_inv w -> device_inv (commit (createMenuScan CONFIG now deviceId) w).
Proof.
  intros Hinv. unfold commit, createMenuScan.
  destruct (List.find _ (deviceUsers w)) as [user|] eqn:Hfind; [|exact Hinv].
  apply user_find_Some in Hfind as [Huser Hdev].
  set (g := fun u => if Nat.eqb (du_id u) (du_id user)
                     then Build_DeviceUser (du_id u) (du_deviceId u) (du_createdAt u) now
                            (du_scanCount user + 1)
                     else u).
  set (w' := set_deviceUsers _ _).
  assert (Hnone : menuScans w !! nextId w = None).
  { destruct (menuScans w !! nextId w) eqn:E; [|done].
    pose proof (dinv_scan_fresh _ Hinv (nextId w) ltac:(by rewrite E)). lia. }
  assert (Hm : menuScans w' = <[nextId w := new_scan CONFIG now deviceId]> (menuScans w))
    by reflexivity.
  apply (device_inv_map g w).
  - exact Hinv.
  - reflexivity.
  - intros u. unfold g. by destruct (Nat.eqb _ _).
  - intros u. unfold g. by destruct (Nat.eqb _ _).
  - cbn. lia.
  - intros id. rewrite Hm. intros [s Hs]. cbn [w' nextId set_deviceUsers set_nextId].
    apply lookup_insert_Some in Hs as [[<- _]|[_ Hs]]; [lia|].
    pose proof (dinv_scan_fresh _ Hinv id ltac:(by rewrite Hs)). lia.
  - intros u Hin. rewrite (scan_count_insert w w' _ _ _ Hnone Hm). cbn [new_scan MenuScan.deviceId].
    rewrite <- (dinv_count _ Hinv u Hin). unfold g.
    destruct (Nat.eqb_spec (du_id u) (du_id user)) as [Hid|Hid].
    + assert (u = user) as -> by (by apply (NoDup_fmap_elem_inj du_id (deviceUsers w));
                                   [apply (dinv_user_ids _ Hinv)|..]).
      cbn. by rewrite decide_True.
    + rewrite decide_False; [lia|]. intros Heq. apply Hid. f_equal.
      apply (NoDup_fmap_elem_inj du_deviceId (deviceUsers w));
        [apply (dinv_devices _ Hinv)|done..|congruence].
  - intros id s. rewrite Hm. intros Hs.
    apply lookup_insert_Some in Hs as [[_ <-]|[_ Hs]]; [by exists user|].
    destruct (dinv_owner _ Hinv id s Hs) as [u Hfind].
    apply user_find_Some in Hfind as [Hin Hd]. by exists u.
Qed.

Lemma device_inv_ensure now deviceId w :
  device_inv w -> device_inv (commit (ensureDeviceUser now deviceId) w).
Proof.
  intros Hinv. unfold commit, ensureDeviceUser, mbind, mread, user_by_deviceId.
  destruct (List.find _ (deviceUsers w)) as [existing|] eqn:Hfind.
  - unfold patch_user, mret.
    apply (device_inv_map (fun u => if Nat.eqb (du_id u) (du_id existing)
                                    then set_lastSeenAt now u else u) w);
      try done.
    + intros u. by destruct (Nat.eqb _ _).
    + intros u. by destruct (Nat.eqb _ _).
    + apply (dinv_scan_fresh _ Hinv).
    + intros u Hin. rewrite (scan_count_same w) by reflexivity.
      rewrite <- (dinv_count _ Hinv u Hin). by destruct (Nat.eqb _ _).
    + intros id s Hs. destruct (dinv_owner _ Hinv id s Hs) as [u Hu].
      apply user_find_Some in Hu as [Hin Hd]. by exists u.
  - destruct Hinv as [I1 I2 I3 I4 I5 I6].
    assert (Hnew : forall u, u ∈ deviceUsers w -> du_deviceId u <> deviceId).
    { intros u Hin Heq. apply list_elem_of_In in Hin.
      pose proof (List.find_none _ _ Hfind u Hin) as H. cbn in H.
      apply String.eqb_neq in H. contradiction. }
    assert (Hzero : scan_count w deviceId = 0).
    { apply scan_count_zero. intros i s Hs Heq. destruct (I6 i s Hs) as [u Hu].
      apply user_find_Some in Hu as [Hin Hd]. apply (Hnew u Hin). congruence. }
    split; cbn [deviceUsers menuScans nextId set_nextId set_deviceUsers].
    + rewrite map_app. cbn [map]. apply NoDup_app. split; [exact I1|].
      split; [|apply NoDup_singleton].
      intros d Hd Hd'. apply list_elem_of_singleton in Hd' as ->.
      apply list_elem_of_fmap in Hd as (u & Heq & Hin). by apply (Hnew u Hin).
    + rewrite map_app. cbn [map]. apply NoDup_app. split; [exact I2|].
      split; [|apply NoDup_singleton].
      intros i Hi Hi'. apply list_elem_of_singleton in Hi' as ->.
      apply list_elem_of_fmap in Hi as (u & Heq & Hin). pose proof (I3 u Hin). cbn in Heq. lia.
    + intros u Hu. apply elem_of_app in Hu as [Hu|Hu].
      * pose proof (I3 u Hu). lia.
      * apply list_elem_of_singleton in Hu as ->. cbn. lia.
    + intros id Hid. pose proof (I4 id Hid). lia.
    + intros u Hu. apply elem_of_app in Hu as [Hu|Hu].
      * rewrite (I5 u Hu). by apply scan_count_same.
      * apply list_elem_of_singleton in Hu as ->. cbn [du_scanCount du_deviceId].
        rewrite <- Hzero. symmetry. by apply scan_count_same.
    + intros id s Hs. destruct (I6 id s Hs) as [u Hu]. unfold user_by_deviceId in *.
      exists u. apply (find_app_Some _ _ _ _ Hu).
Qed.

Lemma delete_blob_inr storage_delete storageId blobs w blobs' w' :
  delete_blob storage_delete storageId blobs w = inr (blobs', w') -> w' = w.
Proof.
  unfold delete_blob. destruct storageId as [b|]; [|by intros [= _ ->]].
  unfold mbind. destruct (storage_delete b) as [e|[]]; cbn; [discriminate|by intros [= _ ->]].
Qed.

Lemma deleteScan_loop_keeps storage_delete l blobs w blobs' w' :
  mforEach
    (fun dish blobs =>
       mbind (delete_blob storage_delete (Dish.imageStorageId dish) blobs)
         (fun blobs => mbind (delete_dish (Dish._id dish)) (fun _ => mret blobs)))
    l blobs w = inr (blobs', w') ->
  deviceUsers w' = deviceUsers w /\ menuScans w' = menuScans w /\ nextId w' = nextId w.
Proof.
  revert blobs w. induction l as [|d l IH]; intros blobs w; cbn [mforEach].
  - by intros [= _ ->].
  - unfold mbind at 1. unfold mbind at 1.
    destruct (delete_blob _ _ _ w) as [e|[b1 w1]] eqn:E1; [discriminate|].
    apply delete_blob_inr in E1 as ->.
    unfold mbind at 1, delete_dish. destruct (get_dish w _); [|discriminate].
    unfold mret at 1. intros H. apply IH in H as (-> & -> & ->). done.
Qed.

Lemma deleteScan_inr storage_delete scanId w r w' :
  deleteScan storage_delete scanId w = inr (r, w') ->
  exists scan,
    menuScans w !! scanId = Some scan
    /\ menuScans w' = delete scanId (menuScans w)
    /\ deviceUsers w' = forget_scan (MenuScan.deviceId scan) w
    /\ nextId w' = nextId w.
Proof.
  unfold deleteScan. unfold mbind at 1, mread at 1, get_scan.
  destruct (menuScans w !! scanId) as [scan|] eqn:Hs; [|discriminate].
  unfold mbind at 1, mread at 1. unfold mbind at 1.
  destruct (mforEach _ _ _ w) as [e|[blobs w1]] eqn:Eloop; [discriminate|].
  apply deleteScan_loop_keeps in Eloop as (Hu1 & Hm1 & Hn1).
  unfold mbind at 1.
  destruct (delete_blob _ _ _ w1) as [e|[blobs2 w2]] eqn:E2; [discriminate|].
  apply delete_blob_inr in E2 as ->.
  unfold mbind at 1, delete_scan. rewrite Hm1, Hs.
  unfold mbind at 1, mread at 1. unfold forget_scan, user_by_deviceId.
  cbn beta. cbn [deviceUsers set_menuScans]. rewrite Hu1.
  intros H. exists scan. split; [done|].
  destruct (List.find _ (deviceUsers w)) as [user|].
  - destruct (0 <? du_scanCount user); unfold mbind, patch_user, mret in H;
      injection H as _ <-; cbn; rewrite ?Hu1, ?Hn1; done.
  - unfold mbind, mret in H. injection H as _ <-. cbn. by rewrite ?Hu1, ?Hn1.
Qed.

Lemma device_inv_delete storage_delete scanId w :
  device_inv w -> device_inv (commit (deleteScan storage_delete scanId) w).
Proof.
  intros Hinv. unfold commit.
  destruct (deleteScan storage_delete scanId w) as [e|[r w']] eqn:E; [exact Hinv|].
  apply deleteScan_inr in E as (scan & Hs & Hm & Hu & Hn).
  destruct (dinv_owner _ Hinv _ _ Hs) as [user Hfind].
  pose proof Hfind as Hfind'. apply user_find_Some in Hfind' as [Huser Hdev].
  pose proof (scan_count_positive _ _ _ Hs) as Hpos.
  pose proof (dinv_count _ Hinv user Huser) as Hcount. rewrite Hdev in Hcount.
  unfold forget_scan in Hu. rewrite Hfind in Hu.
  destruct (Z.ltb_spec 0 (du_scanCount user)) as [_|Hle]; [|lia].
  apply (device_inv_map (fun u => if Nat.eqb (du_id u) (du_id user)
                                  then set_scanCount (du_scanCount user - 1) u else u) w).
  - exact Hinv.
  - exact Hu.
  - intros u. by destruct (Nat.eqb _ _).
  - intros u. by destruct (Nat.eqb _ _).
  - lia.
  - intros id. rewrite Hm, Hn. intros [s Hs']. apply lookup_delete_Some in Hs' as [_ Hs'].
    apply (dinv_scan_fresh _ Hinv). by rewrite Hs'.
  - intros u Hin. rewrite (scan_count_delete w w' _ _ _ Hs Hm).
    rewrite <- (dinv_count _ Hinv u Hin).
    destruct (Nat.eqb_spec (du_id u) (du_id user)) as [Hid|Hid].
    + assert (u = user) as -> by (by apply (NoDup_fmap_elem_inj du_id (deviceUsers w));
                                   [apply (dinv_user_ids _ Hinv)|..]).
      cbn. rewrite decide_True by done. reflexivity.
    + rewrite decide_False; [lia|]. intros Heq. apply Hid. f_equal.
      apply (NoDup_fmap_elem_inj du_deviceId (deviceUsers w));
        [apply (dinv_devices _ Hinv)|done..|congruence].
  - intros id s. rewrite Hm. intros Hs'. apply lookup_delete_Some in Hs' as [_ Hs'].
    destruct (dinv_owner _ Hinv id s Hs') as [u Hfu].
    apply user_find_Some in Hfu as [Hin Hd]. by exists u.
Qed.

Lemma reachable_client_device_inv CONFIG isValidProvider storage_delete w :
  reachable_client CONFIG isValidProvider storage_delete w -> device_inv w.
Proof.
  induction 1 as [w (Hu & Hm & _)|w c Hreach IH Hprot].
  - split; rewrite ?Hu, ?Hm; try (by constructor).
    + intros u Hin. by apply elem_of_nil in Hin.
    + intros id [s Hs]. by rewrite lookup_empty in Hs.
    + intros u Hin. by apply elem_of_nil in Hin.
    + intros id s Hs. by rewrite lookup_empty in Hs.
  - destruct c as [c|now deviceId|scanId]; cbn [exec_client].
    + destruct c; try (apply device_inv_pipeline; [cbn [operation_of]; discriminate|exact IH]).
      * by apply device_inv_create.
      * apply device_inv_pipeline; [|exact IH].
        cbn [operation_of]. destruct (scheduled w !! i) as [[]|]; discriminate.
    + by apply device_inv_ensure.
    + by apply device_inv_delete.
Qed.

(** X20.  Starting from empty tables, whatever the client calls and
    whatever the jobs do, there is one user per device, every scan
    belongs to a device that has a user, and the scan count of a user is
    the number of scans of its device, the number [getDeviceStats]
    reports as totalScans: creating a scan adds one to both, and when
    [deleteScan] removes a scan the count it decrements is positive. *)
Theorem scanCount_counts_scans CONFIG isValidProvider storage_delete w :
  reachable_client CONFIG isValidProvider storage_delete w ->
  (forall u, u ∈ deviceUsers w ->
             getDeviceUser (du_deviceId u) w = Some u
             /\ du_scanCount u = totalScans (getDeviceStats (du_deviceId u) w))
  /\ (forall scanId s, menuScans w !! scanId = Some s ->
                       exists u, getDeviceUser (MenuScan.deviceId s) w = Some u
                                 /\ 1 <= du_scanCount u).
Proof.
  intros Hreach. apply reachable_client_device_inv in Hreach as Hinv. split.
  - intros u Hin. split.
    + apply user_find_unique; [apply (dinv_devices _ Hinv)|exact Hin].
    + rewrite (dinv_count _ Hinv u Hin). unfold getDeviceStats, scan_count. cbn [totalScans].
      by rewrite length_fmap.
  - intros scanId s Hs. destruct (dinv_owner _ Hinv _ _ Hs) as [u Hu]. exists u.
    split; [exact Hu|]. apply user_find_Some in Hu as [Hin Hd].
    rewrite (dinv_count _ Hinv u Hin), Hd. by apply (scan_count_positive _ scanId).
Qed.

Lemma ex_client_reachable :
  reachable_client ex_CONFIG ex_isValidProvider (fun _ => inr tt) ex_client.
Proof.
  unfold ex_client, ex_client_calls. cbn [fold_left].
  repeat (apply reachable_client_step; [|exact I]).
  apply reachable_client_initial. repeat split.
Qed.

Lemma scanCount_counts_scans_witness :
  (forall u, u ∈ deviceUsers ex_client ->
             getDeviceUser (du_deviceId u) ex_client = Some u
             /\ du_scanCount u = totalScans (getDeviceStats (du_deviceId u) ex_client))
  /\ (forall scanId s, menuScans ex_client !! scanId = Some s ->
                       exists u, getDeviceUser (MenuScan.deviceId s) ex_client = Some u
                                 /\ 1 <= du_scanCount u).
Proof.
  apply (scanCount_counts_scans ex_CONFIG ex_isValidProvider (fun _ => inr tt) ex_client).
  exact ex_client_reachable.
Defined.

Lemma find_app_None {A} (P : A -> bool) (l l' : list A) :
  List.find P l = None -> List.find P (l ++ l') = List.find P l'.
Proof.
  induction l as [|a l IH]; [done|]. cbn [List.find app].
  destruct (P a); [discriminate|exact IH].
Qed.

(** X21.  After [ensureDeviceUser] the device has a user, last seen at
    the time of the call: the user it had, with its id, its creation time
    and its scan count, or a new one with no scan.  A second call adds no
    user, and [createMenuScan] for the device does not throw: it inserts a
    pending scan of the device under the next id of the store. *)
Theorem ensureDeviceUser_registers_once CONFIG now1 now2 now3 deviceId w :
  let w1 := commit (ensureDeviceUser now1 deviceId) w in
  exists u,
    getDeviceUser deviceId w1 = Some u
    /\ du_deviceId u = deviceId
    /\ du_lastSeenAt u = now1
    /\ match getDeviceUser deviceId w with
       | Some u0 => u = set_lastSeenAt now1 u0 /\ length (deviceUsers w1) = length (deviceUsers w)
       | None => u = Build_DeviceUser (nextId w) deviceId now1 now1 0
                 /\ deviceUsers w1 = deviceUsers w ++ [u]
       end
    /\ length (deviceUsers (commit (ensureDeviceUser now2 deviceId) w1))
       = length (deviceUsers w1)
    /\ exists w2,
         createMenuScan CONFIG now3 deviceId w1 = inr (nextId w1, w2)
         /\ menuScans w2 = <[nextId w1 := new_scan CONFIG now3 deviceId]> (menuScans w1).
Proof.
  intros w1.
  assert (Hgoal : forall u,
             getDeviceUser deviceId w1 = Some u ->
             length (deviceUsers (commit (ensureDeviceUser now2 deviceId) w1))
             = length (deviceUsers w1)
             /\ exists w2,
                  createMenuScan CONFIG now3 deviceId w1 = inr (nextId w1, w2)
                  /\ menuScans w2 = <[nextId w1 := new_scan CONFIG now3 deviceId]> (menuScans w1)).
  { intros u Hu. unfold getDeviceUser, user_by_deviceId in Hu. split.
    - unfold commit, ensureDeviceUser, mbind, mread, user_by_deviceId. rewrite Hu.
      unfold patch_user, mret. cbn [deviceUsers set_deviceUsers]. apply length_map.
    - unfold createMenuScan. rewrite Hu. eexists. split; reflexivity. }
  destruct (getDeviceUser deviceId w) as [u0|] eqn:Hfind.
  - assert (Hw1 : w1 = set_deviceUsers
                         (map (fun u => if Nat.eqb (du_id u) (du_id u0)
                                        then set_lastSeenAt now1 u else u) (deviceUsers w)) w).
    { unfold w1, commit, ensureDeviceUser, mbind, mread. cbn beta.
      unfold getDeviceUser in Hfind. rewrite Hfind. reflexivity. }
    clearbody w1. subst w1.
    pose proof (user_find_Some _ _ _ Hfind) as [Hin Hd].
    assert (Hu : getDeviceUser deviceId
                   (set_deviceUsers
                      (map (fun u => if Nat.eqb (du_id u) (du_id u0)
                                     then set_lastSeenAt now1 u else u) (deviceUsers w)) w)
                 = Some (set_lastSeenAt now1 u0)).
    { unfold getDeviceUser, user_by_deviceId in *. cbn [deviceUsers set_deviceUsers].
      rewrite user_find_map by (intros u; by destruct (Nat.eqb _ _)).
      rewrite Hfind. cbn. by rewrite Nat.eqb_refl. }
    exists (set_lastSeenAt now1 u0). split; [exact Hu|]. split; [exact Hd|].
    split; [done|]. split; [split; [done|apply length_map]|]. exact (Hgoal _ Hu).
  - assert (Hw1 : w1 = set_nextId (S (nextId w))
                         (set_deviceUsers
                            (deviceUsers w ++ [Build_DeviceUser (nextId w) deviceId now1 now1 0])
                            w)).
    { unfold w1, commit, ensureDeviceUser, mbind, mread. cbn beta.
      unfold getDeviceUser in Hfind. rewrite Hfind. reflexivity. }
    clearbody w1. subst w1.
    assert (Hu : getDeviceUser deviceId
                   (set_nextId (S (nextId w))
                      (set_deviceUsers
                         (deviceUsers w ++ [Build_DeviceUser (nextId w) deviceId now1 now1 0]) w))
                 = Some (Build_DeviceUser (nextId w) deviceId now1 now1 0)).
    { unfold getDeviceUser, user_by_deviceId in *. cbn [deviceUsers set_deviceUsers set_nextId].
      rewrite find_app_None by exact Hfind. cbn. by rewrite String.eqb_refl. }
    eexists. split; [exact Hu|]. split; [done|]. split; [done|].
    split; [split; reflexivity|]. exact (Hgoal _ Hu).
Qed.

(** * The dish screen *)

(** X22.  A dish card is tappable exactly when a tap on it does
    something: [isDishTappable] is true iff [handleDishPress] opens the
    image or asks for a single image.  The cards that are not tappable
    are those without an image whose status is queued, generating or
    completed. *)
Theorem tappable_iff_tap_acts dish :
  (isDishTappable dish = true <-> handleDishPress dish <> NoTap)
  /\ (isDishTappable dish = false <->
      truthy_string (Dish.imageUrl dish) = None
      /\ (Dish.imageStatus dish = ImageStatus.queued
          \/ Dish.imageStatus dish = ImageStatus.generating
          \/ Dish.imageStatus dish = ImageStatus.completed)).
Proof.
  unfold isDishTappable, handleDishPress.
  destruct (truthy_string (Dish.imageUrl dish)) as [url|];
    destruct (Dish.imageStatus dish); repeat split; intros;
    try discriminate; try congruence; auto;
    try (destruct H as [? [?|[?|?]]]; discriminate).
Qed.

(** * Actions, one transaction at a time *)

(** ** A task run without interference is the action *)

Lemma bind_ext {A B} (m m' : Action A) (k k' : A -> Action B) w :
  (forall w, m w = m' w) -> (forall a w, k a w = k' a w) -> bind m k w = bind m' k' w.
Proof. intros Hm Hk. unfold bind. rewrite Hm. destruct (m' w) as [[e|a] w']; [done|apply Hk]. Qed.

Lemma try_catch_ext {A} (m m' : Action A) (h h' : Thrown -> Action A) w :
  (forall w, m w = m' w) -> (forall e w, h e w = h' e w) ->
  try_catch m h w = try_catch m' h' w.
Proof.
  intros Hm Hh. unfold try_catch. rewrite Hm. destruct (m' w) as [[e|a] w']; [apply Hh|done].
Qed.

Lemma forEach_ext {A S} (body body' : A -> S -> Action S) l s w :
  (forall x s w, body x s w = body' x s w) -> forEach body l s w = forEach body' l s w.
Proof.
  intros Hb. revert s w. induction l as [|x l IH]; intros s w; cbn [forEach]; [done|].
  apply bind_ext; [apply Hb|apply IH].
Qed.

Lemma forEach_map {A B S} (f : A -> B) (body : B -> S -> Action S) l s w :
  forEach body (map f l) s w = forEach (fun x => body (f x)) l s w.
Proof.
  revert s w. induction l as [|x l IH]; intros s w; cbn [forEach map]; [done|].
  apply bind_ext; [done|apply IH].
Qed.

Lemma run_task_bind {A B} now (t : Task A) (k : A -> Task B) w :
  run_task now (task_bind t k) w = bind (run_task now t) (fun a => run_task now (k a)) w.
Proof.
  revert w. induction t as [[e|a]|commits next IH]; intros w; [done|done|].
  cbn [task_bind run_task]. rewrite IH. reflexivity.
Qed.

Lemma run_task_try_catch {A} now (t : Task A) (h : Thrown -> Task A) w :
  run_task now (task_try_catch t h) w
  = try_catch (run_task now t) (fun e => run_task now (h e)) w.
Proof.
  revert w. induction t as [[e|a]|commits next IH]; intros w; [done|done|].
  cbn [task_try_catch run_task]. rewrite IH. reflexivity.
Qed.

Lemma run_task_runMutation {A} now (m : Z -> Mutation A) w :
  run_task now (task_runMutation m) w = runMutation (m now) w.
Proof.
  unfold task_runMutation, runMutation, commit. cbn [run_task].
  by destruct (m now w) as [e|[a w']].
Qed.

Lemma run_task_runQuery {A} now (q : World -> A) w :
  run_task now (task_runQuery q) w = runQuery q w.
Proof. reflexivity. Qed.

Lemma run_task_schedule now j w : run_task now (task_schedule j) w = schedule j w.
Proof. reflexivity. Qed.

Lemma run_task_log now e w : run_task now (task_log e) w = log e w.
Proof. reflexivity. Qed.

Lemma run_task_Finished {A} now (r : Thrown + A) w : run_task now (Finished r) w = lift r w.
Proof. by destruct r. Qed.

Lemma run_task_forEach {A S} now (body : A -> S -> Task S) l s w :
  run_task now (task_forEach body l s) w
  = forEach (fun x s => run_task now (body x s)) l s w.
Proof.
  revert s w. induction l as [|x l IH]; intros s w; cbn [task_forEach forEach]; [done|].
  rewrite run_task_bind. apply bind_ext; [done|apply IH].
Qed.

Lemma run_task_forget {A} now (t : Task A) w :
  snd (run_task now (Async.forget t) w) = snd (run_task now t w).
Proof.
  unfold Async.forget. rewrite run_task_bind. unfold bind.
  by destruct (run_task now t w) as [[e|a] w'].
Qed.

(** The equations above, applied along the structure of a handler. *)
Ltac run_task_tac :=
  repeat first
    [ exact (run_task_runMutation _ _ _) | apply run_task_runQuery | apply run_task_schedule
    | apply run_task_log | apply run_task_Finished | reflexivity
    | rewrite run_task_bind; apply bind_ext; [intros ?|intros ? ?]
    | rewrite run_task_try_catch; apply try_catch_ext; [intros ?|intros ? ?]
    | rewrite run_task_forEach; apply forEach_ext; intros ? ? ?
    | match goal with
      | |- run_task _ (match ?x with _ => _ end) _ = _ => destruct x
      | |- run_task _ (if ?x then _ else _) _ = _ => destruct x
      | |- run_task _ (let '(_, _) := ?x in _) _ = _ => destruct x
      end ].

Section Serial.
Variable CONFIG : Config.
Variable isValidProvider : string -> bool.

Lemma run_startProcessingScan now scanId imageProvider w :
  run_task now (Async.startProcessingScan CONFIG isValidProvider scanId imageProvider) w
  = startProcessingScan CONFIG isValidProvider now scanId imageProvider w.
Proof. unfold Async.startProcessingScan, startProcessingScan. run_task_tac. Qed.

Lemma run_count_job now scanId cost msg w :
  run_task now (Async.count_job scanId cost msg) w = count_job now scanId cost msg w.
Proof. unfold Async.count_job, count_job. run_task_tac. Qed.

Lemma run_generateDishImage now dishId scanId provider img w :
  run_task now (Async.generateDishImage CONFIG dishId scanId provider img) w
  = generateDishImage CONFIG now dishId scanId provider img w.
Proof.
  unfold Async.generateDishImage, generateDishImage.
  run_task_tac; apply run_count_job.
Qed.

Lemma run_generateRemainingImages now scanId imageProvider w :
  run_task now (Async.generateRemainingImages CONFIG isValidProvider scanId imageProvider) w
  = generateRemainingImages CONFIG isValidProvider scanId imageProvider w.
Proof. unfold Async.generateRemainingImages, generateRemainingImages. run_task_tac. Qed.

Lemma run_generateSingleDishImage now dishId imageProvider w :
  run_task now (Async.generateSingleDishImage CONFIG isValidProvider dishId imageProvider) w
  = generateSingleDishImage CONFIG isValidProvider dishId imageProvider w.
Proof. unfold Async.generateSingleDishImage, generateSingleDishImage. run_task_tac. Qed.

Lemma createDish_args_typed scanId sectionName item displayOrder imageStatus :
  createDish_args scanId (json_of_option sectionName) (raw_of_item item) displayOrder
    imageStatus
  = Some (Build_CreateDishArgs scanId (item_name item) (item_description item)
            (item_price item) sectionName displayOrder imageStatus).
Proof.
  unfold createDish_args, raw_of_item. cbn.
  by destruct (item_description item), (item_price item), sectionName.
Qed.

Lemma run_create_item now scanId sectionName item st w :
  run_task now
    (Async.create_item CONFIG scanId (json_of_option sectionName) (raw_of_item item) st) w
  = create_item CONFIG now scanId sectionName item st w.
Proof.
  unfold Async.create_item, create_item. destruct st as [displayOrder dishIds].
  rewrite run_task_bind. apply bind_ext; [intros w0|done].
  rewrite run_task_runMutation. by rewrite createDish_args_typed.
Qed.

Lemma count_dishes_typed restaurantName sections itemsFallback :
  Async.count_dishes (map raw_of_section sections) (map raw_of_item <$> itemsFallback)
  = count_dishes (Build_VisionMenuOutput restaurantName sections itemsFallback).
Proof.
  unfold Async.count_dishes, count_dishes. cbn [vm_sections vm_itemsFallback]. f_equal.
  - generalize 0. induction sections as [|x l IH]; intros z; cbn [fold_left map]; [done|].
    rewrite IH. cbn [raw_of_section raw_items]. by rewrite length_map.
  - destruct itemsFallback as [items|]; cbn; [by rewrite length_map|done].
Qed.

(** On a reply of the type [VisionMenuOutput] no validator rejects an item:
    the pipeline run without interference is the action. *)
Lemma run_processScanPipeline now scanId imageProvider vision w :
  run_task now (Async.processScanPipeline CONFIG scanId imageProvider (raw_of_reply vision)) w
  = processScanPipeline CONFIG now scanId imageProvider vision w.
Proof.
  unfold Async.processScanPipeline, processScanPipeline.
  rewrite run_task_try_catch. apply try_catch_ext; [intros w0|intros e w0; run_task_tac].
  rewrite run_task_bind. apply bind_ext; [done|intros [[scan p]|] w1; [|done]].
  destruct (truthy_string (MenuScan.imageUrl scan)) as [imageUrl|]; [|done].
  rewrite run_task_bind. apply bind_ext; [intros w2; run_task_tac|intros [] w2].
  destruct vision as [e|[restaurantName sections itemsFallback]]; [done|].
  cbn [raw_of_reply task_bind callVisionAPI lift].
  unfold bind at 1, ret at 1.
  cbn [raw_of_parsed raw_sections raw_itemsFallback raw_restaurantName
       pv_sections pv_itemsFallback pv_restaurantName vm_restaurantName vm_sections
       vm_itemsFallback].
  assert (Hsec : default [] (map raw_of_section <$> sections)
                 = map raw_of_section (default [] sections)) by (by destruct sections).
  rewrite Hsec, (count_dishes_typed restaurantName).
  rewrite run_task_bind. apply bind_ext; [intros w3; run_task_tac|intros [] w3].
  rewrite run_task_bind. apply bind_ext; [intros w4|intros [] w4].
  { rewrite run_task_runMutation. by destruct restaurantName. }
  rewrite run_task_bind. apply bind_ext; [intros w5|intros st w5].
  { rewrite run_task_forEach, forEach_map. apply forEach_ext. intros section st w6.
    rewrite run_task_forEach. cbn [raw_of_section raw_items raw_section_name].
    rewrite forEach_map. apply forEach_ext. intros item st' w7.
    apply (run_create_item now scanId (Some (section_name section))). }
  rewrite run_task_bind. apply bind_ext; [intros w6|intros st' w6].
  { destruct itemsFallback as [items|]; cbn [fmap option_fmap option_map]; [|done].
    rewrite run_task_forEach, forEach_map. apply forEach_ext. intros item st' w7.
    apply (run_create_item now scanId None). }
  cbv zeta. run_task_tac.
Qed.

End Serial.

(** ** The system *)

Section AsyncSystem.
Variable CONFIG : Config.
Variable isValidProvider : string -> bool.

Lemma steps_app sts1 sts2 s :
  Async.steps CONFIG isValidProvider (sts1 ++ sts2) s
  = Async.steps CONFIG isValidProvider sts2 (Async.steps CONFIG isValidProvider sts1 s).
Proof. unfold Async.steps. apply fold_left_app. Qed.

Lemma reachable_steps sts s :
  Async.reachable CONFIG isValidProvider s ->
  Async.reachable CONFIG isValidProvider (Async.steps CONFIG isValidProvider sts s).
Proof.
  revert s. induction sts as [|st sts IH]; intros s Hs; [exact Hs|].
  apply IH. by apply Async.reachable_step.
Qed.

(** A handler that runs can be advanced to its end before anything else
    commits: the store is then the one of the task run without
    interference. *)
Lemma advance_to_end (t : Task unit) h now s k :
  Async.running s !! k = Some (Async.Build_Running h t) ->
  exists n r,
    Async.steps CONFIG isValidProvider (repeat (Async.Advance k now) n) s
    = Async.Build_System (snd (run_task now t (Async.store s)))
        (<[k := Async.Build_Running h (Finished r)]> (Async.running s)).
Proof.
  revert s. induction t as [r|commits next IH]; intros s Hk.
  - exists 0%nat, r. cbn. rewrite list_insert_id by exact Hk. by destruct s.
  - specialize (IH now (Async.store s)
                  (Async.Build_System (commits now (Async.store s))
                     (<[k := Async.Build_Running h (next now (Async.store s))]>
                        (Async.running s)))).
    destruct IH as (n & r & E).
    { cbn. apply list_lookup_insert_eq. eapply lookup_lt_Some, Hk. }
    exists (S n), r. cbn [repeat]. unfold Async.steps in *. cbn [fold_left].
    unfold Async.step at 2. rewrite Hk. rewrite E. cbn [Async.store Async.running run_task].
    by rewrite list_insert_insert_eq.
Qed.

Lemma invoke_to_end r now s :
  exists sts,
    Async.store (Async.steps CONFIG isValidProvider sts s)
    = snd (run_task now (Async.task_of_request CONFIG isValidProvider r) (Async.store s)).
Proof.
  set (s1 := Async.step CONFIG isValidProvider (Async.Invoke r) s).
  destruct (advance_to_end (Async.task_of_request CONFIG isValidProvider r)
              (Async.handler_of_request r) now s1 (length (Async.running s)))
    as (n & res & E).
  { cbn. by rewrite lookup_app_r, Nat.sub_diag by lia. }
  exists (Async.Invoke r :: repeat (Async.Advance (length (Async.running s)) now) n).
  change (Async.steps CONFIG isValidProvider (Async.Invoke r :: ?l) s)
    with (Async.steps CONFIG isValidProvider l s1).
  by rewrite E.
Qed.

Lemma start_to_end i j vision img now s :
  scheduled (Async.store s) !! i = Some j ->
  exists sts,
    Async.store (Async.steps CONFIG isValidProvider sts s)
    = snd (run_task now (Async.task_of_job CONFIG j vision img)
             (set_scheduled (delete i (scheduled (Async.store s))) (Async.store s))).
Proof.
  intros Hj.
  set (s1 := Async.step CONFIG isValidProvider (Async.Start i vision img) s).
  assert (Hs1 : s1 = Async.Build_System
                       (set_scheduled (delete i (scheduled (Async.store s))) (Async.store s))
                       (Async.running s
                        ++ [Async.Build_Running (Async.handler_of_job j)
                              (Async.task_of_job CONFIG j vision img)])).
  { unfold s1, Async.step. by rewrite Hj. }
  destruct (advance_to_end (Async.task_of_job CONFIG j vision img)
              (Async.handler_of_job j) now s1 (length (Async.running s)))
    as (n & res & E).
  { rewrite Hs1. cbn. by rewrite lookup_app_r, Nat.sub_diag by lia. }
  exists (Async.Start i vision img
          :: repeat (Async.Advance (length (Async.running s)) now) n).
  change (Async.steps CONFIG isValidProvider (Async.Start i vision img :: ?l) s)
    with (Async.steps CONFIG isValidProvider l s1).
  rewrite E. cbn [Async.store]. by rewrite Hs1.
Qed.

Lemma snd_runMutation {A} (m : Mutation A) w : snd (runMutation m w) = commit m w.
Proof. unfold runMutation, commit. by destruct (m w) as [e|[a w']]. Qed.

(** Every step of the serial system is a run of the system in which the
    handler called, or the job started, advances to its end at once. *)
Lemma serial_step c s :
  exists sts,
    Async.store (Async.steps CONFIG isValidProvider sts s)
    = exec CONFIG isValidProvider c (Async.store s).
Proof.
  destruct c as [now dev|a sid url|now a p|a p|d p|now a|now a|i now vision img];
    cbn [exec].
  - destruct (invoke_to_end (Async.CreateMenuScan dev) now s) as (sts & E). exists sts.
    rewrite E. cbn [Async.task_of_request].
    by rewrite run_task_forget, run_task_runMutation, snd_runMutation.
  - destruct (invoke_to_end (Async.StoreMenuImage a sid url) 0 s) as (sts & E). exists sts.
    rewrite E. cbn [Async.task_of_request].
    by rewrite run_task_forget, run_task_runMutation, snd_runMutation.
  - destruct (invoke_to_end (Async.StartProcessingScan a p) now s) as (sts & E). exists sts.
    rewrite E. cbn [Async.task_of_request].
    by rewrite run_task_forget, run_startProcessingScan.
  - destruct (invoke_to_end (Async.GenerateRemainingImages a p) 0 s) as (sts & E). exists sts.
    rewrite E. cbn [Async.task_of_request].
    by rewrite run_task_forget, run_generateRemainingImages.
  - destruct (invoke_to_end (Async.GenerateSingleDishImage d p) 0 s) as (sts & E). exists sts.
    rewrite E. cbn [Async.task_of_request].
    by rewrite run_task_forget, run_generateSingleDishImage.
  - destruct (invoke_to_end (Async.StopImageGeneration a) now s) as (sts & E). exists sts.
    rewrite E. cbn [Async.task_of_request].
    by rewrite run_task_forget, run_task_runMutation, snd_runMutation.
  - destruct (invoke_to_end (Async.ForceCompleteScan a) now s) as (sts & E). exists sts.
    rewrite E. cbn [Async.task_of_request].
    by rewrite run_task_forget, run_task_runMutation, snd_runMutation.
  - destruct (scheduled (Async.store s) !! i) as [j|] eqn:Hj; [|by exists []].
    destruct (start_to_end i j (raw_of_reply vision) img now s Hj) as (sts & E). exists sts.
    rewrite E. destruct j as [a p|d a p]; cbn [Async.task_of_job run_job]; unfold run.
    + by rewrite run_processScanPipeline.
    + by rewrite run_generateDishImage.
Qed.

(** The stores of the serial system, whose steps are whole handlers and
    whose client follows the protocol, are stores of the system. *)
Lemma serial_reachable w :
  reachable CONFIG isValidProvider w ->
  exists s, Async.reachable CONFIG isValidProvider s /\ Async.store s = w.
Proof.
  induction 1 as [w Hinit|w c _ (s & Hs & <-) _].
  - exists (Async.Build_System w []). split; [by apply Async.reachable_initial|done].
  - destruct (serial_step c s) as (sts & E).
    exists (Async.steps CONFIG isValidProvider sts s). split; [by apply reachable_steps|done].
Qed.

(** ** Invariants of the system

    A property of the stores that holds of the initial stores, that the
    scheduler keeps when it takes a job from its queue and that every
    transaction of every handler keeps, holds of every store of the system:
    each running handler is safe for it whatever commits in between. *)
Section Safety.
Variable I : World -> Prop.
Variable G : Handler -> World -> World -> Prop.
Hypothesis I_initial : forall w, initial w -> I w.
Hypothesis G_I : forall h w w', I w -> G h w w' -> I w'.
Hypothesis I_dequeue : forall w i, I w -> I (set_scheduled (delete i (scheduled w)) w).
Hypothesis request_safe : forall r,
  safe I (G (Async.handler_of_request r)) (fun _ => True)
    (Async.task_of_request CONFIG isValidProvider r).
Hypothesis job_safe : forall w j vision img,
  I w -> j ∈ scheduled w ->
  safe I (G (Async.handler_of_job j)) (fun _ => True) (Async.task_of_job CONFIG j vision img).

Lemma reachable_safe s :
  Async.reachable CONFIG isValidProvider s ->
  I (Async.store s)
  /\ Forall (fun r => safe I (G (Async.handler r)) (fun _ => True) (Async.task r))
       (Async.running s).
Proof.
  induction 1 as [s Hinit Hrun|s st _ [HI Hsafe]].
  - split; [by apply I_initial|]. rewrite Hrun. constructor.
  - destruct st as [r|i vision img|k now]; cbn [Async.step].
    + split; [exact HI|]. cbn. apply Forall_app. split; [exact Hsafe|].
      constructor; [apply request_safe|constructor].
    + destruct (scheduled (Async.store s) !! i) as [j|] eqn:Hj; [|by split].
      split; [by apply I_dequeue|]. cbn. apply Forall_app. split; [exact Hsafe|].
      constructor; [|constructor]. cbn.
      apply (job_safe (Async.store s)); [exact HI|]. eapply list_elem_of_lookup_2, Hj.
    + destruct (Async.running s !! k) as [[h t]|] eqn:Hk; [|by split].
      destruct t as [r|commits next]; [by split|].
      pose proof (proj1 (Forall_lookup _ _) Hsafe _ _ Hk) as Ht. cbn in Ht.
      inversion Ht as [|c n Hc Hn]; subst. cbn. split.
      * eapply G_I; [exact HI|]. apply Hc, HI.
      * apply Forall_insert; [exact Hsafe|]. cbn. apply Hn, HI.
Qed.

(** The transaction that a step commits is one of its handler. *)
Lemma step_guarantee s st :
  Async.reachable CONFIG isValidProvider s ->
  match Async.actor st s with
  | Some h => G h (Async.store s) (Async.store (Async.step CONFIG isValidProvider st s))
  | None =>
      Async.store (Async.step CONFIG isValidProvider st s) = Async.store s
      \/ exists i,
           Async.store (Async.step CONFIG isValidProvider st s)
           = set_scheduled (delete i (scheduled (Async.store s))) (Async.store s)
  end.
Proof.
  intros Hs. destruct (reachable_safe s Hs) as [HI Hsafe].
  destruct st as [r|i vision img|k now]; cbn [Async.actor Async.step].
  - by left.
  - destruct (scheduled (Async.store s) !! i) as [j|]; [right; by exists i|by left].
  - destruct (Async.running s !! k) as [[h t]|] eqn:Hk; [|by left].
    destruct t as [r|commits next]; [by left|].
    pose proof (proj1 (Forall_lookup _ _) Hsafe _ _ Hk) as Ht. cbn in Ht.
    inversion Ht as [|c n Hc Hn]; subst. cbn. apply Hc, HI.
Qed.

End Safety.

End AsyncSystem.

(** ** Rules for the handlers

    A handler is safe when each of its transactions is: the rules follow
    the structure of the handlers. *)

Section SafeRules.
Variable I : World -> Prop.
Variable G : World -> World -> Prop.
Hypothesis G_refl : forall w, I w -> G w w.

Lemma safe_weaken {A} (Q Q' : Thrown + A -> Prop) (t : Task A) :
  (forall r, Q r -> Q' r) -> safe I G Q t -> safe I G Q' t.
Proof.
  intros HQ. induction 1 as [r Hr|commits next Hc _ IH]; constructor; auto.
Qed.

Lemma safe_ret {A} (Q : Thrown + A -> Prop) a : Q (inr a) -> safe I G Q (task_ret a).
Proof. by constructor. Qed.

Lemma safe_throw {A} (Q : Thrown + A -> Prop) e : Q (inl e) -> safe I G Q (task_throw e).
Proof. by constructor. Qed.

Lemma safe_bind {A B} (Q : Thrown + A -> Prop) (Q' : Thrown + B -> Prop)
    (t : Task A) (k : A -> Task B) :
  safe I G Q t ->
  (forall e, Q (inl e) -> Q' (inl e)) ->
  (forall a, Q (inr a) -> safe I G Q' (k a)) ->
  safe I G Q' (task_bind t k).
Proof.
  intros Ht He Hk. induction Ht as [[e|a] Hr|commits next Hc _ IH]; cbn [task_bind].
  - constructor. by apply He.
  - by apply Hk.
  - constructor; auto.
Qed.

Lemma safe_try_catch {A} (Q Q' : Thrown + A -> Prop) (t : Task A) (h : Thrown -> Task A) :
  safe I G Q t ->
  (forall a, Q (inr a) -> Q' (inr a)) ->
  (forall e, Q (inl e) -> safe I G Q' (h e)) ->
  safe I G Q' (task_try_catch t h).
Proof.
  intros Ht Ha Hh. induction Ht as [[e|a] Hr|commits next Hc _ IH]; cbn [task_try_catch].
  - by apply Hh.
  - constructor. by apply Ha.
  - constructor; auto.
Qed.

Lemma safe_runMutation {A} (Q : Thrown + A -> Prop) (m : Z -> Mutation A) :
  (forall now w, I w -> G w (commit (m now) w)) ->
  (forall now w, I w -> Q (match m now w with
                           | inl e => inl e
                           | inr (a, _) => inr a
                           end)) ->
  safe I G Q (task_runMutation m).
Proof. intros Hc Hq. constructor; [exact Hc|]. intros now w Hw. constructor. by apply Hq. Qed.

Lemma safe_runQuery {A} (Q : Thrown + A -> Prop) (q : World -> A) :
  (forall w, I w -> Q (inr (q w))) -> safe I G Q (task_runQuery q).
Proof.
  intros Hq. constructor; [intros _ w Hw; by apply G_refl|].
  intros _ w Hw. constructor. by apply Hq.
Qed.

Lemma safe_schedule (Q : Thrown + unit -> Prop) j :
  (forall w, I w -> G w (set_scheduled (scheduled w ++ [j]) w)) ->
  Q (inr tt) -> safe I G Q (task_schedule j).
Proof. intros Hc Hq. constructor; [intros _; exact Hc|]. intros _ w _. by constructor. Qed.

Lemma safe_log (Q : Thrown + unit -> Prop) e :
  (forall w, I w -> G w (with_trace [e] w)) ->
  Q (inr tt) -> safe I G Q (task_log e).
Proof. intros Hc Hq. constructor; [intros _; exact Hc|]. intros _ w _. by constructor. Qed.

Lemma safe_forEach {A S} (body : A -> S -> Task S) l s :
  (forall x s, safe I G (fun _ => True) (body x s)) ->
  safe I G (fun _ => True) (task_forEach body l s).
Proof.
  intros Hb. revert s. induction l as [|x l IH]; intros s; cbn [task_forEach].
  - by constructor.
  - eapply safe_bind; [apply Hb|done|intros s' _; apply IH].
Qed.

Lemma safe_forget {A} (t : Task A) :
  safe I G (fun _ => True) t -> safe I G (fun _ => True) (Async.forget t).
Proof. intros Ht. eapply safe_bind; [exact Ht|done|intros a _; by constructor]. Qed.

End SafeRules.

(** * The status writes of the handlers *)

Lemma appends_refl allowed w : appends allowed w w.
Proof. exists []. split; [by rewrite app_nil_r|constructor]. Qed.

Lemma appends_trans allowed w1 w2 w3 :
  appends allowed w1 w2 -> appends allowed w2 w3 -> appends allowed w1 w3.
Proof.
  intros (evs1 & E1 & H1) (evs2 & E2 & H2). exists (evs1 ++ evs2).
  split; [by rewrite E2, E1, app_assoc|by apply Forall_app].
Qed.

Lemma appends_quiet allowed w w' : trace w' = trace w -> appends allowed w w'.
Proof. intros E. exists []. split; [by rewrite app_nil_r|constructor]. Qed.

Lemma appends_commit_quiet allowed {A} (m : Mutation A) w :
  mframe (fun w w' => trace w' = trace w) m -> appends allowed w (commit m w).
Proof.
  intros Hm. apply appends_quiet. unfold commit.
  destruct (m w) as [e|[a w']] eqn:E; [done|]. eapply Hm, E.
Qed.

(** ** The mutations that write no status *)

Ltac quiet_tac :=
  repeat first
    [ apply mframe_mret; [done]
    | apply mframe_mthrow
    | apply mframe_mread; [done]
    | apply mframe_mbind; [intros ? ? ? ? ?; congruence| |intros ?]
    | apply mframe_mforEach; [done|intros ? ? ? ? ?; congruence|intros ? ?]
    | match goal with
      | |- mframe _ (match ?x with _ => _ end) => destruct x
      | |- mframe _ (if ?x then _ else _) => destruct x
      end ].

Lemma patch_user_trace id f : mframe (fun w w' => trace w' = trace w) (patch_user id f).
Proof. intros w a w' H. unfold patch_user in H. by inversion H. Qed.

Lemma delete_dish_trace id : mframe (fun w w' => trace w' = trace w) (delete_dish id).
Proof.
  intros w a w' H. unfold delete_dish in H. destruct (get_dish w id); [|done]. by inversion H.
Qed.

Lemma delete_scan_trace id : mframe (fun w w' => trace w' = trace w) (delete_scan id).
Proof.
  intros w a w' H. unfold delete_scan in H. destruct (menuScans w !! id); [|done].
  by inversion H.
Qed.

Lemma delete_blob_trace storage_delete storageId blobs :
  mframe (fun w w' => trace w' = trace w) (delete_blob storage_delete storageId blobs).
Proof.
  unfold delete_blob, mlift. destruct storageId as [b|]; [|quiet_tac].
  destruct (storage_delete b); quiet_tac.
Qed.

Lemma deleteScan_trace storage_delete scanId :
  mframe (fun w w' => trace w' = trace w) (deleteScan storage_delete scanId).
Proof.
  unfold deleteScan.
  quiet_tac; first [apply delete_blob_trace | apply delete_dish_trace
                   | apply delete_scan_trace | apply patch_user_trace].
Qed.

Lemma ensureDeviceUser_trace now deviceId :
  mframe (fun w w' => trace w' = trace w) (ensureDeviceUser now deviceId).
Proof.
  unfold ensureDeviceUser. quiet_tac; [apply patch_user_trace|].
  intros w a w' H. by inversion H.
Qed.

Lemma createMenuScan_trace CONFIG now deviceId :
  mframe (fun w w' => trace w' = trace w) (createMenuScan CONFIG now deviceId).
Proof.
  intros w a w' H. unfold createMenuScan in H.
  destruct (List.find _ (deviceUsers w)); [|done]. by inversion H.
Qed.

Lemma updateMenuName_trace scanId trimmed :
  mframe (fun w w' => trace w' = trace w) (updateMenuName scanId trimmed).
Proof.
  intros w a w' H. unfold updateMenuName in H.
  destruct (get_scan w scanId); [|done]. by inversion H.
Qed.

Lemma createDish_trace now args :
  mframe (fun w w' => trace w' = trace w) (createDish now args).
Proof.
  intros w a w' H. unfold createDish in H.
  destruct (createDish_status_ok _); [|done]. by inversion H.
Qed.

Lemma updateScanProgress_trace scanId args :
  mframe (fun w w' => trace w' = trace w) (updateScanProgress scanId args).
Proof.
  intros w a w' H.
  destruct (menuScans w !! scanId) as [s|] eqn:Hs.
  - destruct (updateScanProgress_spec scanId args w s Hs) as (s' & E & _).
    rewrite E in H. by inversion H.
  - unfold updateScanProgress, get_scan in H. by rewrite Hs in H.
Qed.

Lemma validated_trace {X A} (args : option X) (m : X -> Mutation A) :
  (forall x, mframe (fun w w' => trace w' = trace w) (m x)) ->
  mframe (fun w w' => trace w' = trace w) (validated args m).
Proof. intros Hm. destruct args as [x|]; [apply Hm|apply mframe_mthrow]. Qed.

(** ** The mutations that write a status *)

Section StatusWrites.
Variable h : Handler.

Lemma updateDishImage_appends now dishId args w :
  appends (event_written_by (Some h)) w (commit (updateDishImage now dishId args) w).
Proof.
  destruct (get_dish w dishId) as [d|] eqn:Hd.
  - destruct (updateDishImage_spec now dishId args w d Hd) as (updates & E & _).
    unfold commit. rewrite E. eexists. split; [reflexivity|]. by repeat constructor.
  - unfold commit, updateDishImage, patch_dish. rewrite Hd. apply appends_refl.
Qed.

Lemma updateScanStatus_appends now scanId st sm em w :
  (forall from, writes_status h from st) ->
  appends (event_written_by (Some h)) w (commit (updateScanStatus now scanId st sm em) w).
Proof.
  intros Hst. destruct (menuScans w !! scanId) as [s|] eqn:Hs.
  - destruct (updateScanStatus_spec now scanId st sm em w s Hs) as (s' & E & _).
    unfold commit. rewrite E. eexists. split; [reflexivity|].
    constructor; [apply Hst|constructor].
  - unfold commit, updateScanStatus, patch_scan. rewrite Hs. apply appends_refl.
Qed.

Lemma storeMenuImage_appends scanId storageId imageUrl w :
  (forall from, writes_status h from ScanStatus.uploading) ->
  appends (event_written_by (Some h)) w (commit (storeMenuImage scanId storageId imageUrl) w).
Proof.
  intros Hst. unfold commit, storeMenuImage, get_scan.
  destruct (menuScans w !! scanId) as [s|] eqn:Hs; [|apply appends_refl].
  unfold mbind, patch_scan, mret. rewrite Hs.
  eexists. split; [reflexivity|]. cbn. constructor; [|constructor].
  destruct s. apply Hst.
Qed.

Lemma stopImageGeneration_appends now scanId w :
  (forall from, writes_status h from ScanStatus.completed) ->
  appends (event_written_by (Some h)) w (commit (stopImageGeneration now scanId) w).
Proof.
  intros Hst. unfold commit. destruct (menuScans w !! scanId) as [s|] eqn:Hs.
  - destruct (stopImageGeneration_spec now scanId w s Hs) as (evs & E & Hevs).
    rewrite E. eexists. split; [reflexivity|]. apply Forall_app. split.
    + clear E. induction evs as [|e evs IH]; [constructor|].
      unfold scan_events in Hevs. cbn in Hevs. destruct e; cbn in Hevs; try discriminate.
      all: constructor; [exact I|by apply IH].
    + constructor; [apply Hst|constructor].
  - unfold stopImageGeneration, mbind, mread, get_scan. rewrite Hs. apply appends_refl.
Qed.

Lemma forceCompleteScan_appends now scanId w :
  (forall from, writes_status h from ScanStatus.completed) ->
  appends (event_written_by (Some h)) w (commit (forceCompleteScan now scanId) w).
Proof.
  intros Hst. unfold commit. destruct (menuScans w !! scanId) as [s|] eqn:Hs.
  - destruct (forceCompleteScan_spec now scanId w s Hs) as (evs & E & Hevs).
    rewrite E. eexists. split; [reflexivity|]. apply Forall_app. split.
    + clear E. induction evs as [|e evs IH]; [constructor|].
      unfold scan_events in Hevs. cbn in Hevs. destruct e; cbn in Hevs; try discriminate.
      all: constructor; [exact I|by apply IH].
    + constructor; [apply Hst|constructor].
  - unfold forceCompleteScan, mbind, mread, get_scan. rewrite Hs. apply appends_refl.
Qed.

Lemma queueRemainingImages_appends CONFIG scanId w :
  (forall from, writes_status h from ScanStatus.generating) ->
  appends (event_written_by (Some h)) w (commit (queueRemainingImages CONFIG scanId) w).
Proof.
  intros Hst. unfold commit. destruct (menuScans w !! scanId) as [s|] eqn:Hs.
  - destruct (queueRemainingImages_spec CONFIG scanId w s Hs) as [H0 Hne].
    set (toQueue := Z.min _ _) in *.
    destruct (decide (toQueue = 0)) as [Hz|Hz]; [rewrite (H0 Hz); apply appends_refl|].
    destruct (Hne Hz) as (evs & s' & E & Hevs & _). rewrite E.
    eexists. split; [reflexivity|]. apply Forall_app. split.
    + clear E. induction evs as [|e evs IH]; [constructor|].
      unfold scan_events in Hevs. cbn in Hevs. destruct e; cbn in Hevs; try discriminate.
      all: constructor; [exact I|by apply IH].
    + constructor; [apply Hst|constructor].
  - unfold queueRemainingImages, mbind, mread, get_scan. rewrite Hs. apply appends_refl.
Qed.

Lemma queueSingleDishImage_appends CONFIG dishId w :
  (forall from, writes_status h from
                  (if decide (from = ScanStatus.completed)
                   then ScanStatus.generating else from)) ->
  appends (event_written_by (Some h)) w (commit (queueSingleDishImage CONFIG dishId) w).
Proof.
  intros Hst. unfold commit.
  destruct (queueSingleDishImage_cases CONFIG dishId w _ eq_refl)
    as [(r & E & _)|[(e & E)|(dish & scan & s' & _ & _ & _ & _ & E & Hs' & _)]];
    rewrite E; try apply appends_refl.
  eexists. split; [reflexivity|]. constructor; [exact I|]. constructor; [|constructor].
  cbn. rewrite Hs'. apply Hst.
Qed.

End StatusWrites.

(** ** The handlers *)

Ltac status_tac :=
  repeat first
    [ apply safe_forget
    | apply safe_Finished; exact I
    | apply (safe_bind _ _ (fun _ => True)); [|done|intros ? _]
    | apply (safe_try_catch _ _ (fun _ => True)); [|done|intros ? _]
    | apply safe_forEach; intros ? ?
    | apply safe_runQuery; [intros; apply appends_refl|done]
    | apply safe_schedule; [intros; by apply appends_quiet|done]
    | apply safe_log; [intros; eexists; split; [reflexivity|by repeat constructor]|done]
    | apply safe_runMutation;
      [intros ? ? _;
       first [ apply updateDishImage_appends
             | apply updateScanStatus_appends; intros ?; cbn; tauto
             | apply appends_commit_quiet;
               first [ apply updateScanProgress_trace
                     | apply validated_trace; intros ?;
                       first [apply createDish_trace|apply updateScanProgress_trace] ] ]
      |done]
    | match goal with
      | |- safe _ _ _ (match ?x with _ => _ end) => destruct x
      | |- safe _ _ _ (if ?x then _ else _) => destruct x
      end ].

Section StatusSystem.
Variable CONFIG : Config.
Variable isValidProvider : string -> bool.

Lemma request_writes r :
  safe (fun _ => True) (appends (event_written_by (Some (Async.handler_of_request r))))
    (fun _ => True) (Async.task_of_request CONFIG isValidProvider r).
Proof.
  destruct r; cbn [Async.task_of_request Async.handler_of_request]; apply safe_forget.
  - apply safe_runMutation; [intros now w _|done].
    apply appends_commit_quiet, ensureDeviceUser_trace.
  - apply safe_runMutation; [intros now w _|done].
    apply appends_commit_quiet, createMenuScan_trace.
  - apply safe_runMutation; [intros now w _|done].
    apply storeMenuImage_appends. intros from. reflexivity.
  - apply safe_runMutation; [intros now w _|done].
    apply appends_commit_quiet, updateMenuName_trace.
  - apply safe_runMutation; [intros now w _|done].
    apply appends_commit_quiet, deleteScan_trace.
  - apply safe_runMutation; [intros now w _|done].
    apply stopImageGeneration_appends. intros from. reflexivity.
  - apply safe_runMutation; [intros now w _|done].
    apply forceCompleteScan_appends. intros from. reflexivity.
  - unfold Async.startProcessingScan. status_tac.
  - unfold Async.generateRemainingImages.
    apply (safe_bind _ _ (fun _ => True)); [|done|intros ? _; status_tac].
    apply safe_runMutation; [intros now w _|done].
    apply queueRemainingImages_appends. intros from. reflexivity.
  - unfold Async.generateSingleDishImage.
    apply (safe_bind _ _ (fun _ => True)); [|done|intros ? _; status_tac].
    apply safe_runMutation; [intros now w _|done].
    apply queueSingleDishImage_appends. intros from. cbn.
    destruct (decide (from = ScanStatus.completed)); [by left|by right].
Qed.

Lemma job_writes j vision img :
  safe (fun _ => True) (appends (event_written_by (Some (Async.handler_of_job j))))
    (fun _ => True) (Async.task_of_job CONFIG j vision img).
Proof.
  destruct j as [scanId imageProvider|dishId scanId provider];
    cbn [Async.task_of_job Async.handler_of_job].
  - unfold Async.processScanPipeline, Async.create_item. status_tac.
  - unfold Async.generateDishImage, Async.count_job. status_tac.
Qed.

End StatusSystem.

Lemma safe_under {A} (I I' : World -> Prop) G (Q : Thrown + A -> Prop) (t : Task A) :
  (forall w, I' w -> I w) -> safe I G Q t -> safe I' G Q t.
Proof.
  intros HI. induction 1 as [r Hr|commits next Hc _ IH]; constructor; auto.
Qed.

(** C2, as the code has it.  No handler compares the status it finds with
    a graph.  In every run of the system (the application calling at any
    time, the handlers interleaved transaction by transaction), a step
    appends to the trace only status writes of the handler it belongs to:
    storeMenuImage writes uploading, startProcessingScan processing, the
    pipeline processing, extracting, generating, completed and failed, an
    image job completed, generateRemainingImages generating,
    stopImageGeneration and forceCompleteScan completed, each over whatever
    status the scan has; generateSingleDishImage writes generating over
    completed and otherwise the status it found; the other handlers write
    no status.  Hence every status write of the trace is one of these. *)
Theorem status_writes_by_operation CONFIG isValidProvider s st :
  Async.reachable CONFIG isValidProvider s ->
  appends (event_written_by (Async.actor st s)) (Async.store s)
    (Async.store (Async.step CONFIG isValidProvider st s))
  /\ forall scanId from to,
       EvScanStatus scanId from to ∈ trace (Async.store s) ->
       exists h, writes_status h from to.
Proof.
  intros Hs.
  pose (Inv := fun w : World =>
                 forall scanId from to,
                   EvScanStatus scanId from to ∈ trace w -> exists h, writes_status h from to).
  pose (G := fun h : Handler => appends (event_written_by (Some h))).
  assert (HG : forall h w w', Inv w -> G h w w' -> Inv w').
  { intros h w w' Hw (evs & E & Hevs) scanId from to Hin. rewrite E in Hin.
    apply elem_of_app in Hin as [Hin|Hin]; [by eapply Hw|].
    exists h. exact (proj1 (Forall_forall _ _) Hevs _ Hin). }
  assert (Hinit : forall w, initial w -> Inv w).
  { intros w (_ & _ & _ & Ht) scanId from to Hin. rewrite Ht in Hin.
    by apply elem_of_nil in Hin. }
  assert (Hdeq : forall w i, Inv w -> Inv (set_scheduled (delete i (scheduled w)) w)).
  { intros w i Hw. exact Hw. }
  assert (Hreq : forall r,
             safe Inv (G (Async.handler_of_request r)) (fun _ => True)
               (Async.task_of_request CONFIG isValidProvider r)).
  { intros r. eapply safe_under; [|apply request_writes]. done. }
  assert (Hjob : forall w j vision img,
             Inv w -> j ∈ scheduled w ->
             safe Inv (G (Async.handler_of_job j)) (fun _ => True)
               (Async.task_of_job CONFIG j vision img)).
  { intros w j vision img _ _. eapply safe_under; [|apply (job_writes CONFIG isValidProvider)]. done. }
  split.
  - pose proof (step_guarantee CONFIG isValidProvider Inv G Hinit HG Hdeq Hreq Hjob s st Hs)
      as Hstep.
    destruct (Async.actor st s) as [h|]; [exact Hstep|].
    apply appends_quiet. destruct Hstep as [->|(i & ->)]; reflexivity.
  - exact (proj1 (reachable_safe CONFIG isValidProvider Inv G Hinit HG Hdeq Hreq Hjob s Hs)).
Qed.

(** ** The example runs *)

Lemma ex_idle_reachable : Async.reachable ex_CONFIG ex_isValidProvider ex_idle.
Proof. apply Async.reachable_initial; [repeat split|reflexivity]. Qed.

Lemma ex_steps_reachable sts :
  Async.reachable ex_CONFIG ex_isValidProvider (ex_steps sts ex_idle).
Proof. apply reachable_steps, ex_idle_reachable. Qed.

Lemma ex_async_processing_reachable :
  Async.reachable ex_CONFIG ex_isValidProvider ex_async_processing.
Proof. apply ex_steps_reachable. Qed.

Lemma ex_async_generating_reachable :
  Async.reachable ex_CONFIG ex_isValidProvider ex_async_generating.
Proof. apply reachable_steps, ex_async_processing_reachable. Qed.

Lemma ex_async_stopping_reachable :
  Async.reachable ex_CONFIG ex_isValidProvider ex_async_stopping.
Proof. apply reachable_steps, ex_async_generating_reachable. Qed.

Lemma ex_async_stopped_reachable :
  Async.reachable ex_CONFIG ex_isValidProvider ex_async_stopped.
Proof. apply reachable_steps, ex_async_stopping_reachable. Qed.

Lemma ex_async_generating_store : Async.store ex_async_generating = ex_generating.
Proof. vm_compute. reflexivity. Qed.

Lemma status_writes_by_operation_witness :
  appends (event_written_by (Async.actor (Async.Advance 4 103) ex_async_stopping))
    (Async.store ex_async_stopping)
    (Async.store (Async.step ex_CONFIG ex_isValidProvider (Async.Advance 4 103)
                    ex_async_stopping))
  /\ forall scanId from to,
       EvScanStatus scanId from to ∈ trace (Async.store ex_async_stopping) ->
       exists h, writes_status h from to.
Proof.
  apply (status_writes_by_operation ex_CONFIG ex_isValidProvider ex_async_stopping
           (Async.Advance 4 103)).
  exact ex_async_stopping_reachable.
Defined.

(** C2, as stated, fails.  Tapping a skipped dish of a completed scan sets
    the scan back to generating: completed is not terminal.  And a handler
    writes its status over whatever it finds: when generation is stopped
    while the pipeline runs, the pipeline goes from completed to
    extracting. *)
Lemma status_graph_not_followed :
  EvScanStatus 1 ScanStatus.completed ScanStatus.generating
    ∈ trace (Async.store ex_async_tapped)
  /\ EvScanStatus 1 ScanStatus.completed ScanStatus.extracting
       ∈ trace (Async.store ex_async_midstop)
  /\ ~ (forall s scanId from to,
          Async.reachable ex_CONFIG ex_isValidProvider s ->
          EvScanStatus scanId from to ∈ trace (Async.store s) ->
          spec_status_edge from to).
Proof.
  assert (H1 : EvScanStatus 1 ScanStatus.completed ScanStatus.generating
                 ∈ trace (Async.store ex_async_tapped))
    by (apply (bool_decide_unpack _); vm_compute; reflexivity).
  split; [exact H1|]. split; [apply (bool_decide_unpack _); vm_compute; reflexivity|].
  intros H.
  assert (Hr : Async.reachable ex_CONFIG ex_isValidProvider ex_async_tapped)
    by apply reachable_steps, ex_async_stopped_reachable.
  specialize (H _ _ _ _ Hr H1). unfold spec_status_edge in H.
  destruct H as [[? _]|[[? _]|[[? _]|[[? _]|[[? _]|(? & _)]]]]]; congruence.
Qed.

(** * The image counters *)

Lemma in_range_commit_same CONFIG {A} (m : Mutation A) w :
  mframe (fun w w' => menuScans w' = menuScans w) m ->
  scans_in_range CONFIG w -> scans_in_range CONFIG (commit m w).
Proof.
  intros Hm Hw. unfold commit. destruct (m w) as [e|[a w']] eqn:E; [exact Hw|].
  intros id s Hs. rewrite (Hm _ _ _ E) in Hs. by eapply Hw.
Qed.

Lemma in_range_insert CONFIG w w' id s' :
  scans_in_range CONFIG w ->
  counters_in_range CONFIG s' ->
  menuScans w' = <[id := s']> (menuScans w) ->
  scans_in_range CONFIG w'.
Proof.
  intros Hw Hs' E id0 s Hs. rewrite E in Hs. destruct (decide (id0 = id)) as [->|Hne].
  - rewrite lookup_insert_eq in Hs. by injection Hs as <-.
  - rewrite lookup_insert_ne in Hs by congruence. by eapply Hw.
Qed.

(** ** The mutations that leave the scans alone *)

Ltac same_scans_tac :=
  repeat first
    [ apply mframe_mret; [done]
    | apply mframe_mthrow
    | apply mframe_mread; [done]
    | apply mframe_mbind; [intros ? ? ? ? ?; congruence| |intros ?]
    | apply mframe_mforEach; [done|intros ? ? ? ? ?; congruence|intros ? ?]
    | match goal with
      | |- mframe _ (match ?x with _ => _ end) => destruct x
      | |- mframe _ (if ?x then _ else _) => destruct x
      end ].

Lemma patch_user_scans id f : mframe (fun w w' => menuScans w' = menuScans w) (patch_user id f).
Proof. intros w a w' H. unfold patch_user in H. by inversion H. Qed.

Lemma ensureDeviceUser_scans now deviceId :
  mframe (fun w w' => menuScans w' = menuScans w) (ensureDeviceUser now deviceId).
Proof.
  unfold ensureDeviceUser. same_scans_tac; [apply patch_user_scans|].
  intros w a w' H. by inversion H.
Qed.

Lemma createDish_scans now args :
  mframe (fun w w' => menuScans w' = menuScans w) (createDish now args).
Proof.
  intros w a w' H. unfold createDish in H.
  destruct (createDish_status_ok _); [|done]. by inversion H.
Qed.

Lemma updateDishImage_scans now dishId args :
  mframe (fun w w' => menuScans w' = menuScans w) (updateDishImage now dishId args).
Proof.
  intros w a w' H. unfold updateDishImage, patch_dish in H.
  destruct (get_dish w dishId); [|done]. by inversion H.
Qed.

Lemma validated_scans {X A} (args : option X) (m : X -> Mutation A) :
  (forall x, mframe (fun w w' => menuScans w' = menuScans w) (m x)) ->
  mframe (fun w w' => menuScans w' = menuScans w) (validated args m).
Proof. intros Hm. destruct args as [x|]; [apply Hm|apply mframe_mthrow]. Qed.

(** ** The mutations that write on a scan *)

Section CounterWrites.
Variable CONFIG : Config.
Hypothesis Hcfg : 0 <= AUTO_IMAGE_LIMIT CONFIG <= MAX_IMAGES_PER_SCAN CONFIG.

Lemma createMenuScan_in_range now deviceId w :
  scans_in_range CONFIG w -> scans_in_range CONFIG (commit (createMenuScan CONFIG now deviceId) w).
Proof.
  intros Hw. unfold commit, createMenuScan.
  destruct (List.find _ (deviceUsers w)); [|exact Hw].
  eapply (in_range_insert CONFIG w); [exact Hw| |reflexivity].
  unfold counters_in_range, new_scan. cbn. lia.
Qed.

Lemma storeMenuImage_in_range scanId storageId imageUrl w :
  scans_in_range CONFIG w ->
  scans_in_range CONFIG (commit (storeMenuImage scanId storageId imageUrl) w).
Proof.
  intros Hw. unfold commit, storeMenuImage, get_scan.
  destruct (menuScans w !! scanId) as [s|] eqn:Hs; [|exact Hw].
  unfold mbind, patch_scan, mret. rewrite Hs.
  eapply (in_range_insert CONFIG w); [exact Hw| |reflexivity].
  pose proof (Hw _ _ Hs) as Hr. destruct s. exact Hr.
Qed.

Lemma updateMenuName_in_range scanId trimmed w :
  scans_in_range CONFIG w -> scans_in_range CONFIG (commit (updateMenuName scanId trimmed) w).
Proof.
  intros Hw. unfold commit, updateMenuName, get_scan.
  destruct (menuScans w !! scanId) as [s|] eqn:Hs; [|exact Hw].
  eapply (in_range_insert CONFIG w); [exact Hw| |reflexivity]. exact (Hw _ _ Hs).
Qed.

Lemma deleteScan_in_range storage_delete scanId w :
  scans_in_range CONFIG w ->
  scans_in_range CONFIG (commit (deleteScan storage_delete scanId) w).
Proof.
  intros Hw. unfold commit.
  destruct (deleteScan storage_delete scanId w) as [e|[r w']] eqn:E; [exact Hw|].
  destruct (deleteScan_inr _ _ _ _ _ E) as (scan & _ & Hm & _).
  intros id s Hs. rewrite Hm in Hs. apply lookup_delete_Some in Hs as [_ Hs]. by eapply Hw.
Qed.

Lemma updateScanStatus_in_range now scanId st sm em w :
  scans_in_range CONFIG w ->
  scans_in_range CONFIG (commit (updateScanStatus now scanId st sm em) w).
Proof.
  intros Hw. unfold commit. destruct (menuScans w !! scanId) as [s|] eqn:Hs.
  - destruct (updateScanStatus_spec now scanId st sm em w s Hs) as (s' & E & _ & _ & _ & _ & Hc).
    rewrite E.
    eapply (in_range_insert CONFIG w); [exact Hw| |reflexivity].
    pose proof (Hw _ _ Hs) as Hr. unfold counters_in_range, counters in *.
    injection Hc as _ _ -> -> _ _. exact Hr.
  - unfold updateScanStatus, patch_scan. rewrite Hs. exact Hw.
Qed.

Lemma updateScanProgress_in_range scanId args w :
  (forall n, arg_imagesGenerated args = Some n -> 0 <= n) ->
  (forall n, arg_imagesRequested args = Some n -> 0 <= n <= MAX_IMAGES_PER_SCAN CONFIG) ->
  scans_in_range CONFIG w -> scans_in_range CONFIG (commit (updateScanProgress scanId args) w).
Proof.
  intros Hg Hr Hw. unfold commit. destruct (menuScans w !! scanId) as [s|] eqn:Hs.
  - destruct (updateScanProgress_spec scanId args w s Hs)
      as (s' & E & _ & _ & _ & _ & _ & _ & Hig & Hir & _).
    rewrite E.
    eapply (in_range_insert CONFIG w); [exact Hw| |reflexivity].
    pose proof (Hw _ _ Hs) as [H1 H2]. unfold counters_in_range. rewrite Hig, Hir.
    destruct (arg_imagesGenerated args) as [g|] eqn:Eg;
      destruct (arg_imagesRequested args) as [r|] eqn:Er;
      cbn [default]; unfold id; try specialize (Hg _ eq_refl); try specialize (Hr _ eq_refl); lia.
  - unfold updateScanProgress, get_scan. rewrite Hs. exact Hw.
Qed.

Lemma stopImageGeneration_in_range now scanId w :
  scans_in_range CONFIG w -> scans_in_range CONFIG (commit (stopImageGeneration now scanId) w).
Proof.
  intros Hw. unfold commit. destruct (menuScans w !! scanId) as [s|] eqn:Hs.
  - destruct (stopImageGeneration_spec now scanId w s Hs) as (evs & E & _).
    rewrite E.
    eapply (in_range_insert CONFIG w); [exact Hw| |reflexivity].
    pose proof (Hw _ _ Hs) as [_ H2].
    pose proof (count_status_nonneg ImageStatus.completed (dishes_by_scanId w scanId)).
    destruct s. split; [exact H|exact H2].
  - unfold stopImageGeneration, mbind, mread, get_scan. rewrite Hs. exact Hw.
Qed.

Lemma forceCompleteScan_in_range now scanId w :
  scans_in_range CONFIG w -> scans_in_range CONFIG (commit (forceCompleteScan now scanId) w).
Proof.
  intros Hw. unfold commit. destruct (menuScans w !! scanId) as [s|] eqn:Hs.
  - destruct (forceCompleteScan_spec now scanId w s Hs) as (evs & E & _).
    rewrite E.
    eapply (in_range_insert CONFIG w); [exact Hw| |reflexivity].
    pose proof (Hw _ _ Hs) as [_ H2].
    pose proof (count_status_nonneg ImageStatus.completed (dishes_by_scanId w scanId)).
    destruct s. split; [exact H|exact H2].
  - unfold forceCompleteScan, mbind, mread, get_scan. rewrite Hs. exact Hw.
Qed.

Lemma queueRemainingImages_in_range scanId w :
  scans_in_range CONFIG w ->
  scans_in_range CONFIG (commit (queueRemainingImages CONFIG scanId) w).
Proof.
  intros Hw. unfold commit. destruct (menuScans w !! scanId) as [s|] eqn:Hs.
  - destruct (queueRemainingImages_spec CONFIG scanId w s Hs) as [H0 Hne].
    set (pendingDishes := List.filter _ _) in *. set (toQueue := Z.min _ _) in *.
    destruct (decide (toQueue = 0)) as [Hz|Hz]; [by rewrite (H0 Hz)|].
    destruct (Hne Hz) as (evs & s' & E & _ & _ & Hir & Hig & _). rewrite E.
    eapply (in_range_insert CONFIG w); [exact Hw| |reflexivity].
    pose proof (Hw _ _ Hs) as [H1 H2]. unfold counters_in_range. rewrite Hir, Hig.
    rewrite length_take. subst toQueue. lia.
  - unfold queueRemainingImages, mbind, mread, get_scan. rewrite Hs. exact Hw.
Qed.

Lemma queueSingleDishImage_in_range dishId w :
  scans_in_range CONFIG w ->
  scans_in_range CONFIG (commit (queueSingleDishImage CONFIG dishId) w).
Proof.
  intros Hw. unfold commit.
  destruct (queueSingleDishImage_cases CONFIG dishId w _ eq_refl)
    as [(r & E & _)|[(e & E)|(dish & scan & s' & _ & Hs & _ & Hlt & E & _ & Hir & Hig & _)]];
    rewrite E; try exact Hw.
  eapply (in_range_insert CONFIG w); [exact Hw| |reflexivity].
  pose proof (Hw _ _ Hs) as [H1 H2]. unfold counters_in_range. rewrite Hir, Hig. lia.
Qed.

Lemma count_dishes_nonneg sections itemsFallback :
  0 <= Async.count_dishes sections itemsFallback.
Proof.
  unfold Async.count_dishes.
  assert (H : forall z, 0 <= z ->
            0 <= fold_left (fun total section => total + Z.of_nat (length (raw_items section)))
                   sections z).
  { induction sections as [|x l IH]; intros z Hz; cbn [fold_left]; [exact Hz|].
    apply IH. lia. }
  specialize (H 0 ltac:(lia)). destruct itemsFallback; lia.
Qed.

(** ** The handlers *)

Ltac counters_tac :=
  repeat first
    [ apply safe_forget
    | apply safe_Finished; exact I
    | apply (safe_bind _ _ (fun _ => True)); [|done|intros ? _]
    | apply (safe_try_catch _ _ (fun _ => True)); [|done|intros ? _]
    | apply safe_forEach; intros ? ?
    | apply safe_runQuery; [done|done]
    | apply safe_schedule; [intros ? H; exact H|done]
    | apply safe_log; [intros ? H; exact H|done]
    | apply safe_runMutation;
      [intros ? ? ?;
       try first [ by apply updateScanStatus_in_range
                 | by apply in_range_commit_same; [apply updateDishImage_scans|]
                 | by apply in_range_commit_same;
                   [apply validated_scans; intros ?; apply createDish_scans|] ]
      |done]
    | match goal with
      | |- safe _ _ _ (match ?x with _ => _ end) => destruct x
      | |- safe _ _ _ (if ?x then _ else _) => destruct x
      end ].

Lemma count_job_in_range scanId cost msg :
  safe (scans_in_range CONFIG) (fun _ w' => scans_in_range CONFIG w') (fun _ => True)
    (Async.count_job scanId cost msg).
Proof.
  unfold Async.count_job.
  apply (safe_bind _ _
           (fun r => forall sp, r = inr (Some sp) ->
                                0 <= MenuScan.imagesGenerated (sp_scan sp))).
  - apply safe_runQuery; [done|]. intros w Hw sp Hsp. injection Hsp as Hsp.
    unfold getScan, get_scan in Hsp.
    destruct (menuScans w !! scanId) as [s|] eqn:Hs; [|done].
    injection Hsp as <-. cbn. apply (Hw _ _ Hs).
  - done.
  - intros [[scan p]|] Hq; [|by constructor]. specialize (Hq _ eq_refl). cbn in Hq.
    apply (safe_bind _ _ (fun _ => True)); [|done|intros ? _; counters_tac].
    apply safe_runMutation; [intros now w Hw|done].
    apply updateScanProgress_in_range; [|done|exact Hw].
    cbn. intros n Hn. injection Hn as <-. lia.
Qed.

Lemma job_in_range j vision img :
  safe (scans_in_range CONFIG) (fun _ w' => scans_in_range CONFIG w') (fun _ => True)
    (Async.task_of_job CONFIG j vision img).
Proof.
  destruct j as [scanId imageProvider|dishId scanId provider]; cbn [Async.task_of_job].
  - unfold Async.processScanPipeline, Async.create_item. counters_tac.
    + match goal with
      | |- context [validated ?o _] => destruct o as [rn|]; [|assumption]
      end.
      cbn [validated]. by apply updateScanProgress_in_range.
    + apply updateScanProgress_in_range; [done| |assumption].
      cbn. intros n Hn. injection Hn as <-.
      match goal with
      | |- context [Async.count_dishes ?a ?b] => pose proof (count_dishes_nonneg a b)
      end.
      lia.
  - unfold Async.generateDishImage.
    apply (safe_try_catch _ _ (fun _ => True)); [|done|intros ? _].
    + apply (safe_bind _ _ (fun _ => True)); [counters_tac|done|intros ds _].
      destruct (List.find _ ds); [|counters_tac].
      repeat (apply (safe_bind _ _ (fun _ => True));
              [solve [counters_tac]|done|intros ? _]).
      match goal with
      | |- safe _ _ _ (let '(_, _) := ?x in _) => destruct x
      end.
      apply (safe_bind _ _ (fun _ => True)); [counters_tac|done|intros ? _].
      apply count_job_in_range.
    + apply (safe_bind _ _ (fun _ => True)); [counters_tac|done|intros ? _].
      apply count_job_in_range.
Qed.

Lemma request_in_range isValidProvider r :
  safe (scans_in_range CONFIG) (fun _ w' => scans_in_range CONFIG w') (fun _ => True)
    (Async.task_of_request CONFIG isValidProvider r).
Proof.
  destruct r; cbn [Async.task_of_request]; apply safe_forget.
  - apply safe_runMutation; [intros now w Hw|done].
    by apply in_range_commit_same; [apply ensureDeviceUser_scans|].
  - apply safe_runMutation; [intros now w Hw|done]. by apply createMenuScan_in_range.
  - apply safe_runMutation; [intros now w Hw|done]. by apply storeMenuImage_in_range.
  - apply safe_runMutation; [intros now w Hw|done]. by apply updateMenuName_in_range.
  - apply safe_runMutation; [intros now w Hw|done]. by apply deleteScan_in_range.
  - apply safe_runMutation; [intros now w Hw|done]. by apply stopImageGeneration_in_range.
  - apply safe_runMutation; [intros now w Hw|done]. by apply forceCompleteScan_in_range.
  - unfold Async.startProcessingScan. counters_tac.
  - unfold Async.generateRemainingImages.
    apply (safe_bind _ _ (fun _ => True)); [|done|intros ? _; counters_tac].
    apply safe_runMutation; [intros now w Hw|done]. by apply queueRemainingImages_in_range.
  - unfold Async.generateSingleDishImage.
    apply (safe_bind _ _ (fun _ => True)); [|done|intros ? _; counters_tac].
    apply safe_runMutation; [intros now w Hw|done]. by apply queueSingleDishImage_in_range.
Qed.

(** In every store of the system the image counters are in range. *)
Lemma reachable_in_range isValidProvider s :
  Async.reachable CONFIG isValidProvider s -> scans_in_range CONFIG (Async.store s).
Proof.
  intros Hs.
  refine (proj1 (reachable_safe CONFIG isValidProvider (scans_in_range CONFIG)
                   (fun _ _ w' => scans_in_range CONFIG w') _ _ _ _ _ s Hs)).
  - intros w (Hm & _) id sc Hsc. rewrite Hm in Hsc. by rewrite lookup_empty in Hsc.
  - intros h w w' _ Hw'. exact Hw'.
  - intros w i Hw. exact Hw.
  - apply request_in_range.
  - intros w j vision img _ _. apply job_in_range.
Qed.

End CounterWrites.
(** * The counters of a scan in the interleaved system *)

(** C1, as the code has it.  With
    0 <= AUTO_IMAGE_LIMIT <= MAX_IMAGES_PER_SCAN, in every state that the
    system reaches from an empty store by client calls and handler
    transactions, interleaved in any way, every scan has
    0 <= imagesGenerated and 0 <= imagesRequested <= MAX_IMAGES_PER_SCAN. *)
Theorem counters_invariant CONFIG isValidProvider s scanId scan :
  0 <= AUTO_IMAGE_LIMIT CONFIG <= MAX_IMAGES_PER_SCAN CONFIG ->
  Async.reachable CONFIG isValidProvider s ->
  menuScans (Async.store s) !! scanId = Some scan ->
  0 <= MenuScan.imagesGenerated scan
  /\ 0 <= MenuScan.imagesRequested scan <= MAX_IMAGES_PER_SCAN CONFIG.
Proof.
  intros Hcfg Hs Hscan.
  exact (reachable_in_range CONFIG Hcfg isValidProvider s Hs scanId scan Hscan).
Qed.

Lemma ex_async_requeued_reachable :
  Async.reachable ex_CONFIG ex_isValidProvider ex_async_requeued.
Proof. apply reachable_steps, ex_async_stopped_reachable. Qed.

Lemma ex_async_race_reachable :
  Async.reachable ex_CONFIG ex_isValidProvider ex_async_race.
Proof. apply reachable_steps, ex_async_generating_reachable. Qed.

(** The scan of the run in which a stop falls between an image job's write
    of its dish and its count. *)
Lemma counters_invariant_witness :
  let scan := default (new_scan ex_CONFIG 0 "")
                (menuScans (Async.store ex_async_race) !! 1%nat) in
  0 <= MenuScan.imagesGenerated scan
  /\ 0 <= MenuScan.imagesRequested scan <= MAX_IMAGES_PER_SCAN ex_CONFIG.
Proof.
  apply (counters_invariant ex_CONFIG ex_isValidProvider ex_async_race 1).
  - vm_compute. split; discriminate.
  - exact ex_async_race_reachable.
  - vm_compute. reflexivity.
Defined.

(** C1, as stated, fails, in two ways.  Dishes that were skipped are queued
    again and counted again: after a stop and generateRemainingImages the
    scan of three dishes has imagesRequested = 6.  And a job adds one to the
    imagesGenerated it read in an earlier transaction: when generation is
    stopped between the job's write of its dish and its count, the stop
    counts the three completed dishes and the job then writes 4, over
    imagesRequested = 3. *)
Lemma counters_bounds_fail :
  (exists scan, menuScans (Async.store ex_async_requeued) !! 1%nat = Some scan
                /\ MenuScan.imagesRequested scan = 6 /\ MenuScan.totalDishes scan = 3)
  /\ (exists scan, menuScans (Async.store ex_async_race) !! 1%nat = Some scan
                   /\ MenuScan.imagesGenerated scan = 4
                   /\ MenuScan.imagesRequested scan = 3)
  /\ ~ (forall s scanId scan,
          Async.reachable ex_CONFIG ex_isValidProvider s ->
          menuScans (Async.store s) !! scanId = Some scan ->
          spec_counters_bounded ex_CONFIG scan).
Proof.
  assert (H2 : exists scan, menuScans (Async.store ex_async_race) !! 1%nat = Some scan
                            /\ MenuScan.imagesGenerated scan = 4
                            /\ MenuScan.imagesRequested scan = 3).
  { eexists. split; [vm_compute; reflexivity|]. split; reflexivity. }
  split; [|split; [exact H2|]].
  - eexists. split; [vm_compute; reflexivity|]. split; reflexivity.
  - intros H. destruct H2 as (scan & Hscan & Hg & Hr).
    destruct (H _ _ _ ex_async_race_reachable Hscan) as (_ & Hle & _). lia.
Qed.
(** * The queries on the stores of the system *)

(** X15.  [getDishesForScan] returns the rows of the scan, each once, by
    display order; rows with the same display order come in the order of
    the table, which is the order of their creation.  When the rows of the
    scan are in display order in the table already, the query returns them
    as they are. *)
Theorem getDishesForScan_in_index_order w scanId :
  let ds := getDishesForScan scanId w in
  ds ≡ₚ dishes_by_scanId w scanId
  /\ Sorted order_le ds
  /\ (forall k, filter (fun d => Dish.displayOrder d = k) ds
                = filter (fun d => Dish.displayOrder d = k) (dishes_by_scanId w scanId))
  /\ (Sorted order_le (dishes_by_scanId w scanId) -> ds = dishes_by_scanId w scanId).
Proof.
  cbv zeta. unfold getDishesForScan.
  split; [apply dishes_by_scanId_order_Permutation|].
  split; [apply dishes_by_scanId_order_Sorted|].
  split; [intros k; apply dishes_by_scanId_order_stable|].
  apply sorted_by_order.
Qed.

(** X16.  With 0 <= AUTO_IMAGE_LIMIT <= MAX_IMAGES_PER_SCAN, in every state
    of the system the progress that [getScan] reports is at least 0, and at
    least 60 while the scan is generating; it is at most 100 when
    imagesGenerated <= imagesRequested.  [getScanWithDishes], when it
    returns, reports the same scan and progress. *)
Theorem progress_bounds CONFIG isValidProvider s scanId p :
  0 <= AUTO_IMAGE_LIMIT CONFIG <= MAX_IMAGES_PER_SCAN CONFIG ->
  Async.reachable CONFIG isValidProvider s ->
  getScan scanId (Async.store s) = Some p ->
  (Qc_of_Z 0 <= progress p)%Qc
  /\ (MenuScan.status (sp_scan p) = ScanStatus.generating -> (Qc_of_Z 60 <= progress p)%Qc)
  /\ (MenuScan.imagesGenerated (sp_scan p) <= MenuScan.imagesRequested (sp_scan p) ->
      (progress p <= Qc_of_Z 100)%Qc)
  /\ (forall r, getScanWithDishes scanId (Async.store s) = inr (Some r) -> swd_scan r = p).
Proof.
  intros Hcfg Hs Hp. unfold getScan, get_scan in Hp.
  destruct (menuScans (Async.store s) !! scanId) as [scan|] eqn:Hscan; [|discriminate].
  injection Hp as <-. cbn [progress sp_scan].
  destruct (reachable_in_range CONFIG Hcfg isValidProvider s Hs scanId scan Hscan)
    as (Hg & Hr & _).
  destruct (progress_of_bounds scan Hg Hr) as (H0 & H60 & H100).
  split; [exact H0|]. split; [exact H60|]. split; [exact H100|].
  intros r Hr'. unfold getScanWithDishes, get_scan in Hr'. rewrite Hscan in Hr'.
  destruct (group_sections _) as [e|[sections noSection]]; [discriminate|].
  by injection Hr' as <-.
Qed.

Lemma ex_async_one_done_reachable :
  Async.reachable ex_CONFIG ex_isValidProvider ex_async_one_done.
Proof. apply reachable_steps, ex_async_generating_reachable. Qed.

(** One image of three is generated: the progress is 60 + 40/3. *)
Lemma progress_bounds_witness :
  let p := default (Build_ScanWithProgress (new_scan ex_CONFIG 0 "") (Qc_of_Z 0))
             (getScan 1 (Async.store ex_async_one_done)) in
  progress p = (Qc_of_Z 220 / Qc_of_Z 3)%Qc
  /\ (Qc_of_Z 0 <= progress p)%Qc
  /\ (MenuScan.status (sp_scan p) = ScanStatus.generating -> (Qc_of_Z 60 <= progress p)%Qc)
  /\ (MenuScan.imagesGenerated (sp_scan p) <= MenuScan.imagesRequested (sp_scan p) ->
      (progress p <= Qc_of_Z 100)%Qc)
  /\ (forall r, getScanWithDishes 1 (Async.store ex_async_one_done) = inr (Some r) ->
                swd_scan r = p).
Proof.
  split; [apply Qc_is_canon; vm_compute; reflexivity|].
  apply (progress_bounds ex_CONFIG ex_isValidProvider ex_async_one_done 1).
  - vm_compute. split; discriminate.
  - exact ex_async_one_done_reachable.
  - vm_compute. reflexivity.
Defined.

(** X17.  For a stored scan, [getScanWithDishes] throws a TypeError when a
    dish of the scan has a section name that [Object.prototype] defines
    (constructor, toString, __proto__, ...).  Otherwise it returns the scan
    and progress of [getScan], the dishes of [getDishesForScan] and their
    partition: under each section name the dishes with that name, in order,
    a name being a key only when it has a dish; apart, the dishes whose
    section name is absent or empty.  The empty string is never a key. *)
Theorem getScanWithDishes_groups_by_section w scanId scan :
  get_scan w scanId = Some scan ->
  let ds := getDishesForScan scanId w in
  (existsb inherited_name ds = true ->
   getScanWithDishes scanId w
   = inl (ErrorObj "sections[dish.sectionName].push is not a function"))
  /\ (existsb inherited_name ds = false ->
      exists r,
        getScanWithDishes scanId w = inr (Some r)
        /\ Some (swd_scan r) = getScan scanId w
        /\ swd_dishes r = ds
        /\ swd_noSection r = without_section ds
        /\ (forall n, swd_sections r !! n = match in_section n ds with
                                            | [] => None
                                            | l => Some l
                                            end)
        /\ swd_sections r !! "" = None).
Proof.
  intros Hscan ds. pose proof (getScanWithDishes_cases scanId w scan Hscan) as H.
  cbv zeta in H. fold ds in H.
  split; intros Hbad; rewrite Hbad in H; [exact H|].
  destruct H as (sections & E & Hkeys).
  eexists. split; [exact E|]. cbn [swd_scan swd_dishes swd_noSection swd_sections].
  split; [unfold getScan; by rewrite Hscan|].
  split; [done|]. split; [done|]. split; [exact Hkeys|].
  by rewrite Hkeys, in_section_empty.
Qed.

(** The scan of the example menu: two dishes under Mains, one without
    section. *)
Lemma getScanWithDishes_groups_by_section_witness :
  let ds := getDishesForScan 1 ex_generating in
  (existsb inherited_name ds = true ->
   getScanWithDishes 1 ex_generating
   = inl (ErrorObj "sections[dish.sectionName].push is not a function"))
  /\ (existsb inherited_name ds = false ->
      exists r,
        getScanWithDishes 1 ex_generating = inr (Some r)
        /\ Some (swd_scan r) = getScan 1 ex_generating
        /\ swd_dishes r = ds
        /\ swd_noSection r = without_section ds
        /\ (forall n, swd_sections r !! n = match in_section n ds with
                                            | [] => None
                                            | l => Some l
                                            end)
        /\ swd_sections r !! "" = None).
Proof.
  apply (getScanWithDishes_groups_by_section ex_generating 1
           (default (new_scan ex_CONFIG 0 "") (get_scan ex_generating 1))).
  vm_compute. reflexivity.
Defined.

(** A menu with a section called constructor goes through the pipeline, and
    [getScanWithDishes] throws on its scan. *)
Lemma getScanWithDishes_throws_on_inherited_name :
  Async.reachable ex_CONFIG ex_isValidProvider ex_async_inherited
  /\ getScanWithDishes 1 (Async.store ex_async_inherited)
     = inl (ErrorObj "sections[dish.sectionName].push is not a function").
Proof. split; [apply ex_steps_reachable|vm_compute; reflexivity]. Qed.
(** * The pipeline on a reply that a validator rejects *)

Lemma forEach_app {A S} (body : A -> S -> Action S) l1 l2 s w :
  forEach body (l1 ++ l2) s w = bind (forEach body l1 s) (forEach body l2) w.
Proof.
  revert s w. induction l1 as [|x l1 IH]; intros s w; [done|].
  cbn [app forEach]. unfold bind.
  destruct (body x s w) as [[e|s'] w']; [done|]. by rewrite IH.
Qed.

(** Two nested loops are one loop over the items, each with the name of
    its section. *)
Lemma forEach_nested {A N B S} (name : A -> N) (items : A -> list B)
    (body : N -> B -> S -> Action S) l s w :
  forEach (fun a st => forEach (body (name a)) (items a) st) l s w
  = forEach (fun e st => body (fst e) (snd e) st)
      (concat (map (fun a => map (fun b => (name a, b)) (items a)) l)) s w.
Proof.
  revert s w. induction l as [|a l IH]; intros s w; [done|].
  cbn [map concat forEach]. rewrite forEach_app. apply bind_ext; [|exact IH].
  intros w0. by rewrite forEach_map.
Qed.

(** The dish loops on items that the validator accepts. *)
Lemma forEach_create_entries CONFIG now scanId xs k ids w :
  let rows := create_rows CONFIG now scanId (nextId w) k xs in
  forEach (fun x st => create_item CONFIG now scanId (fst x) (snd x) st) xs (k, ids) w
  = (inr (k + Z.of_nat (length xs), ids ++ auto_ids rows),
     mkWorld (deviceUsers w) (menuScans w) (dishes w ++ rows)
       (nextId w + length xs) (scheduled w) (trace w)).
Proof.
  revert k ids w. induction xs as [|x xs IH]; intros k ids w rows.
  - subst rows. simpl. unfold ret. rewrite Z.add_0_r, !app_nil_r, Nat.add_0_r.
    by destruct w.
  - subst rows. cbn [forEach].
    unfold create_item at 1. unfold bind at 1 2, runMutation, createDish.
    assert (Hok : createDish_status_ok
                    (if k <? AUTO_IMAGE_LIMIT CONFIG
                     then ImageStatus.queued else ImageStatus.pending) = true)
      by (by destruct (k <? AUTO_IMAGE_LIMIT CONFIG)).
    simpl cd_imageStatus. rewrite Hok. unfold ret at 1.
    rewrite IH. simpl.
    f_equal.
    + f_equal. f_equal; [lia|].
      unfold auto_ids at 2. simpl List.filter. unfold has_status at 1. simpl.
      destruct (k <? AUTO_IMAGE_LIMIT CONFIG); simpl.
      * by rewrite <- app_assoc.
      * reflexivity.
    + f_equal; [by rewrite <- app_assoc | lia].
Qed.

Lemma createDish_args_rejected scanId e displayOrder imageStatus :
  accepted e = false ->
  createDish_args scanId (fst e) (snd e) displayOrder imageStatus = None.
Proof.
  unfold accepted, createDish_args.
  by destruct (v_string (raw_name (snd e))), (v_optional_string (raw_description (snd e))),
       (v_optional_string (raw_price (snd e))), (v_optional_string (fst e)).
Qed.

Lemma accepted_raw_of_entry x : accepted (raw_of_entry x) = true.
Proof.
  destruct x as [sectionName item]. unfold accepted, raw_of_entry, raw_of_item. cbn.
  by destruct (item_description item), (item_price item), sectionName.
Qed.

(** The dish loops stop at the first item that the validator rejects: the
    dishes of the items before it are in the table. *)
Lemma run_entries_rejected CONFIG now scanId xs bad rest k ids w :
  accepted bad = false ->
  forEach (fun e st => run_task now (Async.create_item CONFIG scanId (fst e) (snd e) st))
    (map raw_of_entry xs ++ bad :: rest) (k, ids) w
  = (inl (ErrorObj "ArgumentValidationError"),
     mkWorld (deviceUsers w) (menuScans w)
       (dishes w ++ create_rows CONFIG now scanId (nextId w) k xs)
       (nextId w + length xs) (scheduled w) (trace w)).
Proof.
  intros Hbad. rewrite forEach_app. unfold bind.
  rewrite forEach_map.
  rewrite (forEach_ext _ (fun x st => create_item CONFIG now scanId (fst x) (snd x) st))
    by (intros x st w0; apply run_create_item).
  rewrite forEach_create_entries. cbn [forEach]. unfold bind.
  unfold Async.create_item at 1. rewrite run_task_bind. unfold bind.
  rewrite run_task_runMutation. unfold runMutation.
  by rewrite (createDish_args_rejected _ _ _ _ Hbad).
Qed.

Lemma count_dishes_entries parsed :
  Async.count_dishes (default [] (raw_sections parsed)) (raw_itemsFallback parsed)
  = Z.of_nat (length (raw_entries parsed)).
Proof.
  unfold Async.count_dishes, raw_entries. rewrite length_app.
  assert (H : forall sections acc,
             fold_left (fun total section =>
                          total + Z.of_nat (length (raw_items section))) sections acc
             = acc + Z.of_nat (length (concat (map (fun section =>
                   map (fun item => (raw_section_name section, item))
                     (raw_items section)) sections)))).
  { induction sections as [|s ss IH]; intros acc; simpl; [lia|].
    rewrite IH, length_app, length_map. lia. }
  rewrite H. destruct (raw_itemsFallback parsed); simpl; rewrite ?length_map; lia.
Qed.

Lemma run_task_bind_bind {A B C} now (t1 : Task A) (t2 : A -> Task B) (k : B -> Task C) w :
  run_task now (task_bind t1 (fun a => task_bind (t2 a) k)) w
  = bind (bind (run_task now t1) (fun a => run_task now (t2 a)))
      (fun b => run_task now (k b)) w.
Proof.
  rewrite run_task_bind. unfold bind.
  destruct (run_task now t1 w) as [[e|a] w']; [done|].
  rewrite run_task_bind. reflexivity.
Qed.

(** The two dish loops of the pipeline are one loop over the entries. *)
Lemma run_dish_loops CONFIG now scanId parsed st w :
  bind (run_task now
          (task_forEach
             (fun section st =>
                task_forEach (Async.create_item CONFIG scanId (raw_section_name section))
                  (raw_items section) st)
             (default [] (raw_sections parsed)) st))
    (fun st => run_task now
                 match raw_itemsFallback parsed with
                 | Some items => task_forEach (Async.create_item CONFIG scanId JAbsent) items st
                 | None => task_ret st
                 end) w
  = forEach (fun e st => run_task now (Async.create_item CONFIG scanId (fst e) (snd e) st))
      (raw_entries parsed) st w.
Proof.
  unfold raw_entries. rewrite forEach_app. apply bind_ext.
  - intros w0. rewrite run_task_forEach.
    rewrite <- (forEach_nested raw_section_name raw_items
                  (fun n item st => run_task now (Async.create_item CONFIG scanId n item st))).
    apply forEach_ext. intros section st' w1. apply run_task_forEach.
  - intros st' w0. destruct (raw_itemsFallback parsed) as [items|]; [|done].
    by rewrite run_task_forEach, forEach_map.
Qed.

(** X14.  The pipeline, run with no other transaction in between, on a reply
    in which the validator of [createDish] rejects an item (its name is not
    a string, or its description, price or section name is neither a string
    nor absent): the action does not throw; the dishes of the items before
    the rejected one have been created, numbered from 0, and stay in the
    table; the scan is failed, with the validation error as errorMessage and
    the number of items of the reply as totalDishes, while dishesExtracted,
    imagesGenerated and imagesRequested are as before; no job is
    scheduled. *)
Theorem processScanPipeline_rejected_item
    CONFIG now scanId provider parsed w scan imageUrl restaurantName xs bad rest :
  menuScans w !! scanId = Some scan ->
  truthy_string (MenuScan.imageUrl scan) = Some imageUrl ->
  v_optional_string (raw_restaurantName parsed) = Some restaurantName ->
  raw_entries parsed = map raw_of_entry xs ++ bad :: rest ->
  accepted bad = false ->
  exists s',
    run_task now (Async.processScanPipeline CONFIG scanId provider (inr parsed)) w
    = (inr tt,
       mkWorld (deviceUsers w) (<[scanId := s']> (menuScans w))
         (dishes w ++ imap (spec_new_dish CONFIG now scanId (nextId w)) xs)
         (nextId w + length xs) (scheduled w)
         (trace w ++ [EvScanStatus scanId (MenuScan.status scan) ScanStatus.processing;
                      EvScanStatus scanId ScanStatus.processing ScanStatus.extracting;
                      EvScanStatus scanId ScanStatus.extracting ScanStatus.failed]))
    /\ MenuScan.status s' = ScanStatus.failed
    /\ MenuScan.errorMessage s' = Some "ArgumentValidationError"
    /\ MenuScan.totalDishes s' = Z.of_nat (length (raw_entries parsed))
    /\ MenuScan.dishesExtracted s' = MenuScan.dishesExtracted scan
    /\ MenuScan.imagesGenerated s' = MenuScan.imagesGenerated scan
    /\ MenuScan.imagesRequested s' = MenuScan.imagesRequested scan.
Proof.
  intros Hs Hurl Hrn Hentries Hbad.
  unfold Async.processScanPipeline.
  rewrite run_task_try_catch. unfold try_catch.
  rewrite run_task_bind. unfold bind at 1.
  rewrite run_task_runQuery. unfold runQuery, getScan, get_scan. rewrite Hs, Hurl.
  destruct (updateScanStatus_spec now scanId ScanStatus.processing
              (Some "Extracting menu items with AI...") None w scan Hs)
    as (s1 & E1 & Hst1 & _ & Hem1 & _ & Hc1).
  rewrite run_task_bind. unfold bind at 1.
  rewrite run_task_runMutation. unfold runMutation at 1. rewrite E1.
  set (w1 := with_trace _ _).
  assert (Hs1 : menuScans w1 !! scanId = Some s1) by apply lookup_insert_eq.
  cbn [task_bind].
  destruct (updateScanStatus_spec now scanId ScanStatus.extracting
              (Some "Creating dish records...") None w1 s1 Hs1)
    as (s2 & E2 & Hst2 & _ & Hem2 & _ & Hc2).
  rewrite run_task_bind. unfold bind at 1.
  rewrite run_task_runMutation. unfold runMutation at 1. rewrite E2.
  set (w2 := with_trace _ _).
  assert (Hs2 : menuScans w2 !! scanId = Some s2) by apply lookup_insert_eq.
  rewrite run_task_bind. unfold bind at 1.
  rewrite run_task_runMutation. unfold runMutation at 1. rewrite Hrn. cbn [validated].
  match goal with
  | |- context [updateScanProgress scanId ?args w2] =>
      destruct (updateScanProgress_spec scanId args w2 s2 Hs2)
        as (s3 & E3 & Hst3 & _ & Hem3 & _ & Htd3 & Hde3 & Hig3 & Hir3 & _ & _)
  end.
  rewrite E3.
  set (w3 := set_menuScans _ w2).
  assert (Hs3 : menuScans w3 !! scanId = Some s3) by apply lookup_insert_eq.
  rewrite run_task_bind_bind. unfold bind at 1.
  rewrite run_dish_loops, Hentries, run_entries_rejected by exact Hbad.
  set (w4 := mkWorld _ _ _ _ _ _).
  assert (Hs4 : menuScans w4 !! scanId = Some s3) by exact Hs3.
  destruct (updateScanStatus_spec now scanId ScanStatus.failed None
              (Some (error_message (ErrorObj "ArgumentValidationError"))) w4 s3 Hs4)
    as (s5 & E5 & Hst5 & _ & Hem5 & _ & Hc5).
  cbv iota beta. rewrite run_task_runMutation. unfold runMutation. rewrite E5.
  cbn in Htd3, Hde3, Hig3, Hir3.
  injection Hc1 as Htd1 Hde1 Hig1 Hir1 _ _.
  injection Hc2 as Htd2 Hde2 Hig2 Hir2 _ _.
  injection Hc5 as Htd5 Hde5 Hig5 Hir5 _ _.
  exists s5. split.
  - f_equal. subst w4 w3 w2 w1. apply world_eq; world_projs; try reflexivity.
    + by rewrite !insert_insert_eq.
    + by rewrite create_rows_imap.
    + by rewrite Hst3, Hst2, Hst1, <- !app_assoc.
  - split; [exact Hst5|]. split; [exact Hem5|].
    rewrite <- Hentries, <- count_dishes_entries. repeat split; congruence.
Qed.

(** The second item of the reply has [null] for a name: the first dish is
    created, and the scan is failed with four dishes announced. *)
Lemma processScanPipeline_rejected_item_witness :
  let w := Async.store ex_async_started in
  let scan := default (new_scan ex_CONFIG 0 "") (menuScans w !! 1%nat) in
  let xs := [(Some "Mains", Build_MenuItem "Soup" (Some "Onion soup") (Some "$7"))] in
  exists s',
    run_task 102 (Async.processScanPipeline ex_CONFIG 1 "openai" (inr ex_raw_rejected)) w
    = (inr tt,
       mkWorld (deviceUsers w) (<[1%nat := s']> (menuScans w))
         (dishes w ++ imap (spec_new_dish ex_CONFIG 102 1 (nextId w)) xs)
         (nextId w + length xs) (scheduled w)
         (trace w ++ [EvScanStatus 1 (MenuScan.status scan) ScanStatus.processing;
                      EvScanStatus 1 ScanStatus.processing ScanStatus.extracting;
                      EvScanStatus 1 ScanStatus.extracting ScanStatus.failed]))
    /\ MenuScan.status s' = ScanStatus.failed
    /\ MenuScan.errorMessage s' = Some "ArgumentValidationError"
    /\ MenuScan.totalDishes s' = Z.of_nat (length (raw_entries ex_raw_rejected))
    /\ MenuScan.dishesExtracted s' = MenuScan.dishesExtracted scan
    /\ MenuScan.imagesGenerated s' = MenuScan.imagesGenerated scan
    /\ MenuScan.imagesRequested s' = MenuScan.imagesRequested scan.
Proof.
  apply (processScanPipeline_rejected_item ex_CONFIG 102 1 "openai" ex_raw_rejected
           (Async.store ex_async_started)
           (default (new_scan ex_CONFIG 0 "") (menuScans (Async.store ex_async_started) !! 1%nat))
           "https://store/7" (Some "Chez Rocq")
           [(Some "Mains", Build_MenuItem "Soup" (Some "Onion soup") (Some "$7"))]
           (JString "Mains", Build_RawItem JOther JAbsent JAbsent)
           [(JString "Mains", Build_RawItem (JString "Salad") JAbsent JAbsent);
            (JAbsent, Build_RawItem (JString "Tea") JAbsent (JString "$2"))]).
  - vm_compute. reflexivity.
  - vm_compute. reflexivity.
  - reflexivity.
  - reflexivity.
  - reflexivity.
Defined.
